(** * A shallow embedding of the routing server

    The development follows the C sources file by file:
    - [graph.h], [graph.c]: the graph store ([Edge], [Node], [Graph],
      [graph_init], [graph_add_edge], [get_edge_weight], [heuristic]);
    - [min_heap.c]: the indexed binary min-heap;
    - [routing.c]: the A* search [find_route_a_star_path];
    - [server.c]: the protocol layer ([trim_crlf], the two [sscanf]
      patterns of [client_thread_main], [build_route_response],
      [apply_update]).

    Conventions of the embedding.
    - A C [double] is an exact rational ([Q]); [DBL_MAX] is the rational
      value of the largest finite double.  Rounding, infinities and NaN
      are outside the model.  Comparisons of doubles are the boolean
      comparisons of [Q]; equality of doubles is [Qeq].
    - A C [int] is a [Z] in the range of [int].  Where a command can
      take a value out of the range, in the [%d] conversions of
      [sscanf] and in the increment of [observation_count], the low 32
      bits are kept, as the compiled program does ([to_int]).  The
      loader counts the rows of a file without a bound: a file of 2^31
      rows or more is outside the model.
    - An array is a list, read with [!!] and written with [<[i:=x]>].
      Functions return [option]: [None] stands for [exit(1)] or for an
      access outside an array.
    - [sqrt] comes from libm; the functions that need it take it as a
      parameter. *)

From Stdlib Require Import ZArith QArith Qminmax Qabs Lqa Lia.
From Stdlib Require Import List String Ascii Bool DecimalString.
From stdpp Require Import base option list.

Open Scope Z_scope.

(** ** Doubles *)

(** The type is written [double] as in the sources. *)
Abbreviation double := Q (only parsing).

Definition DBL_MAX : double := inject_Z (2 ^ 1024 - 2 ^ 971).

(** [a < b], [a <= b], [a == b] and [a != b] on doubles. *)
Definition dlt (a b : double) : bool := negb (Qle_bool b a).
Definition dle (a b : double) : bool := Qle_bool a b.
Definition deq (a b : double) : bool := Qeq_bool a b.

(** ** Integers *)

(** The range of [int], and the [int] that holds the low 32 bits of an
    integer: what a conversion to [int] and the machine's addition
    leave of a value outside the range. *)
Definition INT_MAX : Z := 2147483647.
Definition INT_MIN : Z := -2147483648.

Definition to_int (z : Z) : Z := (z - INT_MIN) mod 2 ^ 32 + INT_MIN.

(** ** graph.h *)

Definition MAX_NODES : Z := 100000.

Record Edge : Type := mkEdge {
  edge_id : Z;
  from_node : Z;
  to_node : Z;
  base_length : double;
  base_speed_limit : double;
  current_travel_time : double;
  ema_travel_time : double;
  observation_count : Z
}.

(** The linked list [EdgeNode* out_edges] is the list of its edge ids,
    head first. *)
Record Node : Type := mkNode {
  node_id : Z;
  x : double;
  y : double;
  out_edges : list Z
}.

Record Graph : Type := mkGraph {
  nodes : list Node;
  edges : list Edge;
  num_nodes : Z;
  num_edges : Z
}.

(** The arrays have the sizes the counters announce. *)
Definition graph_wf (g : Graph) : Prop :=
  Z.of_nat (length (nodes g)) = Z.max 0 (num_nodes g) /\
  Z.of_nat (length (edges g)) = Z.max 0 (num_edges g).

(** ** graph.c *)

(** [graph_init]; [junk] is the content [malloc] leaves in the edge
    table. *)
Definition graph_init (n m : Z) (junk : Edge) : option Graph :=
  if MAX_NODES <? n then None
  else Some {|
    nodes := map (fun i => mkNode (Z.of_nat i) 0%Q 0%Q []) (seq 0 (Z.to_nat n));
    edges := replicate (Z.to_nat m) junk;
    num_nodes := n;
    num_edges := m |}.

Definition set_nodes (g : Graph) (ns : list Node) : Graph :=
  {| nodes := ns; edges := edges g;
     num_nodes := num_nodes g; num_edges := num_edges g |}.

Definition set_edges (g : Graph) (es : list Edge) : Graph :=
  {| nodes := nodes g; edges := es;
     num_nodes := num_nodes g; num_edges := num_edges g |}.

Definition graph_set_node_coordinates (g : Graph) (id : Z) (cx cy : double)
  : option Graph :=
  if (id <? 0) || (id >=? num_nodes g) then None
  else
    n ← nodes g !! Z.to_nat id;
    Some (set_nodes g
      (<[Z.to_nat id := mkNode (node_id n) cx cy (out_edges n)]> (nodes g))).

Definition graph_add_edge (g : Graph) (eid from to : Z)
    (len speed_limit : double) : option Graph :=
  if (eid <? 0) || (eid >=? num_edges g) then None
  else if (from <? 0) || (from >=? num_nodes g)
          || (to <? 0) || (to >=? num_nodes g) then None
  else if dle speed_limit 0%Q then None
  else
    _ ← edges g !! Z.to_nat eid;
    n ← nodes g !! Z.to_nat from;
    let t := (len / speed_limit)%Q in
    let e := mkEdge eid from to len speed_limit t t 0 in
    Some {|
      nodes := <[Z.to_nat from :=
                   mkNode (node_id n) (x n) (y n) (eid :: out_edges n)]> (nodes g);
      edges := <[Z.to_nat eid := e]> (edges g);
      num_nodes := num_nodes g;
      num_edges := num_edges g |}.

Definition get_edge_weight (g : Graph) (eid : Z) : option double :=
  if (eid <? 0) || (eid >=? num_edges g) then None
  else current_travel_time <$> edges g !! Z.to_nat eid.

(** The loop of [heuristic] that finds the largest speed limit among
    the first [num_edges] edges, starting from [0.0]. *)
Definition max_speed_step (acc : double) (e : Edge) : double :=
  if dlt acc (base_speed_limit e) then base_speed_limit e else acc.

Definition max_speed (g : Graph) : double :=
  fold_left max_speed_step (take (Z.to_nat (num_edges g)) (edges g)) 0%Q.

Section Heuristic.
Variable sqrt : double -> double.

Definition heuristic (g : Graph) (from to : Z) : option double :=
  if (from <? 0) || (from >=? num_nodes g)
     || (to <? 0) || (to >=? num_nodes g) then None
  else
    a ← nodes g !! Z.to_nat from;
    b ← nodes g !! Z.to_nat to;
    let dx := (x a - x b)%Q in
    let dy := (y a - y b)%Q in
    let straight_dist := sqrt (dx * dx + dy * dy)%Q in
    let ms := max_speed g in
    if dlt 0%Q ms then Some (straight_dist / ms)%Q
    else Some straight_dist.
End Heuristic.

(** ** server.c: the traffic update *)

Definition min_speed : double := (1 # 1000000)%Q.

(** Every reply is one line. *)
Definition nl : string := String "010" EmptyString.
Definition reply (s : string) : string := (s ++ nl)%string.

Definition ERR_BAD_EDGE : string := reply "ERR BAD_EDGE".
Definition ERR_BAD_SPEED : string := reply "ERR BAD_SPEED".
Definition ACK : string := reply "ACK".

Definition apply_update (g : Graph) (eid : Z) (speed : double)
  : option (Graph * string) :=
  if (eid <? 0) || (eid >=? num_edges g) then Some (g, ERR_BAD_EDGE)
  else if dle speed 0%Q then Some (g, ERR_BAD_SPEED)
  else
    let speed := if dlt speed min_speed then min_speed else speed in
    e ← edges g !! Z.to_nat eid;
    let alpha : double := if observation_count e =? 0 then 1%Q else (2 # 10)%Q in
    let measured := (base_length e / speed)%Q in
    let ema := (alpha * measured + (1 - alpha) * ema_travel_time e)%Q in
    let e' := mkEdge (edge_id e) (from_node e) (to_node e)
                (base_length e) (base_speed_limit e)
                ema ema (to_int (observation_count e + 1)) in
    Some (set_edges g (<[Z.to_nat eid := e']> (edges g)), ACK).

(** ** min_heap.c *)

(** A write [a[i] = v] into an array; outside the array it is undefined
    in C. *)
Definition store {A : Type} (l : list A) (i : nat) (v : A) : option (list A) :=
  if (i <? length l)%nat then Some (<[i := v]> l) else None.

(** [node_id] of the C struct is [hnode_id] here, since [Node] already
    has a field of that name.  Ids and heap indices are never negative
    and are natural numbers. *)
Record MinHeapNode : Type := mkMinHeapNode {
  hnode_id : nat;
  dist : double
}.

(** [array] holds the nodes themselves.  In C it holds pointers, and
    after [extractMin] the slot [array[size]] still points to the node
    that moved to the root; slots at or beyond [size] are never read. *)
Record MinHeap : Type := mkMinHeap {
  capacity : nat;
  size : nat;
  pos : list nat;
  array : list MinHeapNode
}.

Definition newMinHeapNode (id : nat) (d : double) : MinHeapNode :=
  mkMinHeapNode id d.

(** [swapMinHeapNode(&array[i], &array[j])]. *)
Definition swapMinHeapNode (a : list MinHeapNode) (i j : nat)
  : option (list MinHeapNode) :=
  ai ← a !! i;
  aj ← a !! j;
  a1 ← store a i aj;
  store a1 j ai.

(** The smaller of [array[child]] and [array[smallest]], when [child]
    is inside the heap. *)
Definition pick_smaller (h : MinHeap) (child smallest : nat) : option nat :=
  if (child <? size h)%nat then
    c ← array h !! child;
    s ← array h !! smallest;
    Some (if dlt (dist c) (dist s) then child else smallest)
  else Some smallest.

(** [minHeapify]; the recursion goes down the tree, [fuel] bounds its
    depth. *)
Fixpoint minHeapify_rec (fuel : nat) (h : MinHeap) (idx : nat)
  : option MinHeap :=
  match fuel with
  | O => None
  | S fuel' =>
    let left := (2 * idx + 1)%nat in
    let right := (2 * idx + 2)%nat in
    smallest ← pick_smaller h left idx;
    smallest ← pick_smaller h right smallest;
    if negb (smallest =? idx)%nat then
      smallestNode ← array h !! smallest;
      idxNode ← array h !! idx;
      pos1 ← store (pos h) (hnode_id smallestNode) idx;
      pos2 ← store pos1 (hnode_id idxNode) smallest;
      array1 ← swapMinHeapNode (array h) smallest idx;
      minHeapify_rec fuel' (mkMinHeap (capacity h) (size h) pos2 array1) smallest
    else Some h
  end.

Definition minHeapify (h : MinHeap) (idx : nat) : option MinHeap :=
  minHeapify_rec (S (size h)) h idx.

Definition isEmpty (h : MinHeap) : bool := (size h =? 0)%nat.

(** [extractMin]; the first component is [None] for the [NULL] result. *)
Definition extractMin (h : MinHeap) : option (option MinHeapNode * MinHeap) :=
  if isEmpty h then Some (None, h)
  else
    root ← array h !! 0%nat;
    lastNode ← array h !! (size h - 1)%nat;
    array1 ← store (array h) 0%nat lastNode;
    pos1 ← store (pos h) (hnode_id root) (size h - 1)%nat;
    pos2 ← store pos1 (hnode_id lastNode) 0%nat;
    h' ← minHeapify (mkMinHeap (capacity h) (size h - 1)%nat pos2 array1) 0%nat;
    Some (Some root, h').

(** The [while] loop of [decreaseKey]. *)
Fixpoint sift_up (fuel : nat) (h : MinHeap) (i : nat) : option MinHeap :=
  match fuel with
  | O => None
  | S fuel' =>
    if (i =? 0)%nat then Some h
    else
      let p := ((i - 1) / 2)%nat in
      ai ← array h !! i;
      ap ← array h !! p;
      if dlt (dist ai) (dist ap) then
        pos1 ← store (pos h) (hnode_id ai) p;
        pos2 ← store pos1 (hnode_id ap) i;
        array1 ← swapMinHeapNode (array h) i p;
        sift_up fuel' (mkMinHeap (capacity h) (size h) pos2 array1) p
      else Some h
  end.

Definition decreaseKey (h : MinHeap) (id : nat) (d : double) : option MinHeap :=
  i ← pos h !! id;
  ai ← array h !! i;
  let array1 := <[i := mkMinHeapNode (hnode_id ai) d]> (array h) in
  sift_up (S i) (mkMinHeap (capacity h) (size h) (pos h) array1) i.

Definition isInMinHeap (h : MinHeap) (id : nat) : option bool :=
  p ← pos h !! id;
  Some (p <? size h)%nat.

(** ** routing.c *)

(** [find_edge_id]: the first edge of [from]'s adjacency list that is
    inside the edge table and leads to [to]; [-1] if there is none. *)
Fixpoint find_edge_id_loop (g : Graph) (cur : list Z) (to : Z) : option Z :=
  match cur with
  | [] => Some (-1)
  | eid :: next =>
    if (eid >=? 0) && (eid <? num_edges g) then
      e ← edges g !! Z.to_nat eid;
      if to_node e =? to then Some eid else find_edge_id_loop g next to
    else find_edge_id_loop g next to
  end.

Definition find_edge_id (g : Graph) (from to : Z) : option Z :=
  if from <? 0 then None
  else
    n ← nodes g !! Z.to_nat from;
    find_edge_id_loop g (out_edges n) to.

(** The local arrays of the search and its heap. *)
Record AStar : Type := mkAStar {
  g_score : list double;
  f_score : list double;
  parent : list Z;
  minHeap : MinHeap
}.

(** The outcome of [find_route_a_star_path]: [Route] is return code 0
    together with what was written through [out_cost], [out_nodes] and
    [out_edges]; [RouteError rc] is a non-zero return code.  The caller's
    pointers are never [NULL] and [malloc] succeeds, so the codes 10, 12,
    13 and 14 do not occur. *)
Inductive route_result : Type :=
| Route (cost : double) (node_path edge_path : list Z)
| RouteError (rc : Z).

Section Routing.
Variable sqrt : double -> double.
Variable graph : Graph.
Variable start_id target_id : Z.

(** The state after the initialising [for] loop, for [V] nodes. *)
Definition astar_init (V : nat) : AStar :=
  mkAStar (replicate V DBL_MAX) (replicate V DBL_MAX) (replicate V (-1))
    (mkMinHeap V V (seq 0 V)
       (map (fun i => newMinHeapNode i DBL_MAX) (seq 0 V))).

(** The body of the loop over the adjacency list of [u], for the list
    cell that holds [eid]. *)
Definition relax_edge (u : nat) (st : AStar) (eid : Z) : option AStar :=
  if (eid <? 0) || (eid >=? num_edges graph) then Some st
  else
    e ← edges graph !! Z.to_nat eid;
    let v := to_node e in
    w ← get_edge_weight graph eid;
    if (v <? 0) || (v >=? num_nodes graph) then Some st
    else
      gu ← g_score st !! u;
      if negb (deq gu DBL_MAX) then
        let tentative_g := (gu + w)%Q in
        gv ← g_score st !! Z.to_nat v;
        if dlt tentative_g gv then
          g1 ← store (g_score st) (Z.to_nat v) tentative_g;
          h ← heuristic sqrt graph v target_id;
          f1 ← store (f_score st) (Z.to_nat v) (tentative_g + h)%Q;
          p1 ← store (parent st) (Z.to_nat v) (Z.of_nat u);
          inheap ← isInMinHeap (minHeap st) (Z.to_nat v);
          if (inheap : bool) then
            fv ← f1 !! Z.to_nat v;
            hp ← decreaseKey (minHeap st) (Z.to_nat v) fv;
            Some (mkAStar g1 f1 p1 hp)
          else Some (mkAStar g1 f1 p1 (minHeap st))
        else Some st
      else Some st.

Fixpoint relax_edges (u : nat) (st : AStar) (cur : list Z) : option AStar :=
  match cur with
  | [] => Some st
  | eid :: next => st' ← relax_edge u st eid; relax_edges u st' next
  end.

(** The main [while] loop; it leaves with [found] set or not.  Every
    turn takes one node out of the heap, so [fuel] above the heap
    size is never used up. *)
Fixpoint astar_loop (fuel : nat) (st : AStar) : option (bool * AStar) :=
  match fuel with
  | O => None
  | S fuel' =>
    if isEmpty (minHeap st) then Some (false, st)
    else
      '(minNode, hp) ← extractMin (minHeap st);
      let st1 := mkAStar (g_score st) (f_score st) (parent st) hp in
      match minNode return option (bool * AStar) with
      | None => Some (false, st1)
      | Some mn =>
        let u := hnode_id mn in
        let u_f := dist mn in
        if deq u_f DBL_MAX then Some (false, st1)
        else if Z.of_nat u =? target_id then Some (true, st1)
        else
          n ← nodes graph !! u;
          st2 ← relax_edges u st1 (out_edges n);
          astar_loop fuel' st2
      end
  end.

(** [for (v = target_id; v != -1; v = parent[v]) node_path[path_len++] = v];
    [room] is the number of free slots left in [node_path]. *)
Fixpoint parent_chain (room : nat) (par : list Z) (v : Z) : option (list Z) :=
  if v =? -1 then Some []
  else
    match room with
    | O => None
    | S room' =>
      if v <? 0 then None
      else
        p ← par !! Z.to_nat v;
        rest ← parent_chain room' par p;
        Some (v :: rest)
    end.

(** The loop that turns the node path into edge ids; [edge_count] is
    the number of edges written so far. *)
Fixpoint path_to_edges (max_edges : Z) (node_path : list Z) (edge_count : Z)
  : option (Z + list Z) :=
  match node_path with
  | from :: ((to :: _) as rest) =>
    eid ← find_edge_id graph from to;
    if eid <? 0 then Some (inl 15)
    else if edge_count >=? max_edges then Some (inl 16)
    else
      r ← path_to_edges max_edges rest (edge_count + 1);
      Some (match r with
            | inl rc => inl rc
            | inr es => inr (eid :: es)
            end)
  | _ => Some (inr [])
  end.

Definition find_route_a_star_path (max_edges max_nodes : Z)
  : option route_result :=
  if (start_id <? 0) || (start_id >=? num_nodes graph)
     || (target_id <? 0) || (target_id >=? num_nodes graph)
  then Some (RouteError 11)
  else
    let V := Z.to_nat (num_nodes graph) in
    let st0 := astar_init V in
    g1 ← store (g_score st0) (Z.to_nat start_id) 0%Q;
    h ← heuristic sqrt graph start_id target_id;
    f1 ← store (f_score st0) (Z.to_nat start_id) h;
    fs ← f1 !! Z.to_nat start_id;
    hp ← decreaseKey (minHeap st0) (Z.to_nat start_id) fs;
    '(found, st) ← astar_loop (S V) (mkAStar g1 f1 (parent st0) hp);
    if negb found then Some (RouteError 1)
    else
      rev_path ← parent_chain V (parent st) target_id;
      let node_path := rev rev_path in
      let path_len := Z.of_nat (length node_path) in
      if path_len >? max_nodes then Some (RouteError 17)
      else
        r ← path_to_edges max_edges node_path 0;
        match r with
        | inl rc => Some (RouteError rc)
        | inr edge_path =>
          cost ← g_score st !! Z.to_nat target_id;
          Some (Route cost node_path edge_path)
        end.
End Routing.

(** ** server.c: formatting the route reply *)

Definition ERR_BAD_NODES : string := reply "ERR BAD_NODES".
Definition ERR_NO_ROUTE : string := reply "ERR NO_ROUTE".
Definition ERR_ROUTE_FAIL : string := reply "ERR ROUTE_FAIL".
Definition ERR_EMPTY : string := reply "ERR EMPTY".
Definition ERR_UNKNOWN_CMD : string := reply "ERR UNKNOWN_CMD".

(** [printf]'s [%d]. *)
Definition fmt_d (z : Z) : string := DecimalString.NilZero.string_of_int (Z.to_int z).

(** The nearest integer to a non-negative rational, ties to even. *)
Definition round_half_even (q : Q) : Z :=
  let n := Qnum q in
  let d := Z.pos (Qden q) in
  let fl := n / d in
  let r2 := 2 * (n mod d) in
  if r2 <? d then fl
  else if d <? r2 then fl + 1
  else if Z.even fl then fl else fl + 1.

Definition digit_char (d : Z) : ascii := ascii_of_nat (48 + Z.to_nat d).

(** [printf]'s [%.3f]. *)
Definition fmt_3f (q : double) : string :=
  let m := round_half_even (Qabs q * 1000)%Q in
  let r := m mod 1000 in
  ((if dlt q 0%Q then "-" else EmptyString)
   ++ fmt_d (m / 1000) ++ "."
   ++ String (digit_char (r / 100))
        (String (digit_char (r / 10 mod 10))
           (String (digit_char (r mod 10)) EmptyString)))%string.

(** The first [n] characters of [s]. *)
Fixpoint string_take (n : nat) (s : string) : string :=
  match n, s with
  | S n', String c s' => String c (string_take n' s')
  | _, _ => EmptyString
  end.

(** [n += snprintf(resp + n, buf_sz - n, piece)] for [n <= buf_sz]: at
    most [buf_sz - n - 1] characters are written, and the full length
    of [piece] is added to [n]. *)
Definition snprintf (buf_sz : Z) (st : string * Z) (piece : string)
  : string * Z :=
  let '(resp, n) := st in
  ((resp ++ string_take (Z.to_nat (buf_sz - n - 1)) piece)%string,
   n + Z.of_nat (String.length piece)).

(** [for (i = 0; i < count && n > 0 && (size_t)n < buf_sz; i++)
       n += snprintf(resp + n, buf_sz - n, " %d", ids[i])]. *)
Fixpoint print_ids (buf_sz : Z) (ids : list Z) (st : string * Z)
  : string * Z :=
  match ids with
  | [] => st
  | id :: rest =>
    if (snd st >? 0) && (snd st <? buf_sz)
    then print_ids buf_sz rest (snprintf buf_sz st (" " ++ fmt_d id)%string)
    else st
  end.

Section Server.
Variable sqrt : double -> double.

Definition build_route_response (g : Graph) (src dst : Z) : option string :=
  if (src <? 0) || (src >=? num_nodes g)
     || (dst <? 0) || (dst >=? num_nodes g)
  then Some ERR_BAD_NODES
  else
    let max_edges := if num_nodes g >? 0 then num_nodes g else 1 in
    r ← find_route_a_star_path sqrt g src dst max_edges (num_nodes g);
    match r with
    | RouteError 1 => Some ERR_NO_ROUTE
    | RouteError _ => Some ERR_ROUTE_FAIL
    | Route cost path_nodes path_edges =>
      let edge_count := Z.of_nat (length path_edges) in
      let node_count := Z.of_nat (length path_nodes) in
      if (edge_count <? 0) || (edge_count >? max_edges) then Some ERR_ROUTE_FAIL
      else if (node_count <? 0) || (node_count >? num_nodes g)
      then Some ERR_ROUTE_FAIL
      else
        let buf_sz := 64 + edge_count * 16 + node_count * 16 in
        let st := snprintf buf_sz (EmptyString, 0)
                    ("ROUTE2 " ++ fmt_3f cost ++ " " ++ fmt_d node_count)%string in
        let st := print_ids buf_sz path_nodes st in
        (* the next call is not guarded: beyond the buffer it is undefined *)
        if snd st >? buf_sz then None
        else
          let st := snprintf buf_sz st (" " ++ fmt_d edge_count)%string in
          let st := print_ids buf_sz path_edges st in
          if (snd st >? 0) && (snd st <? buf_sz)
          then Some (fst (snprintf buf_sz st nl))
          else Some ERR_ROUTE_FAIL
    end.
End Server.

(** ** server.c: reading a command *)

(** [trim_crlf]: drop every trailing carriage return and line feed. *)
Fixpoint trim_crlf (s : string) : string :=
  match s with
  | EmptyString => EmptyString
  | String c s' =>
    match trim_crlf s' with
    | EmptyString =>
      if (Ascii.eqb c "010" || Ascii.eqb c "013")%bool then EmptyString
      else String c EmptyString
    | t => String c t
    end
  end.

(** libc's [isspace] and [isdigit] in the C locale. *)
Definition isspace (c : ascii) : bool :=
  let n := nat_of_ascii c in ((n =? 32) || ((9 <=? n) && (n <=? 13)))%nat.

Definition isdigit (c : ascii) : bool :=
  let n := nat_of_ascii c in ((48 <=? n) && (n <=? 57))%nat.

Definition digit_val (c : ascii) : Z := Z.of_nat (nat_of_ascii c) - 48.

(** White space in a [scanf] format, and the white space a conversion
    skips first. *)
Fixpoint skip_ws (s : string) : string :=
  match s with
  | String c s' => if isspace c then skip_ws s' else s
  | EmptyString => s
  end.

(** Ordinary characters of a [scanf] format have to match the input. *)
Fixpoint match_literal (lit s : string) : option string :=
  match lit, s with
  | EmptyString, _ => Some s
  | String a lit', String b s' =>
    if Ascii.eqb a b then match_literal lit' s' else None
  | String _ _, EmptyString => None
  end.

(** The longest run of digits at the front of [s], read in base ten
    onto [acc]; also the number of digits read. *)
Fixpoint scan_digits (s : string) (acc : Z) (count : nat) : Z * nat * string :=
  match s with
  | String c s' =>
    if isdigit c then scan_digits s' (10 * acc + digit_val c) (S count)
    else (acc, count, s)
  | EmptyString => (acc, count, s)
  end.

Definition scan_sign (s : string) : bool * string :=
  match s with
  | String "-" s' => (true, s')
  | String "+" s' => (false, s')
  | _ => (false, s)
  end.

(** The C library converts the digits of [%d] with [strtol], which
    stops at the ends of the range of [long], and stores the [long] as
    an [int]. *)
Definition LONG_MAX : Z := 9223372036854775807.

Definition strtol_value (v : Z) : Z := Z.max (- LONG_MAX - 1) (Z.min LONG_MAX v).

Definition scanf_int (v : Z) : Z := to_int (strtol_value v).

(** [scanf]'s [%d]: the value and the rest of the input; [None] when no
    integer is found. *)
Definition scan_d (s : string) : option (Z * string) :=
  let '(neg, s1) := scan_sign (skip_ws s) in
  let '(v, count, rest) := scan_digits s1 0 0 in
  if (count =? 0)%nat then None
  else Some (scanf_int (if neg then - v else v), rest).

(** [sscanf(line, "REQ %d %d", &src, &dst) == 2]. *)
Definition sscanf_REQ (line : string) : option (Z * Z) :=
  rest ← match_literal "REQ" line;
  '(src, rest) ← scan_d (skip_ws rest);
  '(dst, _) ← scan_d (skip_ws rest);
  Some (src, dst).

(** The exponent part of a decimal floating constant: [e] or [E], an
    optional sign and digits.  The C library reads the letter and the
    sign also when no digit follows them; the exponent is then 0. *)
Definition scan_exponent (s : string) : Z * string :=
  match s with
  | String c s' =>
    if (Ascii.eqb c "e" || Ascii.eqb c "E")%bool then
      let '(neg, s1) := scan_sign s' in
      let '(v, count, rest) := scan_digits s1 0 0 in
      if (count =? 0)%nat then (0, rest)
      else (if neg then - v else v, rest)
    else (0, s)
  | EmptyString => (0, s)
  end.

Definition pow10 (e : Z) : Q :=
  if e <? 0 then (1 # Z.to_pos (10 ^ (- e)))%Q else inject_Z (10 ^ e).

(** Letters regardless of their case, as [strtod] compares them. *)
Definition tolower (c : ascii) : ascii :=
  let n := nat_of_ascii c in
  if ((65 <=? n) && (n <=? 90))%nat then ascii_of_nat (n + 32) else c.

(** [s] begins with [word], a word in lower case, in either case. *)
Fixpoint starts_with (word s : string) : bool :=
  match word, s with
  | EmptyString, _ => true
  | String a word', String b s' =>
    Ascii.eqb a (tolower b) && starts_with word' s'
  | String _ _, EmptyString => false
  end.

(** libc's [isxdigit]. *)
Definition isxdigit (c : ascii) : bool :=
  let n := nat_of_ascii (tolower c) in
  (isdigit c || ((97 <=? n) && (n <=? 102)))%nat.

(** A hexadecimal digit or a point follows the two characters [0x]. *)
Definition hex_follows (t : string) : bool :=
  match t with
  | String _ (String _ (String c _)) => isxdigit c || Ascii.eqb c "."
  | _ => false
  end.

(** The inputs that [%lf] converts to a value the model has no place
    for: after the white space and the sign, [nan]; [inf], unless an
    [i] follows that does not go on to [infinity]; and [0x] followed by
    a hexadecimal digit or a point, a hexadecimal constant. *)
Definition special_double (s : string) : bool :=
  let t := snd (scan_sign (skip_ws s)) in
  starts_with "nan" t
  || (starts_with "inf" t
      && (negb (starts_with "infi" t) || starts_with "infinity" t))
  || (starts_with "0x" t && hex_follows t).

(** [scanf]'s [%lf] on a decimal constant: digits with an optional
    point, at least one digit in all, and an optional exponent.  After
    [0x] the C library expects a hexadecimal constant: nothing is
    converted when none follows, and [special_double] leaves the
    others out. *)
Definition scan_lf (s : string) : option (double * string) :=
  let '(neg, s1) := scan_sign (skip_ws s) in
  if starts_with "0x" s1 then None
  else
    let '(ip, n1, s2) := scan_digits s1 0 0 in
    let '(m, n2, s3) :=
      match s2 with
      | String "." s2' => scan_digits s2' ip 0
      | _ => (ip, 0%nat, s2)
      end in
    if ((n1 + n2)%nat =? 0)%nat then None
    else
      let '(e, rest) := scan_exponent s3 in
      let v := (inject_Z m * pow10 (e - Z.of_nat n2))%Q in
      Some (if neg then (- v)%Q else v, rest).

(** [sscanf(line, "UPD %d %lf", &edge_id, &speed) == 2]. *)
Definition sscanf_UPD (line : string) : option (Z * double) :=
  rest ← match_literal "UPD" line;
  '(eid, rest) ← scan_d (skip_ws rest);
  '(speed, _) ← scan_lf (skip_ws rest);
  Some (eid, speed).

(** The speed field of an [UPD] line is one of the spellings left out
    of [scan_lf]. *)
Definition special_speed (line : string) : bool :=
  match match_literal "UPD" line with
  | Some rest =>
    match scan_d (skip_ws rest) with
    | Some (_, rest) => special_double rest
    | None => false
    end
  | None => false
  end.

(** What [client_thread_main] does with one received line: answer at
    once, or hand a task to one of the two queues. *)
Inductive dispatch : Type :=
| ReplyNow (resp : string)
| TASK_REQ (src dst : Z)
| TASK_UPD (eid : Z) (speed : double).

(** [None] when the speed of an [UPD] line is one of the spellings
    [special_double] leaves out. *)
Definition client_dispatch (line : string) : option dispatch :=
  let line := trim_crlf line in
  match line with
  | EmptyString => Some (ReplyNow ERR_EMPTY)
  | _ =>
    match sscanf_REQ line with
    | Some (src, dst) => Some (TASK_REQ src dst)
    | None =>
      if special_speed line then None
      else
        match sscanf_UPD line with
        | Some (eid, speed) => Some (TASK_UPD eid speed)
        | None => Some (ReplyNow ERR_UNKNOWN_CMD)
        end
    end
  end.

(** One turn of the connection loop with the worker's part inlined:
    the graph after the command and the line sent back. *)
Definition serve_line (sqrt : double -> double) (g : Graph) (line : string)
  : option (Graph * string) :=
  d ← client_dispatch line;
  match d with
  | ReplyNow resp => Some (g, resp)
  | TASK_REQ src dst =>
    resp ← build_route_response sqrt g src dst; Some (g, resp)
  | TASK_UPD eid speed => apply_update g eid speed
  end.

(** * Specification-level definitions *)

(** ** Traffic updates *)

(** A batch of [UPD] tasks run one after the other. *)
Fixpoint apply_updates (g : Graph) (ups : list (Z * double)) : option Graph :=
  match ups with
  | [] => Some g
  | (eid, s) :: rest => '(g', _) ← apply_update g eid s; apply_updates g' rest
  end.

(** The mixing weight for an edge that has been observed [c] times. *)
Definition ema_alpha (c : Z) : Q := if c =? 0 then 1%Q else (2 # 10)%Q.

(** The travel time measured from one observation. *)
Definition ema_measured (len s : Q) : Q := (len / Qmax s min_speed)%Q.

(** The recurrence as the specification words it: weight 1 on the first
    observation, 0.2 on every later one.  [n] counts the observations
    already mixed in. *)
Fixpoint ema_recurrence (len : Q) (n : nat) (ema : Q) (speeds : list Q) : Q :=
  match speeds with
  | [] => ema
  | s :: rest =>
    let alpha := match n with O => 1%Q | S _ => (2 # 10)%Q end in
    ema_recurrence len (S n)
      (alpha * ema_measured len s + (1 - alpha) * ema)%Q rest
  end.

(** The product of the factors [1 - alpha] over [k] more observations
    of an edge whose [observation_count] is [c]; the count goes on as
    [apply_update] increments it. *)
Fixpoint ema_shrink (c : Z) (k : nat) : Q :=
  match k with
  | O => 1%Q
  | S k' => ((1 - ema_alpha c) * ema_shrink (to_int (c + 1)) k')%Q
  end.

(** An edge as [graph_add_edge] leaves it. *)
Definition fresh_edge (e : Edge) : Prop :=
  observation_count e = 0 /\
  ema_travel_time e = current_travel_time e /\
  (current_travel_time e == base_length e / base_speed_limit e)%Q.

(** A square root that is exact on squares of rationals, to run the
    model on concrete graphs. *)
Definition sqrt_exact (q : double) : double :=
  (inject_Z (Z.sqrt (Qnum q * Z.pos (Qden q))) / inject_Z (Z.pos (Qden q)))%Q.

(** Content of a freshly allocated edge table in the examples. *)
Definition junk_edge : Edge := mkEdge 0 0 0 0%Q 0%Q 0%Q 0%Q 0.

(** Build a graph the way the loader does: [graph_init], then the
    coordinates, then the edges. *)
Definition build_graph (n m : Z) (coords : list (Z * double * double))
    (es : list (Z * Z * Z * double * double)) : option Graph :=
  g ← graph_init n m junk_edge;
  g ← foldl (fun og '(i, cx, cy) =>
               g ← og; graph_set_node_coordinates g i cx cy) (Some g) coords;
  foldl (fun og '(i, a, b, l, s) => g ← og; graph_add_edge g i a b l s)
    (Some g) es.

(** The edge after one accepted observation, as [apply_update] computes
    it. *)
Definition observe (e : Edge) (s : double) : Edge :=
  let speed := if dlt s min_speed then min_speed else s in
  let alpha := ema_alpha (observation_count e) in
  let ema := (alpha * (base_length e / speed) + (1 - alpha) * ema_travel_time e)%Q in
  mkEdge (edge_id e) (from_node e) (to_node e) (base_length e)
    (base_speed_limit e) ema ema (to_int (observation_count e + 1)).

(** A two-node graph with the single edge 0 -> 1 of length 11 and speed
    limit 1, as construction leaves it. *)
Definition one_edge_graph : Graph :=
  mkGraph [mkNode 0 0%Q 0%Q [0]; mkNode 1 (11#1)%Q 0%Q []]
          [mkEdge 0 0 1 (11#1)%Q 1%Q (11#1)%Q (11#1)%Q 0] 2 1.

(** Its edge. *)
Definition sample_edge : Edge := mkEdge 0 0 1 (11#1)%Q 1%Q (11#1)%Q (11#1)%Q 0.
(** The same graph after one observation of speed 1/2. *)
Definition one_edge_graph_slow : Graph :=
  set_edges one_edge_graph [observe sample_edge (1 # 2)%Q].

(** ** The command grammar of the specification *)

(** [int := [0-9]+]: a non-empty string of digits, and its value read
    in base ten onto [acc]. *)
Fixpoint all_digits (s : string) : bool :=
  match s with
  | EmptyString => true
  | String c s' => isdigit c && all_digits s'
  end.

Definition is_int (s : string) : Prop := all_digits s = true /\ s <> EmptyString.

Fixpoint digits_value (s : string) (acc : Z) : Z :=
  match s with
  | EmptyString => acc
  | String c s' => digits_value s' (10 * acc + digit_val c)
  end.

(** A string of carriage returns and line feeds, as [trim_crlf] strips
    from the end of a line. *)
Fixpoint crlf_only (s : string) : bool :=
  match s with
  | EmptyString => true
  | String c s' => (Ascii.eqb c "010" || Ascii.eqb c "013") && crlf_only s'
  end.

(** The last character of [s] is neither a carriage return nor a line
    feed. *)
Definition last_not_crlf (s : string) : Prop :=
  exists s' c, s = (s' ++ String c EmptyString)%string /\
    (Ascii.eqb c "010" || Ascii.eqb c "013") = false.

(** The input that follows does not start with a digit. *)
Definition no_digit_ahead (rest : string) : Prop :=
  match rest with
  | EmptyString => True
  | String c _ => isdigit c = false
  end.

(** The digit strings that [%d] reads into an [int] as they are
    written. *)
Definition int_text (s : string) : Prop :=
  is_int s /\ digits_value s 0 <= INT_MAX.

(** ** The lines the two patterns convert *)

(** A string of white space. *)
Fixpoint all_space (s : string) : bool :=
  match s with
  | EmptyString => true
  | String c s' => isspace c && all_space s'
  end.

(** No sign, a plus sign or a minus sign. *)
Definition sign_mark (sg : string) : Prop :=
  sg = EmptyString \/ sg = "+"%string \/ sg = "-"%string.

(** After any white space and an optional sign a digit comes next. *)
Definition integer_ahead (s : string) : Prop :=
  exists ws sg c r, s = (ws ++ sg ++ String c r)%string /\
    all_space ws = true /\ sign_mark sg /\ isdigit c = true.

(** After any white space and an optional sign comes a digit, or a
    point and a digit, and not [0x]: the start of a decimal number. *)
Definition decimal_ahead (s : string) : Prop :=
  exists ws sg r, s = (ws ++ sg ++ r)%string /\
    all_space ws = true /\ sign_mark sg /\ starts_with "0x" r = false /\
    match r with
    | String c (String c' _) =>
      isdigit c = true \/ (c = "."%char /\ isdigit c' = true)
    | String c EmptyString => isdigit c = true
    | EmptyString => False
    end.

(** A command line by its shape: the keyword, any white space, an
    integer with an optional sign, and what follows the last digit of
    the integer. *)
Definition command_shape (keyword : string) (second : string -> Prop)
    (line : string) : Prop :=
  exists ws sg a rest, line = (keyword ++ ws ++ sg ++ a ++ rest)%string /\
    all_space ws = true /\ sign_mark sg /\ is_int a /\
    no_digit_ahead rest /\ second rest.

(** The point and what follows it, for a speed written [a] or [a.b]. *)
Definition fraction (b : option string) : string :=
  match b with
  | None => EmptyString
  | Some b => String "." b
  end.

(** The digits after the point. *)
Definition fraction_digits (b : option string) : string :=
  match b with
  | None => EmptyString
  | Some b => b
  end.

(** ** The heap invariant *)

(** Every slot inside the heap is known to [pos]:
    [pos[array[i]->node_id] == i] for [i < size]. *)
Definition heap_pos_ok (h : MinHeap) : Prop :=
  forall i n, (i < size h)%nat -> array h !! i = Some n ->
    pos h !! hnode_id n = Some i.

(** The heap order: [array[(i-1)/2]->dist <= array[i]->dist] for
    [0 < i < size]. *)
Definition heap_ordered (h : MinHeap) : Prop :=
  forall i n p, (0 < i < size h)%nat ->
    array h !! i = Some n -> array h !! ((i - 1) / 2)%nat = Some p ->
    (dist p <= dist n)%Q.

(** A valid heap; [array] has [capacity] slots. *)
Definition heap_valid (h : MinHeap) : Prop :=
  (size h <= capacity h)%nat /\
  length (array h) = capacity h /\
  heap_pos_ok h /\
  heap_ordered h.

(** The three statements that exchange the slots [a] and [b] in
    [minHeapify] and in [decreaseKey]. *)
Definition heap_swap (h : MinHeap) (a b : nat) : option MinHeap :=
  na ← array h !! a;
  nb ← array h !! b;
  pos1 ← store (pos h) (hnode_id na) b;
  pos2 ← store pos1 (hnode_id nb) a;
  array1 ← swapMinHeapNode (array h) a b;
  Some (mkMinHeap (capacity h) (size h) pos2 array1).

(** The heap order with the slot [idx] under repair by [minHeapify]:
    every pair whose parent is not [idx] is in order, and the children
    of [idx] are not below the parent of [idx]. *)
Definition ordered_below (h : MinHeap) (idx : nat) : Prop :=
  (forall i n p, (0 < i < size h)%nat -> ((i - 1) / 2)%nat <> idx ->
     array h !! i = Some n -> array h !! ((i - 1) / 2)%nat = Some p ->
     (dist p <= dist n)%Q) /\
  (forall i n p, (0 < idx)%nat -> (0 < i < size h)%nat ->
     ((i - 1) / 2)%nat = idx ->
     array h !! i = Some n -> array h !! ((idx - 1) / 2)%nat = Some p ->
     (dist p <= dist n)%Q).

(** The heap order with the slot [idx] under repair by [decreaseKey]:
    every pair whose child is not [idx] is in order, and the children
    of [idx] are not below the parent of [idx]. *)
Definition ordered_above (h : MinHeap) (idx : nat) : Prop :=
  (forall i n p, (0 < i < size h)%nat -> i <> idx ->
     array h !! i = Some n -> array h !! ((i - 1) / 2)%nat = Some p ->
     (dist p <= dist n)%Q) /\
  (forall i n p, (0 < idx)%nat -> (0 < i < size h)%nat ->
     ((i - 1) / 2)%nat = idx ->
     array h !! i = Some n -> array h !! ((idx - 1) / 2)%nat = Some p ->
     (dist p <= dist n)%Q).

(** Node [v] is in the heap with key [k]. *)
Definition heap_entry (h : MinHeap) (v : nat) (k : double) : Prop :=
  exists p, pos h !! v = Some p /\ (p < size h)%nat /\
    array h !! p = Some (mkMinHeapNode v k).

(** Node [v] is known to [pos] and outside the heap. *)
Definition heap_out (h : MinHeap) (v : nat) : Prop :=
  exists p, pos h !! v = Some p /\ (size h <= p)%nat.

(** Every position that [pos] places inside the heap holds that node. *)
Definition heap_pos_back (h : MinHeap) : Prop :=
  forall v p, pos h !! v = Some p -> (p < size h)%nat ->
    exists n, array h !! p = Some n /\ hnode_id n = v.

(** What the heap operations that only move nodes leave as it was: the
    sizes, the nodes in the heap with their keys, and the nodes outside
    it. *)
Definition heap_same (h h' : MinHeap) : Prop :=
  size h' = size h /\ capacity h' = capacity h /\
  length (pos h') = length (pos h) /\
  length (array h') = length (array h) /\
  (forall v k, heap_entry h' v k <-> heap_entry h v k) /\
  (forall v, heap_out h v -> heap_out h' v) /\
  (heap_pos_back h -> heap_pos_back h').

(** A heap of three nodes with keys 1, 5 and 3. *)
Definition sample_heap : MinHeap :=
  mkMinHeap 3 3 [0; 1; 2]%nat
    [mkMinHeapNode 0 1%Q; mkMinHeapNode 1 (5 # 1)%Q; mkMinHeapNode 2 (3 # 1)%Q].

(** ** Paths in the graph *)

(** The edge [eid] is in the adjacency list of node [u], is inside the
    edge table, and leads to node [v] with weight [w]: the edges the
    search follows. *)
Definition succ_edge (g : Graph) (u : nat) (eid : Z) (v : nat) (w : double)
  : Prop :=
  exists n e, nodes g !! u = Some n /\ eid ∈ out_edges n /\
    0 <= eid < num_edges g /\ edges g !! Z.to_nat eid = Some e /\
    to_node e = Z.of_nat v /\ Z.of_nat v < num_nodes g /\
    w = current_travel_time e.

(** The edge [eid] is inside the edge table and leads to node [v] with
    weight [w]. *)
Definition edge_at (g : Graph) (eid : Z) (v : nat) (w : double) : Prop :=
  0 <= eid < num_edges g /\
  exists e, edges g !! Z.to_nat eid = Some e /\
    to_node e = Z.of_nat v /\ Z.of_nat v < num_nodes g /\
    w = current_travel_time e.

(** [walk g s n v c]: a path of [n] edges from [s] to [v] whose
    weights, added in order, give [c]. *)
Inductive walk (g : Graph) (s : nat) : nat -> nat -> double -> Prop :=
| walk_nil : walk g s 0 s 0%Q
| walk_step n u c e v w :
    walk g s n u c -> succ_edge g u e v w -> walk g s (S n) v (c + w)%Q.

(** Some path leads from [s] to [t]. *)
Definition reachable (g : Graph) (s t : nat) : Prop :=
  exists n c, walk g s n t c.

(** [c] is the cost of a shortest path from [s] to [t]. *)
Definition shortest_cost (g : Graph) (s t : nat) (c : double) : Prop :=
  (exists n c', walk g s n t c' /\ (c' == c)%Q) /\
  (forall n c', walk g s n t c' -> (c <= c')%Q).

(** The edge [eid] is in the adjacency list of node [u] and leads to
    node [v]. *)
Definition edge_between (g : Graph) (u eid v : Z) : Prop :=
  0 <= u /\ 0 <= eid < num_edges g /\
  exists n e, nodes g !! Z.to_nat u = Some n /\ eid ∈ out_edges n /\
    edges g !! Z.to_nat eid = Some e /\ to_node e = v.

(** [path_edges g nodes es]: [es] has one edge for every two
    consecutive nodes of [nodes], taken from the adjacency list of the
    first and leading to the second. *)
Inductive path_edges (g : Graph) : list Z -> list Z -> Prop :=
| path_edges_one u : path_edges g [u] []
| path_edges_cons u v rest eid es :
    edge_between g u eid v -> path_edges g (v :: rest) es ->
    path_edges g (u :: v :: rest) (eid :: es).

(** [route_edges g nodes es]: the edge [es[i]] goes from [nodes[i]] to
    [nodes[i+1]]. *)
Inductive route_edges (g : Graph) : list Z -> list Z -> Prop :=
| route_edges_one u : route_edges g [u] []
| route_edges_cons u v rest eid e es :
    0 <= eid < num_edges g -> edges g !! Z.to_nat eid = Some e ->
    from_node e = u -> to_node e = v ->
    route_edges g (v :: rest) es ->
    route_edges g (u :: v :: rest) (eid :: es).

(** The sum of the current weights of a list of edges, added in order
    from [acc]. *)
Fixpoint path_cost (g : Graph) (es : list Z) (acc : double) : option double :=
  match es with
  | [] => Some acc
  | eid :: rest => w ← get_edge_weight g eid; path_cost g rest (acc + w)%Q
  end.

(** Every edge listed in an adjacency list starts at that node, as
    after a construction that adds each edge id once. *)
Definition adjacency_ok (g : Graph) : Prop :=
  forall u n eid e, nodes g !! u = Some n -> eid ∈ out_edges n ->
    0 <= eid < num_edges g -> edges g !! Z.to_nat eid = Some e ->
    from_node e = Z.of_nat u.

(** The edge id [eid] is in some adjacency list. *)
Definition listed (g : Graph) (eid : Z) : Prop :=
  exists u n, nodes g !! u = Some n /\ eid ∈ out_edges n.

(** Two edges from the same node to the same node have the same
    weight; in particular a graph without parallel edges. *)
Definition parallel_equal (g : Graph) : Prop :=
  forall u e e' v w w', succ_edge g u e v w -> succ_edge g u e' v w' ->
    (w == w')%Q.

(** [chain_cost g l c]: every node of [l] is followed by a node that
    has an edge to it, as in the list [parent_chain] collects, and the
    weights of these edges add up to [c]. *)
Inductive chain_cost (g : Graph) : list nat -> double -> Prop :=
| chain_cost_one v : chain_cost g [v] 0%Q
| chain_cost_cons v u l e w c :
    succ_edge g u e v w -> chain_cost g (u :: l) c ->
    chain_cost g (v :: u :: l) (c + w)%Q.

(** ** The invariant of the search *)

(** The part of the heap invariant that does not depend on the keys. *)
Definition heap_struct (V : nat) (h : MinHeap) : Prop :=
  length (pos h) = V /\ length (array h) = V /\ (size h <= V)%nat /\
  heap_pos_ok h /\ heap_pos_back h.

(** [decreaseKey] moved the key of [v] to [d]. *)
Definition heap_decreased (V : nat) (h : MinHeap) (v : nat) (d : double)
    (h' : MinHeap) : Prop :=
  size h' = size h /\ heap_struct V h' /\
  (forall x k, heap_entry h' x k
     <-> (x = v /\ k = d) \/ (x <> v /\ heap_entry h x k)) /\
  (forall x, heap_out h x -> heap_out h' x) /\
  (forall kold, heap_entry h v kold -> heap_ordered h -> (d <= kold)%Q ->
     heap_ordered h').

Section SearchInvariant.
Variable sqrt : double -> double.
Variable graph : Graph.
Variables s t : nat.

(** The value [heuristic] returns for node [v] and the target. *)
Definition hval (v : nat) : double :=
  default 0%Q (heuristic sqrt graph (Z.of_nat v) (Z.of_nat t)).

(** What the arrays say about node [v]: either it has not been
    reached, or [g_score] is below [DBL_MAX] and is the cost of a path
    from the start, [f_score] is [g_score] plus the heuristic, and
    [parent] is unset only for the start. *)
Definition node_state (st : AStar) (v : nat) : Prop :=
  exists gv fv pv,
    g_score st !! v = Some gv /\ f_score st !! v = Some fv /\
    parent st !! v = Some pv /\
    ((gv = DBL_MAX /\ fv = DBL_MAX /\ pv = -1 /\ v <> s) \/
     ((gv < DBL_MAX)%Q /\ (fv == gv + hval v)%Q /\
      (exists n c, walk graph s n v c /\ (c == gv)%Q) /\
      ((v = s /\ pv = -1 /\ gv = 0%Q) \/
       (exists u e w gu, pv = Z.of_nat u /\ succ_edge graph u e v w /\
          g_score st !! u = Some gu /\ (gu < DBL_MAX)%Q /\
          (gu + w <= gv)%Q)))).

Definition search_inv (st : AStar) : Prop :=
  let V := Z.to_nat (num_nodes graph) in
  length (g_score st) = V /\ length (f_score st) = V /\
  length (parent st) = V /\
  heap_struct V (minHeap st) /\
  (forall v k, heap_entry (minHeap st) v k -> f_score st !! v = Some k) /\
  (forall v, (v < V)%nat -> node_state st v).
End SearchInvariant.

(** The arrays when the main loop is entered. *)
Definition search_start (V s : nat) (hs : double) (hp : MinHeap) : AStar :=
  mkAStar (<[s := 0%Q]> (replicate V DBL_MAX))
    (<[s := hs]> (replicate V DBL_MAX)) (replicate V (-1)) hp.

(** ** When the search is optimal *)

(** No edge the search follows has a negative weight. *)
Definition nonneg_weights (g : Graph) : Prop :=
  forall u e v w, succ_edge g u e v w -> (0 <= w)%Q.

(** The heuristic towards [t] is consistent: it drops along an edge by
    at most the weight of the edge. *)
Definition consistent (sqrt : double -> double) (g : Graph) (t : nat) : Prop :=
  forall u e v w, succ_edge g u e v w ->
    (hval sqrt g t u <= w + hval sqrt g t v)%Q.

(** The costs the search computes stay below the [DBL_MAX] it uses for
    a node that has not been reached. *)
Definition bounded_costs (sqrt : double -> double) (g : Graph) (s t : nat)
  : Prop :=
  forall n v c, (n <= Z.to_nat (num_nodes g))%nat -> walk g s n v c ->
    (c < DBL_MAX)%Q /\ (c + hval sqrt g t v < DBL_MAX)%Q.

(** The value [heuristic] computes from the coordinates of two nodes. *)
Definition straight_time (sqrt : double -> double) (g : Graph) (a b : Node)
  : double :=
  let dx := (x a - x b)%Q in
  let dy := (y a - y b)%Q in
  let straight_dist := sqrt (dx * dx + dy * dy)%Q in
  if dlt 0%Q (max_speed g) then (straight_dist / max_speed g)%Q
  else straight_dist.

(** The triangle inequality for the distances [heuristic] computes
    with [sqrt]. *)
Definition sqrt_triangle (sqrt : double -> double) : Prop :=
  forall ax ay bx byy cx cy : double,
    (sqrt ((ax - cx) * (ax - cx) + (ay - cy) * (ay - cy))
     <= sqrt ((ax - bx) * (ax - bx) + (ay - byy) * (ay - byy))
        + sqrt ((bx - cx) * (bx - cx) + (byy - cy) * (byy - cy)))%Q.

(** No edge is faster than the straight line between its end nodes at
    the largest speed limit. *)
Definition no_shortcut (sqrt : double -> double) (g : Graph) : Prop :=
  forall u e v w a b, succ_edge g u e v w ->
    nodes g !! u = Some a -> nodes g !! v = Some b ->
    (straight_time sqrt g a b <= w)%Q.

(** [depth g s st n v]: following [parent] from [v] reaches the start
    after [n] steps, through nodes that have left the heap, and
    [g_score] adds one edge weight at each step. *)
Inductive depth (g : Graph) (s : nat) (st : AStar) : nat -> nat -> Prop :=
| depth_start :
    parent st !! s = Some (-1) -> g_score st !! s = Some 0%Q ->
    depth g s st 0 s
| depth_step n u v e w gu gv :
    depth g s st n u -> heap_out (minHeap st) u ->
    parent st !! v = Some (Z.of_nat u) -> succ_edge g u e v w ->
    g_score st !! u = Some gu -> g_score st !! v = Some gv ->
    (gv == gu + w)%Q ->
    depth g s st (S n) v.

(** The invariant of the main loop when the weights are not negative
    and the heuristic is consistent.  [pending u e] marks the edges of
    the node taken out last that the inner loop has not seen yet. *)
Definition opt_inv (sqrt : double -> double) (g : Graph) (s t : nat)
    (pending : nat -> Z -> Prop) (st : AStar) : Prop :=
  let V := Z.to_nat (num_nodes g) in
  let h := minHeap st in
  search_inv sqrt g s t st /\
  heap_ordered h /\
  (g_score st !! s = Some 0%Q /\ parent st !! s = Some (-1)) /\
  (forall v gv, heap_out h v -> g_score st !! v = Some gv ->
     (gv < DBL_MAX)%Q /\ forall n c, walk g s n v c -> (gv <= c)%Q) /\
  (forall u e v w gu, heap_out h u -> succ_edge g u e v w ->
     g_score st !! u = Some gu ->
     pending u e \/
     exists gv, g_score st !! v = Some gv /\ (gv < DBL_MAX)%Q /\
       (gv <= gu + w)%Q) /\
  (forall v gv, (v < V)%nat -> g_score st !! v = Some gv -> (gv < DBL_MAX)%Q ->
     exists n, depth g s st n v /\ (n + size h <= V)%nat /\
       (heap_out h v -> (n + size h < V)%nat)).

(** Between two turns of the main loop no edge is pending. *)
Definition no_pending : nat -> Z -> Prop := fun _ _ => False.

(** The edges of [u] that are still in the list [cur]. *)
Definition pending_edges (u : nat) (cur : list Z) : nat -> Z -> Prop :=
  fun u' e => u' = u /\ e ∈ cur.

(** What the arrays hold when the loop has taken the target out of the
    heap: its [g_score] is the cost of a shortest path, and [parent]
    leads back to the start in fewer steps than there are nodes. *)
Definition search_done (g : Graph) (s t : nat) (st : AStar) : Prop :=
  exists gt m,
    g_score st !! t = Some gt /\ (gt < DBL_MAX)%Q /\
    (forall n c, walk g s n t c -> (gt <= c)%Q) /\
    depth g s st m t /\ (m < Z.to_nat (num_nodes g))%nat.

(** ** When the search finds every node that can be reached *)

(** [chain s st v l]: [l] lists the nodes from [v] back to the start
    that [parent] names one after the other. *)
Inductive chain (s : nat) (st : AStar) : nat -> list nat -> Prop :=
| chain_start : parent st !! s = Some (-1) -> chain s st s [s]
| chain_step v u l :
    parent st !! v = Some (Z.of_nat u) -> chain s st u l ->
    chain s st v (v :: l).

(** The invariant of the main loop when the weights are not negative;
    the heuristic may be any.  [pending] is as in [opt_inv]. *)
Definition reach_inv (sqrt : double -> double) (g : Graph) (s t : nat)
    (pending : nat -> Z -> Prop) (st : AStar) : Prop :=
  let V := Z.to_nat (num_nodes g) in
  let h := minHeap st in
  search_inv sqrt g s t st /\
  heap_ordered h /\
  (g_score st !! s = Some 0%Q /\ parent st !! s = Some (-1)) /\
  (forall u gu, heap_out h u -> g_score st !! u = Some gu -> (gu < DBL_MAX)%Q) /\
  (forall u e v w, heap_out h u -> succ_edge g u e v w ->
     pending u e \/
     exists gv, g_score st !! v = Some gv /\ (gv < DBL_MAX)%Q) /\
  (forall v gv, (v < V)%nat -> g_score st !! v = Some gv -> (gv < DBL_MAX)%Q ->
     (exists n c, walk g s n v c /\ (c == gv)%Q /\ (n + size h <= V)%nat) /\
     exists l, chain s st v l).

(** The node [u] taken out last has a path from the start that is
    shorter than the number of nodes taken out. *)
Definition short_path (g : Graph) (s : nat) (st : AStar) (u : nat) : Prop :=
  exists m c gu, walk g s m u c /\ g_score st !! u = Some gu /\ (c == gu)%Q /\
    (m + size (minHeap st) < Z.to_nat (num_nodes g))%nat.

(** ** Checking the assumptions on a given graph *)

(** [P u v w] for every edge the search follows: from the adjacency
    list of [u], inside the edge table, to a node [v] of the graph,
    with weight [w]. *)
Definition edge_checks (P : nat -> nat -> double -> bool) (g : Graph) : bool :=
  forallb (fun u =>
    match nodes g !! u with
    | Some n =>
      forallb (fun eid =>
        if (eid <? 0) || (eid >=? num_edges g) then true
        else
          match edges g !! Z.to_nat eid with
          | Some e =>
            if (to_node e <? 0) || (to_node e >=? num_nodes g) then true
            else P u (Z.to_nat (to_node e)) (current_travel_time e)
          | None => true
          end) (out_edges n)
    | None => true
    end) (seq 0 (Z.to_nat (num_nodes g))).

Definition check_nonneg (g : Graph) : bool :=
  edge_checks (fun _ _ w => dle 0%Q w) g.

Definition check_consistent (sqrt : double -> double) (g : Graph) (t : nat)
  : bool :=
  edge_checks (fun u v w => dle (hval sqrt g t u) (w + hval sqrt g t v)%Q) g.

Definition check_parallel (g : Graph) : bool :=
  edge_checks (fun u v w =>
    edge_checks (fun u' v' w' =>
      negb ((u =? u')%nat && (v =? v')%nat) || deq w w') g) g.

(** No weight is above [wmax], no heuristic value above [hmax], and
    as many edges as there are nodes stay below [DBL_MAX]. *)
Definition check_bounded (sqrt : double -> double) (g : Graph) (t : nat)
    (wmax hmax : double) : bool :=
  let V := Z.to_nat (num_nodes g) in
  dle 0%Q wmax
  && edge_checks (fun _ _ w => dle w wmax) g
  && forallb (fun v => dle (hval sqrt g t v) hmax) (seq 0 V)
  && dlt (inject_Z (num_nodes g) * wmax)%Q DBL_MAX
  && dlt (inject_Z (num_nodes g) * wmax + hmax)%Q DBL_MAX.

(** Every edge id in an adjacency list names an edge that starts at
    that node. *)
Definition check_adjacency (g : Graph) : bool :=
  forallb (fun u =>
    match nodes g !! u with
    | Some n =>
      forallb (fun eid =>
        if (eid <? 0) || (eid >=? num_edges g) then true
        else
          match edges g !! Z.to_nat eid with
          | Some e => from_node e =? Z.of_nat u
          | None => true
          end) (out_edges n)
    | None => true
    end) (seq 0 (length (nodes g))).

(** ** The reply line *)

(** [" %d"] for every id. *)
Fixpoint ids_text (ids : list Z) : string :=
  match ids with
  | [] => EmptyString
  | id :: rest => (" " ++ fmt_d id ++ ids_text rest)%string
  end.

(** The [ROUTE2] line without the line feed. *)
Definition route_line (cost : double) (node_path edge_path : list Z) : string :=
  ("ROUTE2 " ++ fmt_3f cost ++ " " ++ fmt_d (Z.of_nat (length node_path))
   ++ ids_text node_path
   ++ " " ++ fmt_d (Z.of_nat (length edge_path)) ++ ids_text edge_path)%string.

(** The part of the line that is written before the count of edges. *)
Definition route_head (cost : double) (node_path : list Z) : string :=
  ("ROUTE2 " ++ fmt_3f cost ++ " " ++ fmt_d (Z.of_nat (length node_path))
   ++ ids_text node_path)%string.

(** The size [build_route_response] gives its buffer. *)
Definition route_buf_sz (node_path edge_path : list Z) : Z :=
  64 + Z.of_nat (length edge_path) * 16 + Z.of_nat (length node_path) * 16.

(** ** Sample graphs *)

(** Six nodes at the origin and no edge. *)
Definition six_nodes : Graph :=
  mkGraph (map (fun i => mkNode (Z.of_nat i) 0%Q 0%Q []) (seq 0 6)) [] 6 0.

(** Three nodes on a line, at -10, 0 and 1, with the edges 0 -> 1 of
    length 10, 1 -> 2 of length 11 and 0 -> 2 of length 15, all with
    speed limit 1, as construction leaves them. *)
Definition three_nodes : Graph :=
  mkGraph [mkNode 0 0%Q 0%Q [2; 0]; mkNode 1 (-10 # 1)%Q 0%Q [1];
           mkNode 2 1%Q 0%Q []]
          [mkEdge 0 0 1 (10 # 1)%Q 1%Q (10 # 1)%Q (10 # 1)%Q 0;
           mkEdge 1 1 2 (11 # 1)%Q 1%Q (11 # 1)%Q (11 # 1)%Q 0;
           mkEdge 2 0 2 (15 # 1)%Q 1%Q (15 # 1)%Q (15 # 1)%Q 0] 3 3.

(** [three_nodes] after the observation of speed 11 on edge 1. *)
Definition three_nodes_fast : Graph :=
  mkGraph [mkNode 0 0%Q 0%Q [2; 0]; mkNode 1 (-10 # 1)%Q 0%Q [1];
           mkNode 2 1%Q 0%Q []]
          [mkEdge 0 0 1 (10 # 1)%Q 1%Q (10 # 1)%Q (10 # 1)%Q 0;
           mkEdge 1 1 2 (11 # 1)%Q 1%Q (11 # 11)%Q (11 # 11)%Q 1;
           mkEdge 2 0 2 (15 # 1)%Q 1%Q (15 # 1)%Q (15 # 1)%Q 0] 3 3.

(** Two nodes with two edges 0 -> 1, of lengths 1 and 5. *)
Definition two_parallel : Graph :=
  mkGraph [mkNode 0 0%Q 0%Q [1; 0]; mkNode 1 1%Q 0%Q []]
          [mkEdge 0 0 1 1%Q 1%Q 1%Q 1%Q 0;
           mkEdge 1 0 1 (5 # 1)%Q 1%Q (5 # 1)%Q (5 # 1)%Q 0] 2 2.

(** Two nodes and the edge 0 -> 1 with the travel time [w]. *)
Definition two_nodes (w : double) : Graph :=
  mkGraph [mkNode 0 0%Q 0%Q [0]; mkNode 1 1%Q 0%Q []]
          [mkEdge 0 0 1 w 1%Q (w / 1)%Q (w / 1)%Q 0] 2 1.

(** ** Travel times that are not negative *)

(** No length and no travel time of the edge table is negative. *)
Definition nonneg_edges (g : Graph) : Prop :=
  forall i e, edges g !! i = Some e ->
    (0 <= base_length e)%Q /\ (0 <= ema_travel_time e)%Q /\
    (0 <= current_travel_time e)%Q.

Definition check_nonneg_edges (g : Graph) : bool :=
  forallb (fun e => dle 0%Q (base_length e) && dle 0%Q (ema_travel_time e)
                    && dle 0%Q (current_travel_time e)) (edges g).

(** ** Lines the command patterns accept besides the grammar *)

(** An optional minus sign, and the value it gives. *)
Definition sign_text (neg : bool) : string :=
  if neg then "-"%string else EmptyString.

Definition signed (neg : bool) (v : Z) : Z := if neg then - v else v.

(** ** routing.c: the search that prints its result *)

(** [printf]'s [%.4f]. *)
Definition fmt_4f (q : double) : string :=
  let m := round_half_even (Qabs q * 10000)%Q in
  let r := m mod 10000 in
  ((if dlt q 0%Q then "-" else EmptyString)
   ++ fmt_d (m / 10000) ++ "."
   ++ String (digit_char (r / 1000))
        (String (digit_char (r / 100 mod 10))
           (String (digit_char (r / 10 mod 10))
              (String (digit_char (r mod 10)) EmptyString))))%string.

(** [print_path]: the text it writes to the standard output.  The
    recursion follows [parent] until it meets [-1]; [fuel] bounds its
    depth. *)
Fixpoint print_path (fuel : nat) (par : list Z) (current_node : Z)
  : option string :=
  if current_node =? -1 then Some EmptyString
  else
    match fuel with
    | O => None
    | S fuel' =>
      if current_node <? 0 then None
      else
        p ← par !! Z.to_nat current_node;
        out ← print_path fuel' par p;
        Some (out ++ fmt_d current_node ++ " ")%string
    end.

(** [find_route_a_star]: what it writes to the standard output (the
    messages for a bad argument go to the standard error stream).  The
    arrays, the heap and the main loop are those of
    [find_route_a_star_path].  A chain of parents that ends has no node
    twice, so that the recursion of [print_path] is never deeper than
    the number of nodes. *)
Definition find_route_a_star (sqrt : double -> double) (graph : Graph)
    (start_id target_id : Z) : option string :=
  if (start_id <? 0) || (start_id >=? num_nodes graph)
     || (target_id <? 0) || (target_id >=? num_nodes graph)
  then Some EmptyString
  else
    let V := Z.to_nat (num_nodes graph) in
    let st0 := astar_init V in
    g1 ← store (g_score st0) (Z.to_nat start_id) 0%Q;
    h ← heuristic sqrt graph start_id target_id;
    f1 ← store (f_score st0) (Z.to_nat start_id) h;
    fs ← f1 !! Z.to_nat start_id;
    hp ← decreaseKey (minHeap st0) (Z.to_nat start_id) fs;
    let out := ("Starting A* Search from " ++ fmt_d start_id ++ " to "
                ++ fmt_d target_id ++ "..." ++ nl)%string in
    '(found, st) ← astar_loop sqrt graph target_id (S V)
                     (mkAStar g1 f1 (parent st0) hp);
    if (found : bool) then
      gu ← g_score st !! Z.to_nat target_id;
      path ← print_path V (parent st) target_id;
      Some (out ++ "Destination reached! Cost: " ++ fmt_4f gu ++ nl
            ++ "Path: " ++ path ++ nl)%string
    else Some (out ++ "No path found." ++ nl)%string.

(** ["%d "] for every id. *)
Fixpoint path_text (ids : list Z) : string :=
  match ids with
  | [] => EmptyString
  | id :: rest => (fmt_d id ++ " " ++ path_text rest)%string
  end.

(** The first line [find_route_a_star] prints. *)
Definition search_banner (s t : Z) : string :=
  ("Starting A* Search from " ++ fmt_d s ++ " to " ++ fmt_d t ++ "..." ++ nl)%string.

(** ** server.c: the connection *)

(** What a connection still delivers: the bytes the peer has sent and
    that have not been read, and whether it then ends with an error
    ([recv] returns a negative number) or is closed by the peer ([recv]
    returns 0). *)
Record socket : Type := mkSocket {
  incoming : string;
  broken : bool
}.

(** The loop of [recv_line]: one [recv] of one byte in every turn;
    [buf] holds the [pos] bytes written so far.  The result is the
    value returned, the bytes in the buffer and the connection. *)
Fixpoint recv_line_loop (cap : Z) (bytes : string) (err : bool) (buf : string)
    (pos : Z) : Z * string * socket :=
  if pos <? cap - 1 then
    match bytes with
    | EmptyString =>
      if err then (-1, buf, mkSocket EmptyString err)
      else if pos =? 0 then (0, buf, mkSocket EmptyString err)
      else (pos, buf, mkSocket EmptyString err)
    | String c rest =>
      let buf := (buf ++ String c EmptyString)%string in
      let pos := pos + 1 in
      if Ascii.eqb c "010" then (pos, buf, mkSocket rest err)
      else recv_line_loop cap rest err buf pos
    end
  else (pos, buf, mkSocket bytes err).

Definition recv_line (sk : socket) (cap : Z) : Z * string * socket :=
  recv_line_loop cap (incoming sk) (broken sk) EmptyString 0.

(** The C string in a buffer: the bytes before the first NUL. *)
Fixpoint cstr (buf : string) : string :=
  match buf with
  | EmptyString => EmptyString
  | String c rest => if Ascii.eqb c "000" then EmptyString else String c (cstr rest)
  end.

(** [client_thread_main] for one connection, with the worker's part
    inlined as in [serve_line]: the graph when the connection ends and
    the replies handed to [send_all], in order.  Every turn of the loop
    reads at least one byte; [fuel] bounds the number of turns. *)
Fixpoint client_thread_main (sqrt : double -> double) (fuel : nat) (g : Graph)
    (sk : socket) : option (Graph * list string) :=
  match fuel with
  | O => None
  | S fuel' =>
    let '(r, line, sk') := recv_line sk 1024 in
    if r =? 0 then Some (g, [])
    else if r <? 0 then Some (g, [])
    else
      '(g', resp) ← serve_line sqrt g (cstr line);
      '(g'', out) ← client_thread_main sqrt fuel' g' sk';
      Some (g'', resp :: out)
  end.

(** [send_all]: [answers] lists what the successive calls of [send]
    return; a positive answer [r] means that the next [r] bytes have
    been taken, and when the list is used up the connection is gone.
    The result is the value returned and the bytes sent. *)
Fixpoint send_all_loop (answers : list Z) (s : string) (len sent : Z)
    (wire : string) : Z * string :=
  if sent <? len then
    match answers with
    | [] => (-1, wire)
    | r :: rest =>
      if r <=? 0 then (-1, wire)
      else send_all_loop rest s len (sent + r)
             (wire ++ substring (Z.to_nat sent) (Z.to_nat r) s)
    end
  else (0, wire).

Definition send_all (answers : list Z) (s : string) : Z * string :=
  send_all_loop answers s (Z.of_nat (String.length s)) 0 EmptyString.

(** ** Lines on a connection *)

(** No byte of [s] is [c]. *)
Fixpoint without (c : ascii) (s : string) : bool :=
  match s with
  | EmptyString => true
  | String d s' => negb (Ascii.eqb d c) && without c s'
  end.

(** The rest of [s] after its first [n] characters. *)
Fixpoint string_drop (n : nat) (s : string) : string :=
  match n, s with
  | S n', String _ s' => string_drop n' s'
  | _, _ => s
  end.

(** The lines [ls], each followed by a line feed. *)
Fixpoint join_lines (ls : list string) : string :=
  match ls with
  | [] => EmptyString
  | l :: rest => (l ++ nl ++ join_lines rest)%string
  end.

(** The commands [ls] served one after the other. *)
Fixpoint serve_lines (sqrt : double -> double) (g : Graph) (ls : list string)
  : option (Graph * list string) :=
  match ls with
  | [] => Some (g, [])
  | l :: rest =>
    '(g', resp) ← serve_line sqrt g l;
    '(g'', out) ← serve_lines sqrt g' rest;
    Some (g'', resp :: out)
  end.

(** A line that fits the buffer of [client_thread_main] with its line
    feed and holds neither a line feed nor a NUL. *)
Definition plain_line (l : string) : Prop :=
  without "010" l = true /\ without "000" l = true /\
  Z.of_nat (String.length l) <= 1022.

(** ** server.c: the task queues *)

(** A task is named by its address.  [q_head] and [q_tail] are the
    pointers [head] and [tail] of the C struct, [None] for [NULL], and
    [next] holds the field [next] of every task.  The functions are
    the bodies that run under the mutex of the queue. *)
Record TaskQueue : Type := mkTaskQueue {
  q_head : option nat;
  q_tail : option nat
}.

(** [t->next = v]. *)
Definition set_next (next : nat -> option nat) (t : nat) (v : option nat)
  : nat -> option nat :=
  fun x => if (x =? t)%nat then v else next x.

Definition queue_init : TaskQueue := mkTaskQueue None None.

Definition queue_push (q : TaskQueue) (next : nat -> option nat) (t : nat)
  : TaskQueue * (nat -> option nat) :=
  let next := set_next next t None in
  match q_tail q with
  | None => (mkTaskQueue (Some t) (Some t), next)
  | Some tl => (mkTaskQueue (q_head q) (Some t), set_next next tl (Some t))
  end.

(** [queue_pop]; [None] when the queue is empty and the caller waits
    for a push. *)
Definition queue_pop (q : TaskQueue) (next : nat -> option nat)
  : option (nat * TaskQueue * (nat -> option nat)) :=
  match q_head q with
  | None => None
  | Some t =>
    let h := next t in
    let tl := match h with None => None | Some _ => q_tail q end in
    Some (t, mkTaskQueue h tl, set_next next t None)
  end.

(** ** The tasks in a queue *)

(** The list that starts at the pointer [p] and follows [next] to
    [NULL] is [l]. *)
Inductive queue_seg (next : nat -> option nat) : option nat -> list nat -> Prop :=
| queue_seg_nil : queue_seg next None []
| queue_seg_cons t l :
    queue_seg next (next t) l -> queue_seg next (Some t) (t :: l).

(** The queue holds the tasks [l], the oldest first. *)
Definition queue_rep (q : TaskQueue) (next : nat -> option nat) (l : list nat)
  : Prop :=
  queue_seg next (q_head q) l /\ q_tail q = last l /\ NoDup l.

(** The queue after [queue_push] of task 1 and then of task 2 on the
    empty queue. *)
Definition two_tasks : TaskQueue * (nat -> option nat) :=
  queue_push (fst (queue_push queue_init (fun _ => None) 1%nat))
             (snd (queue_push queue_init (fun _ => None) 1%nat)) 2%nat.

(** ** graph_loader.c *)

(** A file is the text that is left to read in it; a path that [fopen]
    cannot open is [None]. *)

(** [%63s]: up to [n] characters that are not white space. *)
Fixpoint scan_word (n : nat) (s : string) : string * string :=
  match n, s with
  | S n', String c s' =>
    if isspace c then (EmptyString, s)
    else let '(w, r) := scan_word n' s' in (String c w, r)
  | _, _ => (EmptyString, s)
  end.

Definition scan_s63 (s : string) : option (string * string) :=
  let '(w, r) := scan_word 63 (skip_ws s) in
  match w with
  | EmptyString => None
  | _ => Some (w, r)
  end.

(** The loop [while (fscanf(f, "%63s %d", key, &val) == 2)] of
    [read_meta_counts]; every turn reads at least one character, and
    [fuel] bounds the number of turns. *)
Fixpoint read_meta_loop (fuel : nat) (f : string) (num_nodes num_edges : Z)
  : option (Z * Z) :=
  match fuel with
  | O => None
  | S fuel' =>
    match scan_s63 f with
    | None => Some (num_nodes, num_edges)
    | Some (key, rest) =>
      match scan_d (skip_ws rest) with
      | None => Some (num_nodes, num_edges)
      | Some (val, rest) =>
        if String.eqb (cstr key) "num_nodes"
        then read_meta_loop fuel' rest val num_edges
        else if String.eqb (cstr key) "num_edges"
        then read_meta_loop fuel' rest num_nodes val
        else read_meta_loop fuel' rest num_nodes num_edges
      end
    end
  end.

(** [read_meta_counts]: the return code when it is not 0, and else the
    two counts. *)
Definition read_meta_counts (meta : option string) : option (Z + Z * Z) :=
  match meta with
  | None => Some (inl 1)
  | Some f =>
    '(num_nodes, num_edges) ← read_meta_loop (S (String.length f)) f (-1) (-1);
    if (num_nodes <=? 0) || (num_edges <? 0) then Some (inl 2)
    else Some (inr (num_nodes, num_edges))
  end.

(** [fgets]: at most [n] characters, up to and with the first line
    feed. *)
Fixpoint fgets_loop (n : nat) (s : string) : string * string :=
  match n, s with
  | S n', String c s' =>
    if Ascii.eqb c "010" then (String c EmptyString, s')
    else let '(l, r) := fgets_loop n' s' in (String c l, r)
  | _, _ => (EmptyString, s)
  end.

Definition fgets (cap : Z) (f : string) : option (string * string) :=
  match f with
  | EmptyString => None
  | _ => Some (fgets_loop (Z.to_nat (cap - 1)) f)
  end.

(** [read_line]: the line without the carriage returns and line feeds
    at its end, and the rest of the file; [None] at the end of the
    file.  Its loop is the loop of [trim_crlf]. *)
Definition read_line (f : string) (cap : Z) : option (string * string) :=
  '(buf, rest) ← fgets cap f;
  Some (trim_crlf (cstr buf), rest).

(** A conversion of [sscanf] has three outcomes here: no value of the
    model ([None]), a failed match ([Some None]) or a value. *)
Definition and_then {A B : Type} (x : option (option A))
    (k : A -> option (option B)) : option (option B) :=
  match x with
  | None => None
  | Some None => Some None
  | Some (Some a) => k a
  end.

(** [%lf]; the spellings [scan_lf] leaves out have no value here. *)
Definition scan_lf_checked (s : string) : option (option (double * string)) :=
  if special_double s then None else Some (scan_lf s).

(** [sscanf(line, "%d,%lf,%lf", &node_id, &x, &y) == 3]. *)
Definition sscanf_node (line : string) : option (option (Z * double * double)) :=
  and_then (Some (scan_d line)) (fun '(node_id, r) =>
  and_then (Some (match_literal "," r)) (fun r =>
  and_then (scan_lf_checked r) (fun '(cx, r) =>
  and_then (Some (match_literal "," r)) (fun r =>
  and_then (scan_lf_checked r) (fun '(cy, _) =>
  Some (Some (node_id, cx, cy))))))).

(** [sscanf(line, "%d,%d,%d,%lf,%lf", ...) == 5]. *)
Definition sscanf_edge (line : string)
  : option (option (Z * Z * Z * double * double)) :=
  and_then (Some (scan_d line)) (fun '(eid, r) =>
  and_then (Some (match_literal "," r)) (fun r =>
  and_then (Some (scan_d r)) (fun '(from, r) =>
  and_then (Some (match_literal "," r)) (fun r =>
  and_then (Some (scan_d r)) (fun '(to, r) =>
  and_then (Some (match_literal "," r)) (fun r =>
  and_then (scan_lf_checked r) (fun '(len, r) =>
  and_then (Some (match_literal "," r)) (fun r =>
  and_then (scan_lf_checked r) (fun '(speed, _) =>
  Some (Some (eid, from, to, len, speed))))))))))).

(** The loop over the lines of the nodes file: a return code, or the
    graph at the end of the file.  Every turn reads at least one
    character. *)
Fixpoint load_nodes (fuel : nat) (g : Graph) (f : string) : option (Z + Graph) :=
  match fuel with
  | O => None
  | S fuel' =>
    match read_line f 512 with
    | None => Some (inr g)
    | Some (EmptyString, rest) => load_nodes fuel' g rest
    | Some (line, rest) =>
      p ← sscanf_node line;
      match p with
      | None => Some (inl 22)
      | Some (node_id, cx, cy) =>
        if (node_id <? 0) || (node_id >=? num_nodes g) then Some (inl 23)
        else
          g' ← graph_set_node_coordinates g node_id cx cy;
          load_nodes fuel' g' rest
      end
    end
  end.

(** The loop over the lines of the edges file, with the counter
    [loaded_edges]. *)
Fixpoint load_edges (fuel : nat) (g : Graph) (f : string) (loaded_edges : Z)
  : option (Z + Graph * Z) :=
  match fuel with
  | O => None
  | S fuel' =>
    match read_line f 512 with
    | None => Some (inr (g, loaded_edges))
    | Some (EmptyString, rest) => load_edges fuel' g rest loaded_edges
    | Some (line, rest) =>
      p ← sscanf_edge line;
      match p with
      | None => Some (inl 32)
      | Some (eid, from, to, len, speed) =>
        if (eid <? 0) || (eid >=? num_edges g) then Some (inl 33)
        else
          g' ← graph_add_edge g eid from to len speed;
          load_edges fuel' g' rest (loaded_edges + 1)
      end
    end
  end.

(** [graph_load_from_files]: a return code that is not 0, or the graph
    it has loaded when it returns 0.  The four pointers are not
    [NULL]; [junk] is what [malloc] leaves in the edge table. *)
Definition graph_load_from_files (meta nodes_file edges_file : option string)
    (junk : Edge) : option (Z + Graph) :=
  c ← read_meta_counts meta;
  match c with
  | inl rc => Some (inl rc)
  | inr (n_nodes, n_edges) =>
    g ← graph_init n_nodes n_edges junk;
    match nodes_file with
    | None => Some (inl 20)
    | Some fn =>
      match read_line fn 512 with
      | None => Some (inl 21)
      | Some (_, fn) =>
        r ← load_nodes (S (String.length fn)) g fn;
        match r with
        | inl rc => Some (inl rc)
        | inr g =>
          match edges_file with
          | None => Some (inl 30)
          | Some fe =>
            match read_line fe 512 with
            | None => Some (inl 31)
            | Some (_, fe) =>
              r ← load_edges (S (String.length fe)) g fe 0;
              match r with
              | inl rc => Some (inl rc)
              | inr (g, loaded_edges) =>
                if negb (loaded_edges =? num_edges g) then Some (inl 34)
                else Some (inr g)
              end
            end
          end
        end
      end
    end
  end.

(** ** What a loaded graph holds *)

(** The edge ids of all adjacency lists, node after node. *)
Definition adjacency_cells (g : Graph) : list Z :=
  concat (out_edges <$> nodes g).

(** The slot [eid] of the edge table holds an edge as [graph_add_edge]
    writes it under that id. *)
Definition loaded_edge (g : Graph) (eid : Z) : Prop :=
  0 <= eid < num_edges g /\
  exists e, edges g !! Z.to_nat eid = Some e /\ edge_id e = eid /\
    0 <= from_node e < num_nodes g /\ 0 <= to_node e < num_nodes g /\
    (0 < base_speed_limit e)%Q /\ observation_count e = 0 /\
    ema_travel_time e = current_travel_time e /\
    current_travel_time e = (base_length e / base_speed_limit e)%Q.

(** The three files of a graph with two nodes and the edge 0 -> 1 of
    length 11 and speed limit 1. *)
Definition sample_meta : string :=
  ("num_nodes 2" ++ nl ++ "num_edges 1" ++ nl)%string.

Definition sample_nodes_csv : string :=
  ("node_id,x,y" ++ nl ++ "0,0,0" ++ nl ++ "1,11,0" ++ nl)%string.

Definition sample_edges_csv : string :=
  ("edge_id,from_node,to_node,base_length,base_speed_limit" ++ nl
   ++ "0,0,1,11,1" ++ nl)%string.

(** What the loop over the edges file keeps. *)
Definition edges_inv (g : Graph) (k : Z) : Prop :=
  graph_wf g /\ Z.of_nat (length (adjacency_cells g)) = k /\
  (forall eid, eid ∈ adjacency_cells g -> loaded_edge g eid) /\
  (NoDup (adjacency_cells g) -> adjacency_ok g).

(** ** Files in the format the loader expects *)

(** No character of [s] is white space. *)
Fixpoint no_space (s : string) : bool :=
  match s with
  | EmptyString => true
  | String c s' => negb (isspace c) && no_space s'
  end.

(** A key of the meta file: a word of at most 63 characters. *)
Definition meta_key (k : string) : Prop :=
  k <> EmptyString /\ no_space k = true /\ without "000" k = true /\
  (String.length k <= 63)%nat.

(** The meta file with one line [key value] for every entry. *)
Fixpoint meta_text (es : list (string * string)) : string :=
  match es with
  | [] => EmptyString
  | (k, v) :: rest => (k ++ " " ++ v ++ nl ++ meta_text rest)%string
  end.

(** The two counts after the entries [es], from the counts [n] and [m]:
    the last entry for a key decides, and other keys are ignored. *)
Fixpoint meta_counts (es : list (string * string)) (n m : Z) : Z * Z :=
  match es with
  | [] => (n, m)
  | (k, v) :: rest =>
    if String.eqb k "num_nodes" then meta_counts rest (digits_value v 0) m
    else if String.eqb k "num_edges" then meta_counts rest n (digits_value v 0)
    else meta_counts rest n m
  end.

(** A decimal number as it is written: an optional minus sign, digits,
    and an optional point with digits after it. *)
Record decimal : Type := mkDecimal {
  d_neg : bool;
  d_int : string;
  d_frac : option string
}.

Definition decimal_ok (d : decimal) : Prop :=
  is_int (d_int d) /\ all_digits (fraction_digits (d_frac d)) = true.

Definition decimal_text (d : decimal) : string :=
  (sign_text (d_neg d) ++ d_int d ++ fraction (d_frac d))%string.

Definition decimal_value (d : decimal) : double :=
  let v := (inject_Z (digits_value (fraction_digits (d_frac d))
                        (digits_value (d_int d) 0))
            * pow10 (0 - Z.of_nat (String.length (fraction_digits (d_frac d)))))%Q in
  if d_neg d then (- v)%Q else v.

(** A line [node_id,x,y] of the nodes file. *)
Definition node_row : Type := string * decimal * decimal.

Definition node_row_text (r : node_row) : string :=
  let '(id, cx, cy) := r in
  (id ++ "," ++ decimal_text cx ++ "," ++ decimal_text cy)%string.

Definition node_row_value (r : node_row) : Z * double * double :=
  let '(id, cx, cy) := r in (digits_value id 0, decimal_value cx, decimal_value cy).

Definition node_row_ok (r : node_row) : Prop :=
  let '(id, cx, cy) := r in
  is_int id /\ decimal_ok cx /\ decimal_ok cy /\
  (String.length (node_row_text r) <= 510)%nat.

(** A line [edge_id,from_node,to_node,base_length,base_speed_limit] of
    the edges file. *)
Definition edge_row : Type := string * string * string * decimal * decimal.

Definition edge_row_text (r : edge_row) : string :=
  let '(eid, from, to, len, speed) := r in
  (eid ++ "," ++ from ++ "," ++ to ++ "," ++ decimal_text len
   ++ "," ++ decimal_text speed)%string.

Definition edge_row_value (r : edge_row) : Z * Z * Z * double * double :=
  let '(eid, from, to, len, speed) := r in
  (digits_value eid 0, digits_value from 0, digits_value to 0,
   decimal_value len, decimal_value speed).

Definition edge_row_ok (r : edge_row) : Prop :=
  let '(eid, from, to, len, speed) := r in
  is_int eid /\ is_int from /\ is_int to /\ decimal_ok len /\ decimal_ok speed /\
  (String.length (edge_row_text r) <= 510)%nat.

(** The first line of a CSV file: any text of one line that fits the
    line buffer. *)
Definition header_ok (h : string) : Prop :=
  without "010" h = true /\ (String.length h <= 510)%nat.

(** What follows a field: the end of the line or a comma. *)
Definition field_end (rest : string) : Prop :=
  rest = EmptyString \/ exists r, rest = String "," r.

(** The rows of the files of a graph with two nodes and the edge
    0 -> 1 of length 11 and speed limit 1. *)
Definition sample_node_rows : list node_row :=
  [("0", mkDecimal false "0" None, mkDecimal false "0" None);
   ("1", mkDecimal false "11" None, mkDecimal false "0" None)]%string.

Definition sample_edge_rows : list edge_row :=
  [("0", "0", "1", mkDecimal false "11" None, mkDecimal false "1" None)]%string.

(** ** The files of a graph *)

(** The meta file with the two counts, and a CSV file with a header
    line and one line for every row. *)
Definition counts_file (N M : string) : option string :=
  Some (meta_text [("num_nodes", N); ("num_edges", M)]%string).

Definition csv_file {A : Type} (text : A -> string) (header : string)
    (rows : list A) : option string :=
  Some (header ++ nl ++ join_lines (map text rows))%string.

(** The graph of [sample_node_rows] and [sample_edge_rows] when the
    meta file announces two edges: the second slot of the edge table is
    never written. *)
Definition half_loaded_graph : Graph :=
  mkGraph [mkNode 0 0%Q 0%Q [0]; mkNode 1 (11#1)%Q 0%Q []]
          [mkEdge 0 0 1 (11#1)%Q 1%Q (11#1)%Q (11#1)%Q 0; junk_edge] 2 2.

(** * Lemmas and theorems *)

(** ** Integers *)

Lemma to_int_id (z : Z) : INT_MIN <= z <= INT_MAX -> to_int z = z.
Proof.
  unfold to_int, INT_MIN, INT_MAX. intros H.
  rewrite Z.mod_small by lia. lia.
Qed.

Lemma to_int_range (z : Z) : INT_MIN <= to_int z <= INT_MAX.
Proof.
  unfold to_int, INT_MIN, INT_MAX.
  pose proof (Z.mod_pos_bound (z - -2147483648) (2 ^ 32) ltac:(lia)). lia.
Qed.

Lemma scanf_int_id (z : Z) : INT_MIN <= z <= INT_MAX -> scanf_int z = z.
Proof.
  intros H. unfold scanf_int, strtol_value, LONG_MAX.
  rewrite Z.min_r, Z.max_r by (unfold INT_MIN, INT_MAX in H; lia).
  by apply to_int_id.
Qed.

(** ** Comparisons of doubles *)

Lemma dlt_true a b : dlt a b = true <-> (a < b)%Q.
Proof.
  unfold dlt. rewrite negb_true_iff, <- not_true_iff_false, Qle_bool_iff.
  split; [apply Qnot_le_lt | apply Qlt_not_le].
Qed.

Lemma dlt_false a b : dlt a b = false <-> (b <= a)%Q.
Proof. unfold dlt. rewrite negb_false_iff. apply Qle_bool_iff. Qed.

Lemma dle_true a b : dle a b = true <-> (a <= b)%Q.
Proof. apply Qle_bool_iff. Qed.

Lemma dle_false a b : dle a b = false <-> (b < a)%Q.
Proof.
  unfold dle. rewrite <- not_true_iff_false, Qle_bool_iff.
  split; [apply Qnot_le_lt | apply Qlt_not_le].
Qed.

Lemma deq_true a b : deq a b = true <-> (a == b)%Q.
Proof. apply Qeq_bool_iff. Qed.

Lemma deq_false a b : deq a b = false <-> ~ (a == b)%Q.
Proof. unfold deq. rewrite <- not_true_iff_false, Qeq_bool_iff. tauto. Qed.

(** ** Traffic updates *)

Lemma in_range_test (i n : Z) :
  (i <? 0) || (i >=? n) = false <-> 0 <= i < n.
Proof. rewrite orb_false_iff, Z.ltb_ge, Z.geb_leb, Z.leb_gt. lia. Qed.

Lemma out_of_range_test (i n : Z) :
  (i <? 0) || (i >=? n) = true <-> i < 0 \/ n <= i.
Proof. rewrite orb_true_iff, Z.ltb_lt, Z.geb_leb, Z.leb_le. lia. Qed.

Lemma graph_wf_edge (g : Graph) (eid : Z) :
  graph_wf g -> 0 <= eid < num_edges g ->
  exists e, edges g !! Z.to_nat eid = Some e.
Proof.
  intros [_ Hlen] Hr. apply lookup_lt_is_Some_2. lia.
Qed.

Lemma graph_wf_node (g : Graph) (i : Z) :
  graph_wf g -> 0 <= i < num_nodes g ->
  exists n, nodes g !! Z.to_nat i = Some n.
Proof.
  intros [Hlen _] Hr. apply lookup_lt_is_Some_2. lia.
Qed.

Lemma apply_update_ACK (g : Graph) (eid : Z) (s : double) (e : Edge) :
  0 <= eid < num_edges g -> (0 < s)%Q ->
  edges g !! Z.to_nat eid = Some e ->
  apply_update g eid s
  = Some (set_edges g (<[Z.to_nat eid := observe e s]> (edges g)), ACK).
Proof.
  intros Hr Hs He. unfold apply_update.
  apply in_range_test in Hr. rewrite Hr.
  apply dle_false in Hs. rewrite Hs.
  rewrite He. reflexivity.
Qed.

Lemma clamp_Qmax (s : double) :
  ((if dlt s min_speed then min_speed else s) == Qmax s min_speed)%Q.
Proof.
  destruct (dlt s min_speed) eqn:E.
  - apply dlt_true in E. rewrite Q.max_r; [reflexivity | lra].
  - apply dlt_false in E. rewrite Q.max_l; [reflexivity | lra].
Qed.

Lemma clamp_pos (s : double) :
  (0 < (if dlt s min_speed then min_speed else s))%Q.
Proof.
  destruct (dlt s min_speed) eqn:E.
  - reflexivity.
  - apply dlt_false in E. unfold min_speed in *. lra.
Qed.

Lemma observe_ema (e : Edge) (s : double) :
  (ema_travel_time (observe e s)
   == ema_alpha (observation_count e) * ema_measured (base_length e) s
      + (1 - ema_alpha (observation_count e)) * ema_travel_time e)%Q.
Proof.
  unfold observe, ema_measured. simpl. rewrite clamp_Qmax. reflexivity.
Qed.

Lemma set_edges_wf (g : Graph) (i : nat) (e : Edge) :
  graph_wf g -> graph_wf (set_edges g (<[i := e]> (edges g))).
Proof. intros [H1 H2]. split; simpl; [done | by rewrite length_insert]. Qed.

Lemma apply_update_cases (g : Graph) (eid : Z) (s : double) g' r :
  apply_update g eid s = Some (g', r) ->
  (r = ERR_BAD_EDGE /\ g' = g /\ (eid < 0 \/ num_edges g <= eid)) \/
  (r = ERR_BAD_SPEED /\ g' = g /\ 0 <= eid < num_edges g /\ (s <= 0)%Q) \/
  (r = ACK /\ 0 <= eid < num_edges g /\ (0 < s)%Q /\
   exists e, edges g !! Z.to_nat eid = Some e /\
     g' = set_edges g (<[Z.to_nat eid := observe e s]> (edges g))).
Proof.
  unfold apply_update.
  destruct ((eid <? 0) || (eid >=? num_edges g)) eqn:Hr.
  { intros [= <- <-]. left. apply out_of_range_test in Hr. auto. }
  apply in_range_test in Hr.
  destruct (dle s 0%Q) eqn:Hs.
  { intros [= <- <-]. right; left. apply dle_true in Hs. auto. }
  apply dle_false in Hs.
  destruct (edges g !! Z.to_nat eid) as [e|] eqn:He; simpl; [|done].
  intros [= <- <-]. right; right. repeat split; try lia; try done.
  exists e. split; [done|]. reflexivity.
Qed.

(** C5.  [apply_update] answers [ERR BAD_EDGE] exactly for an edge id
    outside [0, num_edges); for an id inside, it answers [ERR BAD_SPEED]
    exactly for a speed [<= 0]; a positive speed is accepted, and the
    travel time it is mixed in with is [base_length / speed] for a
    speed of at least [1e-6] and [base_length / 1e-6] for a smaller
    one, the update of the edge being otherwise the same and no other
    edge being touched; and whenever either error is answered the graph
    is returned unchanged. *)
Theorem apply_update_errors (g : Graph) (eid : Z) (s : double) :
  ((exists g', apply_update g eid s = Some (g', ERR_BAD_EDGE))
   <-> (eid < 0 \/ num_edges g <= eid)) /\
  (0 <= eid < num_edges g ->
   ((exists g', apply_update g eid s = Some (g', ERR_BAD_SPEED))
    <-> (s <= 0)%Q)) /\
  (graph_wf g -> 0 <= eid < num_edges g -> (0 < s)%Q ->
   exists g' e e',
     apply_update g eid s = Some (g', ACK) /\
     edges g !! Z.to_nat eid = Some e /\
     edges g' !! Z.to_nat eid = Some e' /\
     ((s < 1 # 1000000)%Q ->
      ema_travel_time e'
      = ((if observation_count e =? 0 then 1 else 2 # 10)
         * (base_length e / (1 # 1000000))
         + (1 - (if observation_count e =? 0 then 1 else 2 # 10))
           * ema_travel_time e)%Q /\
      apply_update g eid s = apply_update g eid (1 # 1000000)%Q) /\
     ((1 # 1000000 <= s)%Q ->
      ema_travel_time e'
      = ((if observation_count e =? 0 then 1 else 2 # 10)
         * (base_length e / s)
         + (1 - (if observation_count e =? 0 then 1 else 2 # 10))
           * ema_travel_time e)%Q) /\
     current_travel_time e' = ema_travel_time e' /\
     observation_count e' = to_int (observation_count e + 1) /\
     base_length e' = base_length e /\
     base_speed_limit e' = base_speed_limit e /\
     (forall i, i <> Z.to_nat eid -> edges g' !! i = edges g !! i)) /\
  (forall g' r, apply_update g eid s = Some (g', r) ->
   r = ERR_BAD_EDGE \/ r = ERR_BAD_SPEED -> g' = g).
Proof.
  split; [split|split; [|split]].
  - intros [g' H]. apply apply_update_cases in H.
    destruct H as [(_ & _ & H)|[(H & _)|(H & _)]]; [done|discriminate..].
  - intros H. exists g. unfold apply_update.
    apply out_of_range_test in H. by rewrite H.
  - intros Hr. split.
    + intros [g' H]. apply apply_update_cases in H.
      destruct H as [(H & _)|[(_ & _ & _ & H)|(H & _)]];
        [discriminate|done|discriminate].
    + intros Hs. exists g. unfold apply_update.
      apply in_range_test in Hr. rewrite Hr.
      apply dle_true in Hs. by rewrite Hs.
  - intros Hwf Hr Hpos.
    destruct (graph_wf_edge g eid Hwf Hr) as [e He].
    exists (set_edges g (<[Z.to_nat eid := observe e s]> (edges g))), e,
      (observe e s).
    split; [by apply apply_update_ACK|]. split; [done|]. split.
    { apply list_lookup_insert_eq. by eapply lookup_lt_Some. }
    split; [|split; [|split; [done|split; [done|split; [done|split; [done|]]]]]].
    + intros Hlt. split.
      * unfold observe, ema_alpha, min_speed. cbn [ema_travel_time].
        replace (dlt s (1 # 1000000)) with true; [done|].
        symmetry. by apply dlt_true.
      * rewrite (apply_update_ACK g eid s e), (apply_update_ACK g eid _ e);
          try done.
        do 4 f_equal. unfold observe, min_speed.
        replace (dlt s (1 # 1000000)) with true
          by (symmetry; by apply dlt_true).
        replace (dlt (1 # 1000000) (1 # 1000000)) with false; [done|].
        symmetry. apply dlt_false. lra.
    + intros Hge. unfold observe, ema_alpha, min_speed. cbn [ema_travel_time].
      replace (dlt s (1 # 1000000)) with false; [done|].
      symmetry. by apply dlt_false.
    + intros i Hi. cbn [edges set_edges]. by rewrite list_lookup_insert_ne.
  - intros g' r H Hr. apply apply_update_cases in H.
    destruct H as [(_ & H & _)|[(_ & H & _)|(H & _)]]; [done|done|].
    subst r. destruct Hr; discriminate.
Qed.

Lemma apply_update_errors_witness :
  exists g' e',
    apply_update one_edge_graph 0 (1 # 10000000)%Q = Some (g', ACK) /\
    edges g' !! Z.to_nat 0 = Some e' /\
    (ema_travel_time e' == 11000000)%Q /\
    (current_travel_time e' == 11000000)%Q /\
    observation_count e' = 1.
Proof.
  destruct (apply_update_errors one_edge_graph 0 (1 # 10000000)%Q)
    as (_ & _ & Hclamp & _).
  destruct Hclamp as (g' & e & e' & Hrun & He & He' & Hlow & _ & Hcur & Hcnt & _).
  - split; reflexivity.
  - cbn; lia.
  - reflexivity.
  - injection He as <-. destruct (Hlow ltac:(reflexivity)) as [Hema _].
    exists g', e'. split; [exact Hrun|]. split; [exact He'|].
    rewrite Hcur, Hema, Hcnt. split; [reflexivity|]. split; reflexivity.
Defined.

Lemma ema_recurrence_proper (len : Q) (speeds : list Q) :
  forall n a b, (a == b)%Q ->
  (ema_recurrence len n a speeds == ema_recurrence len n b speeds)%Q.
Proof.
  induction speeds as [|s rest IH]; intros n a b Hab; simpl; [done|].
  apply IH. rewrite Hab. reflexivity.
Qed.

Lemma ema_alpha_of_nat (n : nat) :
  ema_alpha (Z.of_nat n) = match n with O => 1%Q | S _ => (2 # 10)%Q end.
Proof. destruct n; reflexivity. Qed.

(** Repeated observations of one edge: the general step of C3. *)
Lemma apply_updates_same_edge (eid : Z) (speeds : list double) :
  forall (g : Graph) (e : Edge) (n : nat),
  graph_wf g -> 0 <= eid < num_edges g ->
  edges g !! Z.to_nat eid = Some e ->
  observation_count e = Z.of_nat n ->
  ema_travel_time e = current_travel_time e ->
  Forall (fun s => (0 < s)%Q) speeds ->
  Z.of_nat (n + length speeds) <= INT_MAX ->
  exists g' e',
    apply_updates g (map (pair eid) speeds) = Some g' /\
    graph_wf g' /\ num_edges g' = num_edges g /\
    edges g' !! Z.to_nat eid = Some e' /\
    base_length e' = base_length e /\
    (current_travel_time e'
     == ema_recurrence (base_length e) n (ema_travel_time e) speeds)%Q /\
    current_travel_time e' = ema_travel_time e' /\
    observation_count e' = Z.of_nat (n + length speeds).
Proof.
  induction speeds as [|s rest IH]; intros g e n Hwf Hr He Hn Hec Hpos Hmax.
  - exists g, e. simpl. rewrite Nat.add_0_r, Hec. repeat split; try done.
    apply Hwf. apply Hwf.
  - apply Forall_cons in Hpos as [Hs Hpos]. simpl. simpl in Hmax.
    rewrite (apply_update_ACK g eid s e) by done. simpl.
    set (g1 := set_edges g _).
    assert (He1 : edges g1 !! Z.to_nat eid = Some (observe e s)).
    { apply list_lookup_insert_eq. by eapply lookup_lt_Some. }
    destruct (IH g1 (observe e s) (S n)) as (g' & e' & Hrun & Hwf' & Hne & He' & Hlen & Hcur & Heq & Hcnt);
      try done.
    + by apply set_edges_wf.
    + simpl. rewrite Hn, to_int_id by (unfold INT_MIN; lia). lia.
    + lia.
    + exists g', e'. repeat split; try done; try apply Hwf'.
      * rewrite Hcur. simpl base_length.
        apply ema_recurrence_proper.
        rewrite observe_ema, Hn, ema_alpha_of_nat. reflexivity.
      * rewrite Hcnt. f_equal. simpl. lia.
Qed.

(** The count after a run of accepted observations of one edge, of any
    length: the low 32 bits of the number of observations. *)
Lemma apply_updates_count (eid : Z) (speeds : list double) :
  forall (g : Graph) (e : Edge),
  graph_wf g -> 0 <= eid < num_edges g ->
  edges g !! Z.to_nat eid = Some e ->
  INT_MIN <= observation_count e <= INT_MAX ->
  Forall (fun s => (0 < s)%Q) speeds ->
  exists g' e',
    apply_updates g (map (pair eid) speeds) = Some g' /\
    edges g' !! Z.to_nat eid = Some e' /\
    observation_count e'
    = to_int (observation_count e + Z.of_nat (length speeds)).
Proof.
  induction speeds as [|s rest IH]; intros g e Hwf Hr He Hc Hpos.
  - exists g, e. split; [done|]. split; [done|].
    cbn [length Z.of_nat]. by rewrite Z.add_0_r, to_int_id.
  - apply Forall_cons in Hpos as [Hs Hpos]. cbn [map apply_updates].
    rewrite (apply_update_ACK g eid s e) by done. cbn [mbind option_bind].
    set (g1 := set_edges g _).
    assert (He1 : edges g1 !! Z.to_nat eid = Some (observe e s)).
    { apply list_lookup_insert_eq. by eapply lookup_lt_Some. }
    destruct (IH g1 (observe e s)) as (g' & e' & Hrun & He' & Hcnt); try done.
    + by apply set_edges_wf.
    + apply to_int_range.
    + exists g', e'. split; [done|]. split; [done|]. rewrite Hcnt.
      cbn [observe observation_count length].
      unfold to_int. rewrite Nat2Z.inj_succ. f_equal.
      replace ((observation_count e + 1 - INT_MIN) mod 2 ^ 32 + INT_MIN
               + Z.of_nat (length rest) - INT_MIN)
        with ((observation_count e + 1 - INT_MIN) mod 2 ^ 32
              + Z.of_nat (length rest)) by lia.
      rewrite Zplus_mod_idemp_l. f_equal. lia.
Qed.

(** C3, amended.  On an edge as construction leaves it, a run of at
    most [INT_MAX] positive observations leaves [current_travel_time]
    equal to the EMA recurrence of the specification (weight 1 first,
    0.2 afterwards, speeds floored at [1e-6]); [current_travel_time] is
    [ema_travel_time], and [observation_count] is the number of
    updates.  The statement holds for every such run, hence after each
    update of a longer one. *)
Theorem ema_recurrence_of_updates
    (g : Graph) (eid : Z) (e : Edge) (speeds : list double) :
  graph_wf g -> 0 <= eid < num_edges g ->
  edges g !! Z.to_nat eid = Some e ->
  fresh_edge e ->
  Forall (fun s => (0 < s)%Q) speeds ->
  Z.of_nat (length speeds) <= INT_MAX ->
  exists g' e',
    apply_updates g (map (pair eid) speeds) = Some g' /\
    edges g' !! Z.to_nat eid = Some e' /\
    (current_travel_time e'
     == ema_recurrence (base_length e) 0
          (base_length e / base_speed_limit e) speeds)%Q /\
    current_travel_time e' = ema_travel_time e' /\
    observation_count e' = Z.of_nat (length speeds).
Proof.
  intros Hwf Hr He (Hc & Hec & Hinit) Hpos Hmax.
  destruct (apply_updates_same_edge eid speeds g e 0 Hwf Hr He Hc Hec Hpos Hmax)
    as (g' & e' & Hrun & _ & _ & He' & _ & Hcur & Heq & Hcnt).
  exists g', e'. repeat split; try done.
  rewrite Hcur. apply ema_recurrence_proper. rewrite Hec. exact Hinit.
Qed.

Lemma ema_recurrence_of_updates_witness :
  exists g' e',
    apply_updates one_edge_graph (map (pair 0) [(11 # 1)%Q; (1 # 2)%Q]) = Some g' /\
    edges g' !! Z.to_nat 0 = Some e' /\
    (current_travel_time e'
     == ema_recurrence (11 # 1) 0 ((11 # 1) / 1) [(11 # 1)%Q; (1 # 2)%Q])%Q /\
    current_travel_time e' = ema_travel_time e' /\
    observation_count e' = Z.of_nat 2.
Proof.
  apply (ema_recurrence_of_updates one_edge_graph 0
           (mkEdge 0 0 1 (11#1)%Q 1%Q (11#1)%Q (11#1)%Q 0)).
  - split; reflexivity.
  - cbn; lia.
  - reflexivity.
  - repeat split.
  - repeat constructor.
  - vm_compute. discriminate.
Defined.

(** C3 as stated fails for long runs: [observation_count] is an [int],
    and after 2^31 accepted observations of the edge it holds
    [INT_MIN], not their number. *)
Lemma ema_recurrence_of_updates_counterexample :
  fresh_edge sample_edge /\
  edges one_edge_graph !! Z.to_nat 0 = Some sample_edge /\
  Forall (fun s => (0 < s)%Q) (replicate (Z.to_nat 2147483648) 1%Q) /\
  exists g' e',
    apply_updates one_edge_graph
      (map (pair 0) (replicate (Z.to_nat 2147483648) 1%Q)) = Some g' /\
    edges g' !! Z.to_nat 0 = Some e' /\
    observation_count e' = -2147483648 /\
    observation_count e'
    <> Z.of_nat (length (replicate (Z.to_nat 2147483648) 1%Q)).
Proof.
  remember (Z.to_nat 2147483648) as N eqn:EN.
  assert (HN : Z.of_nat N = 2147483648) by (rewrite EN; apply Z2Nat.id; lia).
  assert (Hpos : Forall (fun s => (0 < s)%Q) (replicate N 1%Q)).
  { apply Forall_replicate. reflexivity. }
  split; [split; [reflexivity|split; reflexivity]|]. split; [reflexivity|].
  split; [exact Hpos|].
  destruct (apply_updates_count 0 (replicate N 1%Q) one_edge_graph sample_edge)
    as (g' & e' & Hrun & He' & Hcnt).
  { split; reflexivity. }
  { split; reflexivity. }
  { reflexivity. }
  { split; discriminate. }
  { exact Hpos. }
  exists g', e'. split; [exact Hrun|]. split; [exact He'|].
  rewrite length_replicate in Hcnt |- *. rewrite HN in Hcnt |- *.
  rewrite Hcnt. split; [reflexivity|discriminate].
Qed.

Lemma Qdiv_le_denominator (a b c : Q) :
  (0 <= a)%Q -> (0 < b)%Q -> (b <= c)%Q -> (a / c <= a / b)%Q.
Proof.
  intros Ha Hb Hbc.
  assert (Hc : (0 < c)%Q) by lra.
  apply Qle_shift_div_r; [done|].
  assert (H : (a / b * c == a + a / b * (c - b))%Q) by (field; lra).
  rewrite H.
  assert (0 <= a / b * (c - b))%Q; [|lra].
  apply Qmult_le_0_compat; [|lra].
  apply Qle_shift_div_l; [done|lra].
Qed.

Lemma ema_alpha_range (c : Z) : (0 <= ema_alpha c <= 1)%Q.
Proof. unfold ema_alpha. destruct (c =? 0); lra. Qed.

Lemma convex_lower_bound (alpha m x b : Q) :
  (0 <= alpha <= 1)%Q -> (b <= m)%Q -> (b <= x)%Q ->
  (b <= alpha * m + (1 - alpha) * x)%Q.
Proof.
  intros Ha Hm Hx.
  assert (H : (alpha * m + (1 - alpha) * x
               == b + (alpha * (m - b) + (1 - alpha) * (x - b)))%Q) by ring.
  rewrite H.
  assert (0 <= alpha * (m - b))%Q by (apply Qmult_le_0_compat; lra).
  assert (0 <= (1 - alpha) * (x - b))%Q by (apply Qmult_le_0_compat; lra).
  lra.
Qed.

(** One accepted observation at or below the speed limit keeps the
    travel time at or above its base value. *)
Lemma observe_lower_bound (e : Edge) (s : double) :
  (0 <= base_length e)%Q -> (0 < s)%Q ->
  (Qmax s min_speed <= base_speed_limit e)%Q ->
  (base_length e / base_speed_limit e <= ema_travel_time e)%Q ->
  (base_length e / base_speed_limit e <= ema_travel_time (observe e s))%Q.
Proof.
  intros Hlen Hs Hlim Hema. rewrite observe_ema.
  apply convex_lower_bound; [apply ema_alpha_range| |done].
  unfold ema_measured. apply Qdiv_le_denominator; [done| |done].
  apply Qlt_le_trans with s; [done|apply Q.le_max_l].
Qed.

Lemma max_speed_step_ge (es : list Edge) :
  forall acc, (acc <= fold_left max_speed_step es acc)%Q.
Proof.
  induction es as [|e es IH]; intros acc; simpl; [lra|].
  eapply Qle_trans; [|apply IH]. unfold max_speed_step.
  destruct (dlt acc (base_speed_limit e)) eqn:E; [|lra].
  apply dlt_true in E. lra.
Qed.

Lemma max_speed_step_bound (es : list Edge) :
  forall acc e, In e es -> (base_speed_limit e <= fold_left max_speed_step es acc)%Q.
Proof.
  induction es as [|e0 es IH]; intros acc e Hin; [destruct Hin|].
  destruct Hin as [->|Hin]; simpl; [|by apply IH].
  eapply Qle_trans; [|apply max_speed_step_ge]. unfold max_speed_step.
  destruct (dlt acc (base_speed_limit e)) eqn:E; [lra|].
  by apply dlt_false in E.
Qed.

(** [max_speed] is at least the speed limit of every edge of the table. *)
Lemma max_speed_bound (g : Graph) (i : nat) (e : Edge) :
  edges g !! i = Some e -> Z.of_nat i < num_edges g ->
  (base_speed_limit e <= max_speed g)%Q.
Proof.
  intros He Hi. unfold max_speed. apply max_speed_step_bound.
  apply list_elem_of_In, list_elem_of_lookup. exists i.
  rewrite lookup_take_lt; [done|lia].
Qed.

(** What one [apply_update] does to the edge in slot [i]. *)
Lemma apply_update_edge (g g' : Graph) (eid : Z) (s : double) (r : string)
    (i : nat) (e : Edge) :
  apply_update g eid s = Some (g', r) ->
  edges g !! i = Some e ->
  num_edges g' = num_edges g /\ length (edges g') = length (edges g) /\
  nodes g' = nodes g /\ num_nodes g' = num_nodes g /\
  (edges g' !! i = Some e \/
   (i = Z.to_nat eid /\ 0 <= eid /\ (0 < s)%Q /\ edges g' !! i = Some (observe e s))).
Proof.
  intros H He. apply apply_update_cases in H.
  destruct H as [(_ & -> & _)|[(_ & -> & _)|(_ & Hr & Hs & e0 & He0 & ->)]];
    [repeat split; by auto..|].
  simpl. rewrite length_insert. repeat split; try done.
  destruct (decide (i = Z.to_nat eid)) as [->|Hne].
  - right. rewrite He in He0. injection He0 as <-.
    repeat split; try done; try lia.
    apply list_lookup_insert_eq. by eapply lookup_lt_Some.
  - left. by rewrite list_lookup_insert_ne.
Qed.

Lemma observe_fields (e : Edge) (s : double) :
  base_length (observe e s) = base_length e /\
  base_speed_limit (observe e s) = base_speed_limit e /\
  current_travel_time (observe e s) = ema_travel_time (observe e s) /\
  observation_count (observe e s) = to_int (observation_count e + 1) /\
  to_node (observe e s) = to_node e /\ from_node (observe e s) = from_node e.
Proof. done. Qed.

Lemma apply_updates_lower_bound (ups : list (Z * double)) :
  forall (g g' : Graph) (i : nat) (e : Edge),
  apply_updates g ups = Some g' ->
  (forall s, In (Z.of_nat i, s) ups -> (0 < s)%Q ->
     (Qmax s min_speed <= base_speed_limit e)%Q) ->
  edges g !! i = Some e ->
  (0 <= base_length e)%Q ->
  (base_length e / base_speed_limit e <= ema_travel_time e)%Q ->
  (base_length e / base_speed_limit e <= current_travel_time e)%Q ->
  num_edges g' = num_edges g /\
  exists e', edges g' !! i = Some e' /\
    base_length e' = base_length e /\
    base_speed_limit e' = base_speed_limit e /\
    (base_length e / base_speed_limit e <= ema_travel_time e')%Q /\
    (base_length e / base_speed_limit e <= current_travel_time e')%Q.
Proof.
  induction ups as [|[eid s] rest IH]; intros g g' i e Hrun Hups He Hlen Hema Hcur.
  - injection Hrun as <-. split; [done|]. by exists e.
  - simpl in Hrun.
    destruct (apply_update g eid s) as [[g1 r]|] eqn:Hup; [|done].
    simpl in Hrun.
    destruct (apply_update_edge g g1 eid s r i e Hup He)
      as (Hn & _ & _ & _ & [He1|(Hi & Hr & Hs & He1)]).
    + destruct (IH g1 g' i e Hrun) as (Hn' & e' & H'); try done.
      * intros s' Hin. apply Hups. by right.
      * split; [congruence|]. by exists e'.
    + assert (Heid : eid = Z.of_nat i) by lia. subst eid.
      assert (Hb : (base_length e / base_speed_limit e
                    <= ema_travel_time (observe e s))%Q).
      { apply observe_lower_bound; try done. apply (Hups s); try done. by left. }
      destruct (IH g1 g' i (observe e s) Hrun) as (Hn' & e' & H'); try done.
      * intros s' Hin. apply Hups. by right.
      * split; [congruence|]. by exists e'.
Qed.

(** C2, amended.  Take an edge of non-negative length whose travel
    times are at least [base_length / base_speed_limit], as after
    [graph_add_edge].  After any run of updates in which every accepted
    speed for this edge (an update with the id of the edge and a
    positive speed), floored at [1e-6], is at most the edge's speed
    limit, [current_travel_time] is still at least
    [base_length / base_speed_limit], and hence at least
    [base_length / max_speed]. *)
Theorem travel_time_lower_bound
    (g g' : Graph) (ups : list (Z * double)) (i : nat) (e : Edge) :
  apply_updates g ups = Some g' ->
  edges g !! i = Some e ->
  Z.of_nat i < num_edges g ->
  (0 <= base_length e)%Q ->
  (0 < base_speed_limit e)%Q ->
  (base_length e / base_speed_limit e <= ema_travel_time e)%Q ->
  (base_length e / base_speed_limit e <= current_travel_time e)%Q ->
  (forall s, In (Z.of_nat i, s) ups -> (0 < s)%Q ->
     (Qmax s min_speed <= base_speed_limit e)%Q) ->
  exists e', edges g' !! i = Some e' /\
    (base_length e / base_speed_limit e <= current_travel_time e')%Q /\
    (base_length e / max_speed g' <= current_travel_time e')%Q.
Proof.
  intros Hrun He Hi Hlen Hlim Hema Hcur Hups.
  destruct (apply_updates_lower_bound ups g g' i e Hrun Hups He Hlen Hema Hcur)
    as (Hn & e' & He' & _ & Hl' & _ & Hcur').
  exists e'. repeat split; try done.
  eapply Qle_trans; [|exact Hcur'].
  apply Qdiv_le_denominator; try done.
  rewrite <- Hl'. apply (max_speed_bound g' i e' He'). lia.
Qed.

Lemma travel_time_lower_bound_witness :
  exists e', edges one_edge_graph_slow !! 0%nat = Some e' /\
    (base_length sample_edge / base_speed_limit sample_edge
     <= current_travel_time e')%Q /\
    (base_length sample_edge / max_speed one_edge_graph_slow
     <= current_travel_time e')%Q.
Proof.
  apply (travel_time_lower_bound one_edge_graph one_edge_graph_slow
           [(0, (1 # 2)%Q)] 0%nat sample_edge).
  - reflexivity.
  - reflexivity.
  - reflexivity.
  - discriminate.
  - reflexivity.
  - discriminate.
  - discriminate.
  - intros s [[= <-]|[]] _. discriminate.
Defined.

(** C2 as stated fails: one observation above the speed limit. *)
Lemma travel_time_lower_bound_counterexample :
  exists g g' e',
    build_graph 2 1 [(0, 0%Q, 0%Q); (1, (11 # 1)%Q, 0%Q)]
      [(0, 0, 1, (11 # 1)%Q, 1%Q)] = Some g /\
    apply_update g 0 (11 # 1)%Q = Some (g', ACK) /\
    edges g' !! 0%nat = Some e' /\
    (current_travel_time e' < base_length e' / base_speed_limit e')%Q.
Proof.
  do 3 eexists. split; [reflexivity|]. split; [reflexivity|].
  split; [reflexivity|]. reflexivity.
Qed.

Lemma ema_shrink_range (k : nat) : forall c, (0 <= ema_shrink c k <= 1)%Q.
Proof.
  induction k as [|k IH]; intros c; simpl; [lra|].
  pose proof (ema_alpha_range c) as Ha. pose proof (IH (to_int (c + 1))) as Hk.
  set (c1 := to_int (c + 1)) in *.
  split.
  - apply Qmult_le_0_compat; lra.
  - assert (H : (1 - (1 - ema_alpha c) * ema_shrink c1 k
                 == ema_alpha c + (1 - ema_alpha c) * (1 - ema_shrink c1 k))%Q) by ring.
    assert (0 <= (1 - ema_alpha c) * (1 - ema_shrink c1 k))%Q
      by (apply Qmult_le_0_compat; lra).
    lra.
Qed.

Lemma ema_shrink_decreasing (k : nat) :
  forall c, (ema_shrink c (S k) <= ema_shrink c k)%Q.
Proof.
  induction k as [|k IH]; intros c.
  - simpl. pose proof (ema_alpha_range c). lra.
  - change (ema_shrink c (S (S k)))
      with ((1 - ema_alpha c) * ema_shrink (to_int (c + 1)) (S k))%Q.
    change (ema_shrink c (S k))
      with ((1 - ema_alpha c) * ema_shrink (to_int (c + 1)) k)%Q.
    rewrite !(Qmult_comm (1 - ema_alpha c)).
    apply Qmult_le_compat_r; [apply IH|].
    pose proof (ema_alpha_range c). lra.
Qed.

Lemma apply_updates_converge (eid : Z) (s : double) (k : nat) :
  forall (g : Graph) (e : Edge),
  graph_wf g -> 0 <= eid < num_edges g ->
  edges g !! Z.to_nat eid = Some e -> (0 < s)%Q ->
  exists g' e',
    apply_updates g (replicate k (eid, s)) = Some g' /\
    edges g' !! Z.to_nat eid = Some e' /\
    (ema_travel_time e' - ema_measured (base_length e) s
     == ema_shrink (observation_count e) k
        * (ema_travel_time e - ema_measured (base_length e) s))%Q.
Proof.
  induction k as [|k IH]; intros g e Hwf Hr He Hs.
  - exists g, e. simpl. repeat split; try done. ring.
  - simpl. rewrite (apply_update_ACK g eid s e) by done. simpl.
    set (g1 := set_edges g _).
    destruct (IH g1 (observe e s)) as (g' & e' & Hrun & He' & Heq); try done.
    + by apply set_edges_wf.
    + apply list_lookup_insert_eq. by eapply lookup_lt_Some.
    + exists g', e'. repeat split; try done.
      simpl base_length in Heq. simpl observation_count in Heq.
      rewrite Heq, observe_ema. ring.
Qed.

(** C9, amended.  Repeating [UPD e s] for a positive [s] moves
    [ema_travel_time] towards [base_length / max(s, 1e-6)], which is
    [base_length / s] when [s >= 1e-6]: after [k] updates the signed
    distance to that value is the initial one times the product of the
    factors [1 - alpha] (alpha 1 for a first observation, when the
    count is 0, and 0.2 afterwards); the product lies in [0, 1] and
    never grows with [k]. *)
Theorem ema_converges (g : Graph) (eid : Z) (e : Edge) (s : double) (k : nat) :
  graph_wf g -> 0 <= eid < num_edges g ->
  edges g !! Z.to_nat eid = Some e -> (0 < s)%Q ->
  exists g' e',
    apply_updates g (replicate k (eid, s)) = Some g' /\
    edges g' !! Z.to_nat eid = Some e' /\
    (ema_travel_time e' - ema_measured (base_length e) s
     == ema_shrink (observation_count e) k
        * (ema_travel_time e - ema_measured (base_length e) s))%Q /\
    (Qabs (ema_travel_time e' - ema_measured (base_length e) s)
     == ema_shrink (observation_count e) k
        * Qabs (ema_travel_time e - ema_measured (base_length e) s))%Q /\
    (0 <= ema_shrink (observation_count e) k <= 1)%Q /\
    (ema_shrink (observation_count e) (S k)
     <= ema_shrink (observation_count e) k)%Q /\
    ((min_speed <= s)%Q ->
     (ema_measured (base_length e) s == base_length e / s)%Q).
Proof.
  intros Hwf Hr He Hs.
  destruct (apply_updates_converge eid s k g e Hwf Hr He Hs)
    as (g' & e' & Hrun & He' & Heq).
  exists g', e'. repeat split; try done; try apply ema_shrink_range.
  - rewrite Heq, Qabs_Qmult.
    rewrite (Qabs_pos (ema_shrink _ _)); [reflexivity|apply ema_shrink_range].
  - apply ema_shrink_decreasing.
  - intros Hm. unfold ema_measured. rewrite Q.max_l; [reflexivity|done].
Qed.

Lemma ema_converges_witness :
  exists g' e',
    apply_updates one_edge_graph (replicate 3 (0, (1 # 2)%Q)) = Some g' /\
    edges g' !! Z.to_nat 0 = Some e' /\
    (ema_travel_time e' - ema_measured (11 # 1) (1 # 2)
     == ema_shrink 0 3 * ((11 # 1) - ema_measured (11 # 1) (1 # 2)))%Q /\
    (Qabs (ema_travel_time e' - ema_measured (11 # 1) (1 # 2))
     == ema_shrink 0 3 * Qabs ((11 # 1) - ema_measured (11 # 1) (1 # 2)))%Q /\
    (0 <= ema_shrink 0 3 <= 1)%Q /\
    (ema_shrink 0 4 <= ema_shrink 0 3)%Q /\
    ((min_speed <= 1 # 2)%Q ->
     (ema_measured (11 # 1) (1 # 2) == (11 # 1) / (1 # 2))%Q).
Proof.
  apply (ema_converges one_edge_graph 0 sample_edge (1 # 2)%Q 3).
  - split; reflexivity.
  - cbn; lia.
  - reflexivity.
  - reflexivity.
Defined.

(** C9 as stated fails for a positive speed below the floor: the
    values do not approach [base_length / s]. *)
Lemma ema_converges_counterexample :
  exists g' e',
    apply_update one_edge_graph 0 (1 # 10000000)%Q = Some (g', ACK) /\
    edges g' !! 0%nat = Some e' /\
    ~ (Qabs (ema_travel_time e' - base_length e' / (1 # 10000000))
       == (1 - ema_alpha 0)
          * Qabs ((11 # 1) - base_length e' / (1 # 10000000)))%Q.
Proof.
  do 2 eexists. split; [reflexivity|]. split; [reflexivity|].
  intros H. vm_compute in H. discriminate H.
Qed.

(** ** Reading a command *)

Arguments isdigit : simpl never.
Arguments isspace : simpl never.
Arguments digit_val : simpl never.

Lemma string_app_assoc (a b c : string) :
  ((a ++ b) ++ c = a ++ (b ++ c))%string.
Proof. induction a as [|x a IH]; simpl; [done|by rewrite IH]. Qed.

Lemma trim_crlf_app_crlf (s t : string) :
  crlf_only t = true -> trim_crlf (s ++ t) = trim_crlf s.
Proof.
  intros Ht. induction s as [|c s IH]; simpl.
  - induction t as [|c t IHt]; [done|].
    simpl in Ht. apply andb_true_iff in Ht as [Hc Ht].
    simpl. rewrite (IHt Ht), Hc. done.
  - by rewrite IH.
Qed.

Lemma trim_crlf_id (s : string) : last_not_crlf s -> trim_crlf s = s.
Proof.
  intros (s' & c & -> & Hc). induction s' as [|c' s' IH]; simpl.
  - by rewrite Hc.
  - rewrite IH. destruct s'; done.
Qed.

Lemma isdigit_not_crlf (c : ascii) :
  isdigit c = true -> (Ascii.eqb c "010" || Ascii.eqb c "013") = false.
Proof.
  unfold isdigit. intros H.
  destruct (Ascii.eqb_spec c "010") as [->|_]; [discriminate H|].
  destruct (Ascii.eqb_spec c "013") as [->|_]; [discriminate H|done].
Qed.

Lemma isdigit_not_space (c : ascii) : isdigit c = true -> isspace c = false.
Proof.
  unfold isdigit, isspace. intros H.
  apply andb_true_iff in H as [H1 H2].
  apply Nat.leb_le in H1. apply Nat.leb_le in H2.
  apply orb_false_iff. split.
  - apply Nat.eqb_neq. lia.
  - apply andb_false_iff. right. apply Nat.leb_gt. lia.
Qed.

Lemma is_int_last (s t : string) :
  is_int s -> last_not_crlf (t ++ s).
Proof.
  intros [Hd Hne]. revert t.
  induction s as [|c s IH]; [done|]. intros t.
  simpl in Hd. apply andb_true_iff in Hd as [Hc Hd].
  destruct s as [|c' s].
  - exists t, c. split; [done|]. by apply isdigit_not_crlf.
  - destruct (IH Hd ltac:(done) (t ++ String c EmptyString)%string)
      as (s' & c0 & Heq & Hc0).
    exists s', c0. split; [|done].
    rewrite <- Heq, string_app_assoc. done.
Qed.

(** [scan_digits] reads a whole digit string when what follows does not
    start with a digit. *)
Lemma scan_digits_app (s rest : string) :
  all_digits s = true -> no_digit_ahead rest ->
  forall acc n,
  scan_digits (s ++ rest) acc n = (digits_value s acc, (n + String.length s)%nat, rest).
Proof.
  intros Hd Hrest. induction s as [|c s IH]; intros acc n; simpl.
  - rewrite Nat.add_0_r. destruct rest as [|c r]; [done|].
    simpl in Hrest. simpl. by rewrite Hrest.
  - simpl in Hd. apply andb_true_iff in Hd as [Hc Hd].
    rewrite Hc, (IH Hd). f_equal. f_equal. lia.
Qed.

Lemma is_int_length (s : string) : is_int s -> (String.length s =? 0)%nat = false.
Proof. intros [_ Hne]. destruct s; done. Qed.

Lemma is_int_head (s rest : string) :
  is_int s -> exists c r, (s ++ rest)%string = String c r /\ isdigit c = true.
Proof.
  intros [Hd Hne]. destruct s as [|c s]; [done|].
  simpl in Hd. apply andb_true_iff in Hd as [Hc _].
  by exists c, (s ++ rest)%string.
Qed.

Lemma isdigit_not_sign (c : ascii) (r : string) :
  isdigit c = true -> scan_sign (String c r) = (false, String c r).
Proof.
  intros H. unfold scan_sign.
  destruct (Ascii.eqb_spec c "-") as [->|H1]; [discriminate H|].
  destruct (Ascii.eqb_spec c "+") as [->|H2]; [discriminate H|].
  destruct c as [[] [] [] [] [] [] [] []]; try done.
Qed.

Lemma digits_value_nonneg (s : string) :
  all_digits s = true -> forall acc, 0 <= acc -> 0 <= digits_value s acc.
Proof.
  induction s as [|c s IH]; intros Hs acc Hacc; cbn [digits_value]; [done|].
  cbn [all_digits] in Hs. apply andb_true_iff in Hs as [Hc Hs].
  apply IH; [done|]. unfold isdigit in Hc. apply andb_true_iff in Hc as [Hc _].
  apply Nat.leb_le in Hc. unfold digit_val. lia.
Qed.

Arguments scanf_int : simpl never.

(** A digit string within the range of [int] is read as it is written,
    also after a minus sign. *)
Lemma int_text_scanf (s : string) (neg : bool) :
  int_text s ->
  scanf_int (if neg then - digits_value s 0 else digits_value s 0)
  = if neg then - digits_value s 0 else digits_value s 0.
Proof.
  intros [[Hd _] Hmax].
  pose proof (digits_value_nonneg s Hd 0 ltac:(done)).
  apply scanf_int_id. unfold INT_MIN, INT_MAX in *. destruct neg; lia.
Qed.

(** [%d] on an unsigned integer of the grammar. *)
Lemma scan_d_int (s rest : string) :
  int_text s -> no_digit_ahead rest ->
  scan_d (s ++ rest) = Some (digits_value s 0, rest).
Proof.
  intros Hfit Hrest. pose proof Hfit as [Hs _]. unfold scan_d.
  destruct (is_int_head s rest Hs) as (c & r & Heq & Hc).
  rewrite Heq. simpl skip_ws. rewrite (isdigit_not_space c Hc).
  rewrite (isdigit_not_sign c r Hc), <- Heq.
  rewrite (scan_digits_app s rest) by (done || apply Hs).
  simpl. rewrite (is_int_length s Hs).
  by rewrite (int_text_scanf s false Hfit).
Qed.

Lemma string_app_nil_r (s : string) : (s ++ EmptyString)%string = s.
Proof. induction s as [|c s IH]; simpl; [done|by rewrite IH]. Qed.

Lemma skip_ws_int (s rest : string) :
  is_int s -> skip_ws (s ++ rest) = (s ++ rest)%string.
Proof.
  intros Hs. destruct (is_int_head s rest Hs) as (c & r & -> & Hc).
  simpl. by rewrite (isdigit_not_space c Hc).
Qed.

Lemma skip_ws_space_int (s rest : string) :
  is_int s -> skip_ws (String " " (s ++ rest)) = (s ++ rest)%string.
Proof. intros Hs. simpl. change (isspace " ") with true. by apply skip_ws_int. Qed.

Lemma match_literal_app (lit s : string) :
  match_literal lit (lit ++ s) = Some s.
Proof.
  induction lit as [|c lit IH]; simpl; [by destruct s|].
  by rewrite Ascii.eqb_refl.
Qed.

Lemma skip_ws_spaces (ws r : string) :
  all_space ws = true -> skip_ws (ws ++ r) = skip_ws r.
Proof.
  induction ws as [|c ws IH]; [done|]. simpl.
  intros H. apply andb_true_iff in H as [Hc Hws]. rewrite Hc. by apply IH.
Qed.

Lemma skip_ws_idem (s : string) : skip_ws (skip_ws s) = skip_ws s.
Proof.
  induction s as [|c s IH]; [done|]. simpl.
  destruct (isspace c) eqn:Hc; [done|]. simpl. by rewrite Hc.
Qed.

(** ** The inputs a conversion accepts *)

(** The white space [skip_ws] drops. *)
Lemma skip_ws_split (s : string) :
  exists ws, s = (ws ++ skip_ws s)%string /\ all_space ws = true.
Proof.
  induction s as [|c s (ws & IH & Hws)]; [by exists EmptyString|].
  cbn [skip_ws]. destruct (isspace c) eqn:Hc.
  - exists (String c ws). cbn [String.append all_space].
    by rewrite <- IH, Hc, Hws.
  - by exists EmptyString.
Qed.

(** The sign [scan_sign] takes. *)
Lemma scan_sign_split (s : string) :
  exists sg, s = (sg ++ snd (scan_sign s))%string /\ sign_mark sg /\
    fst (scan_sign s) = String.eqb sg "-".
Proof.
  destruct s as [|c s].
  { exists EmptyString. split; [done|]. split; [by left|done]. }
  unfold scan_sign.
  destruct (Ascii.eqb_spec c "-") as [->|Hm].
  { exists "-"%string. split; [done|]. split; [right; by right|done]. }
  destruct (Ascii.eqb_spec c "+") as [->|Hp].
  { exists "+"%string. split; [done|]. split; [right; by left|done]. }
  exists EmptyString.
  destruct c as [[] [] [] [] [] [] [] []];
    (split; [done|]; split; [by left|done]).
Qed.

(** A sign in front of a string is the sign [scan_sign] takes when the
    string begins with a digit. *)
Lemma scan_sign_mark (sg : string) (c : ascii) (r : string) :
  sign_mark sg -> isdigit c = true ->
  scan_sign (sg ++ String c r) = (String.eqb sg "-", String c r).
Proof.
  intros [->|[->| ->]] Hc; [|done|done].
  by apply isdigit_not_sign.
Qed.

Lemma skip_ws_mark (ws sg : string) (c : ascii) (r : string) :
  all_space ws = true -> sign_mark sg -> isdigit c = true ->
  skip_ws (ws ++ sg ++ String c r) = (sg ++ String c r)%string.
Proof.
  intros Hws Hsg Hc. rewrite skip_ws_spaces by done.
  destruct Hsg as [->|[->| ->]].
  - cbn [String.append skip_ws]. by rewrite (isdigit_not_space c Hc).
  - reflexivity.
  - reflexivity.
Qed.

(** The digits [scan_digits] reads. *)
Lemma scan_digits_split (s : string) :
  forall acc n v n' rest,
  scan_digits s acc n = (v, n', rest) ->
  exists a, s = (a ++ rest)%string /\ all_digits a = true /\
    no_digit_ahead rest /\ n' = (n + String.length a)%nat /\
    v = digits_value a acc.
Proof.
  induction s as [|c s IH]; intros acc n v n' rest H; cbn [scan_digits] in H.
  - injection H as <- <- <-. exists EmptyString.
    split; [done|]. split; [done|]. split; [done|]. split; [simpl; lia|done].
  - destruct (isdigit c) eqn:Hc.
    + apply IH in H as (a & -> & Ha & Hrest & -> & ->).
      exists (String c a). cbn [String.append all_digits digits_value String.length].
      rewrite Hc, Ha.
      split; [done|]. split; [done|]. split; [done|]. split; [lia|done].
    + injection H as <- <- <-. exists EmptyString.
      split; [done|]. split; [done|]. split; [exact Hc|].
      split; [simpl; lia|done].
Qed.

(** [%d] converts exactly the inputs that are white space, an optional
    sign and digits, and leaves what follows the last digit. *)
Lemma scan_d_shape (s : string) (v : Z) (rest : string) :
  scan_d s = Some (v, rest) <->
  exists ws sg a, s = (ws ++ sg ++ a ++ rest)%string /\
    all_space ws = true /\ sign_mark sg /\ is_int a /\ no_digit_ahead rest /\
    v = scanf_int (if String.eqb sg "-" then - digits_value a 0
                   else digits_value a 0).
Proof.
  split.
  - unfold scan_d. intros H.
    destruct (skip_ws_split s) as (ws & Hs & Hws).
    destruct (scan_sign_split (skip_ws s)) as (sg & Ht & Hsg & Hneg).
    destruct (scan_sign (skip_ws s)) as [neg s1]. cbn [fst snd] in *.
    destruct (scan_digits s1 0 0) as [[v0 n0] r0] eqn:Hd.
    apply scan_digits_split in Hd as (a & -> & Ha & Hrest & -> & ->).
    destruct (0 + String.length a =? 0)%nat eqn:Hn; [done|].
    injection H as <- <-. exists ws, sg, a.
    split; [by rewrite Hs at 1; rewrite Ht at 1|].
    split; [done|]. split; [done|]. split.
    + split; [done|]. intros ->. done.
    + split; [done|]. by rewrite Hneg.
  - intros (ws & sg & a & -> & Hws & Hsg & Ha & Hrest & ->).
    unfold scan_d.
    destruct (is_int_head a rest Ha) as (c & r & Heq & Hc).
    rewrite Heq, (skip_ws_mark ws sg c r), (scan_sign_mark sg c r), <- Heq by done.
    rewrite (scan_digits_app a rest) by (done || apply Ha).
    cbn [Nat.add]. by rewrite (is_int_length a Ha).
Qed.

Lemma scan_d_skip_ws (s : string) : scan_d (skip_ws s) = scan_d s.
Proof. unfold scan_d. by rewrite skip_ws_idem. Qed.

(** [%d] converts exactly when a digit comes after the white space and
    the sign. *)
Lemma scan_d_ahead (s : string) : is_Some (scan_d s) <-> integer_ahead s.
Proof.
  split.
  - intros [[v rest] H]. apply scan_d_shape in H
      as (ws & sg & a & -> & Hws & Hsg & Ha & _).
    destruct (is_int_head a rest Ha) as (c & r & Heq & Hc).
    exists ws, sg, c, r. rewrite <- Heq. by repeat split.
  - intros (ws & sg & c & r & -> & Hws & Hsg & Hc).
    unfold scan_d. rewrite (skip_ws_mark ws sg c r), (scan_sign_mark sg c r) by done.
    cbn [scan_digits]. rewrite Hc.
    destruct (scan_digits r (10 * 0 + digit_val c) 1) as [[v n] rest] eqn:Hd.
    apply scan_digits_split in Hd as (a & _ & _ & _ & -> & _).
    by eexists.
Qed.

Lemma scan_digits_nondigit (c : ascii) (r : string) (acc : Z) (n : nat) :
  isdigit c = false -> scan_digits (String c r) acc n = (acc, n, String c r).
Proof. intros Hc. cbn [scan_digits]. by rewrite Hc. Qed.

Lemma scan_digits_count (s : string) (acc : Z) (n : nat) :
  (n <= snd (fst (scan_digits s acc n)))%nat.
Proof.
  destruct (scan_digits s acc n) as [[v n'] rest] eqn:Hd.
  apply scan_digits_split in Hd as (a & _ & _ & _ & -> & _). simpl. lia.
Qed.

Lemma scan_digits_digit (c : ascii) (r : string) (acc : Z) (n : nat) :
  isdigit c = true -> (n < snd (fst (scan_digits (String c r) acc n)))%nat.
Proof.
  intros Hc. cbn [scan_digits]. rewrite Hc.
  pose proof (scan_digits_count r (10 * acc + digit_val c) (S n)). lia.
Qed.

Lemma scan_fraction_other (s2 : string) (ip : Z) :
  (forall s2', s2 <> String "." s2') ->
  match s2 with
  | String "." s2' => scan_digits s2' ip 0
  | _ => (ip, 0%nat, s2)
  end = (ip, 0%nat, s2).
Proof.
  intros H. destruct s2 as [|c s2]; [done|].
  destruct c as [[] [] [] [] [] [] [] []]; try done. by destruct (H s2).
Qed.

(** [%lf] converts a decimal number exactly when a digit, or a point
    and a digit, comes after the white space and the sign, and the
    number does not begin with [0x]. *)
Lemma scan_lf_ahead (s : string) : is_Some (scan_lf s) <-> decimal_ahead s.
Proof.
  unfold scan_lf, decimal_ahead. split.
  - intros Hsome.
    destruct (skip_ws_split s) as (ws & Hs & Hws).
    destruct (scan_sign_split (skip_ws s)) as (sg & Ht & Hsg & _).
    destruct (scan_sign (skip_ws s)) as [neg s1]. cbn [fst snd] in *.
    destruct (starts_with "0x" s1) eqn:Hx; [by destruct Hsome|].
    exists ws, sg, s1. split; [by rewrite Hs at 1; rewrite Ht at 1|].
    split; [done|]. split; [done|]. split; [done|].
    destruct (scan_digits s1 0 0) as [[ip n1] s2] eqn:Hd.
    destruct s1 as [|c r].
    { injection Hd as <- <- <-. by destruct Hsome. }
    destruct (isdigit c) eqn:Hc; [by destruct r; [|left]|].
    rewrite (scan_digits_nondigit c r 0 0 Hc) in Hd.
    injection Hd as Hip Hn1 Hs2.
    destruct (ascii_dec c ".") as [->|Hne].
    2:{ rewrite scan_fraction_other in Hsome
          by (intros s2'; rewrite <- Hs2; congruence).
        subst n1. by destruct Hsome. }
    subst ip n1 s2.
    destruct r as [|c' r]; [by destruct Hsome|].
    destruct (isdigit c') eqn:Hc'; [by right|].
    rewrite (scan_digits_nondigit c' r 0 0 Hc') in Hsome. by destruct Hsome.
  - intros (ws & sg & r & -> & Hws & Hsg & Hx & Hr).
    assert (Hstart : exists c r', r = String c r' /\
              (isdigit c = true \/
               c = "."%char /\ exists c' r'', r' = String c' r'' /\ isdigit c' = true)).
    { destruct r as [|c [|c' r'']]; [done| |].
      - exists c, EmptyString. split; [done|by left].
      - exists c, (String c' r''). split; [done|].
        destruct Hr as [Hc|[-> Hc']]; [by left|right].
        split; [done|]. by exists c', r''. }
    clear Hr. destruct Hstart as (c & r' & -> & Hstart).
    destruct Hstart as [Hc|(-> & c' & r'' & -> & Hc')].
    + rewrite (skip_ws_mark ws sg c r'), (scan_sign_mark sg c r') by done.
      rewrite Hx.
      pose proof (scan_digits_digit c r' 0 0 Hc) as Hn.
      destruct (scan_digits (String c r') 0 0) as [[ip n1] s2].
      cbn [fst snd] in Hn.
      destruct (match s2 with
                | String "." s2' => scan_digits s2' ip 0
                | _ => (ip, 0%nat, s2)
                end) as [[m n2] s3].
      replace (n1 + n2 =? 0)%nat with false
        by (symmetry; apply Nat.eqb_neq; lia).
      destruct (scan_exponent s3). by eexists.
    + rewrite skip_ws_spaces by done.
      assert (Hskip : skip_ws (sg ++ String "." (String c' r''))
                      = (sg ++ String "." (String c' r''))%string)
        by (by destruct Hsg as [->|[->| ->]]).
      assert (Hsign : scan_sign (sg ++ String "." (String c' r''))
                      = (String.eqb sg "-", String "." (String c' r'')))
        by (by destruct Hsg as [->|[->| ->]]).
      rewrite Hskip, Hsign, Hx.
      rewrite (scan_digits_nondigit "." (String c' r'') 0 0) by done.
      pose proof (scan_digits_digit c' r'' 0 0 Hc') as Hn.
      destruct (scan_digits (String c' r'') 0 0) as [[m n2] s3].
      cbn [fst snd] in Hn.
      replace (0 + n2 =? 0)%nat with false
        by (symmetry; apply Nat.eqb_neq; lia).
      destruct (scan_exponent s3). by eexists.
Qed.

Lemma sscanf_REQ_grammar (a b : string) :
  int_text a -> int_text b ->
  sscanf_REQ ("REQ " ++ a ++ " " ++ b) = Some (digits_value a 0, digits_value b 0).
Proof.
  intros Hfa Hfb. pose proof Hfa as [Ha _]. pose proof Hfb as [Hb _].
  unfold sscanf_REQ.
  change ("REQ " ++ a ++ " " ++ b)%string
    with ("REQ" ++ String " " (a ++ String " " b))%string.
  rewrite match_literal_app. cbn [mbind option_bind].
  rewrite (skip_ws_space_int a) by done.
  rewrite (scan_d_int a (String " " b)) by done. cbn [mbind option_bind].
  rewrite <- (string_app_nil_r b).
  rewrite (skip_ws_space_int b) by done.
  rewrite (scan_d_int b EmptyString) by done.
  by rewrite string_app_nil_r.
Qed.

Lemma match_literal_REQ_UPD (s : string) :
  is_Some (match_literal "REQ" s) -> match_literal "UPD" s = None.
Proof.
  destruct s as [|c s]; intros [x H]; [done|].
  cbn [match_literal] in *.
  destruct (Ascii.eqb_spec "R" c) as [<-|]; [done|discriminate H].
Qed.

(** A number that begins with a digit does not begin with [nan] or
    [inf], nor with [0x] unless an [x] follows a first [0]. *)
Lemma starts_with_digit (c : ascii) (r : string) :
  isdigit c = true ->
  match r with
  | String c' _ => c' <> "x"%char /\ c' <> "X"%char
  | EmptyString => True
  end ->
  starts_with "0x" (String c r) = false /\
  starts_with "nan" (String c r) = false /\
  starts_with "inf" (String c r) = false.
Proof.
  intros Hc Hr.
  destruct c as [[] [] [] [] [] [] [] []]; try discriminate Hc; try done.
  destruct r as [|c' r]; [done|]. destruct Hr as [Hx HX].
  destruct c' as [[] [] [] [] [] [] [] []]; done.
Qed.

Lemma starts_with_decimal (a : string) (b : option string) :
  is_int a ->
  starts_with "0x" (a ++ fraction b) = false /\
  starts_with "nan" (a ++ fraction b) = false /\
  starts_with "inf" (a ++ fraction b) = false.
Proof.
  intros Ha.
  destruct (is_int_head a (fraction b) Ha) as (c & r & Heq & Hc).
  rewrite Heq. apply starts_with_digit; [done|].
  destruct r as [|c' r]; [done|].
  assert (Hc' : isdigit c' = true \/ c' = "."%char).
  { destruct Ha as [Hd Hne]. destruct a as [|x [|y a]]; simpl in *.
    - done.
    - destruct b; [|done]. injection Heq as _ <-. by right.
    - injection Heq as _ <- _. left.
      apply andb_true_iff in Hd as [_ Hd]. by apply andb_true_iff in Hd as [Hd _]. }
  destruct Hc' as [Hd| ->]; [|done]. split; intros ->; discriminate Hd.
Qed.

Lemma scan_lf_decimal (a : string) (b : option string) :
  is_int a -> all_digits (fraction_digits b) = true ->
  scan_lf (a ++ fraction b)
  = Some ((inject_Z (digits_value (fraction_digits b) (digits_value a 0))
           * pow10 (0 - Z.of_nat (String.length (fraction_digits b))))%Q,
          EmptyString).
Proof.
  intros Ha Hb. unfold scan_lf.
  rewrite (skip_ws_int a) by done.
  destruct (is_int_head a (fraction b) Ha) as (c & r & Heq & Hc).
  rewrite Heq, (isdigit_not_sign c r Hc), <- Heq.
  rewrite (proj1 (starts_with_decimal a b Ha)).
  rewrite (scan_digits_app a (fraction b)); [|apply Ha|by destruct b].
  destruct b as [b|]; simpl fraction; simpl fraction_digits in *.
  - rewrite <- (string_app_nil_r b) at 1.
    rewrite (scan_digits_app b EmptyString) by done.
    simpl. replace ((_ + _)%nat =? 0)%nat with false; [done|].
    symmetry. apply Nat.eqb_neq. pose proof (is_int_length a Ha) as H.
    apply Nat.eqb_neq in H. lia.
  - simpl. rewrite Nat.add_0_r, (is_int_length a Ha). done.
Qed.

Lemma special_double_decimal (a : string) (b : option string) :
  is_int a -> special_double (a ++ fraction b) = false.
Proof.
  intros Ha. unfold special_double.
  rewrite (skip_ws_int a) by done.
  destruct (is_int_head a (fraction b) Ha) as (c & r & Heq & Hc).
  rewrite Heq, (isdigit_not_sign c r Hc), <- Heq. cbn [snd].
  by destruct (starts_with_decimal a b Ha) as (-> & -> & ->).
Qed.

Lemma sscanf_UPD_grammar (e a : string) (b : option string) :
  int_text e -> is_int a -> all_digits (fraction_digits b) = true ->
  let line := ("UPD " ++ e ++ " " ++ a ++ fraction b)%string in
  sscanf_REQ line = None /\ special_speed line = false /\
  sscanf_UPD line
  = Some (digits_value e 0,
          (inject_Z (digits_value (fraction_digits b) (digits_value a 0))
           * pow10 (0 - Z.of_nat (String.length (fraction_digits b))))%Q).
Proof.
  intros Hfe Ha Hb line. pose proof Hfe as [He _]. split; [done|].
  unfold special_speed, sscanf_UPD, line.
  change ("UPD " ++ e ++ " " ++ a ++ fraction b)%string
    with ("UPD" ++ String " " (e ++ String " " (a ++ fraction b)))%string.
  rewrite match_literal_app. cbn [mbind option_bind].
  rewrite (skip_ws_space_int e) by done.
  rewrite (scan_d_int e (String " " (a ++ fraction b))) by done.
  cbn [mbind option_bind]. cbv beta iota. split.
  - pose proof (special_double_decimal a b Ha) as H.
    unfold special_double in *.
    rewrite (skip_ws_space_int a) by done.
    by rewrite (skip_ws_int a) in H.
  - rewrite (skip_ws_space_int a) by done.
    by rewrite scan_lf_decimal.
Qed.

Lemma trim_crlf_command (cmd eol : string) :
  last_not_crlf cmd -> crlf_only eol = true -> trim_crlf (cmd ++ eol) = cmd.
Proof.
  intros Hc He. rewrite trim_crlf_app_crlf by done. by apply trim_crlf_id.
Qed.

Lemma last_not_crlf_speed (t a : string) (b : option string) :
  is_int a -> (forall b', b = Some b' -> is_int b') ->
  last_not_crlf (t ++ a ++ fraction b).
Proof.
  intros Ha Hb. destruct b as [b|]; simpl.
  - replace (t ++ a ++ String "." b)%string
      with ((t ++ a ++ String "." EmptyString) ++ b)%string.
    + apply is_int_last. by apply Hb.
    + by rewrite !string_app_assoc.
  - rewrite string_app_nil_r. by apply is_int_last.
Qed.

(** ** The lines each pattern converts *)

Lemma match_literal_prefix (lit s rest : string) :
  match_literal lit s = Some rest <-> s = (lit ++ rest)%string.
Proof.
  split; [|intros ->; apply match_literal_app].
  revert s. induction lit as [|a lit IH]; intros s H.
  - destruct s; by injection H as <-.
  - destruct s as [|b s]; [done|]. cbn [match_literal] in H.
    destruct (Ascii.eqb_spec a b) as [<-|]; [|done].
    cbn [String.append]. by rewrite <- (IH s H).
Qed.

Lemma scan_lf_skip_ws (s : string) : scan_lf (skip_ws s) = scan_lf s.
Proof. unfold scan_lf. by rewrite skip_ws_idem. Qed.

Lemma special_double_skip_ws (s : string) :
  special_double (skip_ws s) = special_double s.
Proof. unfold special_double. by rewrite skip_ws_idem. Qed.

(** The first field of both patterns. *)
Lemma first_field_shape (keyword line : string) (second : string -> Prop) :
  command_shape keyword second line <->
  exists r0 v r1, match_literal keyword line = Some r0 /\
    scan_d (skip_ws r0) = Some (v, r1) /\ second r1.
Proof.
  split.
  - intros (ws & sg & a & rest & -> & Hws & Hsg & Ha & Hrest & Hsecond).
    exists (ws ++ sg ++ a ++ rest)%string. eexists _, rest.
    split; [apply match_literal_app|]. split; [|done].
    rewrite scan_d_skip_ws. apply scan_d_shape. by exists ws, sg, a.
  - intros (r0 & v & r1 & Hlit & Hd & Hsecond).
    apply match_literal_prefix in Hlit as ->.
    rewrite scan_d_skip_ws in Hd.
    apply scan_d_shape in Hd as (ws & sg & a & -> & Hws & Hsg & Ha & Hrest & _).
    by exists ws, sg, a, r1.
Qed.

Lemma sscanf_REQ_shape (line : string) :
  is_Some (sscanf_REQ line) <-> command_shape "REQ" integer_ahead line.
Proof.
  rewrite first_field_shape. unfold sscanf_REQ. split.
  - intros [[src dst] H].
    destruct (match_literal "REQ" line) as [r0|] eqn:H0; [|done].
    cbn [mbind option_bind] in H.
    destruct (scan_d (skip_ws r0)) as [[v r1]|] eqn:H1; [|done].
    cbn [mbind option_bind] in H.
    destruct (scan_d (skip_ws r1)) as [[v2 r2]|] eqn:H2; [|done].
    exists r0, v, r1. split; [done|]. split; [done|].
    apply scan_d_ahead. rewrite <- scan_d_skip_ws, H2. by eexists.
  - intros (r0 & v & r1 & H0 & H1 & Hahead).
    rewrite H0. cbn [mbind option_bind]. rewrite H1. cbn [mbind option_bind].
    apply scan_d_ahead in Hahead as [[v2 r2] H2].
    rewrite scan_d_skip_ws, H2. by eexists.
Qed.

Lemma sscanf_UPD_shape (line : string) :
  is_Some (sscanf_UPD line) <-> command_shape "UPD" decimal_ahead line.
Proof.
  rewrite first_field_shape. unfold sscanf_UPD. split.
  - intros [[eid speed] H].
    destruct (match_literal "UPD" line) as [r0|] eqn:H0; [|done].
    cbn [mbind option_bind] in H.
    destruct (scan_d (skip_ws r0)) as [[v r1]|] eqn:H1; [|done].
    cbn [mbind option_bind] in H.
    destruct (scan_lf (skip_ws r1)) as [[v2 r2]|] eqn:H2; [|done].
    exists r0, v, r1. split; [done|]. split; [done|].
    apply scan_lf_ahead. rewrite <- scan_lf_skip_ws, H2. by eexists.
  - intros (r0 & v & r1 & H0 & H1 & Hahead).
    rewrite H0. cbn [mbind option_bind]. rewrite H1. cbn [mbind option_bind].
    apply scan_lf_ahead in Hahead as [[v2 r2] H2].
    rewrite scan_lf_skip_ws, H2. by eexists.
Qed.

Lemma special_speed_shape (line : string) :
  special_speed line = true <->
  command_shape "UPD" (fun r => special_double r = true) line.
Proof.
  rewrite first_field_shape. unfold special_speed. split.
  - intros H.
    destruct (match_literal "UPD" line) as [r0|] eqn:H0; [|done].
    destruct (scan_d (skip_ws r0)) as [[v r1]|] eqn:H1; [|done].
    by exists r0, v, r1.
  - intros (r0 & v & r1 & H0 & H1 & H). by rewrite H0, H1.
Qed.

(** The start of a decimal number is not one of the spellings left
    out. *)
Lemma decimal_ahead_special (s : string) :
  decimal_ahead s -> special_double s = false.
Proof.
  intros (ws & sg & r & -> & Hws & Hsg & Hx & Hr). unfold special_double.
  assert (Hstart : exists c r', r = String c r' /\
            (isdigit c = true \/ c = "."%char)).
  { destruct r as [|c [|c' r'']]; [done| |].
    - exists c, EmptyString. split; [done|by left].
    - exists c, (String c' r''). split; [done|].
      destruct Hr as [Hc|[-> _]]; [by left|by right]. }
  destruct Hstart as (c & r' & -> & Hc).
  assert (Hsign : snd (scan_sign (skip_ws (ws ++ sg ++ String c r')))
                  = String c r').
  { rewrite skip_ws_spaces by done.
    destruct Hc as [Hc| ->].
    - destruct Hsg as [->|[->| ->]]; cbn [String.append skip_ws scan_sign];
        rewrite ?(isdigit_not_space c Hc); try done.
      by rewrite (isdigit_not_sign c r' Hc).
    - by destruct Hsg as [->|[->| ->]]. }
  rewrite Hsign, Hx.
  assert (Hnan : starts_with "nan" (String c r') = false).
  { destruct Hc as [Hc| ->]; [|done].
    destruct c as [[] [] [] [] [] [] [] []]; try discriminate Hc; done. }
  assert (Hinf : starts_with "inf" (String c r') = false).
  { destruct Hc as [Hc| ->]; [|done].
    destruct c as [[] [] [] [] [] [] [] []]; try discriminate Hc; done. }
  by rewrite Hnan, Hinf.
Qed.

(** A line of one shape is not of the other. *)
Lemma command_shape_keyword (k1 k2 : string) (p q : string -> Prop)
    (line : string) :
  command_shape k1 p line -> command_shape k2 q line ->
  String.length k1 = String.length k2 -> k1 = k2.
Proof.
  intros (ws & sg & a & r & -> & _) (ws' & sg' & a' & r' & Heq & _).
  revert k2 Heq. induction k1 as [|c k1 IH]; intros [|c' k2] Heq Hlen; try done.
  cbn [String.append] in Heq. injection Heq as -> Heq.
  f_equal. apply IH; [done|]. cbn in Hlen. lia.
Qed.

Lemma command_shape_impl (keyword line : string) (p q : string -> Prop) :
  (forall r, p r -> q r) ->
  command_shape keyword p line -> command_shape keyword q line.
Proof.
  intros Hpq (ws & sg & a & r & H & Hws & Hsg & Ha & Hr & Hp).
  exists ws, sg, a, r. do 5 (split; [done|]). by apply Hpq.
Qed.

(** The second field of a line starts at one place. *)
Lemma command_shape_both (keyword line : string) (p q : string -> Prop) :
  command_shape keyword p line -> command_shape keyword q line ->
  command_shape keyword (fun r => p r /\ q r) line.
Proof.
  rewrite !first_field_shape.
  intros (r0 & v & r1 & H0 & H1 & Hp) (r0' & v' & r1' & H0' & H1' & Hq).
  rewrite H0 in H0'. injection H0' as <-.
  rewrite H1 in H1'. injection H1' as <- <-.
  by exists r0, v, r1.
Qed.

Lemma command_shape_REQ_UPD (line : string) (p q : string -> Prop) :
  command_shape "REQ" p line -> command_shape "UPD" q line -> False.
Proof.
  intros H1 H2.
  by pose proof (command_shape_keyword "REQ" "UPD" p q line H1 H2 eq_refl).
Qed.

Lemma command_shape_empty (keyword : string) (p : string -> Prop) :
  keyword <> EmptyString -> ~ command_shape keyword p EmptyString.
Proof.
  intros Hk (ws & sg & a & r & H & _). by destruct keyword.
Qed.

(** What [client_thread_main] does with a line, by the shape of the
    line. *)
Lemma client_dispatch_shapes (line : string) :
  ((exists src dst, client_dispatch line = Some (TASK_REQ src dst))
   <-> command_shape "REQ" integer_ahead (trim_crlf line)) /\
  ((exists eid speed, client_dispatch line = Some (TASK_UPD eid speed))
   <-> command_shape "UPD" decimal_ahead (trim_crlf line)) /\
  (client_dispatch line = None
   <-> command_shape "UPD" (fun r => special_double r = true)
         (trim_crlf line)) /\
  (client_dispatch line = Some (ReplyNow ERR_UNKNOWN_CMD)
   <-> trim_crlf line <> EmptyString /\
       ~ command_shape "REQ" integer_ahead (trim_crlf line) /\
       ~ command_shape "UPD"
           (fun r => special_double r = true \/ decimal_ahead r)
           (trim_crlf line)).
Proof.
  unfold client_dispatch. cbv zeta.
  pose proof (sscanf_REQ_shape (trim_crlf line)) as HREQ.
  pose proof (sscanf_UPD_shape (trim_crlf line)) as HUPD.
  pose proof (special_speed_shape (trim_crlf line)) as HSP.
  destruct (trim_crlf line) as [|c l] eqn:Hl.
  { split; [|split; [|split]]; (split; [|intros H]); try done.
    - by intros (? & ? & ?).
    - by apply command_shape_empty in H.
    - by intros (? & ? & ?).
    - by apply command_shape_empty in H.
    - by apply command_shape_empty in H.
    - by destruct H as [? _]. }
  remember (String c l) as t eqn:Et.
  destruct (sscanf_REQ t) as [[src dst]|] eqn:Hreq.
  { assert (Hshape : command_shape "REQ" integer_ahead t)
      by (apply HREQ; by eexists).
    split; [|split; [|split]]; (split; [|intros H]); try done.
    - by exists src, dst.
    - by intros (? & ? & ?).
    - destruct (command_shape_REQ_UPD t _ _ Hshape H).
    - destruct (command_shape_REQ_UPD t _ _ Hshape H).
    - by destruct H as (_ & H & _). }
  assert (Hnoreq : ~ command_shape "REQ" integer_ahead t).
  { intros H. apply HREQ in H as [? H]. done. }
  destruct (special_speed t) eqn:Hsp.
  { assert (Hshape : command_shape "UPD" (fun r => special_double r = true) t)
      by (by apply HSP).
    split; [|split; [|split]]; (split; [|intros H]); try done.
    - by intros (? & ? & ?).
    - by intros (? & ? & ?).
    - destruct (command_shape_both "UPD" t _ _ Hshape H)
        as (? & ? & ? & r & _ & _ & _ & _ & _ & H1 & H2).
      apply decimal_ahead_special in H2. congruence.
    - destruct H as (_ & _ & H). destruct H.
      revert Hshape. apply command_shape_impl. by left. }
  assert (Hnosp : ~ command_shape "UPD" (fun r => special_double r = true) t).
  { intros H. apply HSP in H. congruence. }
  destruct (sscanf_UPD t) as [[eid speed]|] eqn:Hupd.
  { assert (Hshape : command_shape "UPD" decimal_ahead t)
      by (apply HUPD; by eexists).
    split; [|split; [|split]]; (split; [|intros H]); try done.
    - by intros (? & ? & ?).
    - by exists eid, speed.
    - destruct H as (_ & _ & H). destruct H.
      revert Hshape. apply command_shape_impl. by right. }
  assert (Hnoupd : ~ command_shape "UPD" decimal_ahead t).
  { intros H. apply HUPD in H as [? H]. done. }
  split; [|split; [|split]]; (split; [|intros H]); try done.
  - by intros (? & ? & ?).
  - by intros (? & ? & ?).
  - intros _. split; [by rewrite Et|]. split; [done|].
    intros (ws & sg & a & r & H & Hws & Hsg & Ha & Hr & [Hs|Hd]).
    + destruct Hnosp. by exists ws, sg, a, r.
    + destruct Hnoupd. by exists ws, sg, a, r.
Qed.




(** An integer beyond the range of [int] is dispatched with the [int]
    that its low 32 bits make. *)
Lemma client_dispatch_beyond_int :
  client_dispatch "REQ 4294967296 2" = Some (TASK_REQ 0 2) /\
  client_dispatch "REQ 2147483648 2" = Some (TASK_REQ (-2147483648) 2) /\
  client_dispatch "REQ 99999999999999999999 2" = Some (TASK_REQ (-1) 2).
Proof. repeat split; reflexivity. Qed.

(** ** The indexed heap *)

Lemma store_Some {A} (l l' : list A) (i : nat) (v : A) :
  store l i v = Some l' <-> (i < length l)%nat /\ l' = <[i := v]> l.
Proof.
  unfold store. destruct (i <? length l)%nat eqn:E.
  - apply Nat.ltb_lt in E. split; [by intros [= <-]|by intros [_ ->]].
  - apply Nat.ltb_ge in E. split; [done|]. intros [? _]. lia.
Qed.

Lemma store_lt {A} (l : list A) (i : nat) (v : A) :
  (i < length l)%nat -> store l i v = Some (<[i := v]> l).
Proof. intros H. by apply store_Some. Qed.

Lemma swapMinHeapNode_spec (a : list MinHeapNode) (i j : nat) ni nj :
  a !! i = Some ni -> a !! j = Some nj ->
  swapMinHeapNode a i j = Some (<[j := ni]> (<[i := nj]> a)).
Proof.
  intros Hi Hj. unfold swapMinHeapNode. rewrite Hi, Hj. simpl.
  rewrite store_lt by (by eapply lookup_lt_Some). simpl.
  rewrite store_lt; [done|]. rewrite length_insert. by eapply lookup_lt_Some.
Qed.

Lemma heap_swap_spec (h : MinHeap) (a b : nat) na nb :
  array h !! a = Some na -> array h !! b = Some nb ->
  (hnode_id na < length (pos h))%nat -> (hnode_id nb < length (pos h))%nat ->
  heap_swap h a b
  = Some (mkMinHeap (capacity h) (size h)
            (<[hnode_id nb := a]> (<[hnode_id na := b]> (pos h)))
            (<[b := na]> (<[a := nb]> (array h)))).
Proof.
  intros Ha Hb Hna Hnb. unfold heap_swap. rewrite Ha, Hb. simpl.
  rewrite store_lt by done. simpl.
  rewrite store_lt by (by rewrite length_insert). simpl.
  by rewrite (swapMinHeapNode_spec _ a b na nb).
Qed.

(** In a heap that [pos] knows, two slots hold different nodes. *)
Lemma heap_pos_ok_inj (h : MinHeap) (i j : nat) ni nj :
  heap_pos_ok h -> (i < size h)%nat -> (j < size h)%nat ->
  array h !! i = Some ni -> array h !! j = Some nj ->
  hnode_id ni = hnode_id nj -> i = j.
Proof.
  intros Hok Hi Hj Hni Hnj Heq.
  pose proof (Hok i ni Hi Hni) as H1. pose proof (Hok j nj Hj Hnj) as H2.
  rewrite Heq in H1. congruence.
Qed.

Section HeapSwap.
Variable h : MinHeap.
Variables a b : nat.
Variables na nb : MinHeapNode.
Hypothesis Hok : heap_pos_ok h.
Hypothesis Ha : (a < size h)%nat.
Hypothesis Hb : (b < size h)%nat.
Hypothesis Hab : a <> b.
Hypothesis Hna : array h !! a = Some na.
Hypothesis Hnb : array h !! b = Some nb.

Let h' : MinHeap :=
  mkMinHeap (capacity h) (size h)
    (<[hnode_id nb := a]> (<[hnode_id na := b]> (pos h)))
    (<[b := na]> (<[a := nb]> (array h))).

Lemma heap_swap_ids : hnode_id na <> hnode_id nb.
Proof. intros Heq. apply Hab. by eapply (heap_pos_ok_inj h a b na nb). Qed.

Lemma heap_swap_Some : heap_swap h a b = Some h'.
Proof.
  apply heap_swap_spec; try done.
  - eapply lookup_lt_Some. by apply (Hok a na).
  - eapply lookup_lt_Some. by apply (Hok b nb).
Qed.

Lemma heap_swap_array (i : nat) :
  array h' !! i
  = if decide (i = b) then Some na
    else if decide (i = a) then Some nb else array h !! i.
Proof.
  simpl. destruct (decide (i = b)) as [->|Hib].
  - apply list_lookup_insert_eq. rewrite length_insert. by eapply lookup_lt_Some.
  - rewrite list_lookup_insert_ne by done.
    destruct (decide (i = a)) as [->|Hia].
    + apply list_lookup_insert_eq. by eapply lookup_lt_Some.
    + by rewrite list_lookup_insert_ne.
Qed.

Lemma heap_swap_pos (v : nat) :
  pos h' !! v
  = if decide (v = hnode_id nb) then Some a
    else if decide (v = hnode_id na) then Some b else pos h !! v.
Proof.
  simpl. destruct (decide (v = hnode_id nb)) as [->|Hvb].
  - apply list_lookup_insert_eq. rewrite length_insert.
    eapply lookup_lt_Some. by apply (Hok b nb).
  - rewrite list_lookup_insert_ne by done.
    destruct (decide (v = hnode_id na)) as [->|Hva].
    + apply list_lookup_insert_eq. eapply lookup_lt_Some. by apply (Hok a na).
    + by rewrite list_lookup_insert_ne.
Qed.

Lemma heap_swap_pos_ok : heap_pos_ok h'.
Proof.
  intros i n Hi Hn. rewrite heap_swap_array in Hn. rewrite heap_swap_pos.
  pose proof heap_swap_ids as Hids.
  destruct (decide (i = b)) as [->|Hib].
  - injection Hn as <-. rewrite decide_False by done. by rewrite decide_True.
  - destruct (decide (i = a)) as [->|Hia].
    + injection Hn as <-. by rewrite decide_True.
    + rewrite decide_False, decide_False; [by apply Hok| |].
      * intros Heq. apply Hia. by eapply (heap_pos_ok_inj h i a n na).
      * intros Heq. apply Hib. by eapply (heap_pos_ok_inj h i b n nb).
Qed.

Lemma heap_swap_pos_back : heap_pos_back h -> heap_pos_back h'.
Proof.
  intros Hback v p Hv Hp. rewrite heap_swap_pos in Hv. rewrite heap_swap_array.
  destruct (decide (v = hnode_id nb)) as [->|Hvb].
  - injection Hv as <-. rewrite decide_False by done. rewrite decide_True by done.
    by exists nb.
  - destruct (decide (v = hnode_id na)) as [->|Hva].
    + injection Hv as <-. rewrite decide_True by done. by exists na.
    + destruct (Hback v p Hv Hp) as (n & Hn & Hid).
      rewrite decide_False, decide_False; [by exists n| |].
      * intros ->. rewrite Hna in Hn. injection Hn as <-. done.
      * intros ->. rewrite Hnb in Hn. injection Hn as <-. done.
Qed.

Lemma heap_swap_entry (v : nat) (k : double) :
  heap_entry h' v k <-> heap_entry h v k.
Proof.
  pose proof heap_swap_ids as Hids.
  assert (Hpa : pos h !! hnode_id na = Some a) by (by apply Hok).
  assert (Hpb : pos h !! hnode_id nb = Some b) by (by apply Hok).
  unfold heap_entry. change (size h') with (size h).
  split; intros (p & Hp & Hlt & Hn).
  - rewrite heap_swap_pos in Hp. rewrite heap_swap_array in Hn.
    destruct (decide (v = hnode_id nb)) as [->|Hvb].
    + injection Hp as <-. rewrite decide_False, decide_True in Hn by done.
      exists b. by rewrite <- Hn.
    + destruct (decide (v = hnode_id na)) as [->|Hva].
      * injection Hp as <-. rewrite decide_True in Hn by done.
        exists a. by rewrite <- Hn.
      * exists p. split; [done|]. split; [done|].
        destruct (decide (p = b)) as [->|]; [by injection Hn as ->|].
        destruct (decide (p = a)) as [->|]; [by injection Hn as ->|done].
  - destruct (decide (v = hnode_id nb)) as [->|Hvb].
    + exists a. rewrite heap_swap_pos, heap_swap_array.
      rewrite decide_True by done. rewrite decide_False, decide_True by done.
      rewrite Hpb in Hp. injection Hp as <-. rewrite Hnb in Hn. done.
    + destruct (decide (v = hnode_id na)) as [->|Hva].
      * exists b. rewrite heap_swap_pos, heap_swap_array.
        rewrite decide_False, decide_True by done. rewrite decide_True by done.
        rewrite Hpa in Hp. injection Hp as <-. rewrite Hna in Hn. done.
      * exists p. rewrite heap_swap_pos, heap_swap_array.
        rewrite !decide_False; try done.
        -- intros ->. rewrite Hna in Hn. by injection Hn as ->.
        -- intros ->. rewrite Hnb in Hn. by injection Hn as ->.
Qed.

Lemma heap_swap_out (v : nat) : heap_out h v -> heap_out h' v.
Proof.
  intros (p & Hp & Hge). exists p. split; [|done].
  rewrite heap_swap_pos.
  assert (Hpa : pos h !! hnode_id na = Some a) by (by apply Hok).
  assert (Hpb : pos h !! hnode_id nb = Some b) by (by apply Hok).
  rewrite !decide_False; try done.
  - intros ->. rewrite Hpa in Hp. injection Hp as <-. lia.
  - intros ->. rewrite Hpb in Hp. injection Hp as <-. lia.
Qed.

Lemma heap_swap_lengths :
  length (pos h') = length (pos h) /\ length (array h') = length (array h).
Proof. simpl. by rewrite !length_insert. Qed.

End HeapSwap.

(** [lia] knowing the parent index [(i - 1) / 2]. *)
Ltac parent_lia i :=
  pose proof (Nat.div_mod_eq (i - 1) 2);
  pose proof (Nat.mod_upper_bound (i - 1) 2);
  lia.

Lemma parent_lt (i : nat) : (0 < i)%nat -> ((i - 1) / 2 < i)%nat.
Proof. intros H. parent_lia i. Qed.

Lemma parent_child (i idx : nat) :
  (0 < i)%nat ->
  ((i - 1) / 2)%nat = idx <-> i = (2 * idx + 1)%nat \/ i = (2 * idx + 2)%nat.
Proof. intros H. parent_lia i. Qed.

Lemma pick_smaller_spec (h : MinHeap) (child s : nat) (ns : MinHeapNode) :
  (size h <= length (array h))%nat ->
  array h !! s = Some ns ->
  exists r nr, pick_smaller h child s = Some r /\ array h !! r = Some nr /\
    (dist nr <= dist ns)%Q /\
    (r = s \/ (r = child /\ (child < size h)%nat /\ (dist nr < dist ns)%Q)) /\
    (forall nc, (child < size h)%nat -> array h !! child = Some nc ->
       (dist nr <= dist nc)%Q).
Proof.
  intros Hlen Hs. unfold pick_smaller.
  destruct (child <? size h)%nat eqn:E.
  - apply Nat.ltb_lt in E.
    destruct (lookup_lt_is_Some_2 (array h) child ltac:(lia)) as [nc Hc].
    rewrite Hc, Hs. simpl.
    destruct (dlt (dist nc) (dist ns)) eqn:Hlt.
    + apply dlt_true in Hlt. exists child, nc.
      split; [done|]. split; [done|]. split; [lra|]. split; [by right|].
      intros nc' _ Hc'. injection Hc' as <-. lra.
    + apply dlt_false in Hlt. exists s, ns.
      split; [done|]. split; [done|]. split; [lra|]. split; [by left|].
      intros nc' _ Hc'. by injection Hc' as <-.
  - apply Nat.ltb_ge in E. exists s, ns.
    split; [done|]. split; [done|]. split; [lra|]. split; [by left|].
    intros nc Hc. lia.
Qed.

(** One level of [minHeapify]: either [idx] is not above its smaller
    child and nothing changes, or it is exchanged with it. *)
Lemma minHeapify_rec_step (fuel : nat) (h : MinHeap) (idx : nat) (ni : MinHeapNode) :
  (size h <= length (array h))%nat ->
  array h !! idx = Some ni ->
  exists s ns, array h !! s = Some ns /\
    (dist ns <= dist ni)%Q /\
    (forall c nc, (c = 2 * idx + 1 \/ c = 2 * idx + 2)%nat -> (c < size h)%nat ->
       array h !! c = Some nc -> (dist ns <= dist nc)%Q) /\
    ((s = idx /\ minHeapify_rec (S fuel) h idx = Some h) \/
     ((s = 2 * idx + 1 \/ s = 2 * idx + 2)%nat /\ (s < size h)%nat /\
      (dist ns < dist ni)%Q /\
      minHeapify_rec (S fuel) h idx
      = (h1 ← heap_swap h s idx; minHeapify_rec fuel h1 s))).
Proof.
  intros Hlen Hi.
  destruct (pick_smaller_spec h (2 * idx + 1) idx ni Hlen Hi)
    as (s1 & n1 & Hp1 & Hn1 & Hle1 & Hc1 & Hmin1).
  destruct (pick_smaller_spec h (2 * idx + 2) s1 n1 Hlen Hn1)
    as (s2 & n2 & Hp2 & Hn2 & Hle2 & Hc2 & Hmin2).
  exists s2, n2. split; [done|]. split; [lra|]. split.
  { intros c nc [->| ->] Hc Hnc.
    - specialize (Hmin1 nc Hc Hnc). lra.
    - by apply Hmin2. }
  cbn [minHeapify_rec]. rewrite Hp1. cbn [mbind option_bind]. rewrite Hp2.
  cbn [mbind option_bind].
  destruct (decide (s2 = idx)) as [->|Hne].
  - left. split; [done|]. by rewrite Nat.eqb_refl.
  - right. apply Nat.eqb_neq in Hne as Hne'. rewrite Hne'. simpl negb. cbv iota.
    assert (Hs2 : (s2 = 2 * idx + 1 \/ s2 = 2 * idx + 2)%nat /\ (s2 < size h)%nat
                  /\ (dist n2 < dist ni)%Q).
    { destruct Hc2 as [->|(-> & Hlt & Hd)].
      - destruct Hc1 as [->|(-> & Hlt & Hd)]; [done|].
        split; [by left|]. split; [done|]. lra.
      - split; [by right|]. split; [exact Hlt|]. lra. }
    destruct Hs2 as (Hs2 & Hlt & Hd). repeat split; try done.
    unfold heap_swap. rewrite Hn2, Hi. cbn [mbind option_bind].
    destruct (store (pos h) (hnode_id n2) idx) as [pos1|]; cbn [mbind option_bind];
      [|done].
    destruct (store pos1 (hnode_id ni) s2) as [pos2|]; cbn [mbind option_bind];
      [|done].
    by destruct (swapMinHeapNode (array h) s2 idx).
Qed.

Lemma heap_same_refl (h : MinHeap) : heap_same h h.
Proof. by repeat split. Qed.

Lemma heap_same_trans (h1 h2 h3 : MinHeap) :
  heap_same h1 h2 -> heap_same h2 h3 -> heap_same h1 h3.
Proof.
  intros (S1 & C1 & P1 & A1 & E1 & O1 & B1) (S2 & C2 & P2 & A2 & E2 & O2 & B2).
  split; [congruence|]. split; [congruence|]. split; [congruence|].
  split; [congruence|]. split; [|split].
  - intros v k. by rewrite E2, E1.
  - intros v H. by apply O2, O1.
  - tauto.
Qed.

Lemma heap_swap_same (h : MinHeap) (a b : nat) na nb :
  heap_pos_ok h -> (a < size h)%nat -> (b < size h)%nat -> a <> b ->
  array h !! a = Some na -> array h !! b = Some nb ->
  exists h', heap_swap h a b = Some h' /\ heap_same h h' /\ heap_pos_ok h' /\
    (forall i, array h' !! i
       = if decide (i = b) then Some na
         else if decide (i = a) then Some nb else array h !! i).
Proof.
  intros Hok Ha Hb Hab Hna Hnb.
  eexists. split; [by apply (heap_swap_Some h a b na nb)|].
  split; [|split].
  - split; [done|]. split; [done|].
    destruct (heap_swap_lengths h a b na nb) as [Hl1 Hl2].
    split; [done|]. split; [done|]. split; [|split].
    + by apply heap_swap_entry.
    + by apply heap_swap_out.
    + by apply heap_swap_pos_back.
  - by apply heap_swap_pos_ok.
  - by apply heap_swap_array.
Qed.

(** Exchanging [idx] with its smallest child [s] moves the repair of
    [minHeapify] down to [s]. *)
Lemma swap_down_ordered (h h1 : MinHeap) (idx s : nat) ni ns :
  ordered_below h idx ->
  size h1 = size h ->
  (s = 2 * idx + 1 \/ s = 2 * idx + 2)%nat -> (s < size h)%nat ->
  array h !! idx = Some ni -> array h !! s = Some ns ->
  (dist ns < dist ni)%Q ->
  (forall c nc, (c = 2 * idx + 1 \/ c = 2 * idx + 2)%nat -> (c < size h)%nat ->
     array h !! c = Some nc -> (dist ns <= dist nc)%Q) ->
  (forall i, array h1 !! i
     = if decide (i = idx) then Some ns
       else if decide (i = s) then Some ni else array h !! i) ->
  ordered_below h1 s.
Proof.
  intros [Hord Hgp] Hsz Hs Hlt Hi Hsn Hd Hmin Harr.
  assert (Hps : ((s - 1) / 2)%nat = idx) by (apply parent_child; lia).
  split.
  - intros i n p Hir Hpar Hn Hp. rewrite Hsz in Hir.
    destruct (Nat.eq_dec i s) as [->|Hne_s].
    + rewrite Harr in Hn. rewrite Harr in Hp.
      rewrite Hps in Hp. rewrite decide_True in Hp by done.
      rewrite decide_False in Hn by lia. rewrite decide_True in Hn by done.
      injection Hp as <-. injection Hn as <-. lra.
    + destruct (Nat.eq_dec i idx) as [->|Hne_i].
      * rewrite Harr in Hn. rewrite Harr in Hp.
        rewrite decide_True in Hn by done. injection Hn as <-.
        pose proof (parent_lt idx ltac:(lia)) as Hpp.
        rewrite !decide_False in Hp by lia.
        apply (Hgp s ns p); try done; lia.
      * rewrite Harr in Hn. rewrite Harr in Hp.
        rewrite !decide_False in Hn by done.
        destruct (Nat.eq_dec ((i - 1) / 2)%nat idx) as [Hq|Hq].
        -- rewrite decide_True in Hp by done.
           injection Hp as <-. apply (Hmin i n); try done; try lia.
           apply parent_child; [lia|done].
        -- rewrite !decide_False in Hp by done.
           by apply (Hord i n p).
  - intros i n p Hs0 Hir Hpar Hn Hp. rewrite Hsz in Hir.
    rewrite Harr in Hn. rewrite Harr in Hp. rewrite Hps in Hp.
    rewrite decide_True in Hp by done. injection Hp as <-.
    pose proof (parent_lt i ltac:(lia)) as Hpi.
    rewrite !decide_False in Hn by lia.
    apply (Hord i n ns); try done; try lia. by rewrite Hpar.
Qed.

(** [minHeapify] restores a heap whose only defect is below [idx]; it
    needs no more fuel than the slots from [idx] on. *)
Lemma minHeapify_rec_spec (fuel : nat) :
  forall (h : MinHeap) (idx : nat),
  (size h <= length (array h))%nat ->
  heap_pos_ok h ->
  (size h - idx < fuel)%nat ->
  exists h', minHeapify_rec fuel h idx = Some h' /\
    heap_same h h' /\ heap_pos_ok h' /\
    (ordered_below h idx -> heap_ordered h').
Proof.
  induction fuel as [|fuel IH]; intros h idx Hlen Hok Hfuel; [lia|].
  destruct (decide (idx < size h)%nat) as [Hidx|Hidx].
  - destruct (lookup_lt_is_Some_2 (array h) idx ltac:(lia)) as [ni Hi].
    destruct (minHeapify_rec_step fuel h idx ni Hlen Hi)
      as (s & ns & Hs & Hle & Hmin & [(-> & Hrun)|(Hc & Hlt & Hd & Hrun)]).
    + exists h. split; [done|]. split; [apply heap_same_refl|]. split; [done|].
      intros Hbelow i n p Hir Hn Hp.
      destruct (Nat.eq_dec ((i - 1) / 2)%nat idx) as [Hq|Hq].
      * rewrite Hq, Hi in Hp. injection Hp as <-. rewrite Hi in Hs.
        injection Hs as <-. apply (Hmin i n); try done; try lia.
        apply parent_child; [lia|done].
      * by apply (proj1 Hbelow i n p).
    + destruct (heap_swap_same h s idx ns ni Hok Hlt Hidx ltac:(lia) Hs Hi)
        as (h1 & Hswap & Hsame & Hok1 & Harr).
      rewrite Hrun, Hswap. cbn [mbind option_bind].
      pose proof Hsame as (Hsz & Hcap & Hlp & Hla & Hent & Hout & Hback).
      destruct (IH h1 s) as (h' & Hrun' & Hsame' & Hok' & Hord'); try done.
      * lia.
      * lia.
      * exists h'. split; [done|]. split; [by apply heap_same_trans with h1|].
        split; [done|]. intros Hbelow. apply Hord'.
        by apply (swap_down_ordered h h1 idx s ni ns).
  - exists h.
    assert (Hrun : minHeapify_rec (S fuel) h idx = Some h).
    { cbn [minHeapify_rec]. unfold pick_smaller.
      replace (2 * idx + 1 <? size h)%nat with false
        by (symmetry; apply Nat.ltb_ge; lia).
      cbn [mbind option_bind].
      replace (2 * idx + 2 <? size h)%nat with false
        by (symmetry; apply Nat.ltb_ge; lia).
      cbn [mbind option_bind]. by rewrite Nat.eqb_refl. }
    split; [done|]. split; [apply heap_same_refl|]. split; [done|].
    intros Hbelow i n p Hir Hn Hp. apply (proj1 Hbelow i n p); try done.
    pose proof (parent_lt i ltac:(lia)). lia.
Qed.

(** The root of an ordered heap has the least key. *)
Lemma heap_root_min (h : MinHeap) (root : MinHeapNode) :
  (size h <= length (array h))%nat -> heap_ordered h ->
  array h !! 0%nat = Some root ->
  forall i n, (i < size h)%nat -> array h !! i = Some n ->
  (dist root <= dist n)%Q.
Proof.
  intros Hlen Hord Hroot i. induction i as [i IH] using lt_wf_ind.
  intros n Hi Hn. destruct (Nat.eq_dec i 0%nat) as [->|Hne].
  - rewrite Hroot in Hn. injection Hn as <-. lra.
  - pose proof (parent_lt i ltac:(lia)) as Hp.
    destruct (lookup_lt_is_Some_2 (array h) ((i - 1) / 2)%nat ltac:(lia)) as [p Hpn].
    apply Qle_trans with (dist p).
    + apply (IH ((i - 1) / 2)%nat); [done|lia|done].
    + apply (Hord i n p); [lia|done|done].
Qed.

Lemma heap_entry_eta (h : MinHeap) (i : nat) (n : MinHeapNode) :
  heap_pos_ok h -> (i < size h)%nat -> array h !! i = Some n ->
  heap_entry h (hnode_id n) (dist n).
Proof.
  intros Hok Hi Hn. exists i. split; [by apply Hok|]. split; [done|].
  by destruct n.
Qed.

Section ExtractMin.
Variable h : MinHeap.
Variables root lastNode : MinHeapNode.
Hypothesis Hlen : (size h <= length (array h))%nat.
Hypothesis Hok : heap_pos_ok h.
Hypothesis Hsize : (0 < size h)%nat.
Hypothesis Hroot : array h !! 0%nat = Some root.
Hypothesis Hlast : array h !! (size h - 1)%nat = Some lastNode.

(** The heap when [extractMin] calls [minHeapify]. *)
Let h1 : MinHeap :=
  mkMinHeap (capacity h) (size h - 1)
    (<[hnode_id lastNode := 0%nat]> (<[hnode_id root := (size h - 1)%nat]> (pos h)))
    (<[0%nat := lastNode]> (array h)).

Lemma extract_pos_root : pos h !! hnode_id root = Some 0%nat.
Proof. by apply Hok. Qed.

Lemma extract_pos_last : pos h !! hnode_id lastNode = Some (size h - 1)%nat.
Proof. apply Hok; [lia|done]. Qed.

Lemma extract_ids : (1 < size h)%nat -> hnode_id root <> hnode_id lastNode.
Proof.
  intros H1 Heq.
  apply (heap_pos_ok_inj h 0%nat (size h - 1)%nat root lastNode) in Heq;
    try done; lia.
Qed.

Lemma extract_array (i : nat) :
  array h1 !! i = if decide (i = 0%nat) then Some lastNode else array h !! i.
Proof.
  simpl. destruct (decide (i = 0%nat)) as [->|Hne].
  - apply list_lookup_insert_eq. by eapply lookup_lt_Some.
  - by rewrite list_lookup_insert_ne.
Qed.

Lemma extract_pos (v : nat) :
  pos h1 !! v
  = if decide (v = hnode_id lastNode) then Some 0%nat
    else if decide (v = hnode_id root) then Some (size h - 1)%nat
         else pos h !! v.
Proof.
  simpl. pose proof extract_pos_root as Hr. pose proof extract_pos_last as Hl.
  destruct (decide (v = hnode_id lastNode)) as [->|Hvl].
  - apply list_lookup_insert_eq. rewrite length_insert. by eapply lookup_lt_Some.
  - rewrite list_lookup_insert_ne by done.
    destruct (decide (v = hnode_id root)) as [->|Hvr].
    + apply list_lookup_insert_eq. by eapply lookup_lt_Some.
    + by rewrite list_lookup_insert_ne.
Qed.

Lemma extract_run :
  extractMin h = (h' ← minHeapify h1 0%nat; Some (Some root, h')).
Proof.
  unfold extractMin, isEmpty.
  replace (size h =? 0)%nat with false by (symmetry; apply Nat.eqb_neq; lia).
  rewrite Hroot, Hlast. cbn [mbind option_bind].
  pose proof extract_pos_root as Hr. pose proof extract_pos_last as Hl.
  rewrite !store_lt by (by eapply lookup_lt_Some). cbn [mbind option_bind].
  rewrite store_lt; [done|]. rewrite length_insert. by eapply lookup_lt_Some.
Qed.

Lemma extract_pos_ok : heap_pos_ok h1.
Proof.
  intros i n Hi Hn. simpl in Hi. rewrite extract_array in Hn. rewrite extract_pos.
  destruct (decide (i = 0%nat)) as [->|Hne].
  - injection Hn as <-. by rewrite decide_True.
  - rewrite !decide_False; [apply Hok; [lia|exact Hn]| |].
    + intros Heq.
      apply (heap_pos_ok_inj h i 0%nat n root) in Heq; try done; lia.
    + intros Heq.
      apply (heap_pos_ok_inj h i (size h - 1)%nat n lastNode) in Heq;
        try done; lia.
Qed.

Lemma extract_ordered_below : heap_ordered h -> ordered_below h1 0.
Proof.
  intros Hord. split; [|intros; lia].
  intros i n p Hi Hpar Hn Hp. simpl in Hi.
  rewrite extract_array in Hn. rewrite extract_array in Hp.
  rewrite decide_False in Hn by lia. rewrite decide_False in Hp by done.
  apply (Hord i n p); [lia|done|done].
Qed.

Lemma extract_entry (v : nat) (k : double) :
  heap_entry h1 v k <-> heap_entry h v k /\ v <> hnode_id root.
Proof.
  pose proof extract_pos_root as Hr. pose proof extract_pos_last as Hl.
  unfold heap_entry. change (size h1) with (size h - 1)%nat. split.
  - intros (p & Hp & Hlt & Hn). rewrite extract_pos in Hp.
    rewrite extract_array in Hn.
    destruct (decide (v = hnode_id lastNode)) as [->|Hvl].
    + injection Hp as <-. rewrite decide_True in Hn by done.
      injection Hn as Hn. split.
      * exists (size h - 1)%nat. split; [done|]. split; [lia|]. by rewrite <- Hn.
      * intros Heq. apply extract_ids; [lia|done].
    + destruct (decide (v = hnode_id root)) as [->|Hvr].
      * injection Hp as <-. lia.
      * split; [|done]. exists p. split; [done|]. split; [lia|].
        destruct (decide (p = 0%nat)) as [->|]; [|done].
        injection Hn as ->. done.
  - intros [(p & Hp & Hlt & Hn) Hvr].
    assert (Hp0 : p <> 0%nat).
    { intros ->. rewrite Hroot in Hn. injection Hn as ->. done. }
    destruct (decide (v = hnode_id lastNode)) as [->|Hvl].
    + rewrite Hl in Hp. injection Hp as <-.
      exists 0%nat. rewrite extract_pos, extract_array.
      rewrite !decide_True by done. split; [done|]. split; [lia|].
      rewrite Hlast in Hn. done.
    + exists p. rewrite extract_pos, extract_array.
      rewrite !decide_False by done. split; [done|]. split; [|done].
      destruct (Nat.eq_dec p (size h - 1)%nat) as [->|]; [|lia].
      rewrite Hlast in Hn. injection Hn as ->. done.
Qed.

Lemma extract_out_root : heap_out h1 (hnode_id root).
Proof.
  unfold heap_out. rewrite extract_pos. change (size h1) with (size h - 1)%nat.
  destruct (decide (hnode_id root = hnode_id lastNode)) as [Heq|Hne].
  - exists 0%nat. split; [done|].
    destruct (Nat.eq_dec (size h) 1%nat); [lia|].
    exfalso. apply extract_ids; [lia|done].
  - rewrite decide_True by done. eexists. split; [done|]. lia.
Qed.

Lemma extract_out (v : nat) : heap_out h v -> heap_out h1 v.
Proof.
  pose proof extract_pos_root as Hr. pose proof extract_pos_last as Hl.
  intros (p & Hp & Hge). exists p. rewrite extract_pos.
  change (size h1) with (size h - 1)%nat.
  rewrite !decide_False; [split; [done|lia]| |].
  - intros ->. rewrite Hr in Hp. injection Hp as <-. lia.
  - intros ->. rewrite Hl in Hp. injection Hp as <-. lia.
Qed.

Lemma extract_pos_back : heap_pos_back h -> heap_pos_back h1.
Proof.
  intros Hback v p Hp Hlt. change (size h1) with (size h - 1)%nat in Hlt.
  rewrite extract_pos in Hp. rewrite extract_array.
  destruct (decide (v = hnode_id lastNode)) as [->|Hvl].
  - injection Hp as <-. rewrite decide_True by done. by exists lastNode.
  - destruct (decide (v = hnode_id root)) as [->|Hvr].
    + injection Hp as <-. lia.
    + destruct (Hback v p Hp ltac:(lia)) as (n & Hn & Hid).
      rewrite decide_False; [by exists n|].
      intros ->. rewrite Hroot in Hn. injection Hn as <-. done.
Qed.

End ExtractMin.

(** [extractMin] on a non-empty valid heap. *)
Lemma extractMin_spec (h : MinHeap) :
  (size h <= length (array h))%nat -> heap_pos_ok h ->
  (0 < size h)%nat ->
  exists root h',
    extractMin h = Some (Some root, h') /\
    array h !! 0%nat = Some root /\
    heap_entry h (hnode_id root) (dist root) /\
    (heap_ordered h -> forall v k, heap_entry h v k -> (dist root <= k)%Q) /\
    size h' = (size h - 1)%nat /\ capacity h' = capacity h /\
    length (pos h') = length (pos h) /\
    length (array h') = length (array h) /\
    heap_pos_ok h' /\ (heap_ordered h -> heap_ordered h') /\
    (forall v k, heap_entry h' v k <-> heap_entry h v k /\ v <> hnode_id root) /\
    heap_out h' (hnode_id root) /\
    (forall v, heap_out h v -> heap_out h' v) /\
    (heap_pos_back h -> heap_pos_back h').
Proof.
  intros Hlen Hok Hsize.
  destruct (lookup_lt_is_Some_2 (array h) 0%nat ltac:(lia)) as [root Hroot].
  destruct (lookup_lt_is_Some_2 (array h) (size h - 1)%nat ltac:(lia)) as [lastNode Hlast].
  set (h1 := mkMinHeap (capacity h) (size h - 1)%nat
    (<[hnode_id lastNode := 0%nat]> (<[hnode_id root := (size h - 1)%nat]> (pos h)))
    (<[0%nat := lastNode]> (array h))).
  destruct (minHeapify_rec_spec (S (size h1)) h1 0%nat)
    as (h' & Hrun & Hsame & Hok' & Hord').
  { simpl. rewrite length_insert. lia. }
  { by apply extract_pos_ok. }
  { lia. }
  destruct Hsame as (Hsz & Hcap & Hlp & Hla & Hent & Hout & Hback).
  exists root, h'. split.
  { rewrite (extract_run h root lastNode) by done.
    fold h1. unfold minHeapify. by rewrite Hrun. }
  split; [done|]. split; [by apply (heap_entry_eta h 0%nat)|]. split.
  { intros Hord v k (p & Hp & Hlt & Hn).
    by apply (heap_root_min h root Hlen Hord Hroot p (mkMinHeapNode v k)). }
  split; [done|]. split; [done|].
  split; [by rewrite Hlp; simpl; rewrite !length_insert|].
  split; [by rewrite Hla; simpl; rewrite !length_insert|].
  split; [done|]. split.
  { intros Hord. apply Hord'. by apply extract_ordered_below. }
  split; [|split; [|split]].
  - intros v k. rewrite Hent. by apply extract_entry.
  - apply Hout. by apply extract_out_root.
  - intros v Hv. apply Hout. by apply (extract_out h root lastNode).
  - intros Hb. apply Hback. by apply (extract_pos_back h root lastNode).
Qed.

(** Exchanging [i] with its parent moves the repair of [decreaseKey] up
    to the parent. *)
Lemma swap_up_ordered (h h1 : MinHeap) (i : nat) ni np :
  ordered_above h i ->
  size h1 = size h ->
  (0 < i < size h)%nat ->
  array h !! i = Some ni -> array h !! ((i - 1) / 2)%nat = Some np ->
  (dist ni < dist np)%Q ->
  (forall j, array h1 !! j
     = if decide (j = ((i - 1) / 2)%nat) then Some ni
       else if decide (j = i) then Some np else array h !! j) ->
  ordered_above h1 ((i - 1) / 2).
Proof.
  intros [Hord Hgp] Hsz Hi Hni Hnp Hd Harr.
  pose proof (parent_lt i ltac:(lia)) as Hpi.
  set (p := ((i - 1) / 2)%nat) in *.
  split.
  - intros c n q Hc Hcp Hn Hq. rewrite Hsz in Hc.
    rewrite Harr in Hn. rewrite Harr in Hq.
    rewrite decide_False in Hn by done.
    pose proof (parent_lt c ltac:(lia)) as Hpc.
    destruct (Nat.eq_dec c i) as [->|Hci].
    + rewrite decide_True in Hn by done. injection Hn as <-.
      fold p in Hq. rewrite decide_True in Hq by done. injection Hq as <-. lra.
    + rewrite decide_False in Hn by done.
      destruct (Nat.eq_dec ((c - 1) / 2)%nat p) as [Hcq|Hcq].
      * rewrite decide_True in Hq by done. injection Hq as <-.
        assert (dist np <= dist n)%Q; [|lra].
        apply (Hord c n np); try done. by rewrite Hcq.
      * rewrite decide_False in Hq by done.
        destruct (Nat.eq_dec ((c - 1) / 2)%nat i) as [Hci'|Hci'].
        -- rewrite decide_True in Hq by done. injection Hq as <-.
           apply (Hgp c n np); try done; lia.
        -- rewrite decide_False in Hq by done. by apply (Hord c n q).
  - intros c n q Hp0 Hc Hcp Hn Hq. rewrite Hsz in Hc.
    rewrite Harr in Hn. rewrite Harr in Hq.
    pose proof (parent_lt p ltac:(lia)) as Hpp.
    pose proof (parent_lt c ltac:(lia)) as Hpc.
    rewrite !decide_False in Hq by lia.
    rewrite decide_False in Hn by lia.
    destruct (Nat.eq_dec c i) as [->|Hci].
    + rewrite decide_True in Hn by done. injection Hn as <-.
      apply (Hord p np q); try done; lia.
    + rewrite decide_False in Hn by done.
      apply Qle_trans with (dist np).
      * apply (Hord p np q); try done; lia.
      * apply (Hord c n np); try done. by rewrite Hcp.
Qed.

(** The loop of [decreaseKey] restores a heap whose only defect is
    above [i]; it needs no more fuel than [i + 1]. *)
Lemma sift_up_spec (fuel : nat) :
  forall (h : MinHeap) (i : nat),
  (size h <= length (array h))%nat ->
  heap_pos_ok h ->
  (i < size h)%nat -> (i < fuel)%nat ->
  exists h', sift_up fuel h i = Some h' /\
    heap_same h h' /\ heap_pos_ok h' /\
    (ordered_above h i -> heap_ordered h').
Proof.
  induction fuel as [|fuel IH]; intros h i Hlen Hok Hi Hfuel; [lia|].
  cbn [sift_up]. destruct (Nat.eq_dec i 0%nat) as [->|Hi0].
  - exists h. split; [done|]. split; [apply heap_same_refl|]. split; [done|].
    intros Habove c n p Hc Hn Hp. apply (proj1 Habove c n p); try done. lia.
  - replace (i =? 0)%nat with false by (symmetry; by apply Nat.eqb_neq).
    pose proof (parent_lt i ltac:(lia)) as Hpi.
    destruct (lookup_lt_is_Some_2 (array h) i ltac:(lia)) as [ni Hni].
    destruct (lookup_lt_is_Some_2 (array h) ((i - 1) / 2)%nat ltac:(lia))
      as [np Hnp].
    rewrite Hni, Hnp. cbn [mbind option_bind].
    destruct (dlt (dist ni) (dist np)) eqn:Hd.
    + apply dlt_true in Hd.
      destruct (heap_swap_same h i ((i - 1) / 2)%nat ni np Hok Hi
                  ltac:(lia) ltac:(lia) Hni Hnp)
        as (h1 & Hswap & Hsame & Hok1 & Harr).
      pose proof Hsame as (Hsz & Hcap & Hlp & Hla & Hent & Hout & Hback).
      destruct (IH h1 ((i - 1) / 2)%nat) as (h' & Hrun & Hsame' & Hok' & Hord');
        try done; try lia.
      exists h'. split.
      { unfold heap_swap in Hswap. rewrite Hni, Hnp in Hswap.
        cbn [mbind option_bind] in Hswap.
        destruct (store (pos h) (hnode_id ni) ((i - 1) / 2)%nat) as [pos1|];
          cbn [mbind option_bind] in *; [|done].
        destruct (store pos1 (hnode_id np) i) as [pos2|];
          cbn [mbind option_bind] in *; [|done].
        destruct (swapMinHeapNode (array h) i ((i - 1) / 2)%nat) as [array1|];
          cbn [mbind option_bind] in *; [|done].
        injection Hswap as <-. done. }
      split; [by apply heap_same_trans with h1|]. split; [done|].
      intros Habove. apply Hord'.
      apply (swap_up_ordered h h1 i ni np); try done; lia.
    + apply dlt_false in Hd.
      exists h. split; [done|]. split; [apply heap_same_refl|]. split; [done|].
      intros Habove c n p Hc Hn Hp.
      destruct (Nat.eq_dec c i) as [->|Hci].
      * rewrite Hni in Hn. rewrite Hnp in Hp.
        injection Hn as <-. injection Hp as <-. done.
      * by apply (proj1 Habove c n p).
Qed.

Section DecreaseKey.
Variable h : MinHeap.
Variable i : nat.
Variable ai : MinHeapNode.
Variable d : double.
Hypothesis Hlen : (size h <= length (array h))%nat.
Hypothesis Hok : heap_pos_ok h.
Hypothesis Hi : (i < size h)%nat.
Hypothesis Hai : array h !! i = Some ai.

(** The heap when [decreaseKey] enters its loop. *)
Let h1 : MinHeap :=
  mkMinHeap (capacity h) (size h) (pos h)
    (<[i := mkMinHeapNode (hnode_id ai) d]> (array h)).

Lemma decrease_array (j : nat) :
  array h1 !! j
  = if decide (j = i) then Some (mkMinHeapNode (hnode_id ai) d)
    else array h !! j.
Proof.
  simpl. destruct (decide (j = i)) as [->|Hne].
  - apply list_lookup_insert_eq. by eapply lookup_lt_Some.
  - by rewrite list_lookup_insert_ne.
Qed.

Lemma decrease_pos_ok : heap_pos_ok h1.
Proof.
  intros j n Hj Hn. rewrite decrease_array in Hn. simpl.
  destruct (Nat.eq_dec j i) as [->|Hne].
  - rewrite decide_True in Hn by done. injection Hn as <-. simpl. by apply Hok.
  - rewrite decide_False in Hn by done. by apply Hok.
Qed.

Lemma decrease_ordered_above :
  heap_ordered h -> (d <= dist ai)%Q -> ordered_above h1 i.
Proof.
  intros Hord Hd. split.
  - intros c n p Hc Hci Hn Hp. simpl in Hc.
    rewrite decrease_array in Hn. rewrite decrease_array in Hp.
    rewrite decide_False in Hn by done.
    destruct (Nat.eq_dec ((c - 1) / 2)%nat i) as [Hq|Hq].
    + rewrite decide_True in Hp by done. injection Hp as <-. simpl.
      apply Qle_trans with (dist ai); [done|].
      apply (Hord c n ai); try done. by rewrite Hq.
    + rewrite decide_False in Hp by done. by apply (Hord c n p).
  - intros c n p Hi0 Hc Hcp Hn Hp. simpl in Hc.
    rewrite decrease_array in Hn. rewrite decrease_array in Hp.
    pose proof (parent_lt i ltac:(lia)) as Hpi.
    pose proof (parent_lt c ltac:(lia)) as Hpc.
    rewrite decide_False in Hn by lia. rewrite decide_False in Hp by lia.
    apply Qle_trans with (dist ai).
    + apply (Hord i ai p); try done; lia.
    + apply (Hord c n ai); try done. by rewrite Hcp.
Qed.

Lemma decrease_entry (v : nat) (k : double) :
  heap_entry h1 v k
  <-> (v = hnode_id ai /\ k = d) \/ (v <> hnode_id ai /\ heap_entry h v k).
Proof.
  assert (Hpi : pos h !! hnode_id ai = Some i) by (by apply Hok).
  unfold heap_entry. change (size h1) with (size h). change (pos h1) with (pos h).
  split.
  - intros (p & Hp & Hlt & Hn). rewrite decrease_array in Hn.
    destruct (Nat.eq_dec p i) as [->|Hne].
    + rewrite decide_True in Hn by done. injection Hn as <- <-. by left.
    + rewrite decide_False in Hn by done. right. split; [|by exists p].
      intros ->. rewrite Hpi in Hp. by injection Hp as <-.
  - intros [[-> ->]|[Hne (p & Hp & Hlt & Hn)]].
    + exists i. rewrite decrease_array. by rewrite decide_True.
    + exists p. rewrite decrease_array. rewrite decide_False; [done|].
      intros ->. rewrite Hai in Hn. by injection Hn as ->.
Qed.

Lemma decrease_pos_back : heap_pos_back h -> heap_pos_back h1.
Proof.
  intros Hback v p Hp Hlt. rewrite decrease_array.
  destruct (Hback v p Hp Hlt) as (n & Hn & Hid).
  destruct (Nat.eq_dec p i) as [->|Hne].
  - rewrite decide_True by done. eexists. split; [done|]. simpl.
    rewrite Hai in Hn. by injection Hn as <-.
  - rewrite decide_False by done. by exists n.
Qed.

End DecreaseKey.

(** [decreaseKey] on a node inside a valid heap, with a key that is not
    above the node's key. *)
Lemma decreaseKey_spec (h : MinHeap) (id i : nat) (ai : MinHeapNode) (d : double) :
  (size h <= length (array h))%nat -> heap_pos_ok h ->
  pos h !! id = Some i -> (i < size h)%nat ->
  array h !! i = Some ai ->
  exists h',
    decreaseKey h id d = Some h' /\
    size h' = size h /\ capacity h' = capacity h /\
    length (pos h') = length (pos h) /\
    length (array h') = length (array h) /\
    heap_pos_ok h' /\
    (heap_ordered h -> (d <= dist ai)%Q -> heap_ordered h') /\
    (forall v k, heap_entry h' v k
       <-> (v = hnode_id ai /\ k = d) \/ (v <> hnode_id ai /\ heap_entry h v k)) /\
    (forall v, heap_out h v -> heap_out h' v) /\
    (heap_pos_back h -> heap_pos_back h').
Proof.
  intros Hlen Hok Hpos Hi Hai.
  set (h1 := mkMinHeap (capacity h) (size h) (pos h)
               (<[i := mkMinHeapNode (hnode_id ai) d]> (array h))).
  destruct (sift_up_spec (S i) h1 i) as (h' & Hrun & Hsame & Hok' & Hord');
    try done; try lia.
  { simpl. by rewrite length_insert. }
  { by apply decrease_pos_ok. }
  destruct Hsame as (Hsz & Hcap & Hlp & Hla & Hent & Hout & Hback).
  exists h'. split.
  { unfold decreaseKey. rewrite Hpos. cbn [mbind option_bind].
    rewrite Hai. cbn [mbind option_bind]. done. }
  split; [done|]. split; [done|]. split; [done|].
  split; [by rewrite Hla; simpl; rewrite length_insert|].
  split; [done|]. split.
  { intros Hord Hd. apply Hord'. by apply decrease_ordered_above. }
  split; [|split].
  - intros v k. rewrite Hent. by apply decrease_entry.
  - intros v Hv. by apply Hout.
  - intros Hb. apply Hback. by apply decrease_pos_back.
Qed.

Lemma isInMinHeap_true (h : MinHeap) (id : nat) :
  isInMinHeap h id = Some true <->
  exists i, pos h !! id = Some i /\ (i < size h)%nat.
Proof.
  unfold isInMinHeap. destruct (pos h !! id) as [i|]; simpl.
  - split.
    + intros [= H]. apply Nat.ltb_lt in H. by exists i.
    + intros (i' & [= <-] & H). apply Nat.ltb_lt in H. by rewrite H.
  - split; [done|]. by intros (i & ? & _).
Qed.

Lemma isInMinHeap_false (h : MinHeap) (id : nat) :
  isInMinHeap h id = Some false <-> heap_out h id.
Proof.
  unfold isInMinHeap, heap_out. destruct (pos h !! id) as [i|]; simpl.
  - split.
    + intros [= H]. apply Nat.ltb_ge in H. by exists i.
    + intros (i' & [= <-] & H). apply Nat.ltb_ge in H. by rewrite H.
  - split; [done|]. by intros (i & ? & _).
Qed.

(** C10.  On a valid heap that is not empty, [extractMin] returns a
    node of the heap whose key is at most the key of every node in the
    heap; the heap it leaves is valid, one node smaller, and the
    extracted node has [pos[node_id] >= size], so that [isInMinHeap]
    answers 0 for it.  On a valid heap, [decreaseKey] of a node that
    [isInMinHeap] reports inside, with a key not above the key of its
    slot, leaves a valid heap. *)
Theorem heap_operations_valid (h : MinHeap) :
  heap_valid h ->
  ((0 < size h)%nat ->
   exists root h',
     extractMin h = Some (Some root, h') /\
     (exists i, (i < size h)%nat /\ array h !! i = Some root) /\
     (forall i n, (i < size h)%nat -> array h !! i = Some n ->
        (dist root <= dist n)%Q) /\
     heap_valid h' /\ size h' = (size h - 1)%nat /\
     (exists p, pos h' !! hnode_id root = Some p /\ (size h' <= p)%nat) /\
     isInMinHeap h' (hnode_id root) = Some false) /\
  (forall id k,
     isInMinHeap h id = Some true ->
     (forall i ai, pos h !! id = Some i -> array h !! i = Some ai ->
        (k <= dist ai)%Q) ->
     exists h', decreaseKey h id k = Some h' /\ heap_valid h').
Proof.
  intros (Hcap & Hlen & Hok & Hord). split.
  - intros Hsize.
    destruct (extractMin_spec h) as (root & h' & Hrun & Hroot & _ & _ & Hsz & Hc
      & _ & Hla & Hok' & Hord' & _ & Hout & _); try done; try lia.
    specialize (Hord' Hord).
    exists root, h'. split; [done|]. split; [by exists 0%nat|]. split.
    { by apply heap_root_min; [lia|..]. }
    split; [|split; [done|split; [done|by apply isInMinHeap_false]]].
    split; [lia|]. split; [congruence|]. done.
  - intros id k Hin Hk. apply isInMinHeap_true in Hin as (i & Hpos & Hi).
    destruct (lookup_lt_is_Some_2 (array h) i ltac:(lia)) as [ai Hai].
    destruct (decreaseKey_spec h id i ai k) as (h' & Hrun & Hsz & Hc & _ & Hla
      & Hok' & Hord' & _); try done; try lia.
    specialize (Hord' Hord (Hk i ai Hpos Hai)).
    exists h'. split; [done|]. split; [lia|]. split; [congruence|]. done.
Qed.

Lemma sample_heap_valid : heap_valid sample_heap.
Proof.
  split; [simpl; lia|]. split; [done|]. split.
  - intros i n Hi Hn. simpl in Hi.
    destruct i as [|[|[|i]]]; try lia; injection Hn as <-; done.
  - intros i n p Hi Hn Hp. simpl in Hi.
    destruct i as [|[|[|i]]]; try lia;
      injection Hn as <-; injection Hp as <-; done.
Qed.

Lemma heap_operations_valid_witness :
  (exists root h',
     extractMin sample_heap = Some (Some root, h') /\
     (exists i, (i < size sample_heap)%nat /\ array sample_heap !! i = Some root) /\
     (forall i n, (i < size sample_heap)%nat -> array sample_heap !! i = Some n ->
        (dist root <= dist n)%Q) /\
     heap_valid h' /\ size h' = (size sample_heap - 1)%nat /\
     (exists p, pos h' !! hnode_id root = Some p /\ (size h' <= p)%nat) /\
     isInMinHeap h' (hnode_id root) = Some false) /\
  (exists h', decreaseKey sample_heap 1 (1 # 2)%Q = Some h' /\ heap_valid h').
Proof.
  destruct (heap_operations_valid sample_heap sample_heap_valid) as [Hext Hdec].
  split.
  - apply Hext. simpl. lia.
  - apply Hdec; [reflexivity|].
    intros i ai [= <-] [= <-]. discriminate.
Defined.

(** ** The search: structure *)

Lemma DBL_MAX_pos : (0 < DBL_MAX)%Q.
Proof. reflexivity. Qed.

Lemma heap_entry_fun (h : MinHeap) (v : nat) (k1 k2 : double) :
  heap_entry h v k1 -> heap_entry h v k2 -> k1 = k2.
Proof.
  intros (p1 & Hp1 & _ & Hn1) (p2 & Hp2 & _ & Hn2).
  rewrite Hp1 in Hp2. injection Hp2 as <-. rewrite Hn1 in Hn2. by injection Hn2.
Qed.

Lemma heap_entry_not_out (h : MinHeap) (v : nat) (k : double) :
  heap_entry h v k -> heap_out h v -> False.
Proof.
  intros (p1 & Hp1 & Hlt & _) (p2 & Hp2 & Hge).
  rewrite Hp1 in Hp2. injection Hp2 as <-. lia.
Qed.

Lemma heap_struct_cases (V : nat) (h : MinHeap) (v : nat) :
  heap_struct V h -> (v < V)%nat ->
  (exists k, heap_entry h v k) \/ heap_out h v.
Proof.
  intros (Hlp & Hla & Hsz & Hok & Hback) Hv.
  destruct (lookup_lt_is_Some_2 (pos h) v ltac:(lia)) as [p Hp].
  destruct (decide (p < size h)%nat) as [Hlt|Hge].
  - left. destruct (Hback v p Hp Hlt) as ([id k] & Hn & Hid).
    simpl in Hid. subst id. exists k. by exists p.
  - right. exists p. split; [done|lia].
Qed.

Lemma heap_entry_lt (V : nat) (h : MinHeap) (v : nat) (k : double) :
  heap_struct V h -> heap_entry h v k -> (v < V)%nat.
Proof.
  intros (Hlp & _) (p & Hp & _). rewrite <- Hlp. by eapply lookup_lt_Some.
Qed.

Lemma heap_out_lt (V : nat) (h : MinHeap) (v : nat) :
  heap_struct V h -> heap_out h v -> (v < V)%nat.
Proof.
  intros (Hlp & _) (p & Hp & _). rewrite <- Hlp. by eapply lookup_lt_Some.
Qed.

(** [decreaseKey] in the form the search uses it. *)
Lemma decreaseKey_heap (V : nat) (h : MinHeap) (v : nat) (d : double) :
  heap_struct V h -> isInMinHeap h v = Some true ->
  exists h', decreaseKey h v d = Some h' /\ heap_decreased V h v d h'.
Proof.
  intros (Hlp & Hla & Hsz & Hok & Hback) Hin.
  apply isInMinHeap_true in Hin as (i & Hpos & Hi).
  destruct (Hback v i Hpos Hi) as (ai & Hai & Hid).
  destruct (decreaseKey_spec h v i ai d) as (h' & Hrun & Hsz' & _ & Hlp' & Hla'
    & Hok' & Hord' & Hent & Hout & Hback'); try done; try lia.
  exists h'. split; [done|]. rewrite Hid in Hent.
  split; [done|]. split.
  { split; [congruence|]. split; [congruence|]. split; [lia|].
    split; [done|]. by apply Hback'. }
  split; [done|]. split; [done|].
  intros kold Hold Hord Hd. apply Hord'; [done|].
  destruct Hold as (p & Hp & _ & Hn). rewrite Hpos in Hp. injection Hp as <-.
  rewrite Hai in Hn. injection Hn as ->. done.
Qed.

Section SearchStructure.
Variable sqrt : double -> double.
Variable graph : Graph.
Variables s t : nat.
Hypothesis Hwf : graph_wf graph.
Hypothesis Hs : Z.of_nat s < num_nodes graph.
Hypothesis Ht : Z.of_nat t < num_nodes graph.

Local Abbreviation V := (Z.to_nat (num_nodes graph)).
Local Abbreviation hv := (hval sqrt graph t).
Local Abbreviation inv := (search_inv sqrt graph s t).

Lemma heuristic_hval (v : nat) :
  Z.of_nat v < num_nodes graph ->
  heuristic sqrt graph (Z.of_nat v) (Z.of_nat t) = Some (hv v).
Proof.
  intros Hv. unfold hval, heuristic.
  replace ((Z.of_nat v <? 0) || (Z.of_nat v >=? num_nodes graph)
           || (Z.of_nat t <? 0) || (Z.of_nat t >=? num_nodes graph))
    with false.
  2:{ symmetry. rewrite !orb_false_iff, !Z.ltb_ge, !Z.geb_leb, !Z.leb_gt. lia. }
  destruct (graph_wf_node graph (Z.of_nat v) Hwf ltac:(lia)) as [a Ha].
  destruct (graph_wf_node graph (Z.of_nat t) Hwf ltac:(lia)) as [b Hb].
  rewrite Ha, Hb. simpl. by destruct (dlt 0%Q (max_speed graph)).
Qed.

Lemma node_lt (v : nat) : Z.of_nat v < num_nodes graph <-> (v < V)%nat.
Proof. lia. Qed.

(** One turn of the loop over the adjacency list: either nothing
    changes, or the edge leads to a node [v] that is improved. *)
Lemma relax_edge_spec (u : nat) (st : AStar) (eid : Z) :
  inv st -> (u < V)%nat ->
  exists st', relax_edge sqrt graph (Z.of_nat t) u st eid = Some st' /\
    ((st' = st /\
      forall (v : nat) (w gu gv : double), edge_at graph eid v w ->
        g_score st !! u = Some gu -> g_score st !! v = Some gv ->
        ~ (gu == DBL_MAX)%Q -> (gv <= gu + w)%Q) \/
     (exists (v : nat) (w gu gv : double),
        edge_at graph eid v w /\
        g_score st !! u = Some gu /\ g_score st !! v = Some gv /\
        ~ (gu == DBL_MAX)%Q /\ (gu + w < gv)%Q /\
        g_score st' = <[v := (gu + w)%Q]> (g_score st) /\
        f_score st' = <[v := (gu + w + hv v)%Q]> (f_score st) /\
        parent st' = <[v := Z.of_nat u]> (parent st) /\
        ((heap_out (minHeap st) v /\ minHeap st' = minHeap st) \/
         ((exists kold, heap_entry (minHeap st) v kold) /\
          heap_decreased V (minHeap st) v (gu + w + hv v)%Q (minHeap st'))))).
Proof.
  intros (Hlg & Hlf & Hlp & Hheap & Hkey & Hnodes) Hu.
  unfold relax_edge.
  destruct ((eid <? 0) || (eid >=? num_edges graph)) eqn:Hr.
  { exists st. split; [done|]. left. split; [done|].
    intros v w gu gv (Hr' & _). apply out_of_range_test in Hr. lia. }
  apply in_range_test in Hr.
  destruct (graph_wf_edge graph eid Hwf Hr) as [e He].
  rewrite He. cbn [mbind option_bind].
  unfold get_edge_weight.
  replace ((eid <? 0) || (eid >=? num_edges graph)) with false
    by (symmetry; by apply in_range_test).
  rewrite He. cbn [fmap option_fmap option_map mbind option_bind].
  destruct ((to_node e <? 0) || (to_node e >=? num_nodes graph)) eqn:Hv.
  { exists st. split; [done|]. left. split; [done|].
    intros v w gu gv (_ & e' & He' & Hto & Hlt & _).
    rewrite He in He'. injection He' as <-.
    apply out_of_range_test in Hv. lia. }
  apply in_range_test in Hv.
  destruct (lookup_lt_is_Some_2 (g_score st) u ltac:(lia)) as [gu Hgu].
  rewrite Hgu. cbn [mbind option_bind].
  assert (Hedge : edge_at graph eid (Z.to_nat (to_node e)) (current_travel_time e)).
  { split; [done|]. exists e. rewrite Z2Nat.id by lia. repeat split; try done; lia. }
  assert (Hskip : forall (v : nat) (w : double), edge_at graph eid v w ->
            v = Z.to_nat (to_node e) /\ w = current_travel_time e).
  { intros v w (_ & e' & He' & Hto & _ & ->).
    rewrite He in He'. injection He' as <-. split; [lia|done]. }
  destruct (deq gu DBL_MAX) eqn:Hinf; cbn [negb].
  { exists st. split; [done|]. left. split; [done|].
    intros v w gu' gv Hedge' Hgu' Hgv Hne.
    assert (gu' = gu) as -> by congruence.
    apply deq_true in Hinf. done. }
  apply deq_false in Hinf.
  remember (Z.to_nat (to_node e)) as v eqn:Hvdef.
  assert (Hvlt : (v < V)%nat) by lia.
  destruct (lookup_lt_is_Some_2 (g_score st) v ltac:(lia)) as [gv Hgv].
  rewrite Hgv. cbn [mbind option_bind].
  destruct (dlt (gu + current_travel_time e)%Q gv) eqn:Hlt.
  2:{ exists st. split; [done|]. left. split; [done|].
      intros v' w gu' gv' Hedge' Hgu' Hgv' Hne.
      destruct (Hskip v' w Hedge') as (Hv' & Hw').
      subst v' w.
      assert (gu' = gu) as -> by congruence.
      assert (gv' = gv) as -> by congruence.
      by apply dlt_false in Hlt. }
  apply dlt_true in Hlt.
  rewrite store_lt by lia. cbn [mbind option_bind].
  replace (to_node e) with (Z.of_nat v) by lia.
  rewrite heuristic_hval by lia. cbn [mbind option_bind].
  rewrite store_lt by lia. cbn [mbind option_bind].
  rewrite store_lt by lia. cbn [mbind option_bind].
  rewrite list_lookup_insert_eq by lia. cbn [mbind option_bind].
  destruct (heap_struct_cases V (minHeap st) v Hheap Hvlt) as [[kold Hold]|Hout].
  - assert (Hin : isInMinHeap (minHeap st) v = Some true).
    { apply isInMinHeap_true. destruct Hold as (p & Hp & Hpl & _). by exists p. }
    rewrite Hin. cbn [mbind option_bind].
    destruct (decreaseKey_heap V (minHeap st) v
                (gu + current_travel_time e + hv v)%Q Hheap Hin)
      as (hp & Hrun & Hdec).
    rewrite Hrun. cbn [mbind option_bind].
    eexists. split; [done|]. right.
    exists v, (current_travel_time e), gu, gv.
    do 8 (split; [done|]). right. split; [by exists kold|done].
  - assert (Hin : isInMinHeap (minHeap st) v = Some false)
      by (by apply isInMinHeap_false).
    rewrite Hin. cbn [mbind option_bind].
    eexists. split; [done|]. right.
    exists v, (current_travel_time e), gu, gv.
    do 8 (split; [done|]). by left.
Qed.

End SearchStructure.

Section SearchInv.
Variable sqrt : double -> double.
Variable graph : Graph.
Variables s t : nat.
Hypothesis Hwf : graph_wf graph.
Hypothesis Hs : Z.of_nat s < num_nodes graph.
Hypothesis Ht : Z.of_nat t < num_nodes graph.

Local Abbreviation V := (Z.to_nat (num_nodes graph)).
Local Abbreviation hv := (hval sqrt graph t).
Local Abbreviation inv := (search_inv sqrt graph s t).
Local Abbreviation nstate := (node_state sqrt graph s t).

Lemma node_state_reached (st : AStar) (v : nat) (gv : double) :
  nstate st v -> g_score st !! v = Some gv -> ~ (gv == DBL_MAX)%Q ->
  (gv < DBL_MAX)%Q /\ exists n c, walk graph s n v c /\ (c == gv)%Q.
Proof.
  intros (gv' & fv & pv & Hg & _ & _ & [(-> & _)|(Hlt & _ & Hw & _)]) Hgv Hne;
    rewrite Hg in Hgv; injection Hgv as <-; [by destruct Hne|done].
Qed.

Lemma node_state_le (st : AStar) (v : nat) (gv : double) :
  nstate st v -> g_score st !! v = Some gv -> (gv <= DBL_MAX)%Q.
Proof.
  intros (gv' & fv & pv & Hg & _ & _ & [(-> & _)|(Hlt & _)]) Hgv;
    rewrite Hg in Hgv; injection Hgv as <-; lra.
Qed.

(** Improving node [v] from node [u] keeps what the arrays say about
    every node. *)
Lemma node_state_update (st st' : AStar) (u v : nat) (eid : Z) (w gu gv : double) :
  (forall x, (x < V)%nat -> nstate st x) ->
  length (g_score st) = V -> length (f_score st) = V ->
  length (parent st) = V ->
  (u < V)%nat -> (v < V)%nat ->
  succ_edge graph u eid v w ->
  g_score st !! u = Some gu -> g_score st !! v = Some gv ->
  ~ (gu == DBL_MAX)%Q -> (gu + w < gv)%Q ->
  g_score st' = <[v := (gu + w)%Q]> (g_score st) ->
  f_score st' = <[v := (gu + w + hv v)%Q]> (f_score st) ->
  parent st' = <[v := Z.of_nat u]> (parent st) ->
  forall x, (x < V)%nat -> nstate st' x.
Proof.
  intros Hnodes Hlg Hlf Hlp Hu Hv Hedge Hgu Hgv Hne Hlt Hg' Hf' Hp' x Hx.
  destruct (node_state_reached st u gu (Hnodes u Hu) Hgu Hne)
    as (Hgu_lt & n & c & Hwalk & Hc).
  pose proof (node_state_le st v gv (Hnodes v Hv) Hgv) as Hgv_le.
  assert (Hgu' : exists gu', g_score st' !! u = Some gu' /\
                   (gu' < DBL_MAX)%Q /\ (gu' + w <= gu + w)%Q).
  { rewrite Hg'. destruct (Nat.eq_dec u v) as [->|Hne_uv].
    - rewrite list_lookup_insert_eq by lia. eexists. split; [done|].
      assert (gv = gu) as -> by congruence. split; lra.
    - rewrite list_lookup_insert_ne by done. exists gu. split; [done|].
      split; lra. }
  unfold node_state. rewrite Hg', Hf', Hp'.
  destruct (Nat.eq_dec x v) as [->|Hxv].
  - rewrite !list_lookup_insert_eq by lia.
    do 3 eexists. split; [done|]. split; [done|]. split; [done|].
    right. split; [lra|]. split; [reflexivity|]. split.
    + exists (S n), (c + w)%Q. split; [by econstructor|]. by rewrite Hc.
    + right. destruct Hgu' as (gu' & Hgu'1 & Hgu'2 & Hgu'3).
      exists u, eid, w, gu'. rewrite Hg' in Hgu'1. done.
  - rewrite !list_lookup_insert_ne by done.
    destruct (Hnodes x Hx) as (gx & fx & px & Hgx & Hfx & Hpx & Hcase).
    exists gx, fx, px. split; [done|]. split; [done|]. split; [done|].
    destruct Hcase as [Hun|(Hlt_x & Hfx_eq & Hwalk_x & Hpar)]; [by left|].
    right. split; [done|]. split; [done|]. split; [done|].
    destruct Hpar as [Hstart|(u' & e' & w' & gu' & Hpu & He' & Hgu'_old & Hlt' & Hle')];
      [by left|].
    right. destruct (Nat.eq_dec u' v) as [->|Hne'].
    + exists v, e', w', (gu + w)%Q. split; [done|]. split; [done|].
      rewrite list_lookup_insert_eq by lia. split; [done|].
      assert (gu' = gv) as -> by congruence. split; lra.
    + exists u', e', w', gu'. rewrite list_lookup_insert_ne by done. done.
Qed.

Lemma relax_edge_inv (u : nat) (n : Node) (st : AStar) (eid : Z) :
  inv st -> (u < V)%nat ->
  nodes graph !! u = Some n -> eid ∈ out_edges n ->
  exists st', relax_edge sqrt graph (Z.of_nat t) u st eid = Some st' /\
    inv st' /\ size (minHeap st') = size (minHeap st).
Proof.
  intros Hinv Hu Hn Hin.
  destruct (relax_edge_spec sqrt graph s t Hwf Ht u st eid Hinv Hu)
    as (st' & Hrun & [(-> & _)|Hupd]).
  { by exists st. }
  destruct Hupd as (v & w & gu & gv & Hedge & Hgu & Hgv & Hne & Hlt & Hg' & Hf'
    & Hp' & Hheap').
  destruct Hinv as (Hlg & Hlf & Hlp & Hheap & Hkey & Hnodes).
  assert (Hv : (v < V)%nat).
  { destruct Hedge as (_ & e & _ & _ & Hv & _). lia. }
  assert (Hsucc : succ_edge graph u eid v w).
  { destruct Hedge as (Hr & e & He & Hto & Hvlt & Hw). by exists n, e. }
  exists st'. split; [done|].
  assert (Hnodes' : forall x, (x < V)%nat -> nstate st' x).
  { by apply (node_state_update st st' u v eid w gu gv). }
  destruct Hheap' as [(Hout & Hsame)|((kold & Hold) & Hsz & Hstruct & Hent & _)].
  - split; [|by rewrite Hsame].
    split; [by rewrite Hg', length_insert|].
    split; [by rewrite Hf', length_insert|].
    split; [by rewrite Hp', length_insert|].
    split; [by rewrite Hsame|]. split; [|done].
    intros x k Hxk. rewrite Hsame in Hxk. rewrite Hf'.
    rewrite list_lookup_insert_ne; [by apply Hkey|].
    intros <-. by apply (heap_entry_not_out (minHeap st) v k).
  - split; [|done].
    split; [by rewrite Hg', length_insert|].
    split; [by rewrite Hf', length_insert|].
    split; [by rewrite Hp', length_insert|].
    split; [done|]. split; [|done].
    intros x k Hxk. rewrite Hf'. apply Hent in Hxk as [[-> ->]|[Hxv Hxk]].
    + by rewrite list_lookup_insert_eq by lia.
    + rewrite list_lookup_insert_ne by done. by apply Hkey.
Qed.

Lemma relax_edges_inv (u : nat) (n : Node) (cur : list Z) :
  forall st,
  inv st -> (u < V)%nat ->
  nodes graph !! u = Some n -> cur ⊆ out_edges n ->
  exists st', relax_edges sqrt graph (Z.of_nat t) u st cur = Some st' /\
    inv st' /\ size (minHeap st') = size (minHeap st).
Proof.
  induction cur as [|eid cur IH]; intros st Hinv Hu Hn Hsub.
  - by exists st.
  - destruct (relax_edge_inv u n st eid Hinv Hu Hn) as (st1 & Hrun1 & Hinv1 & Hsz1).
    { apply Hsub. by left. }
    destruct (IH st1 Hinv1 Hu Hn) as (st' & Hrun & Hinv' & Hsz').
    { intros x Hx. apply Hsub. by right. }
    exists st'. cbn [relax_edges]. rewrite Hrun1. cbn [mbind option_bind].
    split; [done|]. split; [done|]. congruence.
Qed.

(** Taking the least node out of the heap. *)
Lemma extract_inv (st : AStar) :
  inv st -> (0 < size (minHeap st))%nat ->
  exists root hp,
    extractMin (minHeap st) = Some (Some root, hp) /\
    inv (mkAStar (g_score st) (f_score st) (parent st) hp) /\
    size hp = (size (minHeap st) - 1)%nat /\
    (hnode_id root < V)%nat /\
    f_score st !! hnode_id root = Some (dist root).
Proof.
  intros (Hlg & Hlf & Hlp & Hheap & Hkey & Hnodes) Hsize.
  pose proof Hheap as (Hlpos & Hlarr & Hsz & Hok & Hback).
  destruct (extractMin_spec (minHeap st)) as (root & hp & Hrun & _ & Hroot & _
    & Hsz' & _ & Hlp' & Hla' & Hok' & _ & Hent & _ & _ & Hback'); try done; try lia.
  exists root, hp. split; [done|]. split; [|split; [done|split]].
  - split; [done|]. split; [done|]. split; [done|]. split.
    { split; [simpl; congruence|]. split; [simpl; congruence|].
      split; [simpl; lia|]. split; [done|]. by apply Hback'. }
    split; [|done]. intros v k Hvk. apply Hkey. by apply Hent in Hvk as [? _].
  - by apply (heap_entry_lt V (minHeap st) _ (dist root)).
  - by apply Hkey.
Qed.

(** The main loop ends, keeps the invariant, and reports [found] only
    for a target that has been reached. *)
Lemma astar_loop_inv (fuel : nat) :
  forall st, inv st -> (size (minHeap st) < fuel)%nat ->
  exists found st',
    astar_loop sqrt graph (Z.of_nat t) fuel st = Some (found, st') /\
    inv st' /\
    (found = true ->
     exists gt, g_score st' !! t = Some gt /\ (gt < DBL_MAX)%Q).
Proof.
  induction fuel as [|fuel IH]; intros st Hinv Hfuel; [lia|].
  cbn [astar_loop]. unfold isEmpty.
  destruct (Nat.eq_dec (size (minHeap st)) 0%nat) as [H0|H0].
  { rewrite H0. simpl. by exists false, st. }
  replace (size (minHeap st) =? 0)%nat with false
    by (symmetry; by apply Nat.eqb_neq).
  destruct (extract_inv st Hinv ltac:(lia)) as (root & hp & Hrun & Hinv1 & Hsz
    & Hroot & Hf).
  rewrite Hrun. cbn [mbind option_bind].
  destruct (deq (dist root) DBL_MAX) eqn:Hinf.
  { by eexists false, _. }
  destruct (Z.of_nat (hnode_id root) =? Z.of_nat t) eqn:Htarget.
  { apply Z.eqb_eq in Htarget. apply Nat2Z.inj in Htarget.
    eexists true, _. split; [done|]. split; [done|]. intros _. simpl.
    destruct Hinv as (_ & _ & _ & _ & _ & Hnodes).
    destruct (Hnodes t ltac:(lia)) as (gt & ft & pt & Hg & Hft & _ & Hcase).
    rewrite Htarget in Hf. rewrite Hft in Hf. injection Hf as ->.
    exists gt. split; [done|].
    destruct Hcase as [(_ & Hfinf & _)|(Hlt & _)]; [|done].
    apply deq_false in Hinf. by rewrite Hfinf in Hinf. }
  destruct (graph_wf_node graph (Z.of_nat (hnode_id root)) Hwf ltac:(lia))
    as [n Hn].
  rewrite Nat2Z.id in Hn. rewrite Hn. cbn [mbind option_bind].
  destruct (relax_edges_inv (hnode_id root) n (out_edges n) _ Hinv1 Hroot Hn)
    as (st2 & Hrun2 & Hinv2 & Hsz2); [done|].
  rewrite Hrun2. cbn [mbind option_bind].
  apply IH; [done|]. simpl in Hsz2. lia.
Qed.

End SearchInv.

(** ** The search: the first turn *)

Lemma init_heap_array (V i : nat) :
  (i < V)%nat ->
  map (fun i => newMinHeapNode i DBL_MAX) (seq 0 V) !! i
  = Some (mkMinHeapNode i DBL_MAX).
Proof.
  intros Hi. rewrite list_lookup_fmap, lookup_seq_lt by done. done.
Qed.

Lemma init_heap_struct (V : nat) : heap_struct V (minHeap (astar_init V)).
Proof.
  unfold heap_struct. simpl. split; [by rewrite length_seq|].
  split; [by rewrite length_map, length_seq|]. split; [done|]. split.
  - intros i n Hi Hn. simpl in *. rewrite init_heap_array in Hn by done.
    injection Hn as <-. simpl. by rewrite lookup_seq_lt.
  - intros v p Hv Hp. simpl in *. apply lookup_seq in Hv as [-> Hv].
    exists (mkMinHeapNode v DBL_MAX). split; [|done]. by apply init_heap_array.
Qed.

Lemma init_heap_entry (V v : nat) (k : double) :
  heap_entry (minHeap (astar_init V)) v k <-> (v < V)%nat /\ k = DBL_MAX.
Proof.
  unfold heap_entry. simpl. split.
  - intros (p & Hp & Hlt & Hn). apply lookup_seq in Hp as [-> Hp].
    rewrite init_heap_array in Hn by done. by injection Hn as <-.
  - intros [Hv ->]. exists v. rewrite lookup_seq_lt by done.
    split; [done|]. split; [done|]. by apply init_heap_array.
Qed.

Lemma init_heap_ordered (V : nat) : heap_ordered (minHeap (astar_init V)).
Proof.
  intros i n p Hi Hn Hp. cbn [size array minHeap astar_init] in *.
  pose proof (parent_lt i ltac:(lia)).
  rewrite init_heap_array in Hn by lia. rewrite init_heap_array in Hp by lia.
  injection Hn as <-. injection Hp as <-. simpl. lra.
Qed.

Section SearchStart.
Variable sqrt : double -> double.
Variable graph : Graph.
Variables s t : nat.
Hypothesis Hwf : graph_wf graph.
Hypothesis Hs : Z.of_nat s < num_nodes graph.
Hypothesis Ht : Z.of_nat t < num_nodes graph.

Local Abbreviation V := (Z.to_nat (num_nodes graph)).
Local Abbreviation hv := (hval sqrt graph t).
Local Abbreviation inv := (search_inv sqrt graph s t).

(** The state in which the main loop starts. *)
Lemma search_start_inv :
  exists hp,
    decreaseKey (minHeap (astar_init V)) s (hv s) = Some hp /\
    inv (search_start V s (hv s) hp) /\
    size hp = V /\
    heap_entry hp s (hv s) /\
    (forall v k, heap_entry hp v k -> v <> s -> k = DBL_MAX) /\
    ((hv s <= DBL_MAX)%Q -> heap_ordered hp).
Proof.
  assert (Hin : isInMinHeap (minHeap (astar_init V)) s = Some true).
  { apply isInMinHeap_true. exists s. simpl. rewrite lookup_seq_lt by lia.
    split; [done|lia]. }
  destruct (decreaseKey_heap V _ s (hv s) (init_heap_struct V) Hin)
    as (hp & Hrun & Hsz & Hstruct & Hent & _ & Hord).
  exists hp. split; [done|]. split; [|split; [done|split; [|split]]].
  - unfold search_inv, search_start. cbn [g_score f_score parent minHeap].
    rewrite !length_insert, !length_replicate.
    split; [done|]. split; [done|]. split; [done|]. split; [done|]. split.
    + intros v k Hvk. apply Hent in Hvk as [[-> ->]|[Hne Hvk]].
      * apply list_lookup_insert_eq. rewrite length_replicate. lia.
      * apply init_heap_entry in Hvk as [Hv ->].
        rewrite list_lookup_insert_ne by done. by apply lookup_replicate.
    + intros v Hv. unfold node_state. cbn [g_score f_score parent].
      destruct (Nat.eq_dec v s) as [->|Hne].
      * rewrite !list_lookup_insert_eq by (rewrite length_replicate; lia).
        rewrite lookup_replicate_2 by done.
        do 3 eexists. split; [done|]. split; [done|]. split; [done|].
        right. split; [apply DBL_MAX_pos|]. split; [ring|]. split.
        -- exists 0%nat, 0%Q. split; [constructor|reflexivity].
        -- by left.
      * rewrite !list_lookup_insert_ne by done.
        rewrite !lookup_replicate_2 by done.
        do 3 eexists. split; [done|]. split; [done|]. split; [done|]. by left.
  - apply Hent. by left.
  - intros v k Hvk Hne. apply Hent in Hvk as [[-> _]|[_ Hvk]]; [done|].
    by apply init_heap_entry in Hvk as [_ ->].
  - intros Hle. apply (Hord DBL_MAX); [|apply init_heap_ordered|done].
    apply init_heap_entry. split; [lia|done].
Qed.

(** [find_route_a_star_path] for node ids inside the graph, up to the
    main loop. *)
Lemma find_route_unfold (max_edges max_nodes : Z) (hp : MinHeap) :
  decreaseKey (minHeap (astar_init V)) s (hv s) = Some hp ->
  find_route_a_star_path sqrt graph (Z.of_nat s) (Z.of_nat t) max_edges max_nodes
  = ('(found, st) ← astar_loop sqrt graph (Z.of_nat t) (S V)
                      (search_start V s (hv s) hp);
     if negb found then Some (RouteError 1)
     else
       rev_path ← parent_chain V (parent st) (Z.of_nat t);
       let node_path := rev rev_path in
       let path_len := Z.of_nat (length node_path) in
       if path_len >? max_nodes then Some (RouteError 17)
       else
         r ← path_to_edges graph max_edges node_path 0;
         match r with
         | inl rc => Some (RouteError rc)
         | inr edge_path =>
           cost ← g_score st !! Z.to_nat (Z.of_nat t);
           Some (Route cost node_path edge_path)
         end).
Proof.
  intros Hdec. unfold find_route_a_star_path.
  replace ((Z.of_nat s <? 0) || (Z.of_nat s >=? num_nodes graph)
           || (Z.of_nat t <? 0) || (Z.of_nat t >=? num_nodes graph))
    with false.
  2:{ symmetry. rewrite !orb_false_iff, !Z.ltb_ge, !Z.geb_leb, !Z.leb_gt. lia. }
  cbn [g_score f_score parent minHeap astar_init].
  rewrite !Nat2Z.id.
  rewrite store_lt by (rewrite length_replicate; lia). cbn [mbind option_bind].
  rewrite heuristic_hval by done. cbn [mbind option_bind].
  rewrite store_lt by (rewrite length_replicate; lia). cbn [mbind option_bind].
  rewrite list_lookup_insert_eq by (rewrite length_replicate; lia).
  cbn [mbind option_bind].
  change (mkMinHeap V V (seq 0 V) (map (fun i => newMinHeapNode i DBL_MAX) (seq 0 V)))
    with (minHeap (astar_init V)).
  rewrite Hdec. cbn [mbind option_bind]. done.
Qed.

End SearchStart.

Lemma hval_self (sqrt : double -> double) (g : Graph) (s : nat) :
  graph_wf g -> Z.of_nat s < num_nodes g ->
  (forall q, (q == 0)%Q -> (sqrt q == 0)%Q) ->
  (hval sqrt g s s == 0)%Q.
Proof.
  intros Hwf Hs Hsqrt.
  pose proof (heuristic_hval sqrt g s s Hwf Hs s Hs) as Hh.
  unfold heuristic in Hh.
  replace ((Z.of_nat s <? 0) || (Z.of_nat s >=? num_nodes g)
           || (Z.of_nat s <? 0) || (Z.of_nat s >=? num_nodes g))
    with false in Hh.
  2:{ symmetry. rewrite !orb_false_iff, !Z.ltb_ge, !Z.geb_leb, !Z.leb_gt. lia. }
  destruct (graph_wf_node g (Z.of_nat s) Hwf ltac:(lia)) as [a Ha].
  rewrite Ha in Hh. cbn [mbind option_bind] in Hh.
  assert (Hz : (sqrt ((x a - x a) * (x a - x a) + (y a - y a) * (y a - y a)) == 0)%Q).
  { apply Hsqrt. ring. }
  destruct (dlt 0%Q (max_speed g)); injection Hh as <-; rewrite Hz; [|done].
  unfold Qdiv. ring.
Qed.

(** A query from a node to itself, up to the result of the search. *)
Lemma route_to_self_search (sqrt : double -> double) (g : Graph) (s : nat)
    (max_edges max_nodes : Z) :
  graph_wf g -> Z.of_nat s < num_nodes g ->
  (forall q, (q == 0)%Q -> (sqrt q == 0)%Q) ->
  1 <= max_nodes ->
  find_route_a_star_path sqrt g (Z.of_nat s) (Z.of_nat s) max_edges max_nodes
  = Some (Route 0%Q [Z.of_nat s] []).
Proof.
  intros Hwf Hs Hsqrt Hmax.
  pose proof (hval_self sqrt g s Hwf Hs Hsqrt) as Hh0.
  destruct (search_start_inv sqrt g s s Hs Hs)
    as (hp & Hdec & Hinv & Hsz & Hent_s & Hent_other & Hord).
  rewrite (find_route_unfold sqrt g s s Hwf Hs Hs max_edges max_nodes hp Hdec).
  remember (Z.to_nat (num_nodes g)) as V eqn:HVdef.
  assert (HsV : (s < V)%nat) by lia.
  pose proof Hinv as (Hlg & Hlf & Hlp & Hheap & Hkey & Hnodes).
  pose proof Hheap as (Hlpos & Hlarr & Hszle & Hok & Hback).
  cbn [minHeap search_start] in *.
  destruct (extractMin_spec hp) as (root & hp' & Hrun & _ & Hroot & Hmin & _);
    try done; try lia.
  assert (Hroot_s : hnode_id root = s /\ (dist root == 0)%Q).
  { assert (Hle : (dist root <= hval sqrt g s s)%Q).
    { apply (Hmin ltac:(apply Hord; rewrite Hh0; apply Qlt_le_weak, DBL_MAX_pos) s).
      done. }
    destruct (Nat.eq_dec (hnode_id root) s) as [Heq|Hne].
    - split; [done|]. rewrite Heq in Hroot.
      by rewrite (heap_entry_fun hp s _ _ Hroot Hent_s).
    - pose proof (Hent_other _ _ Hroot Hne) as Hinf. rewrite Hinf in Hle.
      rewrite Hh0 in Hle. pose proof DBL_MAX_pos. lra. }
  destruct Hroot_s as [Hid Hd].
  assert (Hloop : astar_loop sqrt g (Z.of_nat s) (S V)
                    (search_start V s (hval sqrt g s s) hp)
                  = Some (true, mkAStar (<[s := 0%Q]> (replicate V DBL_MAX))
                            (<[s := hval sqrt g s s]> (replicate V DBL_MAX))
                            (replicate V (-1)) hp')).
  { cbn [astar_loop minHeap search_start g_score f_score parent]. unfold isEmpty.
    replace (size hp =? 0)%nat with false by (symmetry; apply Nat.eqb_neq; lia).
    rewrite Hrun. cbn [mbind option_bind].
    replace (deq (dist root) DBL_MAX) with false.
    2:{ symmetry. apply deq_false. rewrite Hd. intros H. by apply Qeq_bool_iff in H. }
    rewrite Hid, Z.eqb_refl. done. }
  rewrite Hloop. cbn [mbind option_bind negb parent g_score].
  rewrite Nat2Z.id.
  assert (Hchain : parent_chain V (replicate V (-1)) (Z.of_nat s)
                   = Some [Z.of_nat s]).
  { destruct V as [|V']; [lia|]. cbn [parent_chain].
    replace (Z.of_nat s =? -1) with false by (symmetry; apply Z.eqb_neq; lia).
    replace (Z.of_nat s <? 0) with false by (symmetry; apply Z.ltb_ge; lia).
    rewrite Nat2Z.id, lookup_replicate_2 by lia. cbn [mbind option_bind].
    by destruct V'. }
  rewrite Hchain. cbn [mbind option_bind rev app length path_to_edges].
  replace (Z.of_nat 1 >? max_nodes) with false
    by (symmetry; rewrite Z.gtb_ltb; apply Z.ltb_ge; lia).
  cbn [mbind option_bind].
  by rewrite list_lookup_insert_eq by (rewrite length_replicate; lia).
Qed.

Lemma sqrt_exact_zero (q : Q) : (q == 0)%Q -> (sqrt_exact q == 0)%Q.
Proof.
  intros Hq. unfold sqrt_exact.
  assert (Hn : Qnum q = 0).
  { unfold Qeq in Hq. simpl in Hq. lia. }
  rewrite Hn. simpl. reflexivity.
Qed.

Lemma REQ_5_5_dispatch (eol : string) :
  crlf_only eol = true ->
  client_dispatch ("REQ 5 5" ++ eol) = Some (TASK_REQ 5 5).
Proof.
  intros Heol. unfold client_dispatch.
  rewrite trim_crlf_command; [done| |done].
  by exists "REQ 5 "%string, "5"%char.
Qed.

(** C8.  A query whose source is its target succeeds with cost 0, the
    node path made of that node alone and no edge; on the wire,
    [REQ 5 5] on a graph that has node 5 is answered
    [ROUTE2 0.000 1 5 0].  ([sqrt] is libm's; all that is used of it is
    [sqrt(0) = 0].) *)
Theorem route_to_self (sqrt : double -> double) (g : Graph) (s : Z)
    (max_edges max_nodes : Z) :
  graph_wf g ->
  (forall q, (q == 0)%Q -> (sqrt q == 0)%Q) ->
  (0 <= s < num_nodes g -> 1 <= max_nodes ->
   find_route_a_star_path sqrt g s s max_edges max_nodes
   = Some (Route 0%Q [s] [])) /\
  (5 < num_nodes g -> forall eol, crlf_only eol = true ->
   serve_line sqrt g ("REQ 5 5" ++ eol)
   = Some (g, reply "ROUTE2 0.000 1 5 0")).
Proof.
  intros Hwf Hsqrt.
  assert (Hroute : forall s' me mn, 0 <= s' < num_nodes g -> 1 <= mn ->
            find_route_a_star_path sqrt g s' s' me mn
            = Some (Route 0%Q [s'] [])).
  { intros s' me mn Hs' Hmn.
    pose proof (route_to_self_search sqrt g (Z.to_nat s') me mn Hwf) as H.
    rewrite Z2Nat.id in H by lia. apply H; [lia|done|done]. }
  split; [apply Hroute|].
  intros H5 eol Heol. unfold serve_line.
  rewrite REQ_5_5_dispatch by done. cbn [mbind option_bind].
  unfold build_route_response.
  replace ((5 <? 0) || (5 >=? num_nodes g) || (5 <? 0) || (5 >=? num_nodes g))
    with false.
  2:{ symmetry. rewrite !orb_false_iff, !Z.ltb_ge, !Z.geb_leb, !Z.leb_gt. lia. }
  replace (num_nodes g >? 0) with true
    by (symmetry; rewrite Z.gtb_ltb; apply Z.ltb_lt; lia).
  rewrite Hroute by lia. cbn [mbind option_bind length].
  replace ((Z.of_nat 0 <? 0) || (Z.of_nat 0 >? num_nodes g)) with false.
  2:{ symmetry. rewrite orb_false_iff, Z.ltb_ge, Z.gtb_ltb, Z.ltb_ge. lia. }
  replace ((Z.of_nat 1 <? 0) || (Z.of_nat 1 >? num_nodes g)) with false.
  2:{ symmetry. rewrite orb_false_iff, Z.ltb_ge, Z.gtb_ltb, Z.ltb_ge. lia. }
  reflexivity.
Qed.

Lemma route_to_self_witness :
  find_route_a_star_path sqrt_exact six_nodes 3 3 6 6
  = Some (Route 0%Q [3] []) /\
  serve_line sqrt_exact six_nodes ("REQ 5 5" ++ nl)
  = Some (six_nodes, reply "ROUTE2 0.000 1 5 0").
Proof.
  destruct (route_to_self sqrt_exact six_nodes 3 6 6) as [Hroute Hline].
  - split; reflexivity.
  - apply sqrt_exact_zero.
  - split.
    + apply Hroute; [cbn; lia|lia].
    + apply Hline; [reflexivity|reflexivity].
Defined.

(** ** The search: the path it returns *)

Lemma find_edge_id_loop_spec (g : Graph) (to : Z) (cur : list Z) (r : Z) :
  find_edge_id_loop g cur to = Some r ->
  r = -1 \/
  (r ∈ cur /\ 0 <= r < num_edges g /\
   exists e, edges g !! Z.to_nat r = Some e /\ to_node e = to).
Proof.
  induction cur as [|eid cur IH]; cbn [find_edge_id_loop]; [by intros [= <-]; left|].
  destruct ((eid >=? 0) && (eid <? num_edges g)) eqn:Hr.
  - destruct (edges g !! Z.to_nat eid) as [e|] eqn:He; [|done].
    cbn [mbind option_bind]. destruct (to_node e =? to) eqn:Hto.
    + intros [= <-]. right. split; [by left|].
      apply andb_true_iff in Hr as [H1 H2].
      rewrite Z.geb_leb in H1. apply Z.leb_le in H1. apply Z.ltb_lt in H2.
      split; [lia|]. exists e. split; [done|]. by apply Z.eqb_eq.
    + intros H. destruct (IH H) as [->|(Hin & Hrest)]; [by left|].
      right. split; [by right|done].
  - intros H. destruct (IH H) as [->|(Hin & Hrest)]; [by left|].
    right. split; [by right|done].
Qed.

Lemma find_edge_id_spec (g : Graph) (from to r : Z) :
  find_edge_id g from to = Some r -> r = -1 \/ edge_between g from r to.
Proof.
  unfold find_edge_id. destruct (from <? 0) eqn:Hf; [done|].
  apply Z.ltb_ge in Hf.
  destruct (nodes g !! Z.to_nat from) as [n|] eqn:Hn; [|done].
  cbn [mbind option_bind]. intros H.
  apply find_edge_id_loop_spec in H as [->|(Hin & Hr & e & He & Hto)]; [by left|].
  right. split; [done|]. split; [done|]. by exists n, e.
Qed.

(** When an edge to [to] is in the list, [find_edge_id] finds one. *)
Lemma find_edge_id_loop_found (g : Graph) (to : Z) (cur : list Z) (eid : Z) (e : Edge) :
  graph_wf g ->
  eid ∈ cur -> 0 <= eid < num_edges g ->
  edges g !! Z.to_nat eid = Some e -> to_node e = to ->
  exists r, find_edge_id_loop g cur to = Some r /\ 0 <= r.
Proof.
  intros Hwf Hin Hr He Hto.
  induction cur as [|x cur IH]; [by apply elem_of_nil in Hin|].
  cbn [find_edge_id_loop].
  destruct ((x >=? 0) && (x <? num_edges g)) eqn:Hx.
  - apply andb_true_iff in Hx as [H1 H2].
    rewrite Z.geb_leb in H1. apply Z.leb_le in H1. apply Z.ltb_lt in H2.
    destruct (graph_wf_edge g x Hwf ltac:(lia)) as [ex Hex].
    rewrite Hex. cbn [mbind option_bind].
    destruct (to_node ex =? to) eqn:Htx; [by exists x|].
    apply IH. apply elem_of_cons in Hin as [->|Hin]; [|done].
    rewrite He in Hex. injection Hex as <-. apply Z.eqb_neq in Htx. done.
  - apply IH. apply elem_of_cons in Hin as [->|Hin]; [|done].
    apply andb_false_iff in Hx as [Hx|Hx].
    + rewrite Z.geb_leb in Hx. apply Z.leb_gt in Hx. lia.
    + apply Z.ltb_ge in Hx. lia.
Qed.

Lemma succ_edge_find (g : Graph) (u v : nat) (eid : Z) (w : double) :
  graph_wf g -> succ_edge g u eid v w ->
  exists r, find_edge_id g (Z.of_nat u) (Z.of_nat v) = Some r /\ 0 <= r.
Proof.
  intros Hwf (n & e & Hn & Hin & Hr & He & Hto & _).
  unfold find_edge_id.
  replace (Z.of_nat u <? 0) with false by (symmetry; apply Z.ltb_ge; lia).
  rewrite Nat2Z.id, Hn. cbn [mbind option_bind].
  by apply (find_edge_id_loop_found g _ _ eid e).
Qed.

Lemma path_to_edges_cons (g : Graph) (max_edges from to : Z) (rest : list Z) (k : Z) :
  path_to_edges g max_edges (from :: to :: rest) k
  = eid ← find_edge_id g from to;
    if eid <? 0 then Some (inl 15)
    else if k >=? max_edges then Some (inl 16)
    else
      r ← path_to_edges g max_edges (to :: rest) (k + 1);
      Some (match r with
            | inl rc => inl rc
            | inr es => inr (eid :: es)
            end).
Proof. reflexivity. Qed.

Lemma path_to_edges_spec (g : Graph) (max_edges : Z) (node_path : list Z) :
  forall k es,
  node_path <> [] ->
  path_to_edges g max_edges node_path k = Some (inr es) ->
  path_edges g node_path es.
Proof.
  induction node_path as [|from rest IH]; intros k es Hne; [done|].
  destruct rest as [|to rest].
  - intros [= <-]. constructor.
  - rewrite path_to_edges_cons.
    destruct (find_edge_id g from to) as [eid|] eqn:Hfind; [|done].
    cbn [mbind option_bind].
    destruct (eid <? 0) eqn:Hneg; [done|].
    destruct (k >=? max_edges); [done|].
    destruct (path_to_edges g max_edges (to :: rest) (k + 1)) as [[rc|es']|] eqn:Hrest;
      cbn [mbind option_bind]; [done| |done].
    intros [= <-]. constructor.
    + apply find_edge_id_spec in Hfind as [->|H]; [done|done].
    + by apply (IH (k + 1)).
Qed.

Lemma succ_edge_lt (g : Graph) (u v : nat) (eid : Z) (w : double) :
  graph_wf g -> succ_edge g u eid v w ->
  (u < Z.to_nat (num_nodes g))%nat /\ (v < Z.to_nat (num_nodes g))%nat.
Proof.
  intros Hwf (n & e & Hn & _ & _ & _ & _ & Hv & _). split; [|lia].
  apply lookup_lt_Some in Hn. destruct Hwf as [Hlen _]. lia.
Qed.

Section SearchPath.
Variable sqrt : double -> double.
Variable graph : Graph.
Variables s t : nat.
Hypothesis Hwf : graph_wf graph.
Hypothesis Hs : Z.of_nat s < num_nodes graph.
Hypothesis Ht : Z.of_nat t < num_nodes graph.

Local Abbreviation V := (Z.to_nat (num_nodes graph)).
Local Abbreviation inv := (search_inv sqrt graph s t).

(** The list [parent_chain] collects from a reached node ends at the
    start and follows edges backwards. *)
Lemma parent_chain_spec (st : AStar) (room : nat) :
  inv st ->
  forall (v : nat) (gv : double) (l : list Z),
  (v < V)%nat -> g_score st !! v = Some gv -> (gv < DBL_MAX)%Q ->
  parent_chain room (parent st) (Z.of_nat v) = Some l ->
  exists l' : list nat,
    l = map Z.of_nat l' /\ head l' = Some v /\ last l' = Some s /\
    exists c, chain_cost graph l' c.
Proof.
  intros Hinv. pose proof Hinv as (_ & _ & _ & _ & _ & Hnodes).
  induction room as [|room IH]; intros v gv l Hv Hgv Hlt; cbn [parent_chain].
  { replace (Z.of_nat v =? -1) with false by (symmetry; apply Z.eqb_neq; lia).
    done. }
  replace (Z.of_nat v =? -1) with false by (symmetry; apply Z.eqb_neq; lia).
  replace (Z.of_nat v <? 0) with false by (symmetry; apply Z.ltb_ge; lia).
  rewrite Nat2Z.id.
  destruct (Hnodes v Hv) as (gv' & fv & pv & Hg & _ & Hp & Hcase).
  rewrite Hp. cbn [mbind option_bind].
  assert (gv' = gv) as -> by congruence.
  destruct Hcase as [(-> & _)|(_ & _ & _ & Hpar)]; [lra|].
  destruct Hpar as [(-> & -> & _)|(u & e & w & gu & -> & Hedge & Hgu & Hgu_lt & _)].
  - assert (parent_chain room (parent st) (-1) = Some []) as ->
      by (by destruct room).
    cbn [mbind option_bind]. intros [= <-]. exists [s].
    split; [done|]. split; [done|]. split; [done|]. exists 0%Q. constructor.
  - destruct (parent_chain room (parent st) (Z.of_nat u)) as [rest|] eqn:Hrest;
      [|done].
    cbn [mbind option_bind]. intros [= <-].
    destruct (succ_edge_lt graph u v e w Hwf Hedge) as [Hu _].
    destruct (IH u gu rest Hu Hgu Hgu_lt Hrest)
      as (l' & -> & Hhd & Hlast & c & Hchain).
    destruct l' as [|u' l']; [done|]. injection Hhd as ->.
    exists (v :: u :: l'). split; [done|]. split; [done|]. split; [done|].
    exists (c + w)%Q. by econstructor.
Qed.

End SearchPath.

(** ** The search: what a result says *)

Lemma rev_reverse {A : Type} (l : list A) : rev l = reverse l.
Proof. apply rev_alt. Qed.

Section SearchResult.
Variable sqrt : double -> double.
Variable graph : Graph.
Variables s t : nat.
Hypothesis Hwf : graph_wf graph.
Hypothesis Hs : Z.of_nat s < num_nodes graph.
Hypothesis Ht : Z.of_nat t < num_nodes graph.

Local Abbreviation V := (Z.to_nat (num_nodes graph)).
Local Abbreviation hv := (hval sqrt graph t).
Local Abbreviation inv := (search_inv sqrt graph s t).

(** The search always comes to an end when the node ids are inside the
    graph, and it reports a path only to a node that can be reached. *)
Lemma search_runs :
  exists hp found st,
    decreaseKey (minHeap (astar_init V)) s (hv s) = Some hp /\
    astar_loop sqrt graph (Z.of_nat t) (S V) (search_start V s (hv s) hp)
    = Some (found, st) /\
    inv st /\
    (found = true ->
     exists gt n c, g_score st !! t = Some gt /\ (gt < DBL_MAX)%Q /\
       walk graph s n t c /\ (c == gt)%Q).
Proof.
  destruct (search_start_inv sqrt graph s t Hs Ht)
    as (hp & Hdec & Hinv & Hsz & _).
  destruct (astar_loop_inv sqrt graph s t Hwf Hs Ht (S V) _ Hinv)
    as (found & st & Hrun & Hinv' & Hfound).
  { cbn [minHeap search_start]. lia. }
  exists hp, found, st. split; [done|]. split; [done|]. split; [done|].
  intros Hf. destruct (Hfound Hf) as (gt & Hgt & Hlt).
  pose proof Hinv' as (_ & _ & _ & _ & _ & Hnodes).
  destruct (node_state_reached sqrt graph s t st t gt) as (_ & n & c & Hw & Hc).
  - apply Hnodes. lia.
  - done.
  - intros Heq. rewrite Heq in Hlt. by apply Qlt_irrefl in Hlt.
  - by exists gt, n, c.
Qed.

Lemma find_route_unreachable (max_edges max_nodes : Z) :
  ~ reachable graph s t ->
  find_route_a_star_path sqrt graph (Z.of_nat s) (Z.of_nat t) max_edges max_nodes
  = Some (RouteError 1).
Proof.
  intros Hno.
  destruct search_runs as (hp & found & st & Hdec & Hrun & _ & Hfound).
  rewrite (find_route_unfold sqrt graph s t Hwf Hs Ht _ _ hp Hdec), Hrun.
  cbn [mbind option_bind]. destruct found; [|done].
  destruct (Hfound eq_refl) as (gt & n & c & _ & _ & Hw & _).
  destruct Hno. by exists n, c.
Qed.

Lemma find_route_sound (max_edges max_nodes : Z) (cost : double)
    (node_path edge_path : list Z) :
  find_route_a_star_path sqrt graph (Z.of_nat s) (Z.of_nat t) max_edges max_nodes
  = Some (Route cost node_path edge_path) ->
  head node_path = Some (Z.of_nat s) /\
  last node_path = Some (Z.of_nat t) /\
  path_edges graph node_path edge_path /\
  Z.of_nat (length node_path) <= max_nodes /\
  (cost < DBL_MAX)%Q /\
  exists n c, walk graph s n t c /\ (c == cost)%Q.
Proof.
  destruct search_runs as (hp & found & st & Hdec & Hrun & Hinv & Hfound).
  rewrite (find_route_unfold sqrt graph s t Hwf Hs Ht _ _ hp Hdec), Hrun.
  cbn [mbind option_bind]. destruct found; [|done]. cbn [negb].
  destruct (Hfound eq_refl) as (gt & n & c & Hgt & Hlt & Hw & Hc).
  destruct (parent_chain V (parent st) (Z.of_nat t)) as [rev_path|] eqn:Hchain;
    [|done].
  cbn [mbind option_bind].
  destruct (parent_chain_spec sqrt graph s t Hwf st V Hinv t gt rev_path)
    as (l' & -> & Hhd & Hlast & _); try done; try lia.
  destruct (Z.of_nat (length (rev (map Z.of_nat l'))) >? max_nodes) eqn:Hlen;
    [done|].
  destruct (path_to_edges graph max_edges (rev (map Z.of_nat l')) 0)
    as [[rc|es]|] eqn:Hedges; cbn [mbind option_bind]; [done| |done].
  rewrite Nat2Z.id, Hgt. cbn [mbind option_bind]. intros [= <- <- <-].
  rewrite rev_reverse in *.
  change (map Z.of_nat l') with (Z.of_nat <$> l') in *.
  split. { by rewrite head_reverse, fmap_last, Hlast. }
  split. { rewrite last_reverse. destruct l'; [done|]. by injection Hhd as ->. }
  split.
  { apply (path_to_edges_spec graph max_edges _ 0); [|done].
    destruct l'; [done|]. rewrite fmap_cons, reverse_cons.
    intros H. by apply app_eq_nil in H as [_ H]. }
  split. { rewrite Z.gtb_ltb in Hlen. apply Z.ltb_ge in Hlen. lia. }
  split; [done|]. by exists n, c.
Qed.

End SearchResult.

(** ** The search: optimality *)

Lemma depth_walk (g : Graph) (s : nat) (st : AStar) (n v : nat) :
  depth g s st n v ->
  exists c gv, walk g s n v c /\ g_score st !! v = Some gv /\ (c == gv)%Q.
Proof.
  induction 1 as [Hp Hg|n u v e w gu gv Hd IH Hout Hp Hedge Hgu Hgv Heq].
  - exists 0%Q, 0%Q. split; [constructor|]. by split.
  - destruct IH as (c & gu' & Hw & Hgu' & Hc).
    assert (gu' = gu) as -> by congruence.
    exists (c + w)%Q, gv. split; [by econstructor|]. split; [done|].
    rewrite Heq, Hc. reflexivity.
Qed.

(** [depth] reads the arrays at the node itself and at nodes outside
    the heap only. *)
Lemma depth_keep (g : Graph) (s : nat) (st st' : AStar) :
  (forall x, heap_out (minHeap st) x ->
     heap_out (minHeap st') x /\ g_score st' !! x = g_score st !! x /\
     parent st' !! x = parent st !! x) ->
  forall n x, depth g s st n x ->
    g_score st' !! x = g_score st !! x ->
    parent st' !! x = parent st !! x ->
    depth g s st' n x.
Proof.
  intros Hout n x Hd.
  induction Hd as [Hp Hg|n u v e w gu gv Hd IH Hu Hp Hedge Hgu Hgv Heq];
    intros Hg' Hp'.
  - constructor; congruence.
  - destruct (Hout u Hu) as (Hu' & Hgu' & Hpu').
    apply (depth_step g s st' n u v e w gu gv); try done; try congruence.
    by apply IH.
Qed.

Lemma walk_nonneg (g : Graph) (s n v : nat) (c : double) :
  nonneg_weights g -> walk g s n v c -> (0 <= c)%Q.
Proof.
  intros NN. induction 1 as [|n u c e v w Hw IH Hedge]; [lra|].
  pose proof (NN u e v w Hedge). lra.
Qed.

Lemma walk_lt (g : Graph) (s n v : nat) (c : double) :
  Z.of_nat s < num_nodes g -> walk g s n v c -> Z.of_nat v < num_nodes g.
Proof.
  intros Hs. destruct 1 as [|n u c e v w Hw Hedge]; [done|].
  by destruct Hedge as (? & ? & _ & _ & _ & _ & _ & Hv & _).
Qed.

Section Frontier.
Variable sqrt : double -> double.
Variable graph : Graph.
Variables s t : nat.
Hypothesis Hwf : graph_wf graph.
Hypothesis Hs : Z.of_nat s < num_nodes graph.
Hypothesis Ht : Z.of_nat t < num_nodes graph.
Hypothesis CONS : consistent sqrt graph t.
Hypothesis B : bounded_costs sqrt graph s t.

Local Abbreviation V := (Z.to_nat (num_nodes graph)).
Local Abbreviation hv := (hval sqrt graph t).

(** What [f_score] holds for a node that has been reached. *)
Lemma reached_f_score (st : AStar) (v : nat) (gv : double) :
  search_inv sqrt graph s t st -> (v < V)%nat ->
  g_score st !! v = Some gv -> (gv < DBL_MAX)%Q ->
  exists fv, f_score st !! v = Some fv /\ (fv == gv + hv v)%Q.
Proof.
  intros (_ & _ & _ & _ & _ & Hnodes) Hv Hgv Hlt.
  destruct (Hnodes v Hv) as (gv' & fv & pv & Hg & Hf & _ & Hcase).
  assert (gv' = gv) as -> by congruence.
  destruct Hcase as [(-> & _)|(_ & Hfv & _)]; [by apply Qlt_irrefl in Hlt|].
  by exists fv.
Qed.

(** Below every path from the start to a node inside the heap there is
    a node inside the heap whose key is at most the cost of the path
    plus the heuristic at its end. *)
Lemma frontier (st : AStar) (n v : nat) (c : double) :
  opt_inv sqrt graph s t no_pending st ->
  walk graph s n v c ->
  (exists k, heap_entry (minHeap st) v k) ->
  exists x k, heap_entry (minHeap st) x k /\ (k < DBL_MAX)%Q /\
    (k <= c + hv v)%Q.
Proof.
  intros (Hinv & Hord & (Hgs & Hps) & Hopt & Hrel & Hdepth) Hwalk.
  pose proof Hinv as (Hlg & Hlf & Hlp & Hheap & Hkey & Hnodes).
  assert (Hkeys : forall x k gx, heap_entry (minHeap st) x k ->
            g_score st !! x = Some gx -> (gx < DBL_MAX)%Q ->
            (k == gx + hv x)%Q /\ (k < DBL_MAX)%Q).
  { intros x k gx Hent Hgx Hlt.
    pose proof (heap_entry_lt V _ x k Hheap Hent) as Hx.
    destruct (reached_f_score st x gx Hinv Hx Hgx Hlt) as (fx & Hfx & Heq).
    rewrite (Hkey x k Hent) in Hfx. injection Hfx as ->.
    split; [done|].
    destruct (Hdepth x gx Hx Hgx Hlt) as (m & Hd & Hm & _).
    destruct (depth_walk graph s st m x Hd) as (c' & gx' & Hw' & Hgx' & Hc').
    assert (gx' = gx) as -> by congruence.
    destruct (B m x c' ltac:(lia) Hw') as [_ Hb]. rewrite Heq, <- Hc'. done. }
  induction Hwalk as [|n u c e v w Hwalk IH Hedge]; intros [k Hent].
  - exists s, k. split; [done|].
    destruct (Hkeys s k 0%Q Hent Hgs DBL_MAX_pos) as [Heq Hlt].
    split; [done|]. rewrite Heq. lra.
  - destruct (succ_edge_lt graph u v e w Hwf Hedge) as [Hu Hv].
    pose proof (CONS u e v w Hedge) as Hcons.
    destruct (heap_struct_cases V (minHeap st) u Hheap Hu) as [Hin|Hout].
    + destruct (IH Hin) as (x & kx & Hx & Hlt & Hle).
      exists x, kx. split; [done|]. split; [done|]. lra.
    + destruct (lookup_lt_is_Some_2 (g_score st) u ltac:(lia)) as [gu Hgu].
      destruct (Hopt u gu Hout Hgu) as [Hgu_lt Hgu_min].
      pose proof (Hgu_min n c Hwalk) as Hgu_le.
      destruct (Hrel u e v w gu Hout Hedge Hgu) as [[]|(gv & Hgv & Hgv_lt & Hgv_le)].
      destruct (Hkeys v k gv Hent Hgv Hgv_lt) as [Heq Hlt].
      exists v, k. split; [done|]. split; [done|]. rewrite Heq. lra.
Qed.

End Frontier.

Lemma edge_at_fun (g : Graph) (u : nat) (eid : Z) (v v' : nat) (w w' : double) :
  edge_at g eid v w -> succ_edge g u eid v' w' -> v' = v /\ w' = w.
Proof.
  intros (_ & e & He & Hto & _ & ->) (n & e' & _ & _ & _ & He' & Hto' & _ & ->).
  assert (e' = e) as -> by congruence. split; [lia|done].
Qed.

Lemma heap_decreased_out (V : nat) (h h' : MinHeap) (v : nat) (d kold : double) :
  heap_struct V h -> heap_decreased V h v d h' -> heap_entry h v kold ->
  forall x, heap_out h' x <-> heap_out h x.
Proof.
  intros Hheap (Hsz & Hheap' & Hent & Hout & _) Hv x. split; [|apply Hout].
  intros Hx. pose proof (heap_out_lt V h' x Hheap' Hx) as HxV.
  destruct (heap_struct_cases V h x Hheap HxV) as [[k Hk]|Hx']; [|done].
  destruct (heap_entry_not_out h' x (if decide (x = v) then d else k)); [|done].
  apply Hent. destruct (decide (x = v)) as [->|Hne]; [by left|by right].
Qed.

Section RelaxOptimal.
Variable sqrt : double -> double.
Variable graph : Graph.
Variables s t : nat.
Hypothesis Hwf : graph_wf graph.
Hypothesis Hs : Z.of_nat s < num_nodes graph.
Hypothesis Ht : Z.of_nat t < num_nodes graph.
Hypothesis NN : nonneg_weights graph.
Hypothesis CONS : consistent sqrt graph t.
Hypothesis B : bounded_costs sqrt graph s t.

Local Abbreviation V := (Z.to_nat (num_nodes graph)).
Local Abbreviation hv := (hval sqrt graph t).
Local Abbreviation oinv := (opt_inv sqrt graph s t).

(** The cost of going to [u] and on along one edge is the cost of a
    path, so it is below [DBL_MAX]. *)
Lemma tentative_bounded (pending : nat -> Z -> Prop) (st : AStar)
    (u v : nat) (e : Z) (w gu : double) :
  oinv pending st -> heap_out (minHeap st) u ->
  g_score st !! u = Some gu -> succ_edge graph u e v w ->
  exists n c, depth graph s st n u /\ (n + size (minHeap st) < V)%nat /\
    walk graph s (S n) v c /\ (c == gu + w)%Q /\
    (gu + w < DBL_MAX)%Q /\ (gu + w + hv v < DBL_MAX)%Q /\ (gu < DBL_MAX)%Q.
Proof.
  intros (Hinv & _ & _ & Hopt & _ & Hdepth) Hout Hgu Hedge.
  destruct (Hopt u gu Hout Hgu) as [Hlt _].
  destruct (succ_edge_lt graph u v e w Hwf Hedge) as [Hu Hv].
  destruct (Hdepth u gu Hu Hgu Hlt) as (n & Hd & _ & Hn).
  specialize (Hn Hout).
  destruct (depth_walk graph s st n u Hd) as (c & gu' & Hw & Hgu' & Hc).
  assert (gu' = gu) as -> by congruence.
  assert (Hw' : walk graph s (S n) v (c + w)%Q) by (by econstructor).
  destruct (B (S n) v (c + w)%Q ltac:(lia) Hw') as [Hb1 Hb2].
  exists n, (c + w)%Q. split; [done|]. split; [done|]. split; [done|].
  split; [by rewrite Hc|]. split; [lra|]. split; [lra|done].
Qed.

(** One turn of the inner loop keeps the invariant and takes its edge
    off the pending ones. *)
Lemma relax_edge_opt (u : nat) (n : Node) (st : AStar) (eid : Z) (cur : list Z) :
  oinv (pending_edges u (eid :: cur)) st ->
  heap_out (minHeap st) u ->
  nodes graph !! u = Some n -> eid ∈ out_edges n ->
  exists st', relax_edge sqrt graph (Z.of_nat t) u st eid = Some st' /\
    oinv (pending_edges u cur) st' /\
    size (minHeap st') = size (minHeap st) /\
    heap_out (minHeap st') u /\
    (forall x k, heap_entry (minHeap st) x k ->
       exists k', heap_entry (minHeap st') x k').
Proof.
  intros Hoinv Hout Hn Hin.
  pose proof Hoinv as (Hinv & Hord & (Hgs & Hps) & Hopt & Hrel & Hdepth).
  pose proof Hinv as (Hlg & Hlf & Hlp & Hheap & Hkey & Hnodes).
  pose proof (heap_out_lt V _ u Hheap Hout) as Hu.
  destruct (relax_edge_inv sqrt graph s t Hwf Ht u n st eid Hinv Hu Hn Hin)
    as (st' & Hrun & Hinv' & Hsz').
  destruct (relax_edge_spec sqrt graph s t Hwf Ht u st eid Hinv Hu)
    as (st'' & Hrun' & Hcases).
  assert (st'' = st') as -> by congruence. clear Hrun'.
  exists st'. split; [done|].
  destruct (lookup_lt_is_Some_2 (g_score st) u ltac:(lia)) as [gu Hgu].
  assert (Hedge_of : forall v w, edge_at graph eid v w -> succ_edge graph u eid v w).
  { intros v w (Hr & e & He & Hto & Hv & Hw). by exists n, e. }
  destruct Hcases as [(-> & Hle)|Hupd].
  - (* nothing was written *)
    split; [|split; [done|split; [done|by eauto]]].
    split; [done|]. split; [done|]. split; [done|]. split; [done|].
    split; [|done].
    intros u' e v w gu' Hout' Hedge Hgu'.
    destruct (Hrel u' e v w gu' Hout' Hedge Hgu')
      as [[-> He]|Hdone]; [|by right].
    apply elem_of_cons in He as [->|He]; [|by left].
    right. assert (gu' = gu) as -> by congruence.
    destruct (tentative_bounded _ st u v eid w gu Hoinv Hout Hgu Hedge)
      as (m & c & _ & _ & _ & _ & Hb & _ & Hgu_lt).
    destruct (succ_edge_lt graph u v eid w Hwf Hedge) as [_ Hv].
    destruct (lookup_lt_is_Some_2 (g_score st) v ltac:(lia)) as [gv Hgv].
    exists gv. split; [done|].
    assert (Hgv_le : (gv <= gu + w)%Q).
    { apply (Hle v w gu gv); try done.
      - destruct Hedge as (n' & e' & _ & _ & Hr & He' & Hto & Hv' & Hw).
        split; [done|]. by exists e'.
      - intros Heq. rewrite Heq in Hgu_lt. by apply Qlt_irrefl in Hgu_lt. }
    split; [lra|done].
  - (* node [v] was improved *)
    destruct Hupd as (v & w & gu' & gv & Hat & Hgu' & Hgv & Hne & Hlt & Hg' & Hf'
      & Hp' & Hheap').
    assert (gu' = gu) as -> by congruence.
    pose proof (Hedge_of v w Hat) as Hedge.
    destruct (tentative_bounded _ st u v eid w gu Hoinv Hout Hgu Hedge)
      as (m & c & Hdu & Hm & Hwalk & Hc & Hb1 & Hb2 & Hgu_lt).
    destruct (succ_edge_lt graph u v eid w Hwf Hedge) as [_ Hv].
    (* [v] is inside the heap *)
    destruct Hheap' as [[Hvout _]|[[kold Hkold] Hdec]].
    { destruct (Hopt v gv Hvout Hgv) as [_ Hmin].
      pose proof (Hmin _ _ Hwalk). lra. }
    pose proof (heap_decreased_out V _ _ v _ kold Hheap Hdec Hkold) as Houts.
    pose proof Hdec as (_ & Hheap1 & Hent' & _ & Hord').
    assert (Hvu : v <> u).
    { intros ->. by apply (heap_entry_not_out (minHeap st) u kold). }
    assert (Hvs : v <> s).
    { intros ->. rewrite Hgs in Hgv. injection Hgv as <-.
      pose proof (walk_nonneg graph s _ _ _ NN Hwalk). lra. }
    assert (Hg_other : forall x, x <> v -> g_score st' !! x = g_score st !! x).
    { intros x Hx. rewrite Hg'. by apply list_lookup_insert_ne. }
    assert (Hp_other : forall x, x <> v -> parent st' !! x = parent st !! x).
    { intros x Hx. rewrite Hp'. by apply list_lookup_insert_ne. }
    assert (Hg_v : g_score st' !! v = Some (gu + w)%Q).
    { rewrite Hg'. apply list_lookup_insert_eq. lia. }
    assert (Hp_v : parent st' !! v = Some (Z.of_nat u)).
    { rewrite Hp'. apply list_lookup_insert_eq. lia. }
    assert (Hout_ne : forall x, heap_out (minHeap st) x -> x <> v).
    { intros x Hx ->. by apply (heap_entry_not_out (minHeap st) v kold). }
    assert (Hkeep : forall x, heap_out (minHeap st) x ->
              heap_out (minHeap st') x /\ g_score st' !! x = g_score st !! x /\
              parent st' !! x = parent st !! x).
    { intros x Hx. pose proof (Hout_ne x Hx).
      split; [by apply Houts|]. split; [by apply Hg_other|by apply Hp_other]. }
    split; [|split; [done|split; [by apply Houts|]]].
    2:{ intros x k Hx. destruct (Nat.eq_dec x v) as [->|Hxv].
        - exists (gu + w + hv v)%Q. apply Hent'. by left.
        - exists k. apply Hent'. by right. }
    split; [done|]. split.
    { (* the heap order *)
      apply (Hord' kold Hkold Hord).
      pose proof (Hkey v kold Hkold) as Hfv.
      destruct (Hnodes v Hv) as (gv' & fv & pv & Hg0 & Hf0 & _ & Hcase).
      assert (gv' = gv) as -> by congruence.
      assert (fv = kold) as -> by congruence.
      destruct Hcase as [(_ & -> & _)|(_ & Hfeq & _)]; [lra|].
      rewrite Hfeq. lra. }
    split.
    { rewrite Hg_other, Hp_other by done. done. }
    split.
    { intros x gx Hx Hgx. apply Houts in Hx.
      rewrite Hg_other in Hgx by (by apply Hout_ne). by apply Hopt. }
    split.
    { intros u' e v' w' gu' Hout' Hedge' Hgu''. apply Houts in Hout'.
      rewrite Hg_other in Hgu'' by (by apply Hout_ne).
      destruct (Hrel u' e v' w' gu' Hout' Hedge' Hgu'')
        as [[-> He]|(gv' & Hgv' & Hgv'_lt & Hgv'_le)].
      - apply elem_of_cons in He as [->|He]; [|by left].
        right. destruct (edge_at_fun graph u eid v v' w w' Hat Hedge') as [-> ->].
        assert (gu' = gu) as -> by congruence.
        exists (gu + w)%Q. split; [done|]. split; [done|lra].
      - right. destruct (Nat.eq_dec v' v) as [->|Hv'].
        + assert (gv' = gv) as -> by congruence.
          exists (gu + w)%Q. split; [done|]. split; [done|lra].
        + exists gv'. rewrite Hg_other by done. done. }
    { intros x gx Hx Hgx Hgx_lt. rewrite Hsz'.
      destruct (Nat.eq_dec x v) as [->|Hxv].
      - exists (S m). split.
        + apply (depth_step graph s st' m u v eid w gu (gu + w)%Q); try done.
          * apply (depth_keep graph s st st' Hkeep m u Hdu);
              [by apply Hg_other|by apply Hp_other].
          * by apply Houts.
          * by rewrite Hg_other.
        + split; [lia|]. intros Hvo. apply Houts in Hvo.
          by destruct (heap_entry_not_out (minHeap st) v kold).
      - rewrite Hg_other in Hgx by done.
        destruct (Hdepth x gx Hx Hgx Hgx_lt) as (k & Hd & Hk1 & Hk2).
        exists k. split.
        + apply (depth_keep graph s st st' Hkeep k x Hd);
            [by apply Hg_other|by apply Hp_other].
        + split; [done|]. intros Hxo. apply Hk2. by apply Houts. }
Qed.

End RelaxOptimal.

Lemma opt_inv_mono (sqrt : double -> double) (g : Graph) (s t : nat)
    (P P' : nat -> Z -> Prop) (st : AStar) :
  (forall u e, P u e -> P' u e) ->
  opt_inv sqrt g s t P st -> opt_inv sqrt g s t P' st.
Proof.
  intros HP (Hinv & Hord & H0 & Hopt & Hrel & Hdepth).
  split; [done|]. split; [done|]. split; [done|]. split; [done|].
  split; [|done].
  intros u e v w gu Hout Hedge Hgu.
  destruct (Hrel u e v w gu Hout Hedge Hgu) as [Hp|Hdone]; [left|right]; auto.
Qed.

Section LoopOptimal.
Variable sqrt : double -> double.
Variable graph : Graph.
Variables s t : nat.
Hypothesis Hwf : graph_wf graph.
Hypothesis Hs : Z.of_nat s < num_nodes graph.
Hypothesis Ht : Z.of_nat t < num_nodes graph.
Hypothesis NN : nonneg_weights graph.
Hypothesis CONS : consistent sqrt graph t.
Hypothesis B : bounded_costs sqrt graph s t.

Local Abbreviation V := (Z.to_nat (num_nodes graph)).
Local Abbreviation hv := (hval sqrt graph t).
Local Abbreviation oinv := (opt_inv sqrt graph s t).

Lemma relax_edges_opt (u : nat) (n : Node) (cur : list Z) :
  forall st,
  oinv (pending_edges u cur) st ->
  heap_out (minHeap st) u ->
  nodes graph !! u = Some n -> cur ⊆ out_edges n ->
  exists st', relax_edges sqrt graph (Z.of_nat t) u st cur = Some st' /\
    oinv no_pending st' /\
    size (minHeap st') = size (minHeap st) /\
    (forall x k, heap_entry (minHeap st) x k ->
       exists k', heap_entry (minHeap st') x k').
Proof.
  induction cur as [|eid cur IH]; intros st Hoinv Hout Hn Hsub.
  - exists st. split; [done|]. split; [|by eauto].
    apply (opt_inv_mono _ _ _ _ (pending_edges u [])); [|done].
    intros u' e [_ He]. by apply elem_of_nil in He.
  - destruct (relax_edge_opt sqrt graph s t Hwf Hs Ht NN B u n st eid cur Hoinv Hout Hn)
      as (st1 & Hrun1 & Hoinv1 & Hsz1 & Hout1 & Hent1).
    { apply Hsub. by left. }
    destruct (IH st1 Hoinv1 Hout1 Hn) as (st' & Hrun & Hoinv' & Hsz' & Hent').
    { intros x Hx. apply Hsub. by right. }
    exists st'. cbn [relax_edges]. rewrite Hrun1. cbn [mbind option_bind].
    split; [done|]. split; [done|]. split; [lia|].
    intros x k Hx. destruct (Hent1 x k Hx) as [k1 Hk1]. by apply (Hent' x k1).
Qed.

(** Taking the node with the least key out of the heap: its [g_score]
    is the cost of a shortest path. *)
Lemma extract_opt (st : AStar) :
  oinv no_pending st -> (0 < size (minHeap st))%nat ->
  exists root hp,
    extractMin (minHeap st) = Some (Some root, hp) /\
    size hp = (size (minHeap st) - 1)%nat /\
    (hnode_id root < V)%nat /\
    (forall v k, heap_entry (minHeap st) v k -> (dist root <= k)%Q) /\
    (forall v k, heap_entry hp v k
       <-> heap_entry (minHeap st) v k /\ v <> hnode_id root) /\
    heap_out hp (hnode_id root) /\
    (~ (dist root == DBL_MAX)%Q ->
     forall n, nodes graph !! hnode_id root = Some n ->
       oinv (pending_edges (hnode_id root) (out_edges n))
         (mkAStar (g_score st) (f_score st) (parent st) hp)).
Proof.
  intros Hoinv Hsize.
  pose proof Hoinv as (Hinv & Hord & (Hgs & Hps) & Hopt & Hrel & Hdepth).
  pose proof Hinv as (Hlg & Hlf & Hlp & Hheap & Hkey & Hnodes).
  pose proof Hheap as (Hlpos & Hlarr & Hsz & Hok & Hback).
  destruct (extract_inv sqrt graph s t st Hinv Hsize)
    as (root & hp & Hrun & Hinv1 & Hsz1 & Hroot & Hf).
  destruct (extractMin_spec (minHeap st)) as (root' & hp' & Hrun' & _ & Hentry
    & Hmin & _ & _ & _ & _ & _ & Hord' & Hent & Hout_root & Hout_mono & _);
    try done; try lia.
  assert (root' = root /\ hp' = hp) as [-> ->].
  { rewrite Hrun in Hrun'. by injection Hrun' as -> ->. }
  clear Hrun'. specialize (Hmin Hord). specialize (Hord' Hord).
  exists root, hp. split; [done|]. split; [done|]. split; [done|].
  split; [done|]. split; [done|]. split; [done|].
  intros Hfin n Hn.
  set (u := hnode_id root) in *.
  assert (Hout_cases : forall x, heap_out hp x -> heap_out (minHeap st) x \/ x = u).
  { intros x Hx. destruct (Nat.eq_dec x u) as [->|Hxu]; [by right|left].
    pose proof Hinv1 as (_ & _ & _ & Hheap1 & _).
    pose proof (heap_out_lt V hp x Hheap1 Hx) as HxV.
    destruct (heap_struct_cases V (minHeap st) x Hheap HxV) as [[k Hk]|Hx']; [|done].
    destruct (heap_entry_not_out hp x k); [|done]. by apply Hent. }
  assert (Hkeep : forall x, heap_out (minHeap st) x ->
            heap_out hp x /\ g_score st !! x = g_score st !! x /\
            parent st !! x = parent st !! x).
  { intros x Hx. split; [by apply Hout_mono|done]. }
  split; [done|]. split; [done|]. split; [done|]. cbn [minHeap g_score parent].
  split.
  { (* the node taken out *)
    intros x gx Hx Hgx. destruct (Hout_cases x Hx) as [Hx'|Heq]; [by apply Hopt|].
    subst x.
    destruct (Hnodes u Hroot) as (gu & fu & pu & Hg & Hfu & _ & Hcase).
    assert (gu = gx) as -> by congruence.
    assert (fu = dist root) as -> by congruence.
    destruct Hcase as [(_ & Hfinf & _)|(Hlt & Hfeq & _)].
    { destruct Hfin. by rewrite Hfinf. }
    split; [done|]. intros m c Hwalk.
    destruct (frontier sqrt graph s t Hwf CONS B st m u c Hoinv Hwalk)
      as (y & ky & Hy & _ & Hle); [by eauto|].
    pose proof (Hmin y ky Hy). lra. }
  split.
  { intros u' e v w gu' Hout' Hedge Hgu'.
    destruct (Hout_cases u' Hout') as [Hold|Heq].
    - destruct (Hrel u' e v w gu' Hold Hedge Hgu') as [[]|Hdone]. by right.
    - subst u'. left. split; [done|].
      destruct Hedge as (n' & _ & Hn' & Hin & _).
      assert (n' = n) as -> by congruence. done. }
  intros x gx Hx Hgx Hlt.
  destruct (Hdepth x gx Hx Hgx Hlt) as (m & Hd & Hm & _).
  exists m. split; [|lia].
  by apply (depth_keep graph s st
              (mkAStar (g_score st) (f_score st) (parent st) hp) Hkeep m x Hd).
Qed.

(** The main loop under the three assumptions: it ends; with [found]
    the target has the cost of a shortest path, and without it no path
    leads to the target. *)
Lemma astar_loop_opt (fuel : nat) :
  forall st, oinv no_pending st ->
  (exists k, heap_entry (minHeap st) t k) ->
  (size (minHeap st) < fuel)%nat ->
  exists found st',
    astar_loop sqrt graph (Z.of_nat t) fuel st = Some (found, st') /\
    (found = true -> search_inv sqrt graph s t st' /\ search_done graph s t st') /\
    (found = false -> ~ reachable graph s t).
Proof.
  induction fuel as [|fuel IH]; intros st Hoinv [kt Hkt] Hfuel; [lia|].
  cbn [astar_loop]. unfold isEmpty.
  assert (H0 : (0 < size (minHeap st))%nat).
  { destruct Hkt as (p & _ & Hp & _). lia. }
  replace (size (minHeap st) =? 0)%nat with false
    by (symmetry; apply Nat.eqb_neq; lia).
  destruct (extract_opt st Hoinv H0) as (root & hp & Hrun & Hsz & Hroot & Hmin
    & Hent & Hout & Hnext).
  rewrite Hrun. cbn [mbind option_bind].
  destruct (graph_wf_node graph (Z.of_nat (hnode_id root)) Hwf ltac:(lia))
    as [n Hn].
  rewrite Nat2Z.id in Hn.
  destruct (deq (dist root) DBL_MAX) eqn:Hinf.
  { eexists false, _. split; [done|]. split; [done|]. intros _ (m & c & Hwalk).
    destruct (frontier sqrt graph s t Hwf CONS B st m t c Hoinv Hwalk)
      as (y & ky & Hy & Hlt & _); [by eauto|].
    pose proof (Hmin y ky Hy). apply Qeq_bool_iff in Hinf. lra. }
  apply deq_false in Hinf.
  specialize (Hnext Hinf n Hn).
  destruct (Z.of_nat (hnode_id root) =? Z.of_nat t) eqn:Htarget.
  { apply Z.eqb_eq in Htarget. apply Nat2Z.inj in Htarget.
    eexists true, _. split; [done|]. split; [|done]. intros _.
    destruct Hnext as (Hinv1 & _ & _ & Hopt1 & _ & Hdepth1).
    split; [done|]. rewrite Htarget in *. cbn [minHeap g_score] in *.
    pose proof Hinv1 as (Hlg1 & _).
    destruct (lookup_lt_is_Some_2 (g_score st) t ltac:(cbn [g_score] in Hlg1; lia))
      as [gt Hgt].
    destruct (Hopt1 t gt Hout Hgt) as [Hlt Hbest].
    destruct (Hdepth1 t gt ltac:(lia) Hgt Hlt) as (m & Hd & _ & Hm).
    exists gt, m. split; [done|]. split; [done|]. split; [done|].
    split; [done|]. specialize (Hm Hout). lia. }
  apply Z.eqb_neq in Htarget.
  rewrite Hn. cbn [mbind option_bind].
  destruct (relax_edges_opt (hnode_id root) n (out_edges n) _ Hnext Hout Hn)
    as (st2 & Hrun2 & Hoinv2 & Hsz2 & Hent2); [done|].
  rewrite Hrun2. cbn [mbind option_bind].
  apply IH; [done| |cbn [minHeap] in Hsz2; lia].
  apply (Hent2 t kt). cbn [minHeap]. apply Hent. split; [done|].
  intros Heq. apply Htarget. by rewrite Heq.
Qed.

End LoopOptimal.

(** ** The search: the first state and the path of the result *)

Section StartOptimal.
Variable sqrt : double -> double.
Variable graph : Graph.
Variables s t : nat.
Hypothesis Hwf : graph_wf graph.
Hypothesis Hs : Z.of_nat s < num_nodes graph.
Hypothesis Ht : Z.of_nat t < num_nodes graph.
Hypothesis B : bounded_costs sqrt graph s t.

Local Abbreviation V := (Z.to_nat (num_nodes graph)).
Local Abbreviation hv := (hval sqrt graph t).

Lemma search_start_opt :
  exists hp,
    decreaseKey (minHeap (astar_init V)) s (hv s) = Some hp /\
    size hp = V /\
    opt_inv sqrt graph s t no_pending (search_start V s (hv s) hp) /\
    exists k, heap_entry hp t k.
Proof.
  destruct (search_start_inv sqrt graph s t Hs Ht)
    as (hp & Hdec & Hinv & Hsz & Hent_s & Hent_other & Hord).
  assert (Hin : isInMinHeap (minHeap (astar_init V)) s = Some true).
  { apply isInMinHeap_true. exists s. simpl. rewrite lookup_seq_lt by lia.
    split; [done|lia]. }
  destruct (decreaseKey_heap V _ s (hv s) (init_heap_struct V) Hin)
    as (hp' & Hrun & _ & Hstruct & Hent & _).
  assert (hp' = hp) as -> by congruence. clear Hrun.
  assert (Hall : forall v, (v < V)%nat -> exists k, heap_entry hp v k).
  { intros v Hv. destruct (Nat.eq_dec v s) as [->|Hne]; [by eauto|].
    exists DBL_MAX. apply Hent. right. split; [done|]. by apply init_heap_entry. }
  assert (Hnone : forall v, heap_out hp v -> False).
  { intros v Hv. destruct (Hall v (heap_out_lt V hp v Hstruct Hv)) as [k Hk].
    by apply (heap_entry_not_out hp v k). }
  destruct (B 0%nat s 0%Q ltac:(lia) (walk_nil graph s)) as [_ Hhs].
  exists hp. split; [done|]. split; [done|]. split; [|apply Hall; lia].
  split; [done|]. cbn [minHeap search_start g_score parent].
  split. { apply Hord. lra. }
  split.
  { split; [apply list_lookup_insert_eq; rewrite length_replicate; lia|].
    apply lookup_replicate_2. lia. }
  split. { intros v gv Hv. by destruct (Hnone v). }
  split. { intros u e v w gu Hu. by destruct (Hnone u). }
  intros v gv Hv Hgv Hlt.
  destruct (Nat.eq_dec v s) as [->|Hne].
  - exists 0%nat. split; [|split; [lia|intros Hout; by destruct (Hnone s)]].
    constructor; cbn [parent g_score].
    + apply lookup_replicate_2. lia.
    + apply list_lookup_insert_eq. rewrite length_replicate. lia.
  - rewrite list_lookup_insert_ne in Hgv by done.
    apply lookup_replicate in Hgv as [-> _]. by apply Qlt_irrefl in Hlt.
Qed.

End StartOptimal.

Lemma depth_chain (g : Graph) (s : nat) (st : AStar) (m v : nat) :
  depth g s st m v ->
  forall room, (m < room)%nat ->
  exists (l : list nat) (c gv : double),
    parent_chain room (parent st) (Z.of_nat v) = Some (map Z.of_nat l) /\
    length l = S m /\ head l = Some v /\ last l = Some s /\
    chain_cost g l c /\ g_score st !! v = Some gv /\ (c == gv)%Q.
Proof.
  induction 1 as [Hp Hg|m u v e w gu gv Hd IH Hout Hp Hedge Hgu Hgv Heq];
    intros room Hroom; (destruct room as [|room]; [lia|]); cbn [parent_chain].
  - replace (Z.of_nat s =? -1) with false by (symmetry; apply Z.eqb_neq; lia).
    replace (Z.of_nat s <? 0) with false by (symmetry; apply Z.ltb_ge; lia).
    rewrite Nat2Z.id, Hp. cbn [mbind option_bind].
    assert (parent_chain room (parent st) (-1) = Some []) as ->
      by (by destruct room).
    cbn [mbind option_bind].
    exists [s], 0%Q, 0%Q. split; [done|]. split; [done|]. split; [done|].
    split; [done|]. split; [constructor|]. by split.
  - replace (Z.of_nat v =? -1) with false by (symmetry; apply Z.eqb_neq; lia).
    replace (Z.of_nat v <? 0) with false by (symmetry; apply Z.ltb_ge; lia).
    rewrite Nat2Z.id, Hp. cbn [mbind option_bind].
    destruct (IH room ltac:(lia)) as (l & c & gu' & Hrun & Hlen & Hhd & Hlast
      & Hcost & Hgu' & Hc).
    assert (gu' = gu) as -> by congruence.
    rewrite Hrun. cbn [mbind option_bind].
    destruct l as [|u' l]; [done|]. injection Hhd as ->.
    exists (v :: u :: l), (c + w)%Q, gv. split; [done|].
    split; [simpl in *; lia|]. split; [done|]. split; [done|].
    split; [by econstructor|]. split; [done|]. rewrite Heq, Hc. reflexivity.
Qed.

Lemma path_to_edges_snoc (g : Graph) (max_edges : Z) (u v e : Z) (p : list Z) :
  forall k es,
  path_to_edges g max_edges (p ++ [u]) k = Some (inr es) ->
  find_edge_id g u v = Some e -> 0 <= e ->
  k + Z.of_nat (length es) < max_edges ->
  path_to_edges g max_edges (p ++ [u; v]) k = Some (inr (es ++ [e])).
Proof.
  induction p as [|a p IH]; intros k es Hrun Hfind He Hk.
  - injection Hrun as <-. simpl in Hk.
    change ([] ++ [u; v]) with [u; v]. rewrite path_to_edges_cons, Hfind.
    cbn [mbind option_bind].
    replace (e <? 0) with false by (symmetry; apply Z.ltb_ge; lia).
    replace (k >=? max_edges) with false
      by (symmetry; rewrite Z.geb_leb; apply Z.leb_gt; lia).
    done.
  - assert (Hshape : exists b q, p ++ [u] = b :: q /\ p ++ [u; v] = b :: q ++ [v]).
    { destruct p as [|b p]; [by exists u, []|].
      exists b, (p ++ [u]). split; [done|]. by rewrite <- app_assoc. }
    destruct Hshape as (b & q & Hq & Hq').
    rewrite <- !app_comm_cons, Hq in Hrun. rewrite <- !app_comm_cons, Hq'.
    rewrite path_to_edges_cons in *.
    destruct (find_edge_id g a b) as [e0|]; [|done].
    cbn [mbind option_bind] in *.
    destruct (e0 <? 0); [done|]. destruct (k >=? max_edges); [done|].
    rewrite <- Hq in Hrun. rewrite <- Hq'.
    destruct (path_to_edges g max_edges (p ++ [u]) (k + 1)) as [[rc|es']|] eqn:Hrest;
      cbn [mbind option_bind] in Hrun; [done| |done].
    injection Hrun as <-.
    rewrite (IH (k + 1) es' Hrest Hfind He) by (simpl in Hk; lia).
    done.
Qed.

Lemma path_cost_snoc (g : Graph) (e : Z) (w : double) (es : list Z) :
  forall acc c,
  path_cost g es acc = Some c -> get_edge_weight g e = Some w ->
  path_cost g (es ++ [e]) acc = Some (c + w)%Q.
Proof.
  induction es as [|e0 es IH]; intros acc c Hrun Hw.
  - injection Hrun as <-. simpl. by rewrite Hw.
  - simpl in *. destruct (get_edge_weight g e0) as [w0|]; [|done].
    cbn [mbind option_bind] in *. by apply IH.
Qed.

Lemma edge_between_succ (g : Graph) (u v : nat) (eid : Z) :
  Z.of_nat v < num_nodes g -> edge_between g (Z.of_nat u) eid (Z.of_nat v) ->
  exists e, edges g !! Z.to_nat eid = Some e /\
    get_edge_weight g eid = Some (current_travel_time e) /\
    succ_edge g u eid v (current_travel_time e).
Proof.
  intros Hv (_ & Hr & n & e & Hn & Hin & He & Hto).
  rewrite Nat2Z.id in Hn. exists e. split; [done|]. split.
  - unfold get_edge_weight.
    replace ((eid <? 0) || (eid >=? num_edges g)) with false.
    2:{ symmetry. rewrite orb_false_iff, Z.ltb_ge, Z.geb_leb, Z.leb_gt. lia. }
    by rewrite He.
  - by exists n, e.
Qed.

(** The edges [path_to_edges] finds for the nodes that [parent_chain]
    collected. *)
Lemma chain_edges (g : Graph) (max_edges : Z) (l : list nat) (c : double) :
  graph_wf g -> chain_cost g l c ->
  Z.of_nat (length l) - 1 <= max_edges ->
  exists es c',
    path_to_edges g max_edges (rev (map Z.of_nat l)) 0 = Some (inr es) /\
    length es = (length l - 1)%nat /\
    path_cost g es 0%Q = Some c' /\
    (parallel_equal g -> (c' == c)%Q) /\
    (forall s0 v0, last l = Some s0 -> head l = Some v0 ->
     exists n cw, walk g s0 n v0 cw /\ (cw == c')%Q).
Proof.
  intros Hwf Hchain. induction Hchain as [v|v u l e w c Hedge Hchain IH];
    intros Hmax.
  - exists [], 0%Q. split; [done|]. split; [done|]. split; [done|].
    split; [done|]. intros s0 v0 [= <-] [= <-]. exists 0%nat, 0%Q.
    split; [constructor|done].
  - destruct IH as (es & c' & Hrun & Hlen & Hcost & Hc & Hwalk);
      [simpl in *; lia|].
    destruct (succ_edge_find g u v e w Hwf Hedge) as (r & Hfind & Hr).
    pose proof Hfind as Hbetween.
    apply find_edge_id_spec in Hbetween as [->|Hbetween]; [lia|].
    assert (Hv : Z.of_nat v < num_nodes g).
    { by destruct Hedge as (? & ? & _ & _ & _ & _ & _ & Hv & _). }
    destruct (edge_between_succ g u v r Hv Hbetween) as (er & Her & Hw & Hsucc).
    exists (es ++ [r]), (c' + current_travel_time er)%Q.
    split.
    { change (rev (map Z.of_nat (v :: u :: l)))
        with ((rev (map Z.of_nat l) ++ [Z.of_nat u]) ++ [Z.of_nat v]).
      rewrite <- app_assoc. apply path_to_edges_snoc; try done.
      simpl in *. lia. }
    split; [rewrite length_app; simpl in *; lia|].
    split; [by apply path_cost_snoc|].
    split.
    { intros Hpar. rewrite (Hc Hpar), (Hpar u r e v _ w Hsucc Hedge).
      reflexivity. }
    intros s0 v0 Hlast [= <-].
    destruct (Hwalk s0 u Hlast eq_refl) as (n & cw & Hw' & Hcw).
    exists (S n), (cw + current_travel_time er)%Q.
    split; [by econstructor|]. by rewrite Hcw.
Qed.

Section SearchOptimal.
Variable sqrt : double -> double.
Variable graph : Graph.
Variables s t : nat.
Hypothesis Hwf : graph_wf graph.
Hypothesis Hs : Z.of_nat s < num_nodes graph.
Hypothesis Ht : Z.of_nat t < num_nodes graph.
Hypothesis NN : nonneg_weights graph.
Hypothesis CONS : consistent sqrt graph t.
Hypothesis B : bounded_costs sqrt graph s t.

Local Abbreviation V := (Z.to_nat (num_nodes graph)).
Local Abbreviation hv := (hval sqrt graph t).

(** The whole search under the three assumptions, with room for every
    node and edge in the result. *)
Lemma find_route_optimal (max_edges max_nodes : Z) :
  num_nodes graph <= max_nodes -> num_nodes graph - 1 <= max_edges ->
  (~ reachable graph s t ->
   find_route_a_star_path sqrt graph (Z.of_nat s) (Z.of_nat t) max_edges max_nodes
   = Some (RouteError 1)) /\
  (reachable graph s t ->
   exists cost node_path edge_path c',
     find_route_a_star_path sqrt graph (Z.of_nat s) (Z.of_nat t)
       max_edges max_nodes
     = Some (Route cost node_path edge_path) /\
     shortest_cost graph s t cost /\
     (length node_path <= V)%nat /\
     length edge_path = (length node_path - 1)%nat /\
     path_cost graph edge_path 0%Q = Some c' /\
     (cost <= c')%Q /\
     (parallel_equal graph -> (c' == cost)%Q)).
Proof.
  intros Hmn Hme.
  destruct (search_start_opt sqrt graph s t Hs Ht B)
    as (hp & Hdec & Hsz & Hoinv & Htin).
  destruct (astar_loop_opt sqrt graph s t Hwf Hs Ht NN CONS B (S V) _ Hoinv)
    as (found & st & Hrun & Hfound & Hnot); [done|cbn [minHeap search_start]; lia|].
  rewrite (find_route_unfold sqrt graph s t Hwf Hs Ht _ _ hp Hdec), Hrun.
  cbn [mbind option_bind]. destruct found; cbn [negb].
  2:{ split; [done|]. intros Hreach. by destruct (Hnot eq_refl). }
  destruct (Hfound eq_refl) as (Hinv & gt & m & Hgt & Hlt & Hbest & Hd & Hm).
  destruct (depth_chain graph s st m t Hd V Hm)
    as (l & c & gt' & Hchain & Hlen & Hhd & Hlast & Hcost & Hgt' & Hc).
  assert (gt' = gt) as -> by congruence.
  destruct (depth_walk graph s st m t Hd) as (cw & gt' & Hwalk & Hgt'' & Hcw).
  assert (gt' = gt) as -> by congruence.
  split. { intros Hno. destruct Hno. by exists m, cw. }
  intros _.
  destruct (chain_edges graph max_edges l c Hwf Hcost ltac:(lia))
    as (es & c' & Hedges & Hes & Hsum & Hpar & Hfound_walk).
  rewrite Hchain. cbn [mbind option_bind].
  assert (Hlen' : length (rev (map Z.of_nat l)) = S m)
    by (by rewrite length_rev, length_map).
  replace (Z.of_nat (length (rev (map Z.of_nat l))) >? max_nodes) with false
    by (symmetry; rewrite Z.gtb_ltb; apply Z.ltb_ge; lia).
  rewrite Hedges. cbn [mbind option_bind]. rewrite Nat2Z.id, Hgt.
  cbn [mbind option_bind].
  exists gt, (rev (map Z.of_nat l)), es, c'.
  split; [done|]. split.
  { split; [by exists m, cw|done]. }
  split; [lia|]. split; [lia|]. split; [done|]. split.
  - destruct (Hfound_walk s t Hlast Hhd) as (n & cw' & Hw' & Hcw').
    rewrite <- Hcw'. by apply (Hbest n).
  - intros H. rewrite (Hpar H). done.
Qed.

End SearchOptimal.

(** ** Checking the assumptions *)

Lemma edge_checks_spec (P : nat -> nat -> double -> bool) (g : Graph) :
  graph_wf g -> edge_checks P g = true ->
  forall u e v w, succ_edge g u e v w -> P u v w = true.
Proof.
  intros Hwf Hall u eid v w Hedge.
  destruct (succ_edge_lt g u v eid w Hwf Hedge) as [Hu _].
  destruct Hedge as (n & e & Hn & Hin & Hr & He & Hto & Hv & ->).
  unfold edge_checks in Hall. rewrite forallb_forall in Hall.
  specialize (Hall u). rewrite Hn, forallb_forall in Hall.
  specialize (Hall ltac:(apply in_seq; lia) eid ltac:(by apply list_elem_of_In)).
  cbv beta in Hall. rewrite He, Hto in Hall.
  replace ((eid <? 0) || (eid >=? num_edges g)) with false in Hall.
  2:{ symmetry. rewrite orb_false_iff, Z.ltb_ge, Z.geb_leb, Z.leb_gt. lia. }
  replace ((Z.of_nat v <? 0) || (Z.of_nat v >=? num_nodes g)) with false in Hall.
  2:{ symmetry. rewrite orb_false_iff, Z.ltb_ge, Z.geb_leb, Z.leb_gt. lia. }
  by rewrite Nat2Z.id in Hall.
Qed.

Lemma check_nonneg_spec (g : Graph) :
  graph_wf g -> check_nonneg g = true -> nonneg_weights g.
Proof.
  intros Hwf Hc u e v w Hedge.
  by apply dle_true, (edge_checks_spec _ g Hwf Hc u e v w).
Qed.

Lemma check_consistent_spec (sqrt : double -> double) (g : Graph) (t : nat) :
  graph_wf g -> check_consistent sqrt g t = true -> consistent sqrt g t.
Proof.
  intros Hwf Hc u e v w Hedge.
  by apply dle_true, (edge_checks_spec _ g Hwf Hc u e v w).
Qed.

Lemma check_parallel_spec (g : Graph) :
  graph_wf g -> check_parallel g = true -> parallel_equal g.
Proof.
  intros Hwf Hc u e e' v w w' Hedge Hedge'.
  pose proof (edge_checks_spec _ g Hwf Hc u e v w Hedge) as Hc'.
  pose proof (edge_checks_spec _ g Hwf Hc' u e' v w' Hedge') as Hc''.
  cbv beta in Hc''. rewrite !Nat.eqb_refl in Hc''. by apply deq_true.
Qed.

Lemma check_bounded_spec (sqrt : double -> double) (g : Graph) (s t : nat)
    (wmax hmax : double) :
  graph_wf g -> Z.of_nat s < num_nodes g ->
  check_bounded sqrt g t wmax hmax = true -> bounded_costs sqrt g s t.
Proof.
  intros Hwf Hs Hc. unfold check_bounded in Hc.
  rewrite !andb_true_iff in Hc. destruct Hc as ((((H0 & Hw) & Hh) & Hb1) & Hb2).
  apply dle_true in H0. apply dlt_true in Hb1, Hb2.
  rewrite forallb_forall in Hh.
  assert (Hcost : forall n v c, walk g s n v c -> (c <= inject_Z (Z.of_nat n) * wmax)%Q).
  { induction 1 as [|n u c e v w Hwalk IH Hedge].
    - change (inject_Z (Z.of_nat 0)) with 0%Q. lra.
    - pose proof (edge_checks_spec _ g Hwf Hw u e v w Hedge) as Hle.
      apply dle_true in Hle. rewrite Nat2Z.inj_succ, <- Z.add_1_r, inject_Z_plus.
      change (inject_Z 1) with 1%Q. lra. }
  intros n v c Hn Hwalk.
  pose proof (Hcost n v c Hwalk) as Hc.
  pose proof (walk_lt g s n v c Hs Hwalk) as Hv.
  specialize (Hh v ltac:(apply in_seq; lia)). apply dle_true in Hh.
  assert (Hnv : (inject_Z (Z.of_nat n) * wmax <= inject_Z (num_nodes g) * wmax)%Q).
  { apply Qmult_le_compat_r; [|done]. rewrite <- Zle_Qle. lia. }
  split; lra.
Qed.

(** ** Construction and the adjacency lists *)

Lemma graph_init_adjacency (n m : Z) (junk : Edge) (g : Graph) :
  graph_init n m junk = Some g ->
  adjacency_ok g /\ forall eid, ~ listed g eid.
Proof.
  unfold graph_init. destruct (MAX_NODES <? n); [done|]. intros [= <-].
  assert (Hnone : forall eid,
    ~ listed {| nodes := map (fun i => mkNode (Z.of_nat i) 0%Q 0%Q [])
                            (seq 0 (Z.to_nat n));
                edges := replicate (Z.to_nat m) junk;
                num_nodes := n; num_edges := m |} eid).
  { intros eid (u & nd & Hn & Hin). cbn [nodes] in Hn.
    change (map ?f ?l) with (f <$> l) in Hn.
    rewrite list_lookup_fmap in Hn.
    destruct (seq 0 (Z.to_nat n) !! u) as [i|]; [|done].
    injection Hn as <-. by apply elem_of_nil in Hin. }
  split; [|done].
  intros u nd eid e Hn Hin _ _. destruct (Hnone eid). by exists u, nd.
Qed.

Lemma graph_set_node_coordinates_adjacency (g g' : Graph) (id : Z)
    (cx cy : double) :
  graph_set_node_coordinates g id cx cy = Some g' ->
  (adjacency_ok g -> adjacency_ok g') /\
  (forall eid, listed g' eid -> listed g eid).
Proof.
  unfold graph_set_node_coordinates.
  destruct ((id <? 0) || (id >=? num_nodes g)); [done|].
  destruct (nodes g !! Z.to_nat id) as [n0|] eqn:Hn0; [|done].
  cbn [mbind option_bind]. intros [= <-].
  assert (Hsame : forall u nd,
    nodes (set_nodes g (<[Z.to_nat id := mkNode (node_id n0) cx cy (out_edges n0)]>
                          (nodes g))) !! u = Some nd ->
    exists nd0, nodes g !! u = Some nd0 /\ out_edges nd0 = out_edges nd).
  { intros u nd Hu. cbn [nodes set_nodes] in Hu.
    destruct (Nat.eq_dec u (Z.to_nat id)) as [->|Hne].
    - rewrite list_lookup_insert_eq in Hu by (by eapply lookup_lt_Some).
      injection Hu as <-. by exists n0.
    - rewrite list_lookup_insert_ne in Hu by done. by exists nd. }
  split.
  - intros Hadj u nd eid e Hn Hin Hr He.
    destruct (Hsame u nd Hn) as (nd0 & Hn0' & Hout).
    apply (Hadj u nd0 eid e); try done. by rewrite Hout.
  - intros eid (u & nd & Hn & Hin).
    destruct (Hsame u nd Hn) as (nd0 & Hn0' & Hout).
    exists u, nd0. split; [done|]. by rewrite Hout.
Qed.

Lemma graph_add_edge_adjacency (g g' : Graph) (eid from to : Z)
    (len speed_limit : double) :
  graph_add_edge g eid from to len speed_limit = Some g' ->
  (adjacency_ok g -> ~ listed g eid -> adjacency_ok g') /\
  (forall eid', listed g' eid' -> eid' = eid \/ listed g eid').
Proof.
  unfold graph_add_edge.
  destruct ((eid <? 0) || (eid >=? num_edges g)) eqn:Hr; [done|].
  destruct ((from <? 0) || (from >=? num_nodes g)
            || (to <? 0) || (to >=? num_nodes g)) eqn:Hft; [done|].
  destruct (dle speed_limit 0%Q); [done|].
  destruct (edges g !! Z.to_nat eid) as [e0|] eqn:He0; [|done].
  destruct (nodes g !! Z.to_nat from) as [n0|] eqn:Hn0; [|done].
  cbn [mbind option_bind]. intros [= <-].
  apply in_range_test in Hr.
  rewrite !orb_false_iff, !Z.ltb_ge in Hft. destruct Hft as [[[Hf _] _] _].
  assert (Hnode : forall u nd,
    <[Z.to_nat from := mkNode (node_id n0) (x n0) (y n0) (eid :: out_edges n0)]>
      (nodes g) !! u = Some nd ->
    (u = Z.to_nat from /\ out_edges nd = eid :: out_edges n0) \/
    (u <> Z.to_nat from /\ nodes g !! u = Some nd)).
  { intros u nd Hu. destruct (Nat.eq_dec u (Z.to_nat from)) as [->|Hne].
    - rewrite list_lookup_insert_eq in Hu by (by eapply lookup_lt_Some).
      injection Hu as <-. by left.
    - rewrite list_lookup_insert_ne in Hu by done. by right. }
  split.
  - intros Hadj Hnew u nd eid' e Hn Hin Hr' He. cbn [nodes edges num_edges] in *.
    destruct (Z.eq_dec eid' eid) as [->|Hne].
    + rewrite list_lookup_insert_eq in He by (by eapply lookup_lt_Some).
      injection He as <-. cbn [from_node].
      destruct (Hnode u nd Hn) as [[-> _]|[_ Hold]]; [lia|].
      destruct Hnew. by exists u, nd.
    + rewrite list_lookup_insert_ne in He by lia.
      destruct (Hnode u nd Hn) as [[-> Hout]|[_ Hold]].
      * rewrite Hout in Hin. apply elem_of_cons in Hin as [->|Hin]; [done|].
        by apply (Hadj (Z.to_nat from) n0 eid' e).
      * by apply (Hadj u nd eid' e).
  - intros eid' (u & nd & Hn & Hin). cbn [nodes] in Hn.
    destruct (Hnode u nd Hn) as [[-> Hout]|[_ Hold]].
    + rewrite Hout in Hin. apply elem_of_cons in Hin as [->|Hin]; [by left|].
      right. by exists (Z.to_nat from), n0.
    + right. by exists u, nd.
Qed.

(** A graph built from edges with distinct ids has adjacency lists
    that agree with the edge table. *)
Lemma build_graph_adjacency (n m : Z) (coords : list (Z * double * double))
    (es : list (Z * Z * Z * double * double)) (g : Graph) :
  build_graph n m coords es = Some g ->
  NoDup (map (fun '(i, _, _, _, _) => i) es) ->
  adjacency_ok g.
Proof.
  unfold build_graph.
  destruct (graph_init n m junk_edge) as [g0|] eqn:Hinit; [|done].
  cbn [mbind option_bind].
  destruct (graph_init_adjacency n m junk_edge g0 Hinit) as [Hadj0 Hnone0].
  assert (Hcoords : forall cs g1 og,
    adjacency_ok g1 -> (forall eid, ~ listed g1 eid) ->
    foldl (fun og '(i, cx, cy) =>
             g ← og; graph_set_node_coordinates g i cx cy) (Some g1) cs = Some og ->
    adjacency_ok og /\ forall eid, ~ listed og eid).
  { induction cs as [|[[i cx] cy] cs IH]; intros g1 og Hadj Hnone.
    - by intros [= <-].
    - cbn [foldl mbind option_bind].
      destruct (graph_set_node_coordinates g1 i cx cy) as [g2|] eqn:Hset.
      + destruct (graph_set_node_coordinates_adjacency g1 g2 i cx cy Hset)
          as [Hadj2 Hl2].
        apply IH; [by apply Hadj2|]. intros eid Hl. by apply (Hnone eid), Hl2.
      + intros Hrun. exfalso. clear -Hrun.
        induction cs as [|[[i' cx'] cy'] cs IH]; [done|]. by apply IH. }
  destruct (foldl _ (Some g0) coords) as [g1|] eqn:Hfold; [|done].
  cbn [mbind option_bind].
  destruct (Hcoords coords g0 g1 Hadj0 Hnone0 Hfold) as [Hadj1 Hnone1].
  clear Hcoords Hfold Hinit Hadj0 Hnone0 g0.
  assert (Hedges : forall l g2 og,
    adjacency_ok g2 ->
    (forall eid, listed g2 eid -> eid ∉ map (fun '(i, _, _, _, _) => i) l) ->
    NoDup (map (fun '(i, _, _, _, _) => i) l) ->
    foldl (fun og '(i, a, b, l, s) => g ← og; graph_add_edge g i a b l s)
      (Some g2) l = Some og ->
    adjacency_ok og).
  { induction l as [|[[[[i a] b] len] sl] l IH]; intros g2 og Hadj Hfresh Hnd.
    - by intros [= <-].
    - cbn [foldl mbind option_bind].
      cbn [map] in Hnd, Hfresh. apply NoDup_cons in Hnd as [Hi Hnd].
      destruct (graph_add_edge g2 i a b len sl) as [g3|] eqn:Hadd.
      + destruct (graph_add_edge_adjacency g2 g3 i a b len sl Hadd) as [Hadj3 Hl3].
        apply IH; [| |done].
        * apply Hadj3; [done|]. intros Hl. apply (Hfresh i Hl). by left.
        * intros eid Hl Hin. destruct (Hl3 eid Hl) as [->|Hold]; [done|].
          apply (Hfresh eid Hold). by right.
      + intros Hrun. exfalso. clear -Hrun.
        induction l as [|[[[[i' a'] b'] len'] sl'] l IH]; [done|]. by apply IH. }
  intros Hrun Hnd. apply (Hedges es g1 g Hadj1); [|done|done].
  intros eid Hl. by destruct (Hnone1 eid).
Qed.

(** ** The result of the search *)

Lemma path_to_edges_mono (g : Graph) (max_edges max_edges' : Z) (l : list Z) :
  max_edges <= max_edges' ->
  forall k es, path_to_edges g max_edges l k = Some (inr es) ->
  path_to_edges g max_edges' l k = Some (inr es).
Proof.
  intros Hle. induction l as [|a l IH]; intros k es; [done|].
  destruct l as [|b l]; [done|]. rewrite !path_to_edges_cons.
  destruct (find_edge_id g a b) as [e|]; [|done]. cbn [mbind option_bind].
  destruct (e <? 0); [done|].
  destruct (k >=? max_edges) eqn:Hk; [done|].
  replace (k >=? max_edges') with false.
  2:{ symmetry. rewrite Z.geb_leb in *. apply Z.leb_gt. apply Z.leb_gt in Hk. lia. }
  destruct (path_to_edges g max_edges (b :: l) (k + 1)) as [[rc|es']|] eqn:Hrest;
    cbn [mbind option_bind]; [done| |done].
  by rewrite (IH (k + 1) es' Hrest).
Qed.

(** A result stays the same when the caller has more room. *)
Lemma find_route_mono (sqrt : double -> double) (g : Graph) (s t : nat)
    (max_edges max_nodes max_edges' max_nodes' : Z) (r : route_result) :
  graph_wf g -> Z.of_nat s < num_nodes g -> Z.of_nat t < num_nodes g ->
  max_edges <= max_edges' -> max_nodes <= max_nodes' ->
  (exists cost node_path edge_path, r = Route cost node_path edge_path) ->
  find_route_a_star_path sqrt g (Z.of_nat s) (Z.of_nat t) max_edges max_nodes
  = Some r ->
  find_route_a_star_path sqrt g (Z.of_nat s) (Z.of_nat t) max_edges' max_nodes'
  = Some r.
Proof.
  intros Hwf Hs Ht Hme Hmn (cost & node_path & edge_path & ->).
  destruct (search_runs sqrt g s t Hwf Hs Ht)
    as (hp & found & st & Hdec & Hrun & _).
  rewrite !(find_route_unfold sqrt g s t Hwf Hs Ht _ _ hp Hdec), Hrun.
  cbn [mbind option_bind]. destruct found; [|done]. cbn [negb].
  destruct (parent_chain _ (parent st) (Z.of_nat t)) as [rev_path|]; [|done].
  cbn [mbind option_bind].
  destruct (Z.of_nat (length (rev rev_path)) >? max_nodes) eqn:Hlen; [done|].
  replace (Z.of_nat (length (rev rev_path)) >? max_nodes') with false.
  2:{ symmetry. rewrite Z.gtb_ltb in *. apply Z.ltb_ge. apply Z.ltb_ge in Hlen. lia. }
  destruct (path_to_edges g max_edges (rev rev_path) 0) as [[rc|es]|] eqn:Hedges;
    cbn [mbind option_bind]; [done| |done].
  by rewrite (path_to_edges_mono g max_edges max_edges' _ Hme 0 es Hedges).
Qed.

Lemma path_edges_route (g : Graph) (node_path edge_path : list Z) :
  adjacency_ok g -> path_edges g node_path edge_path ->
  route_edges g node_path edge_path.
Proof.
  intros Hadj. induction 1 as [u|u v rest eid es Hedge Hrest IH]; [constructor|].
  destruct Hedge as (Hu & Hr & n & e & Hn & Hin & He & Hto).
  apply (route_edges_cons g u v rest eid e es); try done.
  rewrite (Hadj (Z.to_nat u) n eid e Hn Hin Hr He). lia.
Qed.

Lemma check_adjacency_spec (g : Graph) :
  check_adjacency g = true -> adjacency_ok g.
Proof.
  intros Hall u n eid e Hn Hin Hr He.
  unfold check_adjacency in Hall. rewrite forallb_forall in Hall.
  specialize (Hall u). rewrite Hn, forallb_forall in Hall.
  apply lookup_lt_Some in Hn as Hu.
  specialize (Hall ltac:(apply in_seq; lia) eid ltac:(by apply list_elem_of_In)).
  cbv beta in Hall. rewrite He in Hall.
  replace ((eid <? 0) || (eid >=? num_edges g)) with false in Hall.
  2:{ symmetry. rewrite orb_false_iff, Z.ltb_ge, Z.geb_leb, Z.leb_gt. lia. }
  by apply Z.eqb_eq.
Qed.

Lemma three_nodes_reachable : reachable three_nodes 0 2.
Proof.
  exists 1%nat, (0 + (15 # 1))%Q.
  apply (walk_step three_nodes 0%nat 0%nat 0%nat 0%Q 2 2%nat (15 # 1)%Q);
    [constructor|].
  do 2 eexists. split; [reflexivity|]. split; [by left|].
  split; [cbn; lia|]. split; [reflexivity|]. split; [reflexivity|].
  split; [cbn; lia|reflexivity].
Qed.

(** C1 (amended): when no edge weight is negative, the heuristic is
    consistent for the current weights, the costs stay below
    [DBL_MAX], and [t] can be reached from [s], then
    [find_route_a_star_path] succeeds (given room for the path) and its
    cost is the cost of a shortest path from [s] to [t] under the
    current weights. *)
Theorem astar_shortest_cost (sqrt : double -> double) (g : Graph)
    (s t max_edges max_nodes : Z) :
  graph_wf g -> 0 <= s < num_nodes g -> 0 <= t < num_nodes g ->
  nonneg_weights g ->
  consistent sqrt g (Z.to_nat t) ->
  bounded_costs sqrt g (Z.to_nat s) (Z.to_nat t) ->
  num_nodes g <= max_nodes -> num_nodes g - 1 <= max_edges ->
  reachable g (Z.to_nat s) (Z.to_nat t) ->
  exists cost node_path edge_path,
    find_route_a_star_path sqrt g s t max_edges max_nodes
    = Some (Route cost node_path edge_path) /\
    shortest_cost g (Z.to_nat s) (Z.to_nat t) cost.
Proof.
  intros Hwf Hs Ht NN CONS B Hmn Hme Hreach.
  destruct (find_route_optimal sqrt g (Z.to_nat s) (Z.to_nat t) Hwf
              ltac:(lia) ltac:(lia) NN CONS B max_edges max_nodes Hmn Hme)
    as [_ Hfound].
  destruct (Hfound Hreach) as (cost & node_path & edge_path & c' & Hrun & Hbest & _).
  rewrite !Z2Nat.id in Hrun by lia. by exists cost, node_path, edge_path.
Qed.

Lemma astar_shortest_cost_witness :
  exists cost node_path edge_path,
    find_route_a_star_path sqrt_exact three_nodes 0 2 3 3
    = Some (Route cost node_path edge_path) /\
    shortest_cost three_nodes 0 2 cost.
Proof.
  apply (astar_shortest_cost sqrt_exact three_nodes 0 2 3 3).
  - split; reflexivity.
  - cbn; lia.
  - cbn; lia.
  - apply check_nonneg_spec; [split; reflexivity|reflexivity].
  - apply check_consistent_spec; [split; reflexivity|reflexivity].
  - apply (check_bounded_spec sqrt_exact three_nodes 0 2 (15 # 1)%Q (11 # 1)%Q);
      [split; reflexivity|cbn; lia|reflexivity].
  - cbn; lia.
  - cbn; lia.
  - exact three_nodes_reachable.
Defined.

(** C1 as stated fails: after a speed above the limit was observed on
    edge 1 the weights are still positive, but the search answers 15
    where the path over node 1 costs 11. *)
Lemma astar_shortest_cost_counterexample :
  build_graph 3 3 [(0, 0%Q, 0%Q); (1, (-10 # 1)%Q, 0%Q); (2, 1%Q, 0%Q)]
    [(0, 0, 1, (10 # 1)%Q, 1%Q); (1, 1, 2, (11 # 1)%Q, 1%Q);
     (2, 0, 2, (15 # 1)%Q, 1%Q)] = Some three_nodes /\
  apply_update three_nodes 1 (11 # 1)%Q = Some (three_nodes_fast, ACK) /\
  check_nonneg three_nodes_fast = true /\
  find_route_a_star_path sqrt_exact three_nodes_fast 0 2 3 3
  = Some (Route (15 # 1)%Q [0; 2] [2]) /\
  exists c, walk three_nodes_fast 0 2 2 c /\ (c == 11 # 1)%Q.
Proof.
  split; [reflexivity|]. split; [reflexivity|]. split; [reflexivity|].
  split; [reflexivity|].
  exists (0 + (10 # 1) + (11 # 11))%Q. split; [|reflexivity].
  apply (walk_step three_nodes_fast 0%nat 1%nat 1%nat _ 1 2%nat (11 # 11)%Q).
  - apply (walk_step three_nodes_fast 0%nat 0%nat 0%nat 0%Q 0 1%nat (10 # 1)%Q);
      [constructor|].
    do 2 eexists. split; [reflexivity|]. split; [by right; left|].
    split; [cbn; lia|]. split; [reflexivity|]. split; [reflexivity|].
    split; [cbn; lia|reflexivity].
  - do 2 eexists. split; [reflexivity|]. split; [by left|].
    split; [cbn; lia|]. split; [reflexivity|]. split; [reflexivity|].
    split; [cbn; lia|reflexivity].
Qed.

(** C4 (amended): when [find_route_a_star_path] succeeds, the node path
    starts at [s] and ends at [t], and every edge of the edge path is
    listed at the node before it and leads to the node after it; it
    starts at the node before it when the adjacency lists agree with
    the edge table.  When no weight is negative, the heuristic is
    consistent and the costs stay below [DBL_MAX], the cost is at most
    the sum of the current weights of the edge path, and it is that
    sum when edges between the same two nodes have equal weights. *)
Theorem route_path_consistent (sqrt : double -> double) (g : Graph)
    (s t max_edges max_nodes : Z) (cost : double) (node_path edge_path : list Z) :
  graph_wf g -> 0 <= s < num_nodes g -> 0 <= t < num_nodes g ->
  find_route_a_star_path sqrt g s t max_edges max_nodes
  = Some (Route cost node_path edge_path) ->
  head node_path = Some s /\ last node_path = Some t /\
  path_edges g node_path edge_path /\
  (adjacency_ok g -> route_edges g node_path edge_path) /\
  (nonneg_weights g -> consistent sqrt g (Z.to_nat t) ->
   bounded_costs sqrt g (Z.to_nat s) (Z.to_nat t) ->
   exists c, path_cost g edge_path 0%Q = Some c /\ (cost <= c)%Q /\
     (parallel_equal g -> (c == cost)%Q)).
Proof.
  intros Hwf Hs Ht Hrun.
  assert (Hs' : Z.of_nat (Z.to_nat s) < num_nodes g) by lia.
  assert (Ht' : Z.of_nat (Z.to_nat t) < num_nodes g) by lia.
  rewrite <- (Z2Nat.id s), <- (Z2Nat.id t) in Hrun by lia.
  destruct (find_route_sound sqrt g _ _ Hwf Hs' Ht' _ _ _ _ _ Hrun)
    as (Hhd & Hlast & Hedges & _ & _ & n & c & Hwalk & _).
  rewrite !Z2Nat.id in Hhd, Hlast by lia.
  split; [done|]. split; [done|]. split; [done|].
  split; [intros Hadj; by apply path_edges_route|].
  intros NN CONS B.
  set (me := Z.max max_edges (num_nodes g)).
  set (mn := Z.max max_nodes (num_nodes g)).
  apply (find_route_mono sqrt g _ _ max_edges max_nodes me mn) in Hrun;
    [|done|done|done|lia|lia|by eauto].
  destruct (find_route_optimal sqrt g (Z.to_nat s) (Z.to_nat t) Hwf Hs' Ht'
              NN CONS B me mn ltac:(lia) ltac:(lia)) as [_ Hfound].
  destruct (Hfound ltac:(by exists n, c))
    as (cost' & node_path' & edge_path' & c' & Hrun' & _ & _ & _ & Hsum & Hle
        & Hc').
  rewrite Hrun in Hrun'. injection Hrun' as <- <- <-.
  by exists c'.
Qed.

Lemma route_path_consistent_witness :
  head [0; 2] = Some 0 /\ last [0; 2] = Some 2 /\
  path_edges three_nodes [0; 2] [2] /\
  route_edges three_nodes [0; 2] [2] /\
  exists c, path_cost three_nodes [2] 0%Q = Some c /\ (c == 15 # 1)%Q.
Proof.
  destruct (route_path_consistent sqrt_exact three_nodes 0 2 3 3 (15 # 1)%Q
              [0; 2] [2]) as (H1 & H2 & H3 & H4 & H5).
  - split; reflexivity.
  - cbn; lia.
  - cbn; lia.
  - reflexivity.
  - split; [exact H1|]. split; [exact H2|]. split; [exact H3|]. split.
    + apply H4, check_adjacency_spec. reflexivity.
    + destruct H5 as (c & Hsum & _ & Hc).
      * apply check_nonneg_spec; [split; reflexivity|reflexivity].
      * apply check_consistent_spec; [split; reflexivity|reflexivity].
      * apply (check_bounded_spec sqrt_exact three_nodes 0 2 (15 # 1)%Q (11 # 1)%Q);
          [split; reflexivity|cbn; lia|reflexivity].
      * exists c. split; [exact Hsum|].
        apply Hc, check_parallel_spec; [split; reflexivity|reflexivity].
Defined.

(** C4 as stated fails with parallel edges: the cost 1 is the weight
    of edge 0, and the edge path names edge 1, of weight 5. *)
Lemma route_path_consistent_counterexample :
  build_graph 2 2 [(0, 0%Q, 0%Q); (1, 1%Q, 0%Q)]
    [(0, 0, 1, 1%Q, 1%Q); (1, 0, 1, (5 # 1)%Q, 1%Q)] = Some two_parallel /\
  find_route_a_star_path sqrt_exact two_parallel 0 1 2 2
  = Some (Route 1%Q [0; 1] [1]) /\
  path_cost two_parallel [1] 0%Q = Some (5 # 1)%Q /\
  ~ (5 # 1 == 1)%Q.
Proof.
  split; [reflexivity|]. split; [reflexivity|]. split; [reflexivity|].
  intros H. discriminate H.
Qed.

(** ** Formatting the reply *)

Lemma string_length_app (a b : string) :
  String.length (a ++ b) = (String.length a + String.length b)%nat.
Proof. induction a as [|c a IH]; simpl; [done|by rewrite IH]. Qed.

Lemma string_take_all (n : nat) (s : string) :
  (String.length s <= n)%nat -> string_take n s = s.
Proof.
  revert n. induction s as [|c s IH]; intros n Hn; [by destruct n|].
  destruct n as [|n]; simpl in *; [lia|]. rewrite IH; [done|lia].
Qed.

Lemma string_take_app (a b : string) (n : nat) :
  string_take (String.length a + n) (a ++ b) = (a ++ string_take n b)%string.
Proof. induction a as [|c a IH]; simpl; [done|by rewrite IH]. Qed.

Lemma snprintf_fits (buf_sz : Z) (resp piece : string) :
  Z.of_nat (String.length resp) + Z.of_nat (String.length piece) < buf_sz ->
  snprintf buf_sz (resp, Z.of_nat (String.length resp)) piece
  = ((resp ++ piece)%string, Z.of_nat (String.length (resp ++ piece))).
Proof.
  intros Hfit. unfold snprintf. rewrite string_take_all by lia.
  by rewrite string_length_app, Nat2Z.inj_add.
Qed.

Lemma print_ids_fits (buf_sz : Z) (ids : list Z) :
  forall resp,
  (0 < String.length resp)%nat ->
  Z.of_nat (String.length (resp ++ ids_text ids)) < buf_sz ->
  print_ids buf_sz ids (resp, Z.of_nat (String.length resp))
  = ((resp ++ ids_text ids)%string,
     Z.of_nat (String.length (resp ++ ids_text ids))).
Proof.
  induction ids as [|id ids IH]; intros resp Hpos Hfit.
  - cbn [print_ids ids_text]. by rewrite string_app_nil_r.
  - change (ids_text (id :: ids))
      with ((" " ++ fmt_d id) ++ ids_text ids)%string in *.
    cbn [print_ids snd].
    pose proof Hfit as Hlen. rewrite !string_length_app in Hlen.
    replace ((Z.of_nat (String.length resp) >? 0)
             && (Z.of_nat (String.length resp) <? buf_sz)) with true
      by (symmetry; rewrite andb_true_iff, Z.gtb_ltb, !Z.ltb_lt; lia).
    rewrite snprintf_fits by (rewrite string_length_app; lia).
    rewrite <- (string_app_assoc resp (" " ++ fmt_d id) (ids_text ids)).
    apply IH.
    + rewrite string_length_app. lia.
    + by rewrite (string_app_assoc resp (" " ++ fmt_d id) (ids_text ids)).
Qed.

Lemma snprintf_prefix (buf_sz : Z) (st : string * Z) (piece : string) :
  exists x, fst (snprintf buf_sz st piece) = (fst st ++ x)%string.
Proof. destruct st as [resp n]. by eexists. Qed.

Lemma print_ids_prefix (buf_sz : Z) (ids : list Z) :
  forall st, exists x, fst (print_ids buf_sz ids st) = (fst st ++ x)%string.
Proof.
  induction ids as [|id ids IH]; intros st; cbn [print_ids].
  - exists EmptyString. by rewrite string_app_nil_r.
  - destruct ((snd st >? 0) && (snd st <? buf_sz)).
    + destruct (IH (snprintf buf_sz st (" " ++ fmt_d id))) as [x ->].
      destruct (snprintf_prefix buf_sz st (" " ++ fmt_d id)) as [y ->].
      exists (y ++ x)%string. by rewrite string_app_assoc.
    + exists EmptyString. by rewrite string_app_nil_r.
Qed.

Lemma route_line_pieces (cost : double) (node_path edge_path : list Z) :
  route_line cost node_path edge_path
  = (((("ROUTE2 " ++ fmt_3f cost ++ " " ++ fmt_d (Z.of_nat (length node_path)))
       ++ ids_text node_path)
      ++ " " ++ fmt_d (Z.of_nat (length edge_path)))
     ++ ids_text edge_path)%string.
Proof. unfold route_line. by rewrite !string_app_assoc. Qed.

Lemma format_prefix (buf : Z) (p1 p2 : string) (ids1 ids2 : list Z) :
  64 <= buf ->
  exists x,
    fst (snprintf buf
           (print_ids buf ids2
              (snprintf buf
                 (print_ids buf ids1
                    (snprintf buf (EmptyString, 0) ("ROUTE2 " ++ p1)%string))
                 p2)) nl)
    = ("ROUTE2 " ++ x)%string.
Proof.
  intros Hbuf.
  destruct (snprintf_prefix buf
    (print_ids buf ids2
       (snprintf buf
          (print_ids buf ids1 (snprintf buf (EmptyString, 0) ("ROUTE2 " ++ p1)%string))
          p2)) nl) as [x4 ->].
  destruct (print_ids_prefix buf ids2
       (snprintf buf
          (print_ids buf ids1 (snprintf buf (EmptyString, 0) ("ROUTE2 " ++ p1)%string))
          p2)) as [x3 ->].
  destruct (snprintf_prefix buf
       (print_ids buf ids1 (snprintf buf (EmptyString, 0) ("ROUTE2 " ++ p1)%string))
       p2) as [x2 ->].
  destruct (print_ids_prefix buf ids1
              (snprintf buf (EmptyString, 0) ("ROUTE2 " ++ p1)%string))
    as [x1 ->].
  unfold snprintf. cbn [fst].
  replace (Z.to_nat (buf - 0 - 1))
    with (String.length "ROUTE2 " + Z.to_nat (buf - 8))%nat
    by (simpl String.length; lia).
  rewrite string_take_app.
  change (EmptyString ++ ?s)%string with s.
  rewrite !string_app_assoc. by eexists.
Qed.

Lemma snprintf_over (buf_sz : Z) (st : string * Z) (piece : string) :
  buf_sz <= snd st -> buf_sz <= snd (snprintf buf_sz st piece).
Proof. destruct st as [resp n]. cbn. lia. Qed.

Lemma print_ids_over (buf_sz : Z) (ids : list Z) (st : string * Z) :
  buf_sz <= snd st -> print_ids buf_sz ids st = st.
Proof.
  intros Hover. destruct ids as [|id ids]; [done|]. cbn [print_ids].
  replace (snd st <? buf_sz) with false by (symmetry; apply Z.ltb_ge; lia).
  by rewrite andb_false_r.
Qed.

(** The loop over the ids either appends all of them and stays inside
    the buffer, or leaves a count that is not below its size. *)
Lemma print_ids_cases (buf_sz : Z) (ids : list Z) :
  forall resp, (0 < String.length resp)%nat ->
  (Z.of_nat (String.length (resp ++ ids_text ids)) < buf_sz /\
   print_ids buf_sz ids (resp, Z.of_nat (String.length resp))
   = ((resp ++ ids_text ids)%string,
      Z.of_nat (String.length (resp ++ ids_text ids)))) \/
  (buf_sz <= Z.of_nat (String.length (resp ++ ids_text ids)) /\
   buf_sz <= snd (print_ids buf_sz ids (resp, Z.of_nat (String.length resp)))).
Proof.
  induction ids as [|id ids IH]; intros resp Hpos.
  - cbn [print_ids ids_text snd]. rewrite string_app_nil_r.
    destruct (Z.lt_ge_cases (Z.of_nat (String.length resp)) buf_sz);
      [by left|by right].
  - destruct (Z.lt_ge_cases
                (Z.of_nat (String.length (resp ++ ids_text (id :: ids))))
                buf_sz) as [Hfit|Hover].
    { left. split; [done|]. by apply print_ids_fits. }
    right. split; [done|].
    destruct (Z.lt_ge_cases (Z.of_nat (String.length resp)) buf_sz)
      as [Hin|Hout]; [|by rewrite print_ids_over].
    cbn [print_ids snd].
    replace ((Z.of_nat (String.length resp) >? 0)
             && (Z.of_nat (String.length resp) <? buf_sz)) with true
      by (symmetry; rewrite andb_true_iff, Z.gtb_ltb, !Z.ltb_lt; lia).
    destruct (Z.lt_ge_cases
                (Z.of_nat (String.length resp)
                 + Z.of_nat (String.length (" " ++ fmt_d id)))
                buf_sz) as [Hid|Hid].
    + rewrite snprintf_fits by done.
      destruct (IH (resp ++ " " ++ fmt_d id)%string) as [[Hlt _]|[_ Hge]].
      * rewrite string_length_app. lia.
      * change (ids_text (id :: ids))
          with ((" " ++ fmt_d id) ++ ids_text ids)%string in Hover.
        rewrite <- string_app_assoc in Hover. lia.
      * done.
    + rewrite print_ids_over; unfold snprintf; cbn [snd]; lia.
Qed.

(** The four pieces of the line: either they all fit, or the count at
    the end is not below the size of the buffer. *)
Lemma format_cases (buf_sz : Z) (p1 p2 : string) (ids1 ids2 : list Z) :
  (0 < String.length p1)%nat ->
  (Z.of_nat (String.length (((p1 ++ ids_text ids1) ++ p2) ++ ids_text ids2))
   < buf_sz /\
   snd (print_ids buf_sz ids1 (snprintf buf_sz (EmptyString, 0) p1)) < buf_sz /\
   print_ids buf_sz ids2
     (snprintf buf_sz
        (print_ids buf_sz ids1 (snprintf buf_sz (EmptyString, 0) p1)) p2)
   = ((((p1 ++ ids_text ids1) ++ p2) ++ ids_text ids2)%string,
      Z.of_nat (String.length (((p1 ++ ids_text ids1) ++ p2) ++ ids_text ids2))))
  \/
  (buf_sz
   <= Z.of_nat (String.length (((p1 ++ ids_text ids1) ++ p2) ++ ids_text ids2)) /\
   buf_sz
   <= snd (print_ids buf_sz ids2
             (snprintf buf_sz
                (print_ids buf_sz ids1 (snprintf buf_sz (EmptyString, 0) p1))
                p2))).
Proof.
  intros Hp1.
  pose proof (string_length_app ((p1 ++ ids_text ids1) ++ p2) (ids_text ids2))
    as L3.
  pose proof (string_length_app (p1 ++ ids_text ids1) p2) as L2.
  pose proof (string_length_app p1 (ids_text ids1)) as L1.
  destruct (Z.lt_ge_cases (Z.of_nat (String.length p1)) buf_sz) as [H1|H1].
  2:{ right. split; [lia|].
      rewrite (print_ids_over buf_sz ids1) by (unfold snprintf; cbn [snd]; lia).
      rewrite print_ids_over; apply snprintf_over; unfold snprintf; cbn [snd]; lia. }
  change (snprintf buf_sz (EmptyString, 0) p1)
    with (snprintf buf_sz (EmptyString, Z.of_nat (String.length EmptyString)) p1).
  rewrite snprintf_fits by (change (String.length EmptyString) with 0%nat; lia).
  change (EmptyString ++ p1)%string with p1.
  destruct (print_ids_cases buf_sz ids1 p1 Hp1) as [[Hlt ->]|[Hge Hsnd]].
  2:{ right. split; [lia|].
      rewrite print_ids_over; by apply snprintf_over. }
  destruct (Z.lt_ge_cases
              (Z.of_nat (String.length ((p1 ++ ids_text ids1) ++ p2)))
              buf_sz) as [H2|H2].
  2:{ right. split; [lia|].
      rewrite print_ids_over; unfold snprintf; cbn [snd]; lia. }
  rewrite snprintf_fits by lia.
  destruct (print_ids_cases buf_sz ids2 ((p1 ++ ids_text ids1) ++ p2)%string)
    as [[Hlt2 ->]|[Hge Hsnd]]; [lia| |by right].
  left. split; [done|]. split; [|done]. cbn [snd]. done.
Qed.

(** The count never passes the length of what was to be written. *)
Lemma print_ids_bound (buf_sz : Z) (ids : list Z) :
  forall st,
  snd (print_ids buf_sz ids st)
  <= snd st + Z.of_nat (String.length (ids_text ids)).
Proof.
  induction ids as [|id ids IH]; intros st.
  - cbn [print_ids ids_text String.length]. lia.
  - change (ids_text (id :: ids))
      with ((" " ++ fmt_d id) ++ ids_text ids)%string.
    cbn [print_ids]. rewrite string_length_app.
    destruct ((snd st >? 0) && (snd st <? buf_sz)); [|lia].
    etransitivity; [apply IH|]. destruct st as [resp n].
    unfold snprintf. cbn [snd]. lia.
Qed.

Section RouteReply.
Variable sqrt : double -> double.
Variable g : Graph.
Variables src dst : Z.
Variable cost : double.
Variables node_path edge_path : list Z.
Hypothesis Hsrc : 0 <= src < num_nodes g.
Hypothesis Hdst : 0 <= dst < num_nodes g.
Hypothesis Hroute :
  find_route_a_star_path sqrt g src dst (num_nodes g) (num_nodes g)
  = Some (Route cost node_path edge_path).

Lemma build_route_response_found :
  build_route_response sqrt g src dst
  = (let max_edges := num_nodes g in
     let edge_count := Z.of_nat (length edge_path) in
     let node_count := Z.of_nat (length node_path) in
     if (edge_count <? 0) || (edge_count >? max_edges) then Some ERR_ROUTE_FAIL
     else if (node_count <? 0) || (node_count >? num_nodes g)
     then Some ERR_ROUTE_FAIL
     else
       let buf_sz := 64 + edge_count * 16 + node_count * 16 in
       let st := snprintf buf_sz (EmptyString, 0)
                   ("ROUTE2 " ++ fmt_3f cost ++ " " ++ fmt_d node_count)%string in
       let st := print_ids buf_sz node_path st in
       if snd st >? buf_sz then None
       else
         let st := snprintf buf_sz st (" " ++ fmt_d edge_count)%string in
         let st := print_ids buf_sz edge_path st in
         if (snd st >? 0) && (snd st <? buf_sz)
         then Some (fst (snprintf buf_sz st nl))
         else Some ERR_ROUTE_FAIL).
Proof.
  unfold build_route_response.
  replace ((src <? 0) || (src >=? num_nodes g)
           || (dst <? 0) || (dst >=? num_nodes g)) with false.
  2:{ symmetry. rewrite !orb_false_iff, !Z.ltb_ge, !Z.geb_leb, !Z.leb_gt. lia. }
  replace (num_nodes g >? 0) with true
    by (symmetry; rewrite Z.gtb_ltb; apply Z.ltb_lt; lia).
  by rewrite Hroute.
Qed.

(** The reply when the line fits the buffer. *)
Lemma build_route_response_fits :
  Z.of_nat (length edge_path) <= num_nodes g ->
  Z.of_nat (length node_path) <= num_nodes g ->
  Z.of_nat (String.length (route_line cost node_path edge_path)) + 1
  < route_buf_sz node_path edge_path ->
  build_route_response sqrt g src dst
  = Some (route_line cost node_path edge_path ++ nl)%string.
Proof.
  intros Hec Hnc Hfit. rewrite build_route_response_found. cbv zeta.
  replace ((Z.of_nat (length edge_path) <? 0)
           || (Z.of_nat (length edge_path) >? num_nodes g)) with false.
  2:{ symmetry. rewrite orb_false_iff, Z.ltb_ge, Z.gtb_ltb, Z.ltb_ge. lia. }
  replace ((Z.of_nat (length node_path) <? 0)
           || (Z.of_nat (length node_path) >? num_nodes g)) with false.
  2:{ symmetry. rewrite orb_false_iff, Z.ltb_ge, Z.gtb_ltb, Z.ltb_ge. lia. }
  fold (route_buf_sz node_path edge_path).
  rewrite route_line_pieces in *.
  remember ("ROUTE2 " ++ fmt_3f cost ++ " "
            ++ fmt_d (Z.of_nat (length node_path)))%string as p1 eqn:Ep1.
  remember (" " ++ fmt_d (Z.of_nat (length edge_path)))%string as p2 eqn:Ep2.
  remember (route_buf_sz node_path edge_path) as buf eqn:Ebuf.
  assert (Hp1 : (7 <= String.length p1)%nat).
  { rewrite Ep1, string_length_app. simpl. lia. }
  clear Ep1 Ep2 Ebuf.
  pose proof Hfit as Hlen. rewrite !string_length_app in Hlen.
  change (snprintf buf (EmptyString, 0) p1)
    with (snprintf buf (EmptyString, Z.of_nat (String.length EmptyString)) p1).
  rewrite snprintf_fits
    by (change (String.length EmptyString) with 0%nat; lia).
  change (EmptyString ++ p1)%string with p1.
  rewrite print_ids_fits by (rewrite ?string_length_app; lia).
  cbn [snd fst].
  replace (Z.of_nat (String.length (p1 ++ ids_text node_path)) >? buf) with false
    by (symmetry; rewrite Z.gtb_ltb, Z.ltb_ge, string_length_app; lia).
  rewrite snprintf_fits by (rewrite ?string_length_app; lia).
  rewrite print_ids_fits by (rewrite ?string_length_app; lia).
  cbn [snd fst].
  remember (((p1 ++ ids_text node_path) ++ p2) ++ ids_text edge_path)%string
    as line eqn:Eline.
  assert (Hline : (0 < String.length line)%nat /\
                  Z.of_nat (String.length line) + 1 < buf).
  { rewrite Eline, !string_length_app. lia. }
  clear Eline.
  replace ((Z.of_nat (String.length line) >? 0)
           && (Z.of_nat (String.length line) <? buf)) with true.
  2:{ symmetry. rewrite andb_true_iff, Z.gtb_ltb, !Z.ltb_lt. lia. }
  unfold snprintf. cbn [fst]. rewrite string_take_all; [done|].
  change (String.length nl) with 1%nat. lia.
Qed.

(** The reply when the line is too long for the buffer and its part up
    to the node ids is not. *)
Lemma build_route_response_long :
  Z.of_nat (length edge_path) <= num_nodes g ->
  Z.of_nat (length node_path) <= num_nodes g ->
  route_buf_sz node_path edge_path
  <= Z.of_nat (String.length (route_line cost node_path edge_path)) ->
  Z.of_nat (String.length (route_head cost node_path))
  <= route_buf_sz node_path edge_path ->
  build_route_response sqrt g src dst = Some ERR_ROUTE_FAIL.
Proof.
  intros Hec Hnc Hlong Hhead. rewrite build_route_response_found. cbv zeta.
  replace ((Z.of_nat (length edge_path) <? 0)
           || (Z.of_nat (length edge_path) >? num_nodes g)) with false.
  2:{ symmetry. rewrite orb_false_iff, Z.ltb_ge, Z.gtb_ltb, Z.ltb_ge. lia. }
  replace ((Z.of_nat (length node_path) <? 0)
           || (Z.of_nat (length node_path) >? num_nodes g)) with false.
  2:{ symmetry. rewrite orb_false_iff, Z.ltb_ge, Z.gtb_ltb, Z.ltb_ge. lia. }
  fold (route_buf_sz node_path edge_path).
  rewrite route_line_pieces in Hlong. unfold route_head in Hhead.
  replace ("ROUTE2 " ++ fmt_3f cost ++ " "
           ++ fmt_d (Z.of_nat (length node_path)) ++ ids_text node_path)%string
    with (("ROUTE2 " ++ fmt_3f cost ++ " "
           ++ fmt_d (Z.of_nat (length node_path))) ++ ids_text node_path)%string
    in Hhead by (by rewrite !string_app_assoc).
  remember ("ROUTE2 " ++ fmt_3f cost ++ " "
            ++ fmt_d (Z.of_nat (length node_path)))%string as p1 eqn:Ep1.
  remember (" " ++ fmt_d (Z.of_nat (length edge_path)))%string as p2 eqn:Ep2.
  remember (route_buf_sz node_path edge_path) as buf eqn:Ebuf.
  assert (Hp1 : (0 < String.length p1)%nat).
  { rewrite Ep1, string_length_app. simpl. lia. }
  clear Ep1 Ep2 Ebuf.
  pose proof (print_ids_bound buf node_path
                (snprintf buf (EmptyString, 0) p1)) as Hmid.
  unfold snprintf at 2 in Hmid. cbn [snd] in Hmid.
  rewrite string_length_app in Hhead.
  replace (snd (print_ids buf node_path (snprintf buf (EmptyString, 0) p1))
           >? buf) with false
    by (symmetry; rewrite Z.gtb_ltb; apply Z.ltb_ge; lia).
  destruct (format_cases buf p1 p2 node_path edge_path Hp1)
    as [(Hfit & _)|[_ Hend]]; [lia|].
  replace (snd _ <? buf) with false by (symmetry; apply Z.ltb_ge; lia).
  by rewrite andb_false_r.
Qed.

(** Any reply for a route that was found is the failure message or
    starts with the word [ROUTE2]. *)
Lemma build_route_response_shape (resp : string) :
  build_route_response sqrt g src dst = Some resp ->
  resp = ERR_ROUTE_FAIL \/ exists x, resp = ("ROUTE2 " ++ x)%string.
Proof.
  rewrite build_route_response_found. cbv zeta.
  destruct (_ || _); [intros [= <-]; by left|].
  destruct (_ || _); [intros [= <-]; by left|].
  set (buf := 64 + Z.of_nat (length edge_path) * 16
              + Z.of_nat (length node_path) * 16).
  set (p1 := ("ROUTE2 " ++ fmt_3f cost ++ " "
              ++ fmt_d (Z.of_nat (length node_path)))%string).
  destruct (_ >? _); [done|].
  destruct (_ && _); [|intros [= <-]; by left].
  intros [= <-]. right. apply format_prefix. unfold buf. lia.
Qed.

End RouteReply.

Lemma three_nodes_no_way_back : ~ reachable three_nodes 2 0.
Proof.
  intros (n & c & Hwalk). inversion Hwalk as [|n' u c' e v w _ Hedge]; subst.
  destruct Hedge as (nd & ed & _ & _ & Hr & He & Hto & _).
  cbn in Hr.
  assert (e = 0 \/ e = 1 \/ e = 2) as [->|[->| ->]] by lia;
    cbn in He; injection He as <-; cbn in Hto; lia.
Qed.

Lemma two_nodes_reachable (w : double) : reachable (two_nodes w) 0 1.
Proof.
  exists 1%nat, (0 + w / 1)%Q.
  apply (walk_step (two_nodes w) 0%nat 0%nat 0%nat 0%Q 0 1%nat (w / 1)%Q);
    [constructor|].
  do 2 eexists. split; [reflexivity|]. split; [by left|].
  split; [cbn; lia|]. split; [reflexivity|]. split; [reflexivity|].
  split; [cbn; lia|reflexivity].
Qed.

(** ** The search: completeness *)

Lemma chain_head (s : nat) (st : AStar) (v : nat) (l : list nat) :
  chain s st v l -> exists l', l = v :: l'.
Proof. destruct 1; by eexists. Qed.

Lemma chain_fun (s : nat) (st : AStar) (v : nat) (l1 l2 : list nat) :
  chain s st v l1 -> chain s st v l2 -> l1 = l2.
Proof.
  intros H1. revert l2.
  induction H1 as [Hp|v u l Hp Hc IH]; intros l2 H2.
  - inversion H2 as [|v' u' l' Hp' Hc']; subst; [done|].
    rewrite Hp in Hp'. injection Hp' as Hp'. lia.
  - inversion H2 as [Hp'|v' u' l' Hp' Hc']; subst.
    + rewrite Hp in Hp'. injection Hp' as Hp'. lia.
    + rewrite Hp in Hp'. injection Hp' as Hp'. apply Nat2Z.inj in Hp'. subst u'.
      by rewrite (IH l' Hc').
Qed.

Lemma chain_suffix (s : nat) (st : AStar) (v x : nat) (l : list nat) :
  chain s st v l -> x ∈ l ->
  exists l', chain s st x l' /\ (length l' <= length l)%nat.
Proof.
  induction 1 as [Hp|v u l Hp Hc IH]; intros Hx.
  - apply list_elem_of_singleton in Hx as ->. exists [s]. split; [|done].
    by constructor.
  - apply elem_of_cons in Hx as [->|Hx].
    + exists (v :: l). split; [|done]. by econstructor.
    + destruct (IH Hx) as (l' & Hc' & Hlen). exists l'. split; [done|].
      simpl. lia.
Qed.

Lemma chain_NoDup (s : nat) (st : AStar) (v : nat) (l : list nat) :
  chain s st v l -> NoDup l.
Proof.
  induction 1 as [Hp|v u l Hp Hc IH].
  - apply NoDup_singleton.
  - apply NoDup_cons. split; [|done]. intros Hv.
    destruct (chain_suffix s st u v l Hc Hv) as (l' & Hc' & Hlen).
    pose proof (chain_fun s st v _ _ Hc' (chain_step s st v u l Hp Hc)) as ->.
    simpl in Hlen. lia.
Qed.

Lemma chain_lt (s : nat) (st : AStar) (v : nat) (l : list nat) :
  chain s st v l -> forall x, x ∈ l -> (x < length (parent st))%nat.
Proof.
  induction 1 as [Hp|v u l Hp Hc IH]; intros x Hx.
  - apply list_elem_of_singleton in Hx as ->. by eapply lookup_lt_Some.
  - apply elem_of_cons in Hx as [->|Hx]; [by eapply lookup_lt_Some|by apply IH].
Qed.

Lemma chain_length (s : nat) (st : AStar) (v : nat) (l : list nat) :
  chain s st v l -> (length l <= length (parent st))%nat.
Proof.
  intros Hc.
  assert (Hsub : l ⊆+ seq 0 (length (parent st))).
  { apply NoDup_submseteq; [by eapply chain_NoDup|].
    intros x Hx. apply elem_of_seq. pose proof (chain_lt s st v l Hc x Hx). lia. }
  apply submseteq_length in Hsub. by rewrite length_seq in Hsub.
Qed.

Lemma chain_last (s : nat) (st : AStar) (v : nat) (l : list nat) :
  chain s st v l -> last l = Some s.
Proof.
  induction 1 as [Hp|v u l Hp Hc IH]; [done|].
  destruct (chain_head s st u l Hc) as [l' ->]. done.
Qed.

(** [chain] reads [parent] at the nodes of the list only. *)
Lemma chain_keep (s : nat) (st st' : AStar) (v : nat) (l : list nat) :
  chain s st v l ->
  (forall x, x ∈ l -> parent st' !! x = parent st !! x) ->
  chain s st' v l.
Proof.
  induction 1 as [Hp|v u l Hp Hc IH]; intros Hsame.
  - constructor. rewrite Hsame; [done|by left].
  - apply (chain_step s st' v u l).
    + rewrite Hsame; [done|by left].
    + apply IH. intros x Hx. apply Hsame. by right.
Qed.

(** Giving [v] the parent [u], whose list does not pass [v], leaves
    every node with a list. *)
Lemma chain_update (s : nat) (st st' : AStar) (u v : nat) (lu : list nat) :
  parent st' = <[v := Z.of_nat u]> (parent st) ->
  (v < length (parent st))%nat -> v <> s ->
  chain s st u lu -> v ∉ lu ->
  chain s st' v (v :: lu) /\
  forall x l, chain s st x l -> exists l', chain s st' x l'.
Proof.
  intros Hp' Hv Hvs Hu Hnot.
  assert (Hu' : chain s st' u lu).
  { apply (chain_keep s st st' u lu Hu). intros x Hx. rewrite Hp'.
    apply list_lookup_insert_ne. intros ->. done. }
  assert (Hv' : chain s st' v (v :: lu)).
  { apply (chain_step s st' v u lu); [|done]. rewrite Hp'.
    by apply list_lookup_insert_eq. }
  split; [done|].
  induction 1 as [Hp|x y l Hp Hc IH].
  - exists [s]. constructor. rewrite Hp'. by rewrite list_lookup_insert_ne.
  - destruct (Nat.eq_dec x v) as [->|Hxv]; [by eauto|].
    destruct IH as [l' Hl']. exists (x :: l').
    apply (chain_step s st' x y l'); [|done].
    rewrite Hp'. by rewrite list_lookup_insert_ne.
Qed.

Lemma chain_parent_chain (s : nat) (st : AStar) (v : nat) (l : list nat) :
  chain s st v l ->
  forall room, (length l <= room)%nat ->
  parent_chain room (parent st) (Z.of_nat v) = Some (map Z.of_nat l).
Proof.
  induction 1 as [Hp|v u l Hp Hc IH]; intros room Hroom;
    (destruct room as [|room]; [simpl in Hroom; lia|]); cbn [parent_chain].
  - replace (Z.of_nat s =? -1) with false by (symmetry; apply Z.eqb_neq; lia).
    replace (Z.of_nat s <? 0) with false by (symmetry; apply Z.ltb_ge; lia).
    rewrite Nat2Z.id, Hp. cbn [mbind option_bind].
    assert (parent_chain room (parent st) (-1) = Some []) as ->
      by (by destruct room).
    done.
  - replace (Z.of_nat v =? -1) with false by (symmetry; apply Z.eqb_neq; lia).
    replace (Z.of_nat v <? 0) with false by (symmetry; apply Z.ltb_ge; lia).
    rewrite Nat2Z.id, Hp. cbn [mbind option_bind].
    rewrite (IH room) by (simpl in Hroom; lia). done.
Qed.

Section ChainScores.
Variable sqrt : double -> double.
Variable graph : Graph.
Variables s t : nat.
Hypothesis NN : nonneg_weights graph.

(** The step of [chain] at a node that has been reached, read from
    the invariant. *)
Lemma chain_step_edge (st : AStar) (v u : nat) (gv : double) :
  search_inv sqrt graph s t st ->
  parent st !! v = Some (Z.of_nat u) ->
  g_score st !! v = Some gv -> (gv < DBL_MAX)%Q ->
  exists e w gu, succ_edge graph u e v w /\ g_score st !! u = Some gu /\
    (gu < DBL_MAX)%Q /\ (gu <= gv)%Q.
Proof.
  intros (_ & _ & Hlp & _ & _ & Hnodes) Hp Hgv Hlt.
  apply lookup_lt_Some in Hp as Hv. rewrite Hlp in Hv.
  destruct (Hnodes v Hv) as (gv' & fv & pv & Hg & _ & Hp' & Hcase).
  assert (gv' = gv) as -> by congruence.
  assert (pv = Z.of_nat u) as -> by congruence.
  destruct Hcase as [(-> & _)|(_ & _ & _ & Hpar)]; [by apply Qlt_irrefl in Hlt|].
  destruct Hpar as [(_ & Hneg & _)|(u' & e & w & gu & Hu & Hedge & Hgu & Hgu_lt & Hle)];
    [lia|].
  apply Nat2Z.inj in Hu. subst u'. exists e, w, gu.
  split; [done|]. split; [done|]. split; [done|].
  pose proof (NN u e v w Hedge). lra.
Qed.

(** Along the list the scores do not grow towards the start. *)
Lemma chain_scores (st : AStar) (v : nat) (l : list nat) :
  search_inv sqrt graph s t st ->
  chain s st v l ->
  forall gv, g_score st !! v = Some gv -> (gv < DBL_MAX)%Q ->
  forall x, x ∈ l ->
    exists gx, g_score st !! x = Some gx /\ (gx <= gv)%Q.
Proof.
  intros Hinv. induction 1 as [Hp|v u l Hp Hc IH]; intros gv Hgv Hlt x Hx.
  - apply list_elem_of_singleton in Hx as ->. exists gv. split; [done|lra].
  - apply elem_of_cons in Hx as [->|Hx]; [exists gv; split; [done|lra]|].
    destruct (chain_step_edge st v u gv Hinv Hp Hgv Hlt)
      as (e & w & gu & _ & Hgu & Hgu_lt & Hle).
    destruct (IH gu Hgu Hgu_lt x Hx) as (gx & Hgx & Hle').
    exists gx. split; [done|lra].
Qed.

(** The list is a path of the graph, read backwards. *)
Lemma chain_is_path (st : AStar) (v : nat) (l : list nat) :
  search_inv sqrt graph s t st ->
  chain s st v l ->
  forall gv, g_score st !! v = Some gv -> (gv < DBL_MAX)%Q ->
  exists c, chain_cost graph l c.
Proof.
  intros Hinv. induction 1 as [Hp|v u l Hp Hc IH]; intros gv Hgv Hlt.
  - exists 0%Q. constructor.
  - destruct (chain_step_edge st v u gv Hinv Hp Hgv Hlt)
      as (e & w & gu & Hedge & Hgu & Hgu_lt & Hle).
    destruct (IH gu Hgu Hgu_lt) as [c Hcost].
    destruct (chain_head s st u l Hc) as [l' ->].
    exists (c + w)%Q. by econstructor.
Qed.

End ChainScores.

Section RelaxReach.
Variable sqrt : double -> double.
Variable graph : Graph.
Variables s t : nat.
Hypothesis Hwf : graph_wf graph.
Hypothesis Hs : Z.of_nat s < num_nodes graph.
Hypothesis Ht : Z.of_nat t < num_nodes graph.
Hypothesis NN : nonneg_weights graph.
Hypothesis B : bounded_costs sqrt graph s t.

Local Abbreviation V := (Z.to_nat (num_nodes graph)).
Local Abbreviation hv := (hval sqrt graph t).
Local Abbreviation rinv := (reach_inv sqrt graph s t).

Lemma relax_edge_reach (u : nat) (n : Node) (st : AStar) (eid : Z) (cur : list Z) :
  rinv (pending_edges u (eid :: cur)) st ->
  heap_out (minHeap st) u -> short_path graph s st u ->
  nodes graph !! u = Some n -> eid ∈ out_edges n ->
  exists st', relax_edge sqrt graph (Z.of_nat t) u st eid = Some st' /\
    rinv (pending_edges u cur) st' /\
    size (minHeap st') = size (minHeap st) /\
    heap_out (minHeap st') u /\ short_path graph s st' u /\
    (forall x k, heap_entry (minHeap st) x k ->
       exists k', heap_entry (minHeap st') x k').
Proof.
  intros Hrinv Hout Hshort Hn Hin.
  pose proof Hrinv as (Hinv & Hord & (Hgs & Hps) & Hclosed & Hrel & Hreached).
  pose proof Hinv as (Hlg & Hlf & Hlp & Hheap & Hkey & Hnodes).
  pose proof (heap_out_lt V _ u Hheap Hout) as Hu.
  destruct Hshort as (m & c & gu & Hwalk_u & Hgu & Hc & Hm).
  pose proof (Hclosed u gu Hout Hgu) as Hgu_lt.
  destruct (relax_edge_inv sqrt graph s t Hwf Ht u n st eid Hinv Hu Hn Hin)
    as (st' & Hrun & Hinv' & Hsz').
  destruct (relax_edge_spec sqrt graph s t Hwf Ht u st eid Hinv Hu)
    as (st'' & Hrun' & Hcases).
  assert (st'' = st') as -> by congruence. clear Hrun'.
  exists st'. split; [done|].
  assert (Hedge_of : forall v w, edge_at graph eid v w -> succ_edge graph u eid v w).
  { intros v w (Hr & e & He & Hto & Hv & Hw). by exists n, e. }
  assert (Hnext : forall v w, succ_edge graph u eid v w ->
            walk graph s (S m) v (c + w)%Q /\ (0 <= w)%Q /\
            (gu + w < DBL_MAX)%Q /\ (gu + w + hv v < DBL_MAX)%Q).
  { intros v w Hedge.
    assert (Hw : walk graph s (S m) v (c + w)%Q) by (by econstructor).
    destruct (B (S m) v (c + w)%Q ltac:(lia) Hw) as [Hb1 Hb2].
    pose proof (NN u eid v w Hedge). split; [done|]. split; [done|]. lra. }
  destruct Hcases as [(-> & Hle)|Hupd].
  - (* nothing was written *)
    split; [|split; [done|split; [done|split; [by exists m, c, gu|by eauto]]]].
    split; [done|]. split; [done|]. split; [done|]. split; [done|].
    split; [|done].
    intros u' e v w Hout' Hedge.
    destruct (Hrel u' e v w Hout' Hedge) as [[-> He]|Hdone]; [|by right].
    apply elem_of_cons in He as [->|He]; [|by left].
    right. destruct (Hnext v w Hedge) as (_ & _ & Hb & _).
    destruct (succ_edge_lt graph u v eid w Hwf Hedge) as [_ Hv].
    destruct (lookup_lt_is_Some_2 (g_score st) v ltac:(lia)) as [gv Hgv].
    exists gv. split; [done|].
    assert (Hgv_le : (gv <= gu + w)%Q).
    { apply (Hle v w gu gv); try done.
      - destruct Hedge as (n' & e' & _ & _ & Hr & He' & Hto & Hv' & Hw).
        split; [done|]. by exists e'.
      - intros Heq. rewrite Heq in Hgu_lt. by apply Qlt_irrefl in Hgu_lt. }
    lra.
  - (* node [v] was improved *)
    destruct Hupd as (v & w & gu' & gv & Hat & Hgu' & Hgv & Hne & Hlt & Hg' & Hf'
      & Hp' & Hheap').
    assert (gu' = gu) as -> by congruence.
    pose proof (Hedge_of v w Hat) as Hedge.
    destruct (Hnext v w Hedge) as (Hwalk_v & Hw0 & Hb1 & Hb2).
    destruct (succ_edge_lt graph u v eid w Hwf Hedge) as [_ Hv].
    assert (Hvu : v <> u).
    { intros ->. assert (gv = gu) as -> by congruence. lra. }
    assert (Hvs : v <> s).
    { intros ->. rewrite Hgs in Hgv. injection Hgv as <-.
      pose proof (walk_nonneg graph s _ _ _ NN Hwalk_v). lra. }
    assert (Hg_other : forall x, x <> v -> g_score st' !! x = g_score st !! x).
    { intros x Hx. rewrite Hg'. by apply list_lookup_insert_ne. }
    assert (Hg_v : g_score st' !! v = Some (gu + w)%Q).
    { rewrite Hg'. apply list_lookup_insert_eq. lia. }
    (* the heap *)
    assert (Hheap_facts :
      (forall x, heap_out (minHeap st') x <-> heap_out (minHeap st) x) /\
      heap_ordered (minHeap st') /\
      (forall x k, heap_entry (minHeap st) x k ->
         exists k', heap_entry (minHeap st') x k')).
    { destruct Hheap' as [[Hvout ->]|[[kold Hkold] Hdec]]; [by eauto|].
      pose proof (heap_decreased_out V _ _ v _ kold Hheap Hdec Hkold) as Houts.
      pose proof Hdec as (_ & _ & Hent' & _ & Hord').
      split; [done|]. split.
      - apply (Hord' kold Hkold Hord).
        pose proof (Hkey v kold Hkold) as Hfv.
        destruct (Hnodes v Hv) as (gv' & fv & pv & Hg0 & Hf0 & _ & Hcase).
        assert (gv' = gv) as -> by congruence.
        assert (fv = kold) as -> by congruence.
        destruct Hcase as [(_ & -> & _)|(_ & Hfeq & _)]; [lra|].
        rewrite Hfeq. lra.
      - intros x k Hx. destruct (Nat.eq_dec x v) as [->|Hxv].
        + exists (gu + w + hv v)%Q. apply Hent'. by left.
        + exists k. apply Hent'. by right. }
    destruct Hheap_facts as (Houts & Hord1 & Hent1).
    (* the lists of parents *)
    destruct (Hreached u gu Hu Hgu Hgu_lt) as [_ [lu Hlu]].
    assert (Hnot : v ∉ lu).
    { intros Hvl.
      destruct (chain_scores sqrt graph s t NN st u lu Hinv Hlu gu Hgu Hgu_lt v Hvl)
        as (gv' & Hgv' & Hle).
      assert (gv' = gv) as -> by congruence. lra. }
    destruct (chain_update s st st' u v lu Hp' ltac:(lia) Hvs Hlu Hnot)
      as [Hchain_v Hchain_other].
    split; [|split; [done|split; [by apply Houts|split; [|done]]]].
    2:{ exists m, c, gu. rewrite Hg_other by done. rewrite Hsz'. done. }
    split; [done|]. split; [done|]. split.
    { rewrite Hg_other by done. split; [done|].
      rewrite Hp'. by rewrite list_lookup_insert_ne. }
    split.
    { intros x gx Hx Hgx. apply Houts in Hx.
      destruct (Nat.eq_dec x v) as [->|Hxv].
      - assert (gx = (gu + w)%Q) as -> by congruence. done.
      - rewrite Hg_other in Hgx by done. by apply (Hclosed x). }
    split.
    { intros u' e v' w' Hout' Hedge'. apply Houts in Hout'.
      assert (Hnew : forall gv', g_score st !! v' = Some gv' -> (gv' < DBL_MAX)%Q ->
                exists gv'', g_score st' !! v' = Some gv'' /\ (gv'' < DBL_MAX)%Q).
      { intros gv' Hgv' Hlt'. destruct (Nat.eq_dec v' v) as [->|Hv'].
        - by exists (gu + w)%Q.
        - exists gv'. by rewrite Hg_other. }
      destruct (Hrel u' e v' w' Hout' Hedge')
        as [[-> He]|(gv' & Hgv' & Hgv'_lt)]; [|right; by eapply Hnew].
      apply elem_of_cons in He as [->|He]; [|by left].
      right. destruct (edge_at_fun graph u eid v v' w w' Hat Hedge') as [-> ->].
      by exists (gu + w)%Q. }
    intros x gx Hx Hgx Hgx_lt. rewrite Hsz'.
    destruct (Nat.eq_dec x v) as [->|Hxv].
    + assert (gx = (gu + w)%Q) as -> by congruence.
      split; [|by eauto]. exists (S m), (c + w)%Q.
      split; [done|]. split; [by rewrite Hc|lia].
    + rewrite Hg_other in Hgx by done.
      destruct (Hreached x gx Hx Hgx Hgx_lt) as [Hwx [lx Hlx]].
      split; [done|]. by apply (Hchain_other x lx).
Qed.

End RelaxReach.

Lemma reach_inv_mono (sqrt : double -> double) (g : Graph) (s t : nat)
    (P P' : nat -> Z -> Prop) (st : AStar) :
  (forall u e, P u e -> P' u e) ->
  reach_inv sqrt g s t P st -> reach_inv sqrt g s t P' st.
Proof.
  intros HP (Hinv & Hord & H0 & Hclosed & Hrel & Hreached).
  split; [done|]. split; [done|]. split; [done|]. split; [done|].
  split; [|done].
  intros u e v w Hout Hedge.
  destruct (Hrel u e v w Hout Hedge) as [Hp|Hdone]; [left|right]; auto.
Qed.

Section LoopReach.
Variable sqrt : double -> double.
Variable graph : Graph.
Variables s t : nat.
Hypothesis Hwf : graph_wf graph.
Hypothesis Hs : Z.of_nat s < num_nodes graph.
Hypothesis Ht : Z.of_nat t < num_nodes graph.
Hypothesis NN : nonneg_weights graph.
Hypothesis B : bounded_costs sqrt graph s t.

Local Abbreviation V := (Z.to_nat (num_nodes graph)).
Local Abbreviation hv := (hval sqrt graph t).
Local Abbreviation rinv := (reach_inv sqrt graph s t).

Lemma relax_edges_reach (u : nat) (n : Node) (cur : list Z) :
  forall st,
  rinv (pending_edges u cur) st ->
  heap_out (minHeap st) u -> short_path graph s st u ->
  nodes graph !! u = Some n -> cur ⊆ out_edges n ->
  exists st', relax_edges sqrt graph (Z.of_nat t) u st cur = Some st' /\
    rinv no_pending st' /\
    size (minHeap st') = size (minHeap st) /\
    (forall x k, heap_entry (minHeap st) x k ->
       exists k', heap_entry (minHeap st') x k').
Proof.
  induction cur as [|eid cur IH]; intros st Hrinv Hout Hshort Hn Hsub.
  - exists st. split; [done|]. split; [|by eauto].
    apply (reach_inv_mono _ _ _ _ (pending_edges u [])); [|done].
    intros u' e [_ He]. by apply elem_of_nil in He.
  - destruct (relax_edge_reach sqrt graph s t Hwf Hs Ht NN B u n st eid cur
                Hrinv Hout Hshort Hn)
      as (st1 & Hrun1 & Hrinv1 & Hsz1 & Hout1 & Hshort1 & Hent1).
    { apply Hsub. by left. }
    destruct (IH st1 Hrinv1 Hout1 Hshort1 Hn) as (st' & Hrun & Hrinv' & Hsz' & Hent').
    { intros x Hx. apply Hsub. by right. }
    exists st'. cbn [relax_edges]. rewrite Hrun1. cbn [mbind option_bind].
    split; [done|]. split; [done|]. split; [lia|].
    intros x k Hx. destruct (Hent1 x k Hx) as [k1 Hk1]. by apply (Hent' x k1).
Qed.

(** The key of a node in the heap that has been reached. *)
Lemma reached_key (P : nat -> Z -> Prop) (st : AStar) (x : nat) (k gx : double) :
  rinv P st -> heap_entry (minHeap st) x k ->
  g_score st !! x = Some gx -> (gx < DBL_MAX)%Q -> (k < DBL_MAX)%Q.
Proof.
  intros (Hinv & _ & _ & _ & _ & Hreached) Hent Hgx Hlt.
  pose proof Hinv as (_ & _ & _ & Hheap & Hkey & _).
  pose proof (heap_entry_lt V _ x k Hheap Hent) as Hx.
  destruct (reached_f_score sqrt graph s t st x gx Hinv Hx Hgx Hlt)
    as (fx & Hfx & Heq).
  rewrite (Hkey x k Hent) in Hfx. injection Hfx as ->.
  destruct (Hreached x gx Hx Hgx Hlt) as [(m & c & Hw & Hc & Hm) _].
  destruct (B m x c ltac:(lia) Hw) as [_ Hb]. rewrite Heq, <- Hc. done.
Qed.

(** When no node in the heap has been reached, every node with a path
    from the start has left the heap. *)
Lemma reached_all (st : AStar) (n v : nat) (c : double) :
  rinv no_pending st ->
  (forall x k gx, heap_entry (minHeap st) x k -> g_score st !! x = Some gx ->
     (gx < DBL_MAX)%Q -> False) ->
  walk graph s n v c -> heap_out (minHeap st) v.
Proof.
  intros Hrinv Hnone.
  pose proof Hrinv as (Hinv & _ & (Hgs & _) & Hclosed & Hrel & _).
  pose proof Hinv as (Hlg & _ & _ & Hheap & _).
  induction 1 as [|n u c e v w Hwalk IH Hedge].
  - destruct (heap_struct_cases V (minHeap st) s Hheap ltac:(lia)) as [[k Hk]|Ho];
      [|done].
    destruct (Hnone s k 0%Q Hk Hgs DBL_MAX_pos).
  - destruct (succ_edge_lt graph u v e w Hwf Hedge) as [_ Hv].
    destruct (Hrel u e v w IH Hedge) as [[]|(gv & Hgv & Hlt)].
    destruct (heap_struct_cases V (minHeap st) v Hheap Hv) as [[k Hk]|Ho]; [|done].
    destruct (Hnone v k gv Hk Hgv Hlt).
Qed.

Lemma extract_reach (st : AStar) :
  rinv no_pending st -> (0 < size (minHeap st))%nat ->
  exists root hp,
    extractMin (minHeap st) = Some (Some root, hp) /\
    size hp = (size (minHeap st) - 1)%nat /\
    (hnode_id root < V)%nat /\
    (forall v k, heap_entry (minHeap st) v k -> (dist root <= k)%Q) /\
    (forall v k, heap_entry hp v k
       <-> heap_entry (minHeap st) v k /\ v <> hnode_id root) /\
    heap_out hp (hnode_id root) /\
    (~ (dist root == DBL_MAX)%Q ->
     forall n, nodes graph !! hnode_id root = Some n ->
       let st1 := mkAStar (g_score st) (f_score st) (parent st) hp in
       rinv (pending_edges (hnode_id root) (out_edges n)) st1 /\
       short_path graph s st1 (hnode_id root) /\
       exists gu, g_score st !! hnode_id root = Some gu /\ (gu < DBL_MAX)%Q).
Proof.
  intros Hrinv Hsize.
  pose proof Hrinv as (Hinv & Hord & (Hgs & Hps) & Hclosed & Hrel & Hreached).
  pose proof Hinv as (Hlg & Hlf & Hlp & Hheap & Hkey & Hnodes).
  pose proof Hheap as (Hlpos & Hlarr & Hsz & Hok & Hback).
  destruct (extract_inv sqrt graph s t st Hinv Hsize)
    as (root & hp & Hrun & Hinv1 & Hsz1 & Hroot & Hf).
  destruct (extractMin_spec (minHeap st)) as (root' & hp' & Hrun' & _ & Hentry
    & Hmin & _ & _ & _ & _ & _ & Hord' & Hent & Hout_root & Hout_mono & _);
    try done; try lia.
  assert (root' = root /\ hp' = hp) as [-> ->].
  { rewrite Hrun in Hrun'. by injection Hrun' as -> ->. }
  clear Hrun'. specialize (Hmin Hord). specialize (Hord' Hord).
  exists root, hp. split; [done|]. split; [done|]. split; [done|].
  split; [done|]. split; [done|]. split; [done|].
  intros Hfin n Hn.
  remember (hnode_id root) as u eqn:Hu_def.
  assert (Hout_cases : forall x, heap_out hp x -> heap_out (minHeap st) x \/ x = u).
  { intros x Hx. destruct (Nat.eq_dec x u) as [->|Hxu]; [by right|left].
    pose proof Hinv1 as (_ & _ & _ & Hheap1 & _).
    pose proof (heap_out_lt V hp x Hheap1 Hx) as HxV.
    destruct (heap_struct_cases V (minHeap st) x Hheap HxV) as [[k Hk]|Hx']; [|done].
    destruct (heap_entry_not_out hp x k); [|done]. by apply Hent. }
  assert (Hroot_reached : exists gu, g_score st !! u = Some gu /\ (gu < DBL_MAX)%Q).
  { destruct (Hnodes u Hroot) as (gu & fu & pu & Hg & Hfu & _ & Hcase).
    assert (fu = dist root) as -> by congruence.
    destruct Hcase as [(_ & Hfinf & _)|(Hlt & _)]; [|by exists gu].
    destruct Hfin. by rewrite Hfinf. }
  destruct Hroot_reached as (gu & Hgu & Hgu_lt).
  split; [|split; [|by exists gu]].
  - split; [done|]. split; [done|]. split; [done|]. cbn [minHeap g_score parent].
    split.
    { intros x gx Hx Hgx. destruct (Hout_cases x Hx) as [Hx'|Heq];
        [by apply (Hclosed x)|].
      subst x. assert (gx = gu) as -> by congruence. done. }
    split.
    { intros u' e v w Hout' Hedge.
      destruct (Hout_cases u' Hout') as [Hold|Heq].
      - destruct (Hrel u' e v w Hold Hedge) as [[]|Hdone]. by right.
      - subst u'. left. split; [done|].
        destruct Hedge as (n' & _ & Hn' & Hin & _).
        assert (n' = n) as -> by congruence. done. }
    intros x gx Hx Hgx Hlt.
    destruct (Hreached x gx Hx Hgx Hlt) as [(m & c & Hw & Hc & Hm) [l Hl]].
    split; [exists m, c; split; [done|split; [done|lia]]|].
    exists l. by apply (chain_keep s st _ x l Hl).
  - destruct (Hreached u gu Hroot Hgu Hgu_lt) as [(m & c & Hw & Hc & Hm) _].
    exists m, c, gu. cbn [minHeap g_score]. split; [done|]. split; [done|].
    split; [done|lia].
Qed.

(** The main loop when the weights are not negative: it ends, and it
    reports [found] exactly when the target can be reached. *)
Lemma astar_loop_reach (fuel : nat) :
  forall st, rinv no_pending st ->
  (exists k, heap_entry (minHeap st) t k) ->
  (size (minHeap st) < fuel)%nat ->
  exists found st',
    astar_loop sqrt graph (Z.of_nat t) fuel st = Some (found, st') /\
    (found = true ->
     search_inv sqrt graph s t st' /\
     exists gt l, g_score st' !! t = Some gt /\ (gt < DBL_MAX)%Q /\
       chain s st' t l) /\
    (found = false -> ~ reachable graph s t).
Proof.
  induction fuel as [|fuel IH]; intros st Hrinv [kt Hkt] Hfuel; [lia|].
  cbn [astar_loop]. unfold isEmpty.
  assert (H0 : (0 < size (minHeap st))%nat).
  { destruct Hkt as (p & _ & Hp & _). lia. }
  replace (size (minHeap st) =? 0)%nat with false
    by (symmetry; apply Nat.eqb_neq; lia).
  destruct (extract_reach st Hrinv H0) as (root & hp & Hrun & Hsz & Hroot & Hmin
    & Hent & Hout & Hnext).
  rewrite Hrun. cbn [mbind option_bind].
  destruct (graph_wf_node graph (Z.of_nat (hnode_id root)) Hwf ltac:(lia))
    as [n Hn].
  rewrite Nat2Z.id in Hn.
  destruct (deq (dist root) DBL_MAX) eqn:Hinf.
  { eexists false, _. split; [done|]. split; [done|]. intros _ (m & c & Hwalk).
    apply Qeq_bool_iff in Hinf.
    assert (Hnone : forall x k gx, heap_entry (minHeap st) x k ->
              g_score st !! x = Some gx -> (gx < DBL_MAX)%Q -> False).
    { intros x k gx Hx Hgx Hlt.
      pose proof (reached_key no_pending st x k gx Hrinv Hx Hgx Hlt).
      pose proof (Hmin x k Hx). lra. }
    pose proof (reached_all st m t c Hrinv Hnone Hwalk) as Htout.
    by apply (heap_entry_not_out (minHeap st) t kt). }
  apply deq_false in Hinf.
  destruct (Hnext Hinf n Hn) as (Hrinv1 & Hshort1 & gu & Hgu & Hgu_lt).
  destruct (Z.of_nat (hnode_id root) =? Z.of_nat t) eqn:Htarget.
  { apply Z.eqb_eq in Htarget. apply Nat2Z.inj in Htarget.
    eexists true, _. split; [done|]. split; [|done]. intros _.
    destruct Hrinv1 as (Hinv1 & _ & _ & _ & _ & Hreached1).
    split; [done|]. rewrite Htarget in *. cbn [minHeap g_score] in *.
    destruct (Hreached1 t gu ltac:(lia) Hgu Hgu_lt) as [_ [l Hl]].
    by exists gu, l. }
  apply Z.eqb_neq in Htarget.
  rewrite Hn. cbn [mbind option_bind].
  destruct (relax_edges_reach (hnode_id root) n (out_edges n) _ Hrinv1 Hout
              Hshort1 Hn) as (st2 & Hrun2 & Hrinv2 & Hsz2 & Hent2); [done|].
  rewrite Hrun2. cbn [mbind option_bind].
  apply IH; [done| |cbn [minHeap] in Hsz2; lia].
  apply (Hent2 t kt). cbn [minHeap]. apply Hent. split; [done|].
  intros Heq. apply Htarget. by rewrite Heq.
Qed.

End LoopReach.

Section SearchComplete.
Variable sqrt : double -> double.
Variable graph : Graph.
Variables s t : nat.
Hypothesis Hwf : graph_wf graph.
Hypothesis Hs : Z.of_nat s < num_nodes graph.
Hypothesis Ht : Z.of_nat t < num_nodes graph.
Hypothesis NN : nonneg_weights graph.
Hypothesis B : bounded_costs sqrt graph s t.

Local Abbreviation V := (Z.to_nat (num_nodes graph)).
Local Abbreviation hv := (hval sqrt graph t).

Lemma search_start_reach :
  exists hp,
    decreaseKey (minHeap (astar_init V)) s (hv s) = Some hp /\
    size hp = V /\
    reach_inv sqrt graph s t no_pending (search_start V s (hv s) hp) /\
    exists k, heap_entry hp t k.
Proof.
  destruct (search_start_inv sqrt graph s t Hs Ht)
    as (hp & Hdec & Hinv & Hsz & Hent_s & Hent_other & Hord).
  assert (Hin : isInMinHeap (minHeap (astar_init V)) s = Some true).
  { apply isInMinHeap_true. exists s. simpl. rewrite lookup_seq_lt by lia.
    split; [done|lia]. }
  destruct (decreaseKey_heap V _ s (hv s) (init_heap_struct V) Hin)
    as (hp' & Hrun & _ & Hstruct & Hent & _).
  assert (hp' = hp) as -> by congruence. clear Hrun.
  assert (Hall : forall v, (v < V)%nat -> exists k, heap_entry hp v k).
  { intros v Hv. destruct (Nat.eq_dec v s) as [->|Hne]; [by eauto|].
    exists DBL_MAX. apply Hent. right. split; [done|]. by apply init_heap_entry. }
  assert (Hnone : forall v, heap_out hp v -> False).
  { intros v Hv. destruct (Hall v (heap_out_lt V hp v Hstruct Hv)) as [k Hk].
    by apply (heap_entry_not_out hp v k). }
  destruct (B 0%nat s 0%Q ltac:(lia) (walk_nil graph s)) as [_ Hhs].
  assert (Hps : replicate V (-1) !! s = Some (-1)) by (apply lookup_replicate_2; lia).
  exists hp. split; [done|]. split; [done|]. split; [|apply Hall; lia].
  split; [done|]. cbn [minHeap search_start g_score parent].
  split. { apply Hord. lra. }
  split.
  { split; [apply list_lookup_insert_eq; rewrite length_replicate; lia|done]. }
  split. { intros v gv Hv. by destruct (Hnone v). }
  split. { intros u e v w Hu. by destruct (Hnone u). }
  intros v gv Hv Hgv Hlt.
  destruct (Nat.eq_dec v s) as [->|Hne].
  - rewrite list_lookup_insert_eq in Hgv by (rewrite length_replicate; lia).
    injection Hgv as <-. split.
    + exists 0%nat, 0%Q. split; [constructor|]. split; [done|lia].
    + exists [s]. by constructor.
  - rewrite list_lookup_insert_ne in Hgv by done.
    apply lookup_replicate in Hgv as [-> _]. by apply Qlt_irrefl in Hlt.
Qed.

(** The whole search when no weight is negative and the costs stay
    below [DBL_MAX], with room for every node and edge in the result:
    a target that can be reached gets a route. *)
Lemma find_route_complete (max_edges max_nodes : Z) :
  num_nodes graph <= max_nodes -> num_nodes graph - 1 <= max_edges ->
  reachable graph s t ->
  exists cost node_path edge_path,
    find_route_a_star_path sqrt graph (Z.of_nat s) (Z.of_nat t)
      max_edges max_nodes
    = Some (Route cost node_path edge_path) /\
    (length node_path <= V)%nat /\
    length edge_path = (length node_path - 1)%nat.
Proof.
  intros Hmn Hme Hreach.
  destruct search_start_reach as (hp & Hdec & Hsz & Hrinv & Htin).
  destruct (astar_loop_reach sqrt graph s t Hwf Hs Ht NN B (S V) _ Hrinv)
    as (found & st & Hrun & Hfound & Hnot); [done|cbn [minHeap search_start]; lia|].
  rewrite (find_route_unfold sqrt graph s t Hwf Hs Ht _ _ hp Hdec), Hrun.
  cbn [mbind option_bind]. destruct found; cbn [negb].
  2:{ by destruct (Hnot eq_refl). }
  destruct (Hfound eq_refl) as (Hinv & gt & l & Hgt & Hlt & Hchain).
  pose proof Hinv as (_ & _ & Hlp & _).
  pose proof (chain_length s st t l Hchain) as Hlen. rewrite Hlp in Hlen.
  rewrite (chain_parent_chain s st t l Hchain V Hlen). cbn [mbind option_bind].
  destruct (chain_is_path sqrt graph s t NN st t l Hinv Hchain gt Hgt Hlt)
    as [c Hcost].
  destruct (chain_edges graph max_edges l c Hwf Hcost ltac:(lia))
    as (es & c' & Hedges & Hes & _).
  assert (Hlen' : length (rev (map Z.of_nat l)) = length l)
    by (by rewrite length_rev, length_map).
  replace (Z.of_nat (length (rev (map Z.of_nat l))) >? max_nodes) with false
    by (symmetry; rewrite Z.gtb_ltb; apply Z.ltb_ge; lia).
  rewrite Hedges. cbn [mbind option_bind]. rewrite Nat2Z.id, Hgt.
  cbn [mbind option_bind].
  exists gt, (rev (map Z.of_nat l)), es. split; [done|]. split; lia.
Qed.

End SearchComplete.




Lemma hval_straight_time (sqrt : double -> double) (g : Graph) (t v : nat)
    (a b : Node) :
  Z.of_nat v < num_nodes g -> Z.of_nat t < num_nodes g ->
  nodes g !! v = Some a -> nodes g !! t = Some b ->
  hval sqrt g t v = straight_time sqrt g a b.
Proof.
  intros Hv Ht Ha Hb. unfold hval, heuristic, straight_time.
  replace ((Z.of_nat v <? 0) || (Z.of_nat v >=? num_nodes g)
           || (Z.of_nat t <? 0) || (Z.of_nat t >=? num_nodes g))
    with false.
  2:{ symmetry. rewrite !orb_false_iff, !Z.ltb_ge, !Z.geb_leb, !Z.leb_gt. lia. }
  rewrite !Nat2Z.id, Ha, Hb. cbn [mbind option_bind].
  by destruct (dlt 0%Q (max_speed g)).
Qed.

(** A sufficient condition for the heuristic to be consistent. *)
Lemma no_shortcut_consistent (sqrt : double -> double) (g : Graph) (t : nat) :
  graph_wf g -> Z.of_nat t < num_nodes g ->
  sqrt_triangle sqrt -> no_shortcut sqrt g -> consistent sqrt g t.
Proof.
  intros Hwf Ht Htri Hgeo u e v w Hedge.
  destruct (succ_edge_lt g u v e w Hwf Hedge) as [Hu Hv].
  destruct (graph_wf_node g (Z.of_nat u) Hwf ltac:(lia)) as [a Ha].
  destruct (graph_wf_node g (Z.of_nat v) Hwf ltac:(lia)) as [b Hb].
  destruct (graph_wf_node g (Z.of_nat t) Hwf ltac:(lia)) as [c Hc].
  rewrite Nat2Z.id in Ha, Hb, Hc.
  rewrite (hval_straight_time sqrt g t u a c), (hval_straight_time sqrt g t v b c)
    by (done || lia).
  pose proof (Hgeo u e v w a b Hedge Ha Hb) as Hw.
  pose proof (Htri (x a) (y a) (x b) (y b) (x c) (y c)) as Htri'.
  unfold straight_time in *. cbv zeta in *.
  destruct (dlt 0%Q (max_speed g)) eqn:Hms; [|lra].
  apply dlt_true in Hms.
  set (dac := sqrt ((x a - x c) * (x a - x c) + (y a - y c) * (y a - y c))%Q) in *.
  set (dab := sqrt ((x a - x b) * (x a - x b) + (y a - y b) * (y a - y b))%Q) in *.
  set (dbc := sqrt ((x b - x c) * (x b - x c) + (y b - y c) * (y b - y c))%Q) in *.
  assert (Hdiv : (dac / max_speed g <= dab / max_speed g + dbc / max_speed g)%Q).
  { unfold Qdiv. rewrite <- Qmult_plus_distr_l.
    apply Qmult_le_compat_r; [done|]. apply Qlt_le_weak, Qinv_lt_0_compat. done. }
  lra.
Qed.

(** * Further properties of the code *)

(** ** The graph store: construction *)

Lemma succ_edge_listed (g : Graph) (u : nat) (eid : Z) (v : nat) (w : double) :
  succ_edge g u eid v w -> listed g eid.
Proof. intros (n & e & Hn & Hin & _). by exists u, n. Qed.

Lemma walk_no_edges (g : Graph) (s n v : nat) (c : double) :
  (forall eid, ~ listed g eid) -> walk g s n v c -> v = s.
Proof.
  intros Hnone Hw. destruct Hw as [|n u c e v w _ He]; [done|].
  destruct (Hnone e). by eapply succ_edge_listed.
Qed.

(** X1.  [graph_init] accepts every node count up to [MAX_NODES]; the
    graph it leaves has the announced sizes, every node [i] carries its
    own id, the coordinates (0, 0) and an empty adjacency list, and,
    whatever [malloc] left in the edge table, no node can be reached
    from another one. *)
Theorem graph_init_fresh (n m : Z) (junk : Edge) (g : Graph) :
  graph_init n m junk = Some g ->
  n <= MAX_NODES /\ graph_wf g /\ num_nodes g = n /\ num_edges g = m /\
  (forall i, (i < Z.to_nat n)%nat ->
     nodes g !! i = Some (mkNode (Z.of_nat i) 0%Q 0%Q [])) /\
  (forall s t, reachable g s t <-> s = t).
Proof.
  intros Hinit. pose proof (graph_init_adjacency n m junk g Hinit) as [_ Hnone].
  unfold graph_init in Hinit.
  destruct (MAX_NODES <? n) eqn:Hmax; [done|]. apply Z.ltb_ge in Hmax.
  injection Hinit as <-. split; [done|]. split.
  { split; simpl; [rewrite length_map, length_seq|rewrite length_replicate]; lia. }
  split; [done|]. split; [done|]. split.
  - intros i Hi. simpl.
    change (map ?f ?l) with (f <$> l). rewrite list_lookup_fmap.
    by rewrite lookup_seq_lt.
  - intros s t. split.
    + intros (k & c & Hw). symmetry. by eapply walk_no_edges.
    + intros ->. exists 0%nat, 0%Q. constructor.
Qed.

Lemma graph_init_fresh_witness :
  graph_init 6 0 junk_edge = Some six_nodes /\
  6 <= MAX_NODES /\ graph_wf six_nodes /\ num_nodes six_nodes = 6 /\
  num_edges six_nodes = 0 /\
  (forall i, (i < Z.to_nat 6)%nat ->
     nodes six_nodes !! i = Some (mkNode (Z.of_nat i) 0%Q 0%Q [])) /\
  (forall s t, reachable six_nodes s t <-> s = t).
Proof.
  split; [reflexivity|]. apply (graph_init_fresh 6 0 junk_edge). reflexivity.
Defined.

(** What [graph_add_edge] leaves when it returns. *)
Lemma graph_add_edge_cases (g g' : Graph) (eid from to : Z)
    (len speed_limit : double) :
  graph_add_edge g eid from to len speed_limit = Some g' ->
  0 <= eid < num_edges g /\ 0 <= from < num_nodes g /\
  0 <= to < num_nodes g /\ (0 < speed_limit)%Q /\
  exists n,
    nodes g !! Z.to_nat from = Some n /\
    (Z.to_nat eid < length (edges g))%nat /\
    g' = {| nodes := <[Z.to_nat from :=
                        mkNode (node_id n) (x n) (y n) (eid :: out_edges n)]> (nodes g);
            edges := <[Z.to_nat eid :=
                        mkEdge eid from to len speed_limit
                          (len / speed_limit)%Q (len / speed_limit)%Q 0]> (edges g);
            num_nodes := num_nodes g;
            num_edges := num_edges g |}.
Proof.
  unfold graph_add_edge.
  destruct ((eid <? 0) || (eid >=? num_edges g)) eqn:Hr; [done|].
  destruct ((from <? 0) || (from >=? num_nodes g)
            || (to <? 0) || (to >=? num_nodes g)) eqn:Hft; [done|].
  destruct (dle speed_limit 0%Q) eqn:Hsp; [done|].
  destruct (edges g !! Z.to_nat eid) as [e0|] eqn:He0; [|done].
  destruct (nodes g !! Z.to_nat from) as [n|] eqn:Hn; [|done].
  cbn [mbind option_bind]. intros [= <-].
  rewrite !orb_false_iff, !Z.ltb_ge, !Z.geb_leb, !Z.leb_gt in Hr.
  rewrite !orb_false_iff, !Z.ltb_ge, !Z.geb_leb, !Z.leb_gt in Hft.
  apply dle_false in Hsp.
  repeat split; try lia; try done.
  exists n. split; [done|]. split; [by eapply lookup_lt_Some|done].
Qed.

(** X2.  On a graph whose arrays have the announced sizes,
    [graph_add_edge] returns exactly when the edge id and both node ids
    are inside the graph and the speed limit is positive; the length is
    not looked at.  The graph it leaves has the same sizes,
    [get_edge_weight] of the new edge is [length / speed_limit], and the
    weight of every other edge is what it was. *)
Theorem graph_add_edge_weight (g : Graph) (eid from to : Z)
    (len speed_limit : double) :
  graph_wf g ->
  ((exists g', graph_add_edge g eid from to len speed_limit = Some g')
   <-> 0 <= eid < num_edges g /\ 0 <= from < num_nodes g /\
       0 <= to < num_nodes g /\ (0 < speed_limit)%Q) /\
  (forall g', graph_add_edge g eid from to len speed_limit = Some g' ->
     graph_wf g' /\
     get_edge_weight g' eid = Some (len / speed_limit)%Q /\
     (forall eid', eid' <> eid ->
        get_edge_weight g' eid' = get_edge_weight g eid')).
Proof.
  intros Hwf. split.
  - split.
    + intros [g' H]. apply graph_add_edge_cases in H. tauto.
    + intros (He & Hf & Ht & Hs).
      destruct (graph_wf_edge g eid Hwf He) as [e0 He0].
      destruct (graph_wf_node g from Hwf Hf) as [n Hn].
      unfold graph_add_edge.
      rewrite (proj2 (in_range_test eid (num_edges g)) He).
      replace ((from <? 0) || (from >=? num_nodes g)
               || (to <? 0) || (to >=? num_nodes g)) with false.
      2:{ symmetry. rewrite !orb_false_iff, !Z.ltb_ge, !Z.geb_leb, !Z.leb_gt. lia. }
      replace (dle speed_limit 0%Q) with false
        by (symmetry; by apply dle_false).
      rewrite He0, Hn. cbn [mbind option_bind]. by eexists.
  - intros g' H.
    apply graph_add_edge_cases in H
      as (He & Hf & Ht & Hs & n & Hn & Hlt & ->).
    destruct Hwf as [Hwn Hwe]. split; [|split].
    + split; simpl; rewrite length_insert; done.
    + unfold get_edge_weight. cbn [num_edges edges].
      rewrite (proj2 (in_range_test eid (num_edges g)) He).
      by rewrite list_lookup_insert_eq.
    + intros eid' Hne. unfold get_edge_weight. cbn [num_edges edges].
      destruct ((eid' <? 0) || (eid' >=? num_edges g)) eqn:Hr; [done|].
      rewrite !orb_false_iff, !Z.ltb_ge, !Z.geb_leb, !Z.leb_gt in Hr.
      rewrite list_lookup_insert_ne; [done|lia].
Qed.

Lemma graph_add_edge_weight_witness :
  graph_wf three_nodes /\
  (exists g',
     graph_add_edge three_nodes 1 1 2 (6 # 1)%Q (2 # 1)%Q = Some g' /\
     graph_wf g' /\
     get_edge_weight g' 1 = Some ((6 # 1) / (2 # 1))%Q /\
     (forall eid', eid' <> 1 ->
        get_edge_weight g' eid' = get_edge_weight three_nodes eid')) /\
  ~ (exists g', graph_add_edge six_nodes 0 0 1 1%Q 1%Q = Some g').
Proof.
  assert (Hwf : graph_wf three_nodes) by (split; reflexivity).
  split; [exact Hwf|]. split.
  - destruct (graph_add_edge_weight three_nodes 1 1 2 (6 # 1)%Q (2 # 1)%Q Hwf)
      as [Hiff Hweight].
    destruct (proj2 Hiff) as [g' Hg'].
    { cbn [num_edges num_nodes three_nodes]. repeat split; lia. }
    exists g'. split; [exact Hg'|]. exact (Hweight g' Hg').
  - assert (Hwf6 : graph_wf six_nodes) by (split; reflexivity).
    intros Hsome.
    apply (proj1 (graph_add_edge_weight six_nodes 0 0 1 1%Q 1%Q Hwf6)) in Hsome.
    cbn [num_edges six_nodes] in Hsome. lia.
Defined.

(** X3.  After [graph_add_edge] has added an edge from [from] to [to],
    [find_edge_id] answers that edge for the pair: the edge added last
    hides every earlier edge between the same two nodes. *)
Theorem graph_add_edge_find (g g' : Graph) (eid from to : Z)
    (len speed_limit : double) :
  graph_add_edge g eid from to len speed_limit = Some g' ->
  find_edge_id g' from to = Some eid.
Proof.
  intros H. apply graph_add_edge_cases in H
    as (He & Hf & Ht & Hs & n & Hn & Hlt & ->).
  unfold find_edge_id. cbn [nodes].
  replace (from <? 0) with false by (symmetry; apply Z.ltb_ge; lia).
  rewrite list_lookup_insert_eq by (by eapply lookup_lt_Some).
  cbn [mbind option_bind out_edges find_edge_id_loop num_edges edges].
  replace ((eid >=? 0) && (eid <? num_edges g)) with true.
  2:{ symmetry. rewrite andb_true_iff, Z.geb_leb, Z.leb_le, Z.ltb_lt. lia. }
  rewrite list_lookup_insert_eq by done.
  cbn [mbind option_bind to_node]. by rewrite Z.eqb_refl.
Qed.

Lemma graph_add_edge_find_witness :
  graph_add_edge (two_nodes 1%Q) 0 0 1 (5 # 1)%Q 1%Q
  = Some (mkGraph [mkNode 0 0%Q 0%Q [0; 0]; mkNode 1 1%Q 0%Q []]
            [mkEdge 0 0 1 (5 # 1)%Q 1%Q ((5 # 1) / 1)%Q ((5 # 1) / 1)%Q 0] 2 1) /\
  find_edge_id
    (mkGraph [mkNode 0 0%Q 0%Q [0; 0]; mkNode 1 1%Q 0%Q []]
       [mkEdge 0 0 1 (5 # 1)%Q 1%Q ((5 # 1) / 1)%Q ((5 # 1) / 1)%Q 0] 2 1) 0 1
  = Some 0.
Proof.
  split; [reflexivity|].
  apply (graph_add_edge_find (two_nodes 1%Q) _ 0 0 1 (5 # 1)%Q 1%Q).
  reflexivity.
Defined.

(** The edges the search follows do not depend on the coordinates. *)
Lemma succ_edge_same_lists (g g' : Graph) (u : nat) (eid : Z) (v : nat)
    (w : double) :
  edges g' = edges g -> num_edges g' = num_edges g ->
  num_nodes g' = num_nodes g ->
  (forall i, out_edges <$> nodes g' !! i = out_edges <$> nodes g !! i) ->
  succ_edge g u eid v w -> succ_edge g' u eid v w.
Proof.
  intros He Hne Hnn Hout (n & e & Hn & Hin & Hr & Hedge & Hto & Hv & Hw).
  pose proof (Hout u) as Hu. rewrite Hn in Hu. simpl in Hu.
  destruct (nodes g' !! u) as [n'|] eqn:Hn'; [|done].
  injection Hu as Hu.
  exists n', e. rewrite He, Hne, Hnn, Hu. done.
Qed.

Lemma walk_same_lists (g g' : Graph) (s n v : nat) (c : double) :
  edges g' = edges g -> num_edges g' = num_edges g ->
  num_nodes g' = num_nodes g ->
  (forall i, out_edges <$> nodes g' !! i = out_edges <$> nodes g !! i) ->
  walk g s n v c -> walk g' s n v c.
Proof.
  intros He Hne Hnn Hout Hw.
  induction Hw as [|n u c e v w _ IH Hedge]; [constructor|].
  econstructor; [exact IH|]. by eapply succ_edge_same_lists.
Qed.

(** X4.  [graph_set_node_coordinates] returns exactly for a node id
    inside the graph.  It writes the two coordinates of that node and
    nothing else: the edge table, the adjacency lists and with them
    every path of the graph and its cost are what they were. *)
Theorem graph_set_node_coordinates_frame (g : Graph) (id : Z) (cx cy : double) :
  graph_wf g ->
  ((exists g', graph_set_node_coordinates g id cx cy = Some g')
   <-> 0 <= id < num_nodes g) /\
  (forall g', graph_set_node_coordinates g id cx cy = Some g' ->
     graph_wf g' /\
     (exists n n', nodes g !! Z.to_nat id = Some n /\
        nodes g' !! Z.to_nat id = Some n' /\
        x n' = cx /\ y n' = cy /\ node_id n' = node_id n /\
        out_edges n' = out_edges n) /\
     (forall i, i <> Z.to_nat id -> nodes g' !! i = nodes g !! i) /\
     edges g' = edges g /\
     (forall s n v c, walk g' s n v c <-> walk g s n v c)).
Proof.
  intros Hwf. split.
  - unfold graph_set_node_coordinates. split.
    + intros [g' H].
      destruct ((id <? 0) || (id >=? num_nodes g)) eqn:Hr; [done|].
      rewrite !orb_false_iff, !Z.ltb_ge, !Z.geb_leb, !Z.leb_gt in Hr. lia.
    + intros Hr. rewrite (proj2 (in_range_test id (num_nodes g)) Hr).
      destruct (graph_wf_node g id Hwf Hr) as [n ->].
      cbn [mbind option_bind]. by eexists.
  - intros g'. unfold graph_set_node_coordinates.
    destruct ((id <? 0) || (id >=? num_nodes g)) eqn:Hr; [done|].
    destruct (nodes g !! Z.to_nat id) as [n|] eqn:Hn; [|done].
    cbn [mbind option_bind]. intros [= <-].
    assert (Hlt : (Z.to_nat id < length (nodes g))%nat)
      by (by eapply lookup_lt_Some).
    assert (Hlists : forall i,
      out_edges <$> <[Z.to_nat id :=
        mkNode (node_id n) cx cy (out_edges n)]> (nodes g) !! i
      = out_edges <$> nodes g !! i).
    { intros i. destruct (decide (i = Z.to_nat id)) as [->|Hne].
      - rewrite list_lookup_insert_eq by done. by rewrite Hn.
      - by rewrite list_lookup_insert_ne. }
    split; [|split; [|split; [|split]]].
    + destruct Hwf as [Hwn Hwe]. split; simpl; [|done].
      by rewrite length_insert.
    + exists n, (mkNode (node_id n) cx cy (out_edges n)).
      split; [done|]. split; [|done]. simpl.
      by rewrite list_lookup_insert_eq.
    + intros i Hne. simpl. by rewrite list_lookup_insert_ne.
    + done.
    + intros s k v c. split; apply walk_same_lists; try done; intros i; simpl;
        by rewrite Hlists.
Qed.

Lemma graph_set_node_coordinates_frame_witness :
  graph_wf six_nodes /\
  ((exists g', graph_set_node_coordinates six_nodes 2 1%Q 1%Q = Some g')
   <-> 0 <= 2 < num_nodes six_nodes).
Proof.
  assert (Hwf : graph_wf six_nodes) by (split; reflexivity).
  split; [exact Hwf|].
  exact (proj1 (graph_set_node_coordinates_frame six_nodes 2 1%Q 1%Q Hwf)).
Defined.

(** ** The heuristic *)

Lemma max_speed_fold_cases (es : list Edge) :
  forall acc,
    fold_left max_speed_step es acc = acc \/
    exists e, In e es /\ fold_left max_speed_step es acc = base_speed_limit e.
Proof.
  induction es as [|e es IH]; intros acc; simpl; [by left|].
  destruct (IH (max_speed_step acc e)) as [H|(e' & Hin & H)].
  - rewrite H. unfold max_speed_step.
    destruct (dlt acc (base_speed_limit e)); [|by left].
    right. exists e. by split; [left|].
  - right. exists e'. by split; [right|].
Qed.

(** X5.  The speed [heuristic] divides by is the largest speed limit
    among the [num_edges] edges of the table, or 0 when none of them is
    positive. *)
Theorem max_speed_is_max (g : Graph) :
  (0 <= max_speed g)%Q /\
  (forall i e, edges g !! i = Some e -> Z.of_nat i < num_edges g ->
     (base_speed_limit e <= max_speed g)%Q) /\
  (max_speed g = 0%Q \/
   exists i e, edges g !! i = Some e /\ Z.of_nat i < num_edges g /\
     max_speed g = base_speed_limit e).
Proof.
  split; [apply max_speed_step_ge|]. split; [apply max_speed_bound|].
  unfold max_speed.
  destruct (max_speed_fold_cases (take (Z.to_nat (num_edges g)) (edges g)) 0%Q)
    as [H|(e & Hin & H)]; [by left|right].
  apply list_elem_of_In, list_elem_of_lookup in Hin as [i Hi].
  apply lookup_take_Some in Hi as [Hi Hlt].
  exists i, e. split; [done|]. split; [lia|done].
Qed.

Lemma Qsquare_swap (a b : Q) : ((a - b) * (a - b))%Q = ((b - a) * (b - a))%Q.
Proof.
  destruct a as [na da], b as [nb db].
  unfold Qminus, Qplus, Qopp, Qmult; simpl. f_equal; [|f_equal; lia].
  nia.
Qed.

(** X6.  [heuristic] is symmetric: for every pair of node ids it
    returns the same value, or stops in the same way, in both
    directions. *)
Theorem heuristic_symmetric (sqrt : double -> double) (g : Graph) (a b : Z) :
  heuristic sqrt g a b = heuristic sqrt g b a.
Proof.
  unfold heuristic.
  replace ((b <? 0) || (b >=? num_nodes g) || (a <? 0) || (a >=? num_nodes g))
    with ((a <? 0) || (a >=? num_nodes g) || (b <? 0) || (b >=? num_nodes g))
    by (destruct (a <? 0), (a >=? num_nodes g), (b <? 0), (b >=? num_nodes g);
        reflexivity).
  destruct (_ || _); [done|].
  destruct (nodes g !! Z.to_nat a) as [na|], (nodes g !! Z.to_nat b) as [nb|];
    cbn [mbind option_bind]; try done.
  by rewrite (Qsquare_swap (x na) (x nb)), (Qsquare_swap (y na) (y nb)).
Qed.

(** ** Traffic updates and the rest of the graph *)

(** The graph after an accepted update. *)
Lemma apply_update_graph (g g' : Graph) (eid : Z) (s : double) (r : string) :
  apply_update g eid s = Some (g', r) ->
  g' = g \/
  exists e, 0 <= eid < num_edges g /\ (0 < s)%Q /\
    edges g !! Z.to_nat eid = Some e /\
    g' = set_edges g (<[Z.to_nat eid := observe e s]> (edges g)).
Proof.
  intros H. apply apply_update_cases in H.
  destruct H as [(_ & -> & _)|[(_ & -> & _)|(_ & Hr & Hs & e & He & ->)]];
    [by left..|].
  right. by exists e.
Qed.

Lemma max_speed_limits (es es' : list Edge) (acc : double) :
  base_speed_limit <$> es = base_speed_limit <$> es' ->
  fold_left max_speed_step es acc = fold_left max_speed_step es' acc.
Proof.
  revert es' acc. induction es as [|e es IH]; intros [|e' es'] acc H;
    try done.
  injection H as He H. simpl. unfold max_speed_step at 2 4. rewrite He.
  by apply IH.
Qed.

Lemma apply_update_max_speed (g g' : Graph) (eid : Z) (s : double) (r : string) :
  apply_update g eid s = Some (g', r) -> max_speed g' = max_speed g.
Proof.
  intros H. apply apply_update_graph in H as [->|(e & Hr & Hs & He & ->)];
    [done|].
  unfold max_speed. cbn [num_edges edges set_edges].
  apply max_speed_limits. rewrite !fmap_take. f_equal.
  rewrite list_fmap_insert. apply list_insert_id.
  by rewrite list_lookup_fmap, He.
Qed.

Lemma apply_update_succ_edge (g g' : Graph) (eid : Z) (s : double) (r : string)
    (u : nat) (e : Z) (v : nat) (w : double) :
  apply_update g eid s = Some (g', r) ->
  succ_edge g u e v w -> exists w', succ_edge g' u e v w'.
Proof.
  intros H (n & ed & Hn & Hin & Hr & Hed & Hto & Hv & Hw).
  destruct (apply_update_edge g g' eid s r (Z.to_nat e) ed H Hed)
    as (Hne & _ & Hnodes & Hnn & [Hsame|(_ & _ & _ & Hobs)]).
  - exists w, n, ed. by rewrite Hnodes, Hne, Hnn.
  - exists (current_travel_time (observe ed s)), n, (observe ed s).
    by rewrite Hnodes, Hne, Hnn.
Qed.

Lemma apply_update_succ_edge_back (g g' : Graph) (eid : Z) (s : double)
    (r : string) (u : nat) (e : Z) (v : nat) (w' : double) :
  apply_update g eid s = Some (g', r) ->
  succ_edge g' u e v w' -> exists w, succ_edge g u e v w.
Proof.
  intros H Hsucc.
  apply apply_update_graph in H as [->|(e0 & Hr & Hs & He0 & ->)];
    [by exists w'|].
  destruct Hsucc as (n & ed & Hn & Hin & Hre & Hed & Hto & Hv & Hw).
  cbn [nodes edges num_edges num_nodes set_edges] in *.
  destruct (decide (Z.to_nat e = Z.to_nat eid)) as [Heq|Hne].
  - rewrite Heq, list_lookup_insert_eq in Hed by (by eapply lookup_lt_Some).
    injection Hed as <-.
    exists (current_travel_time e0), n, e0. rewrite Heq. done.
  - rewrite list_lookup_insert_ne in Hed by done.
    by exists w', n, ed.
Qed.

Lemma apply_update_walk (g g' : Graph) (eid : Z) (s : double) (r : string)
    (a n b : nat) (c : double) :
  apply_update g eid s = Some (g', r) ->
  walk g a n b c -> exists c', walk g' a n b c'.
Proof.
  intros H Hw. induction Hw as [|n u c e v w _ [c' IH] Hedge].
  - exists 0%Q. constructor.
  - destruct (apply_update_succ_edge g g' eid s r u e v w H Hedge) as [w' He'].
    exists (c' + w')%Q. by econstructor.
Qed.

Lemma apply_update_walk_back (g g' : Graph) (eid : Z) (s : double) (r : string)
    (a n b : nat) (c' : double) :
  apply_update g eid s = Some (g', r) ->
  walk g' a n b c' -> exists c, walk g a n b c.
Proof.
  intros H Hw. induction Hw as [|n u c' e v w' _ [c IH] Hedge].
  - exists 0%Q. constructor.
  - destruct (apply_update_succ_edge_back g g' eid s r u e v w' H Hedge)
      as [w He'].
    exists (c + w)%Q. by econstructor.
Qed.

(** X7.  A traffic update changes travel times and nothing else: the
    value of [heuristic] for every pair of nodes, the nodes that can be
    reached from a node and the number of edges of the paths to them
    are the same after every [apply_update], whatever it answers; the
    sizes of the arrays and the agreement of the adjacency lists with
    the edge table are kept. *)
Theorem apply_update_frame (sqrt : double -> double) (g g' : Graph) (eid : Z)
    (s : double) (r : string) :
  apply_update g eid s = Some (g', r) ->
  (forall a b, heuristic sqrt g' a b = heuristic sqrt g a b) /\
  (forall a n b, (exists c', walk g' a n b c') <-> (exists c, walk g a n b c)) /\
  (forall a b, reachable g' a b <-> reachable g a b) /\
  (graph_wf g -> graph_wf g') /\
  (adjacency_ok g -> adjacency_ok g').
Proof.
  intros H.
  assert (Hwalk : forall a n b,
            (exists c', walk g' a n b c') <-> (exists c, walk g a n b c)).
  { intros a n b. split; intros [c Hw].
    - by eapply apply_update_walk_back.
    - by eapply apply_update_walk. }
  split; [|split; [done|split; [|split]]].
  - intros a b. unfold heuristic.
    rewrite (apply_update_max_speed g g' eid s r H).
    apply apply_update_graph in H as [->|(e & _ & _ & _ & ->)]; done.
  - intros a b. unfold reachable. split; intros (n & c & Hw).
    + destruct (proj1 (Hwalk a n b)) as [c0 H0]; [by exists c|by exists n, c0].
    + destruct (proj2 (Hwalk a n b)) as [c0 H0]; [by exists c|by exists n, c0].
  - intros Hwf. apply apply_update_graph in H as [->|(e & _ & _ & _ & ->)];
      [done|by apply set_edges_wf].
  - intros Hadj u n e ed Hn Hin Hr Hed.
    apply apply_update_graph in H as [->|(e0 & Hr0 & _ & He0 & ->)];
      [by eapply Hadj|].
    cbn [nodes edges num_edges set_edges] in *.
    destruct (decide (Z.to_nat e = Z.to_nat eid)) as [Heq|Hne].
    + rewrite Heq, list_lookup_insert_eq in Hed by (by eapply lookup_lt_Some).
      injection Hed as <-. cbn [observe from_node].
      eapply Hadj; [done..|]. by rewrite Heq.
    + rewrite list_lookup_insert_ne in Hed by done. by eapply Hadj.
Qed.

Lemma apply_update_frame_witness :
  apply_update one_edge_graph 0 (1 # 2)%Q = Some (one_edge_graph_slow, ACK) /\
  (forall a b, heuristic sqrt_exact one_edge_graph_slow a b
               = heuristic sqrt_exact one_edge_graph a b) /\
  (forall a b, reachable one_edge_graph_slow a b <-> reachable one_edge_graph a b).
Proof.
  split; [reflexivity|].
  destruct (apply_update_frame sqrt_exact one_edge_graph one_edge_graph_slow 0
              (1 # 2)%Q ACK eq_refl) as (H1 & _ & H2 & _).
  exact (conj H1 H2).
Defined.

(** An update of another edge after the slot of [e1] has been
    written. *)
Lemma apply_update_after (g : Graph) (e1 e2 : Z) (a' : Edge) (s2 : double) :
  0 <= e1 -> e1 <> e2 ->
  apply_update (set_edges g (<[Z.to_nat e1 := a']> (edges g))) e2 s2
  = match apply_update g e2 s2 with
    | Some (g2, r) => Some (set_edges g2 (<[Z.to_nat e1 := a']> (edges g2)), r)
    | None => None
    end.
Proof.
  intros H1 Hne. unfold apply_update. cbn [num_edges edges set_edges].
  destruct ((e2 <? 0) || (e2 >=? num_edges g)) eqn:Hr; [done|].
  destruct (dle s2 0%Q); [done|].
  apply in_range_test in Hr.
  rewrite list_lookup_insert_ne by lia.
  destruct (edges g !! Z.to_nat e2) as [b|]; [|done].
  cbn [mbind option_bind]. unfold set_edges. cbn [nodes edges num_nodes num_edges].
  do 3 f_equal. apply list_insert_insert_ne. lia.
Qed.

(** X8.  Updates of two different edges commute: in either order they
    leave the same graph. *)
Theorem apply_update_commute (g : Graph) (e1 e2 : Z) (s1 s2 : double) :
  e1 <> e2 ->
  apply_updates g [(e1, s1); (e2, s2)] = apply_updates g [(e2, s2); (e1, s1)].
Proof.
  intros Hne. cbn [apply_updates].
  destruct (apply_update g e1 s1) as [[g1 r1]|] eqn:H1;
    destruct (apply_update g e2 s2) as [[g2 r2]|] eqn:H2;
    cbn [mbind option_bind]; [| | |done].
  - pose proof H1 as H1'. pose proof H2 as H2'.
    apply apply_update_graph in H1' as [->|(a & Hr1 & Hs1 & Ha & ->)];
      apply apply_update_graph in H2' as [->|(b & Hr2 & Hs2 & Hb & ->)].
    + by rewrite H1, H2.
    + rewrite H2, apply_update_after, H1 by (lia || congruence). done.
    + rewrite H1, apply_update_after, H2 by (lia || congruence). done.
    + rewrite !apply_update_after, H1, H2 by (lia || congruence).
      cbn [mbind option_bind]. unfold set_edges.
      cbn [nodes edges num_nodes num_edges].
      do 2 f_equal. apply list_insert_insert_ne. lia.
  - apply apply_update_graph in H1 as [->|(a & Hr1 & Hs1 & Ha & ->)].
    + by rewrite H2.
    + rewrite apply_update_after, H2 by (lia || congruence). done.
  - apply apply_update_graph in H2 as [->|(b & Hr2 & Hs2 & Hb & ->)].
    + by rewrite H1.
    + rewrite apply_update_after, H1 by (lia || congruence). done.
Qed.

Lemma apply_update_commute_witness :
  0 <> 1 /\
  apply_updates three_nodes [(0, (1 # 2)%Q); (1, (11 # 1)%Q)]
  = apply_updates three_nodes [(1, (11 # 1)%Q); (0, (1 # 2)%Q)].
Proof.
  split; [lia|]. apply (apply_update_commute three_nodes 0 1). lia.
Defined.

(** ** Travel times that are not negative *)

Lemma check_nonneg_edges_spec (g : Graph) :
  check_nonneg_edges g = true -> nonneg_edges g.
Proof.
  unfold check_nonneg_edges. rewrite forallb_forall. intros H i e He.
  specialize (H e). rewrite !andb_true_iff in H.
  destruct H as [[H1 H2] H3].
  { apply list_elem_of_In, list_elem_of_lookup. by exists i. }
  apply dle_true in H1, H2, H3. done.
Qed.

Lemma observe_nonneg (e : Edge) (s : double) :
  (0 < s)%Q -> (0 <= base_length e)%Q -> (0 <= ema_travel_time e)%Q ->
  (0 <= ema_travel_time (observe e s))%Q /\
  (0 <= current_travel_time (observe e s))%Q.
Proof.
  intros Hs Hlen Hema. cbn [observe ema_travel_time current_travel_time].
  assert (Hm : (0 <= base_length e / (if dlt s min_speed then min_speed else s))%Q).
  { apply Qle_shift_div_l.
    - destruct (dlt s min_speed); [reflexivity|done].
    - lra. }
  remember (base_length e / (if dlt s min_speed then min_speed else s))%Q as m.
  clear Heqm. unfold ema_alpha.
  destruct (observation_count e =? 0).
  - split; lra.
  - assert (H2 : ((2 # 10) * m + (1 - (2 # 10)) * ema_travel_time e
                  == (2 # 10) * m + (8 # 10) * ema_travel_time e)%Q) by ring.
    assert (0 <= (2 # 10) * m)%Q by (apply Qmult_le_0_compat; [done|lra]).
    assert (0 <= (8 # 10) * ema_travel_time e)%Q
      by (apply Qmult_le_0_compat; [done|lra]).
    split; lra.
Qed.

Lemma apply_update_nonneg (g g' : Graph) (eid : Z) (s : double) (r : string) :
  apply_update g eid s = Some (g', r) -> nonneg_edges g -> nonneg_edges g'.
Proof.
  intros H Hnn.
  apply apply_update_graph in H as [->|(e & Hr & Hs & He & ->)]; [done|].
  intros i ed Hed. cbn [edges set_edges] in Hed.
  destruct (decide (i = Z.to_nat eid)) as [->|Hne].
  - rewrite list_lookup_insert_eq in Hed by (by eapply lookup_lt_Some).
    injection Hed as <-. destruct (Hnn _ _ He) as (Hl & Hema & _).
    split; [done|]. by apply observe_nonneg.
  - rewrite list_lookup_insert_ne in Hed by done. by eapply Hnn.
Qed.

(** X9.  Traffic updates keep travel times from becoming negative: when
    no length and no travel time of the edge table is negative, the
    same holds after every sequence of [apply_update] calls, so that no
    edge the search follows has a negative weight. *)
Theorem apply_updates_nonneg (g g' : Graph) (ups : list (Z * double)) :
  nonneg_edges g -> apply_updates g ups = Some g' ->
  nonneg_edges g' /\ nonneg_weights g'.
Proof.
  intros Hnn Hrun.
  assert (Hnn' : nonneg_edges g').
  { revert g Hnn Hrun. induction ups as [|[eid s] ups IH]; intros g Hnn.
    - by intros [= <-].
    - cbn [apply_updates].
      destruct (apply_update g eid s) as [[g1 r]|] eqn:H1; [|done].
      cbn [mbind option_bind]. intros Hrun.
      apply (IH g1); [|done]. by eapply apply_update_nonneg. }
  split; [done|].
  intros u e v w (n & ed & _ & _ & _ & Hed & _ & _ & ->).
  by destruct (Hnn' _ _ Hed) as (_ & _ & H).
Qed.

Lemma apply_updates_nonneg_witness :
  nonneg_edges three_nodes /\
  apply_updates three_nodes [(1, (11 # 1)%Q)] = Some three_nodes_fast /\
  nonneg_edges three_nodes_fast /\ nonneg_weights three_nodes_fast.
Proof.
  assert (H : nonneg_edges three_nodes)
    by (apply check_nonneg_edges_spec; reflexivity).
  split; [exact H|]. split; [reflexivity|].
  apply (apply_updates_nonneg three_nodes three_nodes_fast [(1, (11 # 1)%Q)] H).
  reflexivity.
Defined.

(** ** The indexed heap: how the operations compose *)

Lemma heap_valid_spec (h : MinHeap) :
  heap_valid h -> (size h <= length (array h))%nat /\ heap_pos_ok h /\ heap_ordered h.
Proof. intros (Hcap & Hlen & Hok & Hord). split; [lia|done]. Qed.

(** X10.  Two calls of [extractMin] in a row on a valid heap of at
    least two nodes return two different nodes, the first with a key
    that is not above the key of the second, and leave a valid heap
    that is two nodes smaller. *)
Theorem extractMin_twice (h : MinHeap) :
  heap_valid h -> (2 <= size h)%nat ->
  exists r1 h1 r2 h2,
    extractMin h = Some (Some r1, h1) /\
    extractMin h1 = Some (Some r2, h2) /\
    (dist r1 <= dist r2)%Q /\ hnode_id r1 <> hnode_id r2 /\
    size h2 = (size h - 2)%nat /\ heap_valid h2.
Proof.
  intros Hv Hsize. pose proof Hv as (Hcap & Hlen & _).
  destruct (heap_valid_spec h Hv) as (Hla & Hok & Hord).
  destruct (extractMin_spec h) as (r1 & h1 & Hrun1 & _ & _ & Hmin & Hsz1 & Hc1
    & _ & Hla1 & Hok1 & Hord1 & Hent1 & _); try done; try lia.
  specialize (Hmin Hord). specialize (Hord1 Hord).
  destruct (extractMin_spec h1) as (r2 & h2 & Hrun2 & _ & He2 & _ & Hsz2 & Hc2
    & _ & Hla2 & Hok2 & Hord2 & _); try done; try lia.
  specialize (Hord2 Hord1).
  apply Hent1 in He2 as [He2 Hne].
  exists r1, h1, r2, h2. split; [done|]. split; [done|].
  split; [by eapply Hmin|]. split; [done|]. split; [lia|].
  split; [lia|]. split; [congruence|]. done.
Qed.

Lemma extractMin_twice_witness :
  heap_valid sample_heap /\ (2 <= size sample_heap)%nat /\
  exists r1 h1 r2 h2,
    extractMin sample_heap = Some (Some r1, h1) /\
    extractMin h1 = Some (Some r2, h2) /\
    (dist r1 <= dist r2)%Q /\ hnode_id r1 <> hnode_id r2 /\
    size h2 = (size sample_heap - 2)%nat /\ heap_valid h2.
Proof.
  assert (H2 : (2 <= size sample_heap)%nat) by (simpl; lia).
  split; [exact sample_heap_valid|]. split; [exact H2|].
  exact (extractMin_twice sample_heap sample_heap_valid H2).
Defined.

(** X11.  When [decreaseKey] gives a node of a valid heap a key that is
    below the key of every other node, the next [extractMin] returns
    that node with that key, and the other nodes stay in the heap with
    their keys. *)
Theorem decreaseKey_extractMin (h : MinHeap) (id : nat) (kold d : double) :
  heap_valid h -> heap_entry h id kold -> (d <= kold)%Q ->
  (forall v k, heap_entry h v k -> v <> id -> (d < k)%Q) ->
  exists h1 h2,
    decreaseKey h id d = Some h1 /\
    extractMin h1 = Some (Some (mkMinHeapNode id d), h2) /\
    heap_valid h2 /\
    (forall v k, heap_entry h2 v k <-> heap_entry h v k /\ v <> id).
Proof.
  intros Hv (p & Hpos & Hp & Harr) Hd Hothers.
  pose proof Hv as (Hcap & Hlen & _).
  destruct (heap_valid_spec h Hv) as (Hla & Hok & Hord).
  destruct (decreaseKey_spec h id p (mkMinHeapNode id kold) d)
    as (h1 & Hrun1 & Hsz1 & Hc1 & _ & Hla1 & Hok1 & Hord1 & Hent1 & _);
    try done.
  specialize (Hord1 Hord Hd). cbn [hnode_id] in Hent1.
  destruct (extractMin_spec h1) as (r & h2 & Hrun2 & _ & Her & Hmin & Hsz2 & Hc2
    & _ & Hla2 & Hok2 & Hord2 & Hent2 & _); try done; try lia.
  specialize (Hmin Hord1). specialize (Hord2 Hord1).
  assert (Hid : heap_entry h1 id d) by (apply Hent1; by left).
  assert (Hr : r = mkMinHeapNode id d).
  { pose proof (Hmin id d Hid) as Hle.
    apply Hent1 in Her as [[Hi Hk]|[Hne Her]].
    - destruct r; simpl in *; by subst.
    - pose proof (Hothers _ _ Her Hne). lra. }
  subst r. cbn [hnode_id] in Hent2.
  exists h1, h2. split; [done|]. split; [done|]. split.
  { split; [lia|]. split; [congruence|]. done. }
  intros v k. rewrite Hent2, Hent1. split.
  - intros [[[-> _]|[_ H]] Hne]; done.
  - intros [H Hne]. split; [|done]. by right.
Qed.

Lemma decreaseKey_extractMin_witness :
  heap_valid sample_heap /\ heap_entry sample_heap 1 (5 # 1)%Q /\
  exists h1 h2,
    decreaseKey sample_heap 1 (1 # 2)%Q = Some h1 /\
    extractMin h1 = Some (Some (mkMinHeapNode 1 (1 # 2)%Q), h2) /\
    heap_valid h2 /\
    (forall v k, heap_entry h2 v k <-> heap_entry sample_heap v k /\ v <> 1%nat).
Proof.
  assert (He : heap_entry sample_heap 1 (5 # 1)%Q)
    by (exists 1%nat; split; [reflexivity|split; [simpl; lia|reflexivity]]).
  split; [exact sample_heap_valid|]. split; [exact He|].
  apply (decreaseKey_extractMin sample_heap 1 (5 # 1)%Q (1 # 2)%Q
           sample_heap_valid He).
  - discriminate.
  - intros v k (p & Hpos & Hp & Harr) Hne.
    destruct v as [|[|[|v]]]; [| |..]; try done.
    + injection Hpos as <-. injection Harr as <-. reflexivity.
    + injection Hpos as <-. injection Harr as <-. reflexivity.
Defined.

(** With [pos] and [array] in agreement, [isInMinHeap] answers 1
    exactly for the nodes of the heap. *)
Lemma isInMinHeap_entry (h : MinHeap) (v : nat) :
  heap_pos_back h ->
  (isInMinHeap h v = Some true <-> exists k, heap_entry h v k).
Proof.
  intros Hback. rewrite isInMinHeap_true. split.
  - intros (i & Hpos & Hi).
    destruct (Hback v i Hpos Hi) as (n & Hn & Hid).
    exists (dist n), i. split; [done|]. split; [done|].
    destruct n; simpl in *; by subst.
  - intros (k & i & Hpos & Hi & _). by exists i.
Qed.

Lemma isInMinHeap_same (h h' : MinHeap) (v : nat) :
  heap_pos_back h -> heap_pos_back h' ->
  length (pos h') = length (pos h) ->
  ((exists k, heap_entry h' v k) <-> (exists k, heap_entry h v k)) ->
  (heap_out h v -> heap_out h' v) ->
  isInMinHeap h' v = isInMinHeap h v.
Proof.
  intros Hb Hb' Hlen Hent Hout.
  destruct (isInMinHeap h v) as [[|]|] eqn:E.
  - apply isInMinHeap_entry; [done|]. apply Hent. by apply isInMinHeap_entry.
  - apply isInMinHeap_false. apply Hout. by apply isInMinHeap_false.
  - unfold isInMinHeap in *.
    destruct (pos h !! v) as [p|] eqn:Hp; [done|].
    apply lookup_ge_None in Hp.
    rewrite (proj2 (lookup_ge_None (pos h') v)); [done|lia].
Qed.

(** X12.  [extractMin] takes the root out of a valid heap and no other
    node: every other node stays in the heap with its key, and
    [isInMinHeap] answers for it what it answered before. *)
Theorem extractMin_others (h : MinHeap) :
  heap_valid h -> heap_pos_back h -> (0 < size h)%nat ->
  exists root h',
    extractMin h = Some (Some root, h') /\
    array h !! 0%nat = Some root /\
    (forall v k, heap_entry h' v k <-> heap_entry h v k /\ v <> hnode_id root) /\
    (forall v, v <> hnode_id root -> isInMinHeap h' v = isInMinHeap h v) /\
    heap_pos_back h'.
Proof.
  intros Hv Hback Hsize.
  destruct (heap_valid_spec h Hv) as (Hla & Hok & Hord).
  destruct (extractMin_spec h) as (root & h' & Hrun & Hroot & _ & _ & _ & _
    & Hlp & _ & _ & _ & Hent & _ & Hout & Hback'); try done.
  specialize (Hback' Hback).
  exists root, h'. split; [done|]. split; [done|]. split; [done|].
  split; [|done].
  intros v Hne. apply isInMinHeap_same; [done|done|done| |by apply Hout].
  split; intros [k Hk]; exists k.
  - by apply Hent in Hk as [Hk _].
  - apply Hent. by split.
Qed.

Lemma sample_heap_pos_back : heap_pos_back sample_heap.
Proof.
  intros v p Hpos Hp.
  destruct v as [|[|[|v]]]; [| | |done]; injection Hpos as <-;
    eexists; (split; [reflexivity|reflexivity]).
Qed.

Lemma extractMin_others_witness :
  heap_valid sample_heap /\ heap_pos_back sample_heap /\
  exists root h',
    extractMin sample_heap = Some (Some root, h') /\
    array sample_heap !! 0%nat = Some root /\
    (forall v k, heap_entry h' v k
       <-> heap_entry sample_heap v k /\ v <> hnode_id root) /\
    (forall v, v <> hnode_id root -> isInMinHeap h' v = isInMinHeap sample_heap v) /\
    heap_pos_back h'.
Proof.
  split; [exact sample_heap_valid|]. split; [exact sample_heap_pos_back|].
  apply (extractMin_others sample_heap sample_heap_valid sample_heap_pos_back).
  simpl. lia.
Defined.

(** X13.  [decreaseKey] writes the key of one node and moves no node in
    or out of the heap, whatever the new key is: the other nodes keep
    their keys, and [isInMinHeap] answers for every node what it
    answered before. *)
Theorem decreaseKey_others (h : MinHeap) (id : nat) (kold d : double) :
  heap_valid h -> heap_pos_back h -> heap_entry h id kold ->
  exists h',
    decreaseKey h id d = Some h' /\ size h' = size h /\
    (forall v k, heap_entry h' v k
       <-> (v = id /\ k = d) \/ (v <> id /\ heap_entry h v k)) /\
    (forall v, isInMinHeap h' v = isInMinHeap h v) /\
    heap_pos_back h'.
Proof.
  intros Hv Hback (p & Hpos & Hp & Harr).
  destruct (heap_valid_spec h Hv) as (Hla & Hok & Hord).
  destruct (decreaseKey_spec h id p (mkMinHeapNode id kold) d)
    as (h' & Hrun & Hsz & _ & Hlp & _ & _ & _ & Hent & Hout & Hback');
    try done.
  specialize (Hback' Hback). cbn [hnode_id] in Hent.
  exists h'. split; [done|]. split; [done|]. split; [done|]. split; [|done].
  intros v. apply isInMinHeap_same; [done|done|done| |by apply Hout].
  split; intros [k Hk].
  - apply Hent in Hk as [[-> _]|[_ Hk]]; [exists kold; by exists p|by exists k].
  - destruct (decide (v = id)) as [->|Hne].
    + exists d. apply Hent. by left.
    + exists k. apply Hent. by right.
Qed.

Lemma decreaseKey_others_witness :
  heap_valid sample_heap /\ heap_pos_back sample_heap /\
  heap_entry sample_heap 2 (3 # 1)%Q /\
  exists h',
    decreaseKey sample_heap 2 (7 # 1)%Q = Some h' /\ size h' = size sample_heap /\
    (forall v k, heap_entry h' v k
       <-> (v = 2%nat /\ k = (7 # 1)%Q) \/ (v <> 2%nat /\ heap_entry sample_heap v k)) /\
    (forall v, isInMinHeap h' v = isInMinHeap sample_heap v) /\
    heap_pos_back h'.
Proof.
  assert (He : heap_entry sample_heap 2 (3 # 1)%Q)
    by (exists 2%nat; split; [reflexivity|split; [simpl; lia|reflexivity]]).
  split; [exact sample_heap_valid|]. split; [exact sample_heap_pos_back|].
  split; [exact He|].
  exact (decreaseKey_others sample_heap 2 (3 # 1)%Q (7 # 1)%Q
           sample_heap_valid sample_heap_pos_back He).
Defined.

(** X14.  On a valid heap [minHeapify] changes nothing, at whatever
    slot of the heap it is called. *)
Theorem minHeapify_valid (h : MinHeap) (idx : nat) :
  heap_valid h -> (idx < size h)%nat -> minHeapify h idx = Some h.
Proof.
  intros Hv Hidx. destruct (heap_valid_spec h Hv) as (Hla & Hok & Hord).
  destruct (lookup_lt_is_Some_2 (array h) idx ltac:(lia)) as [ni Hni].
  assert (Hpick : forall child, ((child - 1) / 2)%nat = idx -> (0 < child)%nat ->
            pick_smaller h child idx = Some idx).
  { intros child Hpar Hc. unfold pick_smaller.
    destruct (child <? size h)%nat eqn:E; [|done].
    apply Nat.ltb_lt in E.
    destruct (lookup_lt_is_Some_2 (array h) child ltac:(lia)) as [nc Hnc].
    rewrite Hnc, Hni. cbn [mbind option_bind].
    replace (dlt (dist nc) (dist ni)) with false; [done|].
    symmetry. apply dlt_false. apply (Hord child nc ni); [lia|done|].
    by rewrite Hpar. }
  unfold minHeapify. cbn [minHeapify_rec].
  rewrite (Hpick (2 * idx + 1)%nat); [|
    replace (2 * idx + 1 - 1)%nat with (idx * 2)%nat by lia;
    by rewrite Nat.div_mul|lia].
  cbn [mbind option_bind].
  rewrite (Hpick (2 * idx + 2)%nat); [|
    replace (2 * idx + 2 - 1)%nat with (1 + idx * 2)%nat by lia;
    by rewrite Nat.div_add by lia|lia].
  cbn [mbind option_bind]. by rewrite Nat.eqb_refl.
Qed.

Lemma minHeapify_valid_witness :
  heap_valid sample_heap /\ (0 < size sample_heap)%nat /\
  minHeapify sample_heap 0 = Some sample_heap.
Proof.
  split; [exact sample_heap_valid|]. split; [simpl; lia|].
  apply (minHeapify_valid sample_heap 0 sample_heap_valid). simpl. lia.
Defined.

(** ** The search: the shape of the path and the caller's buffers *)

Lemma parent_chain_mono (par : list Z) (room : nat) :
  forall room' v l, (room <= room')%nat ->
  parent_chain room par v = Some l -> parent_chain room' par v = Some l.
Proof.
  induction room as [|room IH]; intros room' v l Hle; cbn [parent_chain].
  - destruct (v =? -1) eqn:E; [|done]. intros [= <-].
    destruct room'; cbn [parent_chain]; by rewrite E.
  - destruct (v =? -1) eqn:E.
    { intros [= <-]. destruct room'; cbn [parent_chain]; by rewrite E. }
    destruct room' as [|room']; [lia|]. cbn [parent_chain]. rewrite E.
    destruct (v <? 0); [done|].
    destruct (par !! Z.to_nat v) as [p|]; [|done]. cbn [mbind option_bind].
    destruct (parent_chain room par p) as [rest|] eqn:Hrest; [|done].
    rewrite (IH room' p rest); [done|lia|done].
Qed.

Lemma parent_chain_cons (par : list Z) (room : nat) (v : Z) (l : list Z) :
  parent_chain room par v = Some l -> v <> -1 ->
  exists room' p rest, room = S room' /\ 0 <= v /\
    par !! Z.to_nat v = Some p /\ parent_chain room' par p = Some rest /\
    l = v :: rest.
Proof.
  intros H Hne. destruct room as [|room]; cbn [parent_chain] in H;
    replace (v =? -1) with false in H by (symmetry; by apply Z.eqb_neq);
    [done|].
  destruct (v <? 0) eqn:Hneg; [done|]. apply Z.ltb_ge in Hneg.
  destruct (par !! Z.to_nat v) as [p|] eqn:Hp; [|done].
  cbn [mbind option_bind] in H.
  destruct (parent_chain room par p) as [rest|] eqn:Hrest; [|done].
  injection H as <-. by exists room, p, rest.
Qed.

Lemma parent_chain_elem (par : list Z) (room : nat) :
  forall v l x, parent_chain room par v = Some l -> x ∈ l ->
  0 <= x /\ (Z.to_nat x < length par)%nat /\
  exists l', parent_chain room par x = Some l' /\ (length l' <= length l)%nat.
Proof.
  induction room as [|room IH]; intros v l x H Hin.
  - cbn [parent_chain] in H. destruct (v =? -1); [|done].
    injection H as <-. by apply elem_of_nil in Hin.
  - destruct (Z.eq_dec v (-1)) as [->|Hne].
    { cbn [parent_chain] in H. injection H as <-. by apply elem_of_nil in Hin. }
    pose proof H as H0.
    apply parent_chain_cons in H as (room' & p & rest & [= <-] & Hv & Hp & Hrest & ->);
      [|done].
    apply elem_of_cons in Hin as [->|Hin].
    + split; [done|]. split; [by eapply lookup_lt_Some|]. by exists (v :: rest).
    + destruct (IH p rest x Hrest Hin) as (Hx & Hlt & l' & Hl' & Hlen).
      split; [done|]. split; [done|]. exists l'. split.
      * by apply (parent_chain_mono par room (S room)); [lia|].
      * simpl. lia.
Qed.

Lemma parent_chain_NoDup (par : list Z) (room : nat) :
  forall v l, parent_chain room par v = Some l ->
  NoDup l /\ (length l <= room)%nat.
Proof.
  induction room as [|room IH]; intros v l H.
  - cbn [parent_chain] in H. destruct (v =? -1); [|done].
    injection H as <-. split; [constructor|done].
  - destruct (Z.eq_dec v (-1)) as [->|Hne].
    { cbn [parent_chain] in H. injection H as <-. split; [constructor|simpl; lia]. }
    pose proof H as H0.
    apply parent_chain_cons in H as (room' & p & rest & [= <-] & Hv & Hp & Hrest & ->);
      [|done].
    destruct (IH p rest Hrest) as [Hnd Hlen]. split; [|simpl; lia].
    constructor; [|done]. intros Hin.
    destruct (parent_chain_elem par room p rest v Hrest Hin)
      as (_ & _ & l' & Hl' & Hle).
    apply (parent_chain_mono par room (S room)) in Hl'; [|lia].
    rewrite H0 in Hl'. injection Hl' as <-. simpl in Hle. lia.
Qed.

Lemma path_edges_length (g : Graph) (node_path edge_path : list Z) :
  path_edges g node_path edge_path ->
  length edge_path = (length node_path - 1)%nat /\
  (forall e, e ∈ edge_path -> 0 <= e < num_edges g).
Proof.
  induction 1 as [u|u v rest eid es Hedge Hrest [IH1 IH2]].
  - split; [done|]. intros e He. by apply elem_of_nil in He.
  - split; [simpl in *; lia|].
    intros e He. apply elem_of_cons in He as [->|He]; [|by apply IH2].
    by destruct Hedge as (_ & Hr & _).
Qed.

Section RouteAnatomy.
Variable sqrt : double -> double.
Variable graph : Graph.
Variables s t : nat.
Hypothesis Hwf : graph_wf graph.
Hypothesis Hs : Z.of_nat s < num_nodes graph.
Hypothesis Ht : Z.of_nat t < num_nodes graph.

Local Abbreviation V := (Z.to_nat (num_nodes graph)).

(** The steps of [find_route_a_star_path] after the main loop, when it
    returns a route. *)
Lemma find_route_anatomy (max_edges max_nodes : Z) (cost : double)
    (node_path edge_path : list Z) :
  find_route_a_star_path sqrt graph (Z.of_nat s) (Z.of_nat t) max_edges max_nodes
  = Some (Route cost node_path edge_path) ->
  exists hp st rev_path,
    decreaseKey (minHeap (astar_init V)) s (hval sqrt graph t s) = Some hp /\
    astar_loop sqrt graph (Z.of_nat t) (S V)
      (search_start V s (hval sqrt graph t s) hp) = Some (true, st) /\
    parent_chain V (parent st) (Z.of_nat t) = Some rev_path /\
    node_path = rev rev_path /\
    Z.of_nat (length node_path) <= max_nodes /\
    path_to_edges graph max_edges node_path 0 = Some (inr edge_path) /\
    g_score st !! t = Some cost.
Proof.
  destruct (search_runs sqrt graph s t Hwf Hs Ht)
    as (hp & found & st & Hdec & Hrun & Hinv & Hfound).
  rewrite (find_route_unfold sqrt graph s t Hwf Hs Ht _ _ hp Hdec), Hrun.
  cbn [mbind option_bind]. destruct found; [|done]. cbn [negb].
  destruct (parent_chain V (parent st) (Z.of_nat t)) as [rev_path|] eqn:Hchain;
    [|done].
  cbn [mbind option_bind].
  destruct (Z.of_nat (length (rev rev_path)) >? max_nodes) eqn:Hlen; [done|].
  destruct (path_to_edges graph max_edges (rev rev_path) 0)
    as [[rc|es]|] eqn:Hedges; cbn [mbind option_bind]; [done| |done].
  rewrite Nat2Z.id.
  destruct (g_score st !! t) as [gt|] eqn:Hgt; [|done].
  cbn [mbind option_bind]. intros [= <- <- <-].
  exists hp, st, rev_path. repeat split; try done.
  rewrite Z.gtb_ltb in Hlen. apply Z.ltb_ge in Hlen. lia.
Qed.

End RouteAnatomy.

(** X15.  A route that [find_route_a_star_path] returns visits no node
    twice.  Its node path has at most [num_nodes] entries, all of them
    node ids of the graph, and its edge path has one entry less, all of
    them edge ids of the graph: the buffers [build_route_response]
    allocates are never too small for it. *)
Theorem route_simple_path (sqrt : double -> double) (g : Graph)
    (s t max_edges max_nodes : Z) (cost : double) (node_path edge_path : list Z) :
  graph_wf g -> 0 <= s < num_nodes g -> 0 <= t < num_nodes g ->
  find_route_a_star_path sqrt g s t max_edges max_nodes
  = Some (Route cost node_path edge_path) ->
  NoDup node_path /\
  0 < Z.of_nat (length node_path) <= num_nodes g /\
  length edge_path = (length node_path - 1)%nat /\
  (forall v, v ∈ node_path -> 0 <= v < num_nodes g) /\
  (forall e, e ∈ edge_path -> 0 <= e < num_edges g).
Proof.
  intros Hwf Hs Ht Hrun.
  rewrite <- (Z2Nat.id s), <- (Z2Nat.id t) in Hrun by lia.
  pose proof (find_route_sound sqrt g (Z.to_nat s) (Z.to_nat t) Hwf
                ltac:(lia) ltac:(lia) _ _ _ _ _ Hrun)
    as (Hhd & _ & Hedges & _).
  destruct (find_route_anatomy sqrt g (Z.to_nat s) (Z.to_nat t) Hwf
              ltac:(lia) ltac:(lia) _ _ _ _ _ Hrun)
    as (hp & st & rev_path & Hdec & Hloop & Hchain & -> & _ & _ & _).
  destruct (search_runs sqrt g (Z.to_nat s) (Z.to_nat t) Hwf ltac:(lia) ltac:(lia))
    as (hp' & found & st' & Hdec' & Hloop' & Hinv & _).
  rewrite Hdec in Hdec'. injection Hdec' as <-.
  rewrite Hloop in Hloop'. injection Hloop' as <- <-.
  destruct Hinv as (_ & _ & Hlp & _).
  destruct (parent_chain_NoDup _ _ _ _ Hchain) as [Hnd Hlen].
  destruct (path_edges_length g _ _ Hedges) as [Hel Her].
  rewrite rev_reverse in *. rewrite length_reverse in *.
  split; [by rewrite reverse_Permutation|]. split.
  { split; [|lia]. destruct rev_path; [done|simpl; lia]. }
  split; [done|]. split; [|done].
  intros v Hv. rewrite elem_of_reverse in Hv.
  destruct (parent_chain_elem _ _ _ _ v Hchain Hv) as (H0 & Hlt & _). lia.
Qed.

Lemma route_simple_path_witness :
  graph_wf three_nodes /\
  find_route_a_star_path sqrt_exact three_nodes 0 2 3 3
  = Some (Route (15 # 1)%Q [0; 2] [2]) /\
  NoDup [0; 2] /\
  0 < Z.of_nat (length [0; 2]) <= num_nodes three_nodes /\
  length [2] = (length [0; 2] - 1)%nat /\
  (forall v, v ∈ [0; 2] -> 0 <= v < num_nodes three_nodes) /\
  (forall e, e ∈ [2] -> 0 <= e < num_edges three_nodes).
Proof.
  assert (Hwf : graph_wf three_nodes) by (split; reflexivity).
  split; [exact Hwf|]. split; [vm_compute; reflexivity|].
  apply (route_simple_path sqrt_exact three_nodes 0 2 3 3 (15 # 1)%Q [0; 2] [2] Hwf).
  - cbn; lia.
  - cbn; lia.
  - vm_compute; reflexivity.
Defined.

(** The edge path for a smaller buffer. *)
Lemma path_to_edges_room (g : Graph) (big max_edges : Z) (l : list Z) :
  forall k k' es, path_to_edges g big l k' = Some (inr es) ->
  path_to_edges g max_edges l k
  = Some (if (0 <? Z.of_nat (length es)) && (max_edges <? k + Z.of_nat (length es))
          then inl 16 else inr es).
Proof.
  induction l as [|a l IH]; intros k k' es.
  { intros [= <-]. done. }
  destruct l as [|b l]. { intros [= <-]. done. }
  rewrite !path_to_edges_cons.
  destruct (find_edge_id g a b) as [e|]; [|done]. cbn [mbind option_bind].
  destruct (e <? 0); [done|].
  destruct (k' >=? big); [done|].
  destruct (path_to_edges g big (b :: l) (k' + 1)) as [[rc|es']|] eqn:Hrest;
    cbn [mbind option_bind]; [done| |done].
  intros [= <-]. cbn [length].
  replace (0 <? Z.of_nat (S (length es'))) with true
    by (symmetry; apply Z.ltb_lt; lia).
  cbn [andb].
  destruct (k >=? max_edges) eqn:Hk.
  - rewrite Z.geb_leb in Hk. apply Z.leb_le in Hk.
    replace (max_edges <? k + Z.of_nat (S (length es'))) with true; [done|].
    symmetry. apply Z.ltb_lt. lia.
  - rewrite Z.geb_leb in Hk. apply Z.leb_gt in Hk.
    rewrite (IH (k + 1) (k' + 1) es' Hrest). cbn [mbind option_bind].
    destruct (0 <? Z.of_nat (length es')) eqn:H0; cbn [andb].
    + replace (max_edges <? k + Z.of_nat (S (length es')))
        with (max_edges <? k + 1 + Z.of_nat (length es')) by (f_equal; lia).
      by destruct (max_edges <? k + 1 + Z.of_nat (length es')).
    + apply Z.ltb_ge in H0.
      replace (max_edges <? k + Z.of_nat (S (length es'))) with false; [done|].
      symmetry. apply Z.ltb_ge. lia.
Qed.

(** X16.  The buffer sizes the caller passes decide between a route
    and the return codes 17 and 16, and nothing else: when
    [find_route_a_star_path] returns a route for some sizes, then for
    all sizes it returns 17 if the node path has more than [max_nodes]
    entries, otherwise 16 if the edge path has more than [max_edges]
    entries (or is not empty while [max_edges] is negative), and
    otherwise that same route. *)
Theorem route_buffer_sizes (sqrt : double -> double) (g : Graph)
    (s t max_edges0 max_nodes0 max_edges max_nodes : Z) (cost : double)
    (node_path edge_path : list Z) :
  graph_wf g -> 0 <= s < num_nodes g -> 0 <= t < num_nodes g ->
  find_route_a_star_path sqrt g s t max_edges0 max_nodes0
  = Some (Route cost node_path edge_path) ->
  find_route_a_star_path sqrt g s t max_edges max_nodes
  = Some (if max_nodes <? Z.of_nat (length node_path) then RouteError 17
          else if Z.max 0 max_edges <? Z.of_nat (length edge_path)
               then RouteError 16
               else Route cost node_path edge_path).
Proof.
  intros Hwf Hs Ht Hrun.
  assert (Hsn : exists sn, s = Z.of_nat sn) by (exists (Z.to_nat s); lia).
  assert (Htn : exists tn, t = Z.of_nat tn) by (exists (Z.to_nat t); lia).
  destruct Hsn as [sn ->], Htn as [tn ->].
  destruct (find_route_anatomy sqrt g sn tn Hwf
              ltac:(lia) ltac:(lia) _ _ _ _ _ Hrun)
    as (hp & st & rev_path & Hdec & Hloop & Hchain & -> & _ & Hedges & Hcost).
  rewrite (find_route_unfold sqrt g sn tn Hwf ltac:(lia) ltac:(lia) _ _ hp Hdec).
  rewrite Hloop. cbn [mbind option_bind negb]. rewrite Hchain.
  cbn [mbind option_bind]. rewrite Z.gtb_ltb.
  destruct (max_nodes <? Z.of_nat (length (rev rev_path))); [done|].
  rewrite (path_to_edges_room g max_edges0 max_edges _ 0 0 _ Hedges).
  cbn [mbind option_bind].
  replace ((0 <? Z.of_nat (length edge_path))
           && (max_edges <? 0 + Z.of_nat (length edge_path)))
    with (Z.max 0 max_edges <? Z.of_nat (length edge_path)).
  2:{ destruct (Z.max 0 max_edges <? Z.of_nat (length edge_path)) eqn:E.
      - apply Z.ltb_lt in E. symmetry. apply andb_true_iff.
        rewrite !Z.ltb_lt. lia.
      - apply Z.ltb_ge in E. symmetry. apply andb_false_iff.
        rewrite !Z.ltb_ge. lia. }
  destruct (Z.max 0 max_edges <? Z.of_nat (length edge_path)); [done|].
  rewrite Nat2Z.id, Hcost. done.
Qed.

Lemma route_buffer_sizes_witness :
  graph_wf three_nodes /\
  find_route_a_star_path sqrt_exact three_nodes 0 2 3 3
  = Some (Route (15 # 1)%Q [0; 2] [2]) /\
  find_route_a_star_path sqrt_exact three_nodes 0 2 0 3
  = Some (if 3 <? Z.of_nat (length [0; 2]) then RouteError 17
          else if Z.max 0 0 <? Z.of_nat (length [2]) then RouteError 16
               else Route (15 # 1)%Q [0; 2] [2]).
Proof.
  assert (Hwf : graph_wf three_nodes) by (split; reflexivity).
  split; [exact Hwf|]. split; [vm_compute; reflexivity|].
  apply (route_buffer_sizes sqrt_exact three_nodes 0 2 3 3 0 3 _ _ _ Hwf).
  - cbn; lia.
  - cbn; lia.
  - vm_compute; reflexivity.
Defined.

(** ** Stripping the end of a line *)

(** X17.  [trim_crlf] splits a line into what it keeps and a tail made
    of carriage returns and line feeds only, and what it keeps is empty
    or ends with another character; no other string does.  Trimming a
    second time changes nothing. *)
Theorem trim_crlf_decompose (s : string) :
  (forall p, trim_crlf s = p <->
     exists t, s = (p ++ t)%string /\ crlf_only t = true /\
       (p = EmptyString \/ last_not_crlf p)) /\
  trim_crlf (trim_crlf s) = trim_crlf s.
Proof.
  assert (Hex : forall s, exists t, s = (trim_crlf s ++ t)%string /\
            crlf_only t = true /\
            (trim_crlf s = EmptyString \/ last_not_crlf (trim_crlf s))).
  { clear s. induction s as [|c s (t & Hs & Ht & Hlast)].
    - exists EmptyString. split; [done|]. split; [done|]. by left.
    - cbn [trim_crlf]. destruct (trim_crlf s) as [|d u] eqn:Htrim.
      + simpl in Hs. subst t.
        destruct (Ascii.eqb c "010" || Ascii.eqb c "013") eqn:Hc.
        * exists (String c s). split; [done|]. split; [|by left].
          simpl. by rewrite Hc.
        * exists s. split; [done|]. split; [done|]. right.
          by exists EmptyString, c.
      + exists t. split; [simpl in *; by rewrite <- Hs|]. split; [done|].
        right. destruct Hlast as [Hlast|(s' & c' & Heq & Hc')]; [done|].
        exists (String c s'), c'. split; [|done]. simpl. by rewrite Heq. }
  assert (Huniq : forall p t, crlf_only t = true ->
            p = EmptyString \/ last_not_crlf p -> trim_crlf (p ++ t) = p).
  { intros p t Ht [->|Hp].
    - by rewrite (trim_crlf_app_crlf EmptyString t Ht).
    - by rewrite (trim_crlf_app_crlf p t Ht), trim_crlf_id. }
  split.
  - intros p. split.
    + intros <-. apply Hex.
    + intros (t & -> & Ht & Hp). by apply Huniq.
  - destruct (Hex s) as (t & _ & _ & Hlast).
    rewrite <- (string_app_nil_r (trim_crlf s)) at 1. by apply Huniq.
Qed.

(** ** Lines the command patterns accept besides the grammar *)

(** [%d] on an integer with an optional minus sign, after any white
    space. *)
Lemma scan_d_signed (ws s rest : string) (neg : bool) :
  all_space ws = true -> int_text s -> no_digit_ahead rest ->
  scan_d (skip_ws (ws ++ sign_text neg ++ s ++ rest))
  = Some (signed neg (digits_value s 0), rest).
Proof.
  intros Hws Hfit Hrest. pose proof Hfit as [Hs _].
  rewrite scan_d_skip_ws. apply scan_d_shape.
  exists ws, (sign_text neg), s. do 2 (split; [done|]).
  split; [destruct neg; [right; by right|by left]|].
  do 2 (split; [done|]).
  destruct neg; unfold sign_text, signed.
  - change (String.eqb "-" "-") with true. cbv iota.
    symmetry. apply (int_text_scanf s true Hfit).
  - change (String.eqb EmptyString "-") with false. cbv iota.
    symmetry. apply (int_text_scanf s false Hfit).
Qed.

(** X18.  The pattern [REQ %d %d] accepts more than the lines of the
    grammar: any white space, or none, may follow [REQ]; both numbers
    may carry a minus sign; white space, or the sign of the second
    number alone, separates the numbers; and whatever follows the
    second number is ignored. *)
Theorem sscanf_REQ_lenient (ws1 ws2 a b rest : string) (na nb : bool) :
  all_space ws1 = true -> all_space ws2 = true ->
  ws2 <> EmptyString \/ nb = true ->
  int_text a -> int_text b -> no_digit_ahead rest ->
  sscanf_REQ ("REQ" ++ ws1 ++ sign_text na ++ a
              ++ ws2 ++ sign_text nb ++ b ++ rest)
  = Some (signed na (digits_value a 0), signed nb (digits_value b 0)).
Proof.
  intros Hws1 Hws2 Hsep Ha Hb Hrest. unfold sscanf_REQ.
  rewrite match_literal_app. cbn [mbind option_bind].
  rewrite (scan_d_signed ws1 a _ na); [|done|done|].
  - cbn [mbind option_bind].
    rewrite (scan_d_signed ws2 b rest nb) by done. done.
  - destruct ws2 as [|c ws2].
    + destruct Hsep as [H| ->]; [done|]. reflexivity.
    + simpl in Hws2. apply andb_true_iff in Hws2 as [Hc _].
      simpl. unfold isdigit, isspace in *.
      destruct (48 <=? nat_of_ascii c)%nat eqn:E1; [|done].
      destruct (nat_of_ascii c <=? 57)%nat eqn:E2; [|done].
      apply Nat.leb_le in E1, E2.
      apply orb_true_iff in Hc as [Hc|Hc].
      * apply Nat.eqb_eq in Hc. lia.
      * apply andb_true_iff in Hc as [_ Hc]. apply Nat.leb_le in Hc. lia.
Qed.

Lemma sscanf_REQ_lenient_witness :
  sscanf_REQ "REQ3-7 and more" = Some (3, -7).
Proof.
  apply (sscanf_REQ_lenient EmptyString EmptyString "3" "7"
           " and more" false true).
  - reflexivity.
  - reflexivity.
  - by right.
  - split; [split; [reflexivity|discriminate]|vm_compute; discriminate].
  - split; [split; [reflexivity|discriminate]|vm_compute; discriminate].
  - reflexivity.
Defined.

(** ** The search that prints its result *)

Lemma path_text_app (a b : list Z) :
  path_text (a ++ b) = (path_text a ++ path_text b)%string.
Proof.
  induction a as [|x a IH]; [done|]. cbn [path_text app].
  by rewrite IH, !string_app_assoc.
Qed.

(** [print_path] writes the chain of parents, start first. *)
Lemma print_path_chain (par : list Z) (fuel : nat) :
  forall v,
  print_path fuel par v = (l ← parent_chain fuel par v; Some (path_text (rev l))).
Proof.
  induction fuel as [|fuel IH]; intros v; cbn [print_path parent_chain].
  - by destruct (v =? -1).
  - destruct (v =? -1); [done|]. destruct (v <? 0); [done|].
    destruct (par !! Z.to_nat v) as [p|]; [|done]. cbn [mbind option_bind].
    rewrite IH. destruct (parent_chain fuel par p) as [rest|]; [|done].
    cbn [mbind option_bind rev]. rewrite path_text_app. reflexivity.
Qed.

Lemma path_to_edges_codes (g : Graph) (max_edges : Z) (l : list Z) :
  forall k rc, path_to_edges g max_edges l k = Some (inl rc) -> rc = 15 \/ rc = 16.
Proof.
  induction l as [|a l IH]; intros k rc; [done|].
  destruct l as [|b l]; [done|]. rewrite path_to_edges_cons.
  destruct (find_edge_id g a b) as [e|]; [|done]. cbn [mbind option_bind].
  destruct (e <? 0); [intros [= <-]; by left|].
  destruct (k >=? max_edges); [intros [= <-]; by right|].
  destruct (path_to_edges g max_edges (b :: l) (k + 1)) as [[rc'|es]|] eqn:Hrest;
    cbn [mbind option_bind]; [|done|done].
  intros [= <-]. by eapply IH.
Qed.

Section PrintingSearch.
Variable sqrt : double -> double.
Variable graph : Graph.
Variables s t : nat.
Hypothesis Hwf : graph_wf graph.
Hypothesis Hs : Z.of_nat s < num_nodes graph.
Hypothesis Ht : Z.of_nat t < num_nodes graph.

Local Abbreviation V := (Z.to_nat (num_nodes graph)).

Lemma find_route_a_star_unfold (hp : MinHeap) :
  decreaseKey (minHeap (astar_init V)) s (hval sqrt graph t s) = Some hp ->
  find_route_a_star sqrt graph (Z.of_nat s) (Z.of_nat t)
  = ('(found, st) ← astar_loop sqrt graph (Z.of_nat t) (S V)
                      (search_start V s (hval sqrt graph t s) hp);
     if (found : bool) then
       gu ← g_score st !! t;
       path ← print_path V (parent st) (Z.of_nat t);
       Some (search_banner (Z.of_nat s) (Z.of_nat t)
             ++ "Destination reached! Cost: " ++ fmt_4f gu ++ nl
             ++ "Path: " ++ path ++ nl)%string
     else Some (search_banner (Z.of_nat s) (Z.of_nat t)
                ++ "No path found." ++ nl)%string).
Proof.
  intros Hdec. unfold find_route_a_star.
  replace ((Z.of_nat s <? 0) || (Z.of_nat s >=? num_nodes graph)
           || (Z.of_nat t <? 0) || (Z.of_nat t >=? num_nodes graph))
    with false.
  2:{ symmetry. rewrite !orb_false_iff, !Z.ltb_ge, !Z.geb_leb, !Z.leb_gt. lia. }
  cbn [g_score f_score parent minHeap astar_init].
  rewrite !Nat2Z.id.
  rewrite store_lt by (rewrite length_replicate; lia). cbn [mbind option_bind].
  rewrite heuristic_hval by done. cbn [mbind option_bind].
  rewrite store_lt by (rewrite length_replicate; lia). cbn [mbind option_bind].
  rewrite list_lookup_insert_eq by (rewrite length_replicate; lia).
  cbn [mbind option_bind].
  change (mkMinHeap V V (seq 0 V) (map (fun i => newMinHeapNode i DBL_MAX) (seq 0 V)))
    with (minHeap (astar_init V)).
  rewrite Hdec. cbn [mbind option_bind].
  unfold search_banner, search_start.
  destruct (astar_loop _ _ _ _ _) as [[found st]|]; [|done].
  cbn [mbind option_bind]. destruct found; [|by rewrite !string_app_assoc].
  destruct (g_score st !! t); [|done]. cbn [mbind option_bind].
  destruct (print_path V (parent st) (Z.of_nat t)); [|done].
  cbn [mbind option_bind]. by rewrite !string_app_assoc.
Qed.

End PrintingSearch.

(** X19.  [find_route_a_star] prints what [find_route_a_star_path]
    returns: for node ids inside the graph it prints the line
    [No path found.] exactly when the other returns 1, and when the
    other returns a route (its buffers having room for one node per
    node of the graph) it prints the cost of that route with four
    decimals and the nodes of its node path, start first. *)
Theorem find_route_a_star_agrees (sqrt : double -> double) (g : Graph) (s t : Z) :
  graph_wf g -> 0 <= s < num_nodes g -> 0 <= t < num_nodes g ->
  (find_route_a_star sqrt g s t
   = Some (search_banner s t ++ "No path found." ++ nl)%string
   <-> find_route_a_star_path sqrt g s t (num_nodes g) (num_nodes g)
       = Some (RouteError 1)) /\
  (forall cost node_path edge_path,
     find_route_a_star_path sqrt g s t (num_nodes g) (num_nodes g)
     = Some (Route cost node_path edge_path) ->
     find_route_a_star sqrt g s t
     = Some (search_banner s t
             ++ "Destination reached! Cost: " ++ fmt_4f cost ++ nl
             ++ "Path: " ++ path_text node_path ++ nl)%string).
Proof.
  intros Hwf Hs Ht.
  assert (Hsn : exists sn, s = Z.of_nat sn) by (exists (Z.to_nat s); lia).
  assert (Htn : exists tn, t = Z.of_nat tn) by (exists (Z.to_nat t); lia).
  destruct Hsn as [sn ->], Htn as [tn ->].
  destruct (search_runs sqrt g sn tn Hwf ltac:(lia) ltac:(lia))
    as (hp & found & st & Hdec & Hloop & Hinv & Hfound).
  rewrite (find_route_a_star_unfold sqrt g sn tn Hwf ltac:(lia) ltac:(lia) hp Hdec).
  rewrite (find_route_unfold sqrt g sn tn Hwf ltac:(lia) ltac:(lia) _ _ hp Hdec).
  rewrite Hloop. cbn [mbind option_bind]. split.
  - destruct found; cbn [negb]; [|done]. split.
    + destruct (g_score st !! tn); [|done]. cbn [mbind option_bind].
      destruct (print_path _ _ _); [|done]. cbn [mbind option_bind].
      intros [= H]. apply (f_equal (fun x => String.length x)) in H.
      unfold search_banner in H. rewrite !string_length_app in H.
      exfalso. revert H.
      generalize (String.length (fmt_d (Z.of_nat sn))).
      generalize (String.length (fmt_d (Z.of_nat tn))).
      intros a b H. cbn in H. lia.
    + destruct (parent_chain _ _ _) as [l|]; [|done]. cbn [mbind option_bind].
      destruct (_ >? _); [done|].
      destruct (path_to_edges _ _ _ _) as [[rc|es]|] eqn:Hedges;
        cbn [mbind option_bind]; [| |done].
      2:{ destruct (g_score st !! Z.to_nat (Z.of_nat tn)); by cbn [mbind option_bind]. }
      apply path_to_edges_codes in Hedges as [->| ->]; done.
  - intros cost node_path edge_path. destruct found; cbn [negb]; [|done].
    rewrite print_path_chain.
    destruct (parent_chain _ _ _) as [l|]; [|done]. cbn [mbind option_bind].
    destruct (_ >? _); [done|].
    destruct (path_to_edges _ _ _ _) as [[rc|es]|];
      cbn [mbind option_bind]; [done| |done].
    rewrite Nat2Z.id. destruct (g_score st !! tn); [|done].
    cbn [mbind option_bind]. by intros [= <- <- <-].
Qed.

Lemma find_route_a_star_agrees_witness :
  graph_wf three_nodes /\
  find_route_a_star_path sqrt_exact three_nodes 0 2 3 3
  = Some (Route (15 # 1)%Q [0; 2] [2]) /\
  find_route_a_star sqrt_exact three_nodes 0 2
  = Some (search_banner 0 2
          ++ "Destination reached! Cost: " ++ fmt_4f (15 # 1)%Q ++ nl
          ++ "Path: " ++ path_text [0; 2] ++ nl)%string.
Proof.
  assert (Hwf : graph_wf three_nodes) by (split; reflexivity).
  split; [exact Hwf|]. split; [vm_compute; reflexivity|].
  apply (proj2 (find_route_a_star_agrees sqrt_exact three_nodes 0 2 Hwf
                  ltac:(cbn; lia) ltac:(cbn; lia)) (15 # 1)%Q [0; 2] [2]).
  vm_compute; reflexivity.
Defined.

(** ** Lines on a connection *)

Lemma recv_line_loop_line (cap : Z) (l rest buf : string) (err : bool) :
  without "010" l = true ->
  forall pos, pos + Z.of_nat (String.length l) + 1 <= cap - 1 ->
  recv_line_loop cap (l ++ nl ++ rest) err buf pos
  = (pos + Z.of_nat (String.length l) + 1, (buf ++ l ++ nl)%string,
     mkSocket rest err).
Proof.
  intros Hl. revert buf. induction l as [|c l IH]; intros buf pos Hcap.
  - cbn [String.append nl recv_line_loop String.length].
    replace (pos <? cap - 1) with true
      by (symmetry; apply Z.ltb_lt; cbn [String.length] in Hcap; lia).
    change (Ascii.eqb "010" "010") with true. cbv iota.
    do 2 f_equal. lia.
  - cbn [String.append recv_line_loop].
    cbn [String.length] in Hcap.
    replace (pos <? cap - 1) with true by (symmetry; apply Z.ltb_lt; lia).
    cbn [without] in Hl. apply andb_true_iff in Hl as [Hc Hl].
    apply negb_true_iff in Hc. rewrite Hc.
    rewrite (IH Hl) by lia.
    cbn [String.length]. rewrite string_app_assoc. cbn [String.append].
    do 2 f_equal. lia.
Qed.

Lemma string_take_drop (n : nat) (s : string) :
  (string_take n s ++ string_drop n s)%string = s.
Proof.
  revert s. induction n as [|n IH]; intros [|c s]; cbn; try done.
  by rewrite IH.
Qed.

Lemma string_take_length (n : nat) (s : string) :
  (n <= String.length s)%nat -> String.length (string_take n s) = n.
Proof.
  revert s. induction n as [|n IH]; intros [|c s] H; cbn in *; try done; try lia.
  rewrite IH; [done|lia].
Qed.

Lemma recv_line_loop_full (cap : Z) (err : bool) (n : nat) :
  forall (s buf : string) (pos : Z),
  without "010" (string_take n s) = true ->
  (n <= String.length s)%nat -> pos + Z.of_nat n = cap - 1 ->
  recv_line_loop cap s err buf pos
  = (cap - 1, (buf ++ string_take n s)%string, mkSocket (string_drop n s) err).
Proof.
  induction n as [|n IH]; intros s buf pos Hl Hn Hcap.
  - replace (string_take 0 s) with EmptyString by (by destruct s).
    replace (string_drop 0 s) with s by (by destruct s).
    rewrite string_app_nil_r.
    destruct s; cbn [recv_line_loop];
      replace (pos <? cap - 1) with false by (symmetry; apply Z.ltb_ge; lia);
      do 2 f_equal; lia.
  - destruct s as [|c s]; [cbn in Hn; lia|].
    cbn [string_take string_drop recv_line_loop] in *.
    replace (pos <? cap - 1) with true by (symmetry; apply Z.ltb_lt; lia).
    cbn [without] in Hl. apply andb_true_iff in Hl as [Hc Hl].
    apply negb_true_iff in Hc. rewrite Hc.
    rewrite (IH s) by (done || cbn in Hn; lia).
    by rewrite string_app_assoc.
Qed.

Lemma recv_line_loop_end (cap : Z) (l buf : string) (err : bool) :
  without "010" l = true ->
  forall pos, 0 <= pos -> pos + Z.of_nat (String.length l) < cap - 1 ->
  recv_line_loop cap l err buf pos
  = (if err then -1
     else if (pos + Z.of_nat (String.length l) =? 0) then 0
     else pos + Z.of_nat (String.length l),
     (buf ++ l)%string, mkSocket EmptyString err).
Proof.
  intros Hl. revert buf. induction l as [|c l IH]; intros buf pos Hpos Hcap.
  - cbn [recv_line_loop String.length] in *.
    replace (pos <? cap - 1) with true by (symmetry; apply Z.ltb_lt; lia).
    rewrite string_app_nil_r, Z.add_0_r.
    destruct err; [done|]. by destruct (pos =? 0).
  - cbn [recv_line_loop String.length] in *.
    replace (pos <? cap - 1) with true by (symmetry; apply Z.ltb_lt; lia).
    cbn [without] in Hl. apply andb_true_iff in Hl as [Hc Hl].
    apply negb_true_iff in Hc. rewrite Hc.
    rewrite (IH Hl) by lia. rewrite string_app_assoc. cbn [String.append].
    replace (pos + 1 + Z.of_nat (String.length l))
      with (pos + Z.of_nat (S (String.length l))) by lia.
    destruct err; [done|].
    replace (pos + Z.of_nat (S (String.length l)) =? 0) with false
      by (symmetry; apply Z.eqb_neq; lia).
    done.
Qed.

Lemma string_take_app_le (n : nat) (a b : string) :
  (n <= String.length a)%nat -> string_take n (a ++ b) = string_take n a.
Proof.
  revert a. induction n as [|n IH]; intros a H.
  - by destruct a, b.
  - destruct a as [|c a]; cbn in *; [lia|]. rewrite IH; [done|lia].
Qed.

Lemma string_drop_app_le (n : nat) (a b : string) :
  (n <= String.length a)%nat ->
  string_drop n (a ++ b) = (string_drop n a ++ b)%string.
Proof.
  revert a. induction n as [|n IH]; intros a H.
  - by destruct a, b.
  - destruct a as [|c a]; cbn in *; [lia|]. rewrite IH; [done|lia].
Qed.

Lemma without_take (c : ascii) (n : nat) (s : string) :
  without c s = true -> without c (string_take n s) = true.
Proof.
  revert s. induction n as [|n IH]; intros [|d s] H; cbn in *; try done.
  apply andb_true_iff in H as [Hd H]. rewrite Hd. by apply IH.
Qed.

Lemma recv_line_loop_bound (cap : Z) (err : bool) (bytes : string) :
  forall (buf : string) (pos : Z),
  pos = Z.of_nat (String.length buf) -> pos <= cap - 1 ->
  let '(r, buf', _) := recv_line_loop cap bytes err buf pos in
  r <= cap - 1 /\ Z.of_nat (String.length buf') <= cap - 1.
Proof.
  induction bytes as [|c bytes IH]; intros buf pos Hpos Hcap;
    cbn [recv_line_loop].
  - destruct (pos <? cap - 1); [|lia].
    destruct err; [lia|]. destruct (pos =? 0); lia.
  - destruct (pos <? cap - 1) eqn:E; [|lia]. apply Z.ltb_lt in E.
    assert (Hlen : pos + 1 = Z.of_nat (String.length (buf ++ String c EmptyString))).
    { rewrite string_length_app. cbn [String.length]. lia. }
    destruct (Ascii.eqb c "010"); [lia|].
    apply IH; [done|lia].
Qed.

(** X20.  What one call of [recv_line] with a buffer of [cap] bytes
    returns.  When the next line feed comes within the first [cap - 1]
    bytes, it returns the line with its line feed and leaves what
    follows it.  When the first [cap - 1] bytes hold no line feed, it
    returns exactly these bytes and leaves the rest of the line to the
    next call.  When the connection ends before a line feed and before
    [cap - 1] bytes, it returns -1 after an error and, after a close, 0
    if no byte came and the unfinished line otherwise.  It never writes
    more than [cap - 1] bytes. *)
Theorem recv_line_next (cap : Z) (l rest : string) (err : bool) :
  1 <= cap -> without "010" l = true ->
  (Z.of_nat (String.length l) + 1 <= cap - 1 ->
   recv_line (mkSocket (l ++ nl ++ rest) err) cap
   = (Z.of_nat (String.length l) + 1, (l ++ nl)%string, mkSocket rest err)) /\
  (cap - 1 <= Z.of_nat (String.length l) ->
   recv_line (mkSocket (l ++ rest) err) cap
   = (cap - 1, string_take (Z.to_nat (cap - 1)) l,
      mkSocket (string_drop (Z.to_nat (cap - 1)) l ++ rest) err)) /\
  (Z.of_nat (String.length l) < cap - 1 ->
   recv_line (mkSocket l err) cap
   = (if err then -1 else Z.of_nat (String.length l), l,
      mkSocket EmptyString err)) /\
  (forall sk, let '(r, buf, _) := recv_line sk cap in
     r <= cap - 1 /\ Z.of_nat (String.length buf) <= cap - 1).
Proof.
  intros Hcap Hl. unfold recv_line. cbn [incoming broken].
  split; [|split; [|split]].
  - intros Hfit. by rewrite recv_line_loop_line by (done || lia).
  - intros Hlong.
    assert (Hn : (Z.to_nat (cap - 1) <= String.length l)%nat) by lia.
    rewrite (recv_line_loop_full cap err (Z.to_nat (cap - 1))).
    + by rewrite string_take_app_le, string_drop_app_le.
    + rewrite string_take_app_le by done. by apply without_take.
    + rewrite string_length_app. lia.
    + lia.
  - intros Hshort. rewrite recv_line_loop_end by (done || lia).
    cbn [String.append]. rewrite Z.add_0_l.
    destruct err; [done|].
    destruct (Z.of_nat (String.length l) =? 0) eqn:E; [|done].
    apply Z.eqb_eq in E. by rewrite E.
  - intros sk. apply recv_line_loop_bound; [done|lia].
Qed.

Lemma recv_line_next_witness :
  1 <= 8 /\ without "010" "REQ 1 2" = true /\
  recv_line (mkSocket ("REQ 1 2" ++ "UPD 0 5") false) 8
  = (8 - 1, string_take (Z.to_nat (8 - 1)) "REQ 1 2",
     mkSocket (string_drop (Z.to_nat (8 - 1)) "REQ 1 2" ++ "UPD 0 5") false).
Proof.
  split; [lia|]. split; [reflexivity|].
  apply (recv_line_next 8 "REQ 1 2" "UPD 0 5" false); [lia|reflexivity|].
  cbn. lia.
Defined.

Lemma cstr_plain (s : string) : without "000" s = true -> cstr s = s.
Proof.
  induction s as [|c s IH]; [done|]. cbn [without cstr]. intros H.
  apply andb_true_iff in H as [Hc H]. apply negb_true_iff in Hc.
  by rewrite Hc, IH.
Qed.

Lemma without_app (c : ascii) (a b : string) :
  without c (a ++ b) = without c a && without c b.
Proof.
  induction a as [|d a IH]; [done|]. cbn [String.append without].
  by rewrite IH, andb_assoc.
Qed.

Lemma serve_line_nl (sqrt : double -> double) (g : Graph) (l : string) :
  serve_line sqrt g (l ++ nl) = serve_line sqrt g l.
Proof.
  unfold serve_line, client_dispatch. by rewrite (trim_crlf_app_crlf l nl).
Qed.

(** X21.  A connection on which the client sends whole lines, each of
    at most 1022 bytes before its line feed and without a NUL, is
    served line by line: [client_thread_main] answers every line with
    the reply of [serve_line] for it, in the order of the lines, each
    command seeing the graph the commands before it have left; the
    loop then ends, whether the connection is closed or fails. *)
Theorem client_thread_main_lines (sqrt : double -> double) (ls : list string)
    (err : bool) :
  Forall plain_line ls ->
  forall (g : Graph) (fuel : nat), (length ls < fuel)%nat ->
  client_thread_main sqrt fuel g (mkSocket (join_lines ls) err)
  = serve_lines sqrt g ls.
Proof.
  induction 1 as [|l ls (Hnl & Hnul & Hlen) Hls IH]; intros g fuel Hfuel.
  - destruct fuel as [|fuel]; [simpl in Hfuel; lia|].
    cbn [client_thread_main join_lines serve_lines].
    unfold recv_line. cbn [incoming broken recv_line_loop].
    change (0 <? 1024 - 1) with true. cbv iota.
    by destruct err.
  - destruct fuel as [|fuel]; [simpl in Hfuel; lia|].
    cbn [client_thread_main join_lines serve_lines].
    unfold recv_line. cbn [incoming broken].
    rewrite recv_line_loop_line by (done || lia).
    cbn [String.append].
    replace (0 + Z.of_nat (String.length l) + 1 =? 0) with false
      by (symmetry; apply Z.eqb_neq; lia).
    replace (0 + Z.of_nat (String.length l) + 1 <? 0) with false
      by (symmetry; apply Z.ltb_ge; lia).
    rewrite cstr_plain, serve_line_nl.
    2:{ rewrite without_app, Hnul. reflexivity. }
    destruct (serve_line sqrt g l) as [[g' resp]|]; [|done].
    cbn [mbind option_bind].
    rewrite IH by (simpl in Hfuel; lia). done.
Qed.

Lemma client_thread_main_lines_witness :
  Forall plain_line ["UPD 0 0.5"; "REQ 0 1"]%string /\
  client_thread_main sqrt_exact 3 one_edge_graph
    (mkSocket (join_lines ["UPD 0 0.5"; "REQ 0 1"]%string) false)
  = serve_lines sqrt_exact one_edge_graph ["UPD 0 0.5"; "REQ 0 1"]%string.
Proof.
  assert (H : Forall plain_line ["UPD 0 0.5"; "REQ 0 1"]%string).
  { repeat constructor; cbn; lia. }
  split; [exact H|].
  apply (client_thread_main_lines sqrt_exact _ false H one_edge_graph 3).
  simpl. lia.
Defined.

(** ** Sending a reply *)

Lemma substring_take_drop (n m : nat) (s : string) :
  substring n m s = string_take m (string_drop n s).
Proof.
  revert s. induction n as [|n IH]; intros s.
  - replace (string_drop 0 s) with s by (by destruct s).
    revert s. induction m as [|m IHm]; intros [|c s]; cbn; try done.
    by rewrite IHm.
  - destruct s as [|c s]; cbn; [by destruct m|]. apply IH.
Qed.

Lemma string_take_add (n m : nat) (s : string) :
  (string_take n s ++ string_take m (string_drop n s))%string
  = string_take (n + m) s.
Proof.
  revert s. induction n as [|n IH]; intros s.
  - replace (string_drop 0 s) with s by (by destruct s).
    by destruct s.
  - destruct s as [|c s]; cbn; [by destruct m|]. by rewrite IH.
Qed.

Lemma string_take_ge (n : nat) (s : string) :
  (String.length s <= n)%nat -> string_take n s = s.
Proof.
  revert s. induction n as [|n IH]; intros [|c s] H; cbn in *; try done; try lia.
  rewrite IH; [done|lia].
Qed.

Lemma send_all_loop_spec (s : string) (answers : list Z) :
  forall (sent : Z) (wire : string),
  0 <= sent -> wire = string_take (Z.to_nat sent) s ->
  let '(rc, wire') := send_all_loop answers s (Z.of_nat (String.length s))
                        sent wire in
  (rc = 0 /\ wire' = s) \/
  (rc = -1 /\ exists k, (k < String.length s)%nat /\ wire' = string_take k s).
Proof.
  induction answers as [|r answers IH]; intros sent wire Hsent Hwire;
    cbn [send_all_loop].
  - destruct (sent <? Z.of_nat (String.length s)) eqn:E.
    + apply Z.ltb_lt in E. right. split; [done|].
      exists (Z.to_nat sent). split; [lia|done].
    + apply Z.ltb_ge in E. left. split; [done|].
      rewrite Hwire. apply string_take_ge. lia.
  - destruct (sent <? Z.of_nat (String.length s)) eqn:E.
    + apply Z.ltb_lt in E. destruct (r <=? 0) eqn:Hr.
      * right. split; [done|]. exists (Z.to_nat sent). split; [lia|done].
      * apply Z.leb_gt in Hr. apply IH; [lia|].
        rewrite Hwire, substring_take_drop, string_take_add. f_equal. lia.
    + apply Z.ltb_ge in E. left. split; [done|].
      rewrite Hwire. apply string_take_ge. lia.
Qed.

Lemma send_all_loop_done (s : string) (answers : list Z) :
  forall (sent : Z) (wire : string),
  Forall (fun r => 0 < r) answers ->
  Z.of_nat (String.length s) <= sent + foldr Z.add 0 answers ->
  fst (send_all_loop answers s (Z.of_nat (String.length s)) sent wire) = 0.
Proof.
  induction answers as [|r answers IH]; intros sent wire Hpos Hsum;
    cbn [send_all_loop foldr] in *.
  - replace (sent <? Z.of_nat (String.length s)) with false; [done|].
    symmetry. apply Z.ltb_ge. lia.
  - destruct (sent <? Z.of_nat (String.length s)); [|done].
    apply Forall_cons in Hpos as [Hr Hpos].
    replace (r <=? 0) with false by (symmetry; apply Z.leb_gt; lia).
    apply IH; [done|lia].
Qed.

(** X22.  [send_all] returns 0 only when the whole string has been
    sent, and otherwise returns -1 with a proper prefix of it sent;
    it returns 0 whenever [send] keeps taking at least one byte until
    the string is through.  An empty string is sent without a call of
    [send]. *)
Theorem send_all_sent (answers : list Z) (s : string) :
  (send_all answers s = (0, s) \/
   exists k, (k < String.length s)%nat /\
     send_all answers s = (-1, string_take k s)) /\
  (Forall (fun r => 0 < r) answers ->
   Z.of_nat (String.length s) <= foldr Z.add 0 answers ->
   send_all answers s = (0, s)) /\
  send_all answers EmptyString = (0, EmptyString).
Proof.
  assert (Hspec : send_all answers s = (0, s) \/
            exists k, (k < String.length s)%nat /\
              send_all answers s = (-1, string_take k s)).
  { unfold send_all.
    pose proof (send_all_loop_spec s answers 0 EmptyString ltac:(lia)) as H.
    destruct (send_all_loop answers s _ 0 EmptyString) as [rc wire].
    destruct H as [[-> ->]|(-> & k & Hk & ->)].
    - by destruct s.
    - by left.
    - right. by exists k. }
  split; [done|]. split.
  - intros Hpos Hsum.
    pose proof (send_all_loop_done s answers 0 EmptyString Hpos ltac:(lia)) as H0.
    destruct Hspec as [H|(k & _ & H)]; [done|].
    unfold send_all in H. rewrite H in H0. discriminate H0.
  - unfold send_all. by destruct answers.
Qed.

(** ** The task queues *)

Lemma set_next_eq (next : nat -> option nat) (t : nat) (v : option nat) :
  set_next next t v t = v.
Proof. unfold set_next. by rewrite Nat.eqb_refl. Qed.

Lemma set_next_ne (next : nat -> option nat) (t x : nat) (v : option nat) :
  x <> t -> set_next next t v x = next x.
Proof. intros H. unfold set_next. by apply Nat.eqb_neq in H as ->. Qed.

Lemma queue_seg_set_other (next : nat -> option nat) (t : nat) (v : option nat)
    (p : option nat) (l : list nat) :
  queue_seg next p l -> t ∉ l -> queue_seg (set_next next t v) p l.
Proof.
  induction 1 as [|x l Hseg IH]; intros Hnot; [constructor|].
  apply not_elem_of_cons in Hnot as [Hne Hnot].
  constructor. rewrite set_next_ne by congruence. by apply IH.
Qed.

Lemma queue_seg_append (next : nat -> option nat) (t tl : nat)
    (p : option nat) (l : list nat) :
  queue_seg next p l -> NoDup l -> t ∉ l -> last l = Some tl ->
  queue_seg (set_next (set_next next t None) tl (Some t)) p (l ++ [t]).
Proof.
  induction 1 as [|x l Hseg IH]; intros Hnd Hnot Hlast; [done|].
  apply NoDup_cons in Hnd as [Hx Hnd].
  apply not_elem_of_cons in Hnot as [Hne Hnot].
  cbn [app]. constructor. destruct l as [|y l].
  - injection Hlast as <-. rewrite set_next_eq.
    cbn [app]. constructor.
    rewrite set_next_ne, set_next_eq by done. constructor.
  - assert (Hxtl : x <> tl).
    { intros ->. apply Hx. rewrite last_cons_cons in Hlast.
      by apply last_Some_elem_of. }
    rewrite !set_next_ne by congruence.
    apply IH; try done.
Qed.

(** X23.  The task queue is first in, first out.  When the queue holds
    the tasks [l], oldest first, then after [queue_push] of a task that
    is not in it the queue holds [l] followed by that task, and
    [queue_pop] waits exactly when [l] is empty and otherwise returns
    the oldest task and leaves the others in their order, with [tail]
    reset to [NULL] when none is left. *)
Theorem queue_fifo (q : TaskQueue) (next : nat -> option nat) (l : list nat) :
  queue_rep q next l ->
  (forall t, t ∉ l ->
     queue_rep (fst (queue_push q next t)) (snd (queue_push q next t))
       (l ++ [t])) /\
  match l with
  | [] => queue_pop q next = None
  | t :: l' =>
    exists q' next', queue_pop q next = Some (t, q', next') /\
      queue_rep q' next' l' /\ next' t = None /\
      (l' = [] -> q' = queue_init)
  end.
Proof.
  intros (Hseg & Htail & Hnd). split.
  - intros t Hnot. unfold queue_push. destruct (q_tail q) as [tl|] eqn:Hq.
    + cbn [fst snd]. split; [|split].
      * cbn [q_head]. by apply queue_seg_append.
      * cbn [q_tail]. by rewrite last_snoc.
      * apply NoDup_app. split; [done|]. split; [|apply NoDup_singleton].
        intros x Hx Hxt. apply list_elem_of_singleton in Hxt as ->. done.
    + destruct l as [|x l].
      2:{ assert (Hsome : is_Some (last (x :: l))) by (by apply last_is_Some).
          rewrite <- Htail in Hsome. by destruct Hsome. }
      cbn [fst snd app]. split; [|split].
      * cbn [q_head]. constructor. rewrite set_next_eq. constructor.
      * done.
      * apply NoDup_singleton.
  - destruct l as [|t l'].
    + unfold queue_pop. inversion Hseg as [Hh|]. done.
    + inversion Hseg as [|t0 l0 Hrest Hh]; subst t0 l0.
      apply NoDup_cons in Hnd as [Ht Hnd].
      unfold queue_pop. rewrite <- Hh.
      eexists _, _. split; [reflexivity|]. split; [|split].
      * split; [|split; [|done]].
        -- cbn [q_head]. by apply queue_seg_set_other.
        -- cbn [q_tail]. inversion Hrest as [Hn|x l1 _ Hn]; [done|].
           subst l'. rewrite Htail. done.
      * apply set_next_eq.
      * intros ->. inversion Hrest as [Hn|]. done.
Qed.

Lemma queue_fifo_witness :
  queue_rep (fst two_tasks) (snd two_tasks) [1; 2]%nat /\
  queue_rep (fst (queue_push (fst two_tasks) (snd two_tasks) 3%nat))
    (snd (queue_push (fst two_tasks) (snd two_tasks) 3%nat)) [1; 2; 3]%nat /\
  exists q' next',
    queue_pop (fst two_tasks) (snd two_tasks) = Some (1%nat, q', next') /\
    queue_rep q' next' [2%nat] /\ next' 1%nat = None /\
    q' = mkTaskQueue (Some 2%nat) (Some 2%nat).
Proof.
  assert (H : queue_rep (fst two_tasks) (snd two_tasks) [1; 2]%nat).
  { split; [|split].
    - repeat constructor.
    - reflexivity.
    - repeat constructor; rewrite ?not_elem_of_cons; intuition (try lia);
        by eapply not_elem_of_nil. }
  split; [exact H|].
  destruct (queue_fifo (fst two_tasks) (snd two_tasks) [1; 2]%nat H)
    as [Hpush Hpop].
  split.
  - apply (Hpush 3%nat). rewrite !not_elem_of_cons.
    repeat split; try lia. apply not_elem_of_nil.
  - destruct Hpop as (q' & next' & Hq & Hrep & Hnext & _).
    exists q', next'. split; [exact Hq|]. split; [exact Hrep|].
    split; [exact Hnext|]. by injection Hq as <- _.
Defined.

(** ** Loading a graph *)

Lemma listed_cells (g : Graph) (eid : Z) :
  listed g eid <-> eid ∈ adjacency_cells g.
Proof.
  unfold listed, adjacency_cells. rewrite list_elem_of_In, in_concat.
  split.
  - intros (u & n & Hn & Hin). exists (out_edges n). split.
    + apply list_elem_of_In, list_elem_of_fmap. exists n. split; [done|].
      by eapply list_elem_of_lookup_2.
    + by apply list_elem_of_In.
  - intros (l & Hl & Hin).
    apply list_elem_of_In, list_elem_of_fmap in Hl as (n & -> & Hn).
    apply list_elem_of_lookup in Hn as [u Hu].
    exists u, n. split; [done|]. by apply list_elem_of_In.
Qed.

Lemma graph_init_cells (n m : Z) (junk : Edge) (g : Graph) :
  graph_init n m junk = Some g ->
  n <= MAX_NODES /\ graph_wf g /\ num_nodes g = n /\ num_edges g = m /\
  adjacency_cells g = [].
Proof.
  intros Hinit. pose proof (graph_init_adjacency n m junk g Hinit) as [_ Hnone].
  assert (Hcells : adjacency_cells g = []).
  { destruct (adjacency_cells g) as [|eid l] eqn:E; [done|].
    destruct (Hnone eid). apply listed_cells. rewrite E. by left. }
  unfold graph_init in Hinit.
  destruct (MAX_NODES <? n) eqn:Hmax; [done|]. apply Z.ltb_ge in Hmax.
  injection Hinit as <-. split; [done|]. split; [|done].
  split; simpl; [rewrite length_map, length_seq|rewrite length_replicate]; lia.
Qed.

Lemma graph_set_node_coordinates_cells (g g' : Graph) (id : Z) (cx cy : double) :
  graph_set_node_coordinates g id cx cy = Some g' ->
  (graph_wf g -> graph_wf g') /\ num_nodes g' = num_nodes g /\
  num_edges g' = num_edges g /\ adjacency_cells g' = adjacency_cells g.
Proof.
  unfold graph_set_node_coordinates.
  destruct ((id <? 0) || (id >=? num_nodes g)); [done|].
  destruct (nodes g !! Z.to_nat id) as [n|] eqn:Hn; [|done].
  cbn [mbind option_bind]. intros [= <-]. split; [|split; [done|split; [done|]]].
  - intros [Hwn Hwe]. split; simpl; [by rewrite length_insert|done].
  - unfold adjacency_cells. cbn [nodes set_nodes]. f_equal.
    rewrite list_fmap_insert. apply list_insert_id.
    by rewrite list_lookup_fmap, Hn.
Qed.

Lemma graph_add_edge_cells (g g' : Graph) (eid from to : Z)
    (len speed_limit : double) :
  graph_add_edge g eid from to len speed_limit = Some g' ->
  adjacency_cells g' ≡ₚ eid :: adjacency_cells g.
Proof.
  intros H. apply graph_add_edge_cases in H
    as (He & Hf & Ht & Hs & n & Hn & Hlt & ->).
  unfold adjacency_cells. cbn [nodes].
  rewrite <- (take_drop_middle (nodes g) (Z.to_nat from) n Hn) at 2.
  rewrite insert_take_drop by (by eapply lookup_lt_Some).
  rewrite !fmap_app, !fmap_cons, !concat_app, !concat_cons. cbn [out_edges app].
  symmetry. apply Permutation_middle.
Qed.

Lemma load_nodes_inv (fuel : nat) :
  forall (g g' : Graph) (f : string),
  load_nodes fuel g f = Some (inr g') ->
  graph_wf g -> adjacency_cells g = [] ->
  graph_wf g' /\ num_nodes g' = num_nodes g /\ num_edges g' = num_edges g /\
  adjacency_cells g' = [].
Proof.
  induction fuel as [|fuel IH]; intros g g' f; [done|].
  cbn [load_nodes].
  destruct (read_line f 512) as [[line rest]|]; [|by intros [= <-]].
  destruct line as [|c line]; [apply IH|].
  destruct (sscanf_node (String c line)) as [[[[id cx] cy]|]|];
    cbn [mbind option_bind]; [|done|done].
  destruct ((id <? 0) || (id >=? num_nodes g)); [done|].
  destruct (graph_set_node_coordinates g id cx cy) as [g1|] eqn:Hset;
    cbn [mbind option_bind]; [|done].
  apply graph_set_node_coordinates_cells in Hset as (Hwf1 & Hn1 & He1 & Hc1).
  intros Hrun Hwf Hcells.
  destruct (IH g1 g' rest Hrun (Hwf1 Hwf)) as (? & ? & ? & ?); [congruence|].
  split; [done|]. split; [congruence|]. split; [congruence|done].
Qed.

Lemma graph_add_edge_inv (g g' : Graph) (eid from to : Z)
    (len speed_limit : double) (k : Z) :
  graph_add_edge g eid from to len speed_limit = Some g' ->
  edges_inv g k ->
  edges_inv g' (k + 1) /\ num_nodes g' = num_nodes g /\
  num_edges g' = num_edges g.
Proof.
  intros Hadd (Hwf & Hlen & Hloaded & Hadj).
  pose proof (graph_add_edge_cells _ _ _ _ _ _ _ Hadd) as Hperm.
  pose proof (graph_add_edge_adjacency _ _ _ _ _ _ _ Hadd) as [Hadj' _].
  pose proof Hadd as Hcases. apply graph_add_edge_cases in Hcases
    as (He & Hf & Ht & Hs & n & Hn & Hlt & Hg').
  assert (Hnn : num_nodes g' = num_nodes g) by (by subst g').
  assert (Hne : num_edges g' = num_edges g) by (by subst g').
  split; [|done]. split; [|split; [|split]].
  - destruct Hwf as [Hwn Hwe]. subst g'.
    split; simpl; by rewrite length_insert.
  - rewrite Hperm. simpl. lia.
  - intros e' He'. rewrite Hperm in He'.
    destruct (decide (e' = eid)) as [->|Hneq].
    + split; [lia|]. subst g'. cbn [edges num_nodes num_edges].
      eexists. split; [by apply list_lookup_insert_eq|]. done.
    + apply elem_of_cons in He' as [->|He']; [done|].
      destruct (Hloaded e' He') as (Hr & e & Hed & Hrest).
      split; [lia|]. exists e. rewrite Hnn. split; [|done].
      subst g'. cbn [edges]. rewrite list_lookup_insert_ne; [done|lia].
  - intros Hnd. rewrite Hperm in Hnd. apply NoDup_cons in Hnd as [Hnot Hnd].
    apply Hadj'; [by apply Hadj|]. by rewrite listed_cells.
Qed.

Lemma load_edges_inv (fuel : nat) :
  forall (g g' : Graph) (f : string) (k k' : Z),
  load_edges fuel g f k = Some (inr (g', k')) ->
  edges_inv g k ->
  edges_inv g' k' /\ num_nodes g' = num_nodes g /\ num_edges g' = num_edges g.
Proof.
  induction fuel as [|fuel IH]; intros g g' f k k'; [done|].
  cbn [load_edges].
  destruct (read_line f 512) as [[line rest]|]; [|by intros [= <- <-]].
  destruct line as [|c line]; [apply IH|].
  destruct (sscanf_edge (String c line)) as [[[[[[eid from] to] len] speed]|]|];
    cbn [mbind option_bind]; [|done|done].
  destruct ((eid <? 0) || (eid >=? num_edges g)); [done|].
  destruct (graph_add_edge g eid from to len speed) as [g1|] eqn:Hadd;
    cbn [mbind option_bind]; [|done].
  intros Hrun Hinv.
  destruct (graph_add_edge_inv _ _ _ _ _ _ _ k Hadd Hinv) as (Hinv1 & Hn1 & He1).
  destruct (IH g1 g' rest (k + 1) k' Hrun Hinv1) as (? & ? & ?).
  split; [done|]. split; congruence.
Qed.

Lemma read_meta_counts_range (meta : option string) (n m : Z) :
  read_meta_counts meta = Some (inr (n, m)) -> 0 < n /\ 0 <= m.
Proof.
  unfold read_meta_counts. destruct meta as [f|]; [|done].
  destruct (read_meta_loop _ f (-1) (-1)) as [[n' m']|]; [|done].
  cbn [mbind option_bind].
  destruct ((n' <=? 0) || (m' <? 0)) eqn:E; [done|]. intros [= <- <-].
  rewrite orb_false_iff, Z.leb_gt, Z.ltb_ge in E. lia.
Qed.

Lemma cells_full (l : list Z) (m : Z) :
  NoDup l -> Z.of_nat (length l) = m -> (forall x, x ∈ l -> 0 <= x < m) ->
  forall i, 0 <= i < m -> i ∈ l.
Proof.
  intros Hnd Hlen Hrange i Hi.
  apply list_elem_of_In.
  apply (NoDup_length_incl (l := l) (l' := map Z.of_nat (seq 0 (Z.to_nat m)))).
  - by apply NoDup_ListNoDup.
  - rewrite length_map, length_seq. lia.
  - intros x Hx. apply list_elem_of_In, Hrange in Hx.
    apply in_map_iff. exists (Z.to_nat x). split; [lia|].
    apply in_seq. lia.
  - apply in_map_iff. exists (Z.to_nat i). split; [lia|]. apply in_seq. lia.
Qed.



(** ** Reading the meta file *)

Lemma scan_word_app (k rest : string) :
  no_space k = true ->
  forall n, (String.length k <= n)%nat ->
  scan_word n (k ++ String " " rest) = (k, String " " rest).
Proof.
  intros Hk. induction k as [|c k IH]; intros n Hn.
  - cbn [String.append]. destruct n; [done|]. cbn [scan_word].
    by change (isspace " ") with true.
  - cbn [no_space] in Hk. apply andb_true_iff in Hk as [Hc Hk].
    apply negb_true_iff in Hc.
    destruct n as [|n]; [cbn in Hn; lia|].
    cbn [String.append scan_word]. rewrite Hc.
    rewrite (IH Hk n) by (cbn in Hn; lia). done.
Qed.

Lemma skip_ws_word (k rest : string) :
  k <> EmptyString -> no_space k = true -> skip_ws (k ++ rest) = (k ++ rest)%string.
Proof.
  intros Hne Hk. destruct k as [|c k]; [done|].
  cbn [no_space] in Hk. apply andb_true_iff in Hk as [Hc _].
  apply negb_true_iff in Hc. cbn [String.append skip_ws]. by rewrite Hc.
Qed.

Lemma read_meta_loop_entries (es : list (string * string)) :
  Forall (fun e => meta_key (fst e) /\ int_text (snd e)) es ->
  forall (fuel : nat) (pre : string) (n m : Z),
  all_space pre = true -> (length es < fuel)%nat ->
  read_meta_loop fuel (pre ++ meta_text es) n m = Some (meta_counts es n m).
Proof.
  induction 1 as [|[k v] es [(Hne & Hsp & Hnul & Hlen) Hv] Hes IH];
    intros fuel pre n m Hpre Hfuel.
  - destruct fuel as [|fuel]; [simpl in Hfuel; lia|].
    cbn [read_meta_loop meta_text meta_counts]. unfold scan_s63.
    rewrite skip_ws_spaces by done. done.
  - destruct fuel as [|fuel]; [simpl in Hfuel; lia|].
    cbn [fst snd] in *.
    cbn [read_meta_loop meta_text meta_counts]. unfold scan_s63.
    rewrite skip_ws_spaces by done.
    rewrite skip_ws_word by done.
    change (k ++ " " ++ v ++ nl ++ meta_text es)%string
      with (k ++ String " " (v ++ nl ++ meta_text es))%string.
    rewrite scan_word_app by done.
    destruct k as [|c k]; [done|].
    change (String " " (v ++ nl ++ meta_text es))
      with (" " ++ sign_text false ++ v ++ nl ++ meta_text es)%string.
    rewrite (scan_d_signed " " v (nl ++ meta_text es) false); [|done|done|done].
    cbn [signed]. rewrite cstr_plain by done.
    destruct (String.eqb (String c k) "num_nodes");
      [|destruct (String.eqb (String c k) "num_edges")];
      apply IH; try done; simpl in Hfuel; lia.
Qed.

Lemma meta_text_length (es : list (string * string)) :
  (length es <= String.length (meta_text es))%nat.
Proof.
  induction es as [|[k v] es IH]; [done|]. cbn [meta_text length].
  rewrite !string_length_app. cbn [String.length nl]. lia.
Qed.

(** X25.  [read_meta_counts] returns 1 when the meta file cannot be
    opened.  On a meta file of lines [key value], it takes for each of
    the keys [num_nodes] and [num_edges] the value of the last line
    with that key and ignores the lines with other keys; it returns 2
    when [num_nodes] is missing or not positive or [num_edges] is
    missing, and 0 with the two counts otherwise. *)
Theorem read_meta_counts_entries (es : list (string * string)) :
  Forall (fun e => meta_key (fst e) /\ int_text (snd e)) es ->
  read_meta_counts None = Some (inl 1) /\
  read_meta_counts (Some (meta_text es))
  = Some (let '(n, m) := meta_counts es (-1) (-1) in
          if (n <=? 0) || (m <? 0) then inl 2 else inr (n, m)).
Proof.
  intros Hes. split; [done|]. unfold read_meta_counts.
  rewrite (read_meta_loop_entries es Hes _ EmptyString); [|done|].
  - cbn [mbind option_bind]. destruct (meta_counts es (-1) (-1)) as [n m].
    by destruct ((n <=? 0) || (m <? 0)).
  - pose proof (meta_text_length es). lia.
Qed.

Lemma read_meta_counts_entries_witness :
  Forall (fun e => meta_key (fst e) /\ int_text (snd e))
    [("num_nodes", "7"); ("comment", "0"); ("num_edges", "3"); ("num_nodes", "2")]%string /\
  read_meta_counts
    (Some (meta_text [("num_nodes", "7"); ("comment", "0"); ("num_edges", "3");
                      ("num_nodes", "2")]%string))
  = Some (inr (2, 3)).
Proof.
  assert (H : Forall (fun e => meta_key (fst e) /\ int_text (snd e))
    [("num_nodes", "7"); ("comment", "0"); ("num_edges", "3"); ("num_nodes", "2")]%string).
  { repeat constructor; vm_compute; (discriminate || lia). }
  split; [exact H|].
  exact (proj2 (read_meta_counts_entries _ H)).
Defined.

(** ** Reading the lines of a CSV file *)

Lemma fgets_loop_line (l rest : string) :
  without "010" l = true ->
  forall n, (String.length l < n)%nat ->
  fgets_loop n (l ++ nl ++ rest) = ((l ++ nl)%string, rest).
Proof.
  intros Hl. induction l as [|c l IH]; intros n Hn.
  - destruct n; [lia|]. cbn [String.append nl fgets_loop].
    by change (Ascii.eqb "010" "010") with true.
  - cbn [without] in Hl. apply andb_true_iff in Hl as [Hc Hl].
    apply negb_true_iff in Hc.
    destruct n as [|n]; [lia|]. cbn [String.append fgets_loop]. rewrite Hc.
    rewrite (IH Hl n) by (cbn in Hn; lia). done.
Qed.

Lemma trim_crlf_plain (l : string) :
  without "010" l = true -> without "013" l = true -> trim_crlf l = l.
Proof.
  induction l as [|c l IH]; [done|]. cbn [without trim_crlf].
  intros H1 H2. apply andb_true_iff in H1 as [Hc1 H1].
  apply andb_true_iff in H2 as [Hc2 H2].
  apply negb_true_iff in Hc1, Hc2. rewrite (IH H1 H2), Hc1, Hc2.
  by destruct l.
Qed.

Lemma read_line_header (h rest : string) :
  header_ok h -> exists l, read_line (h ++ nl ++ rest) 512 = Some (l, rest).
Proof.
  intros [Hnl Hlen]. unfold read_line, fgets.
  destruct (h ++ nl ++ rest)%string as [|c s] eqn:E; [by destruct h|].
  rewrite <- E, (fgets_loop_line h rest Hnl) by (simpl; lia).
  cbn [mbind option_bind]. by eexists.
Qed.

Lemma read_line_plain (l rest : string) :
  without "010" l = true -> without "013" l = true -> without "000" l = true ->
  (String.length l <= 510)%nat ->
  read_line (l ++ nl ++ rest) 512 = Some (l, rest).
Proof.
  intros Hnl Hcr Hnul Hlen. unfold read_line, fgets.
  destruct (l ++ nl ++ rest)%string as [|c s] eqn:E; [by destruct l|].
  rewrite <- E, (fgets_loop_line l rest Hnl) by (simpl; lia).
  cbn [mbind option_bind].
  rewrite cstr_plain by (rewrite without_app, Hnul; reflexivity).
  by rewrite (trim_crlf_app_crlf l nl), trim_crlf_plain.
Qed.

Lemma digits_without (c : ascii) (s : string) :
  isdigit c = false -> all_digits s = true -> without c s = true.
Proof.
  intros Hc. induction s as [|d s IH]; [done|]. cbn [all_digits without].
  intros H. apply andb_true_iff in H as [Hd H]. rewrite (IH H), andb_true_r.
  apply negb_true_iff. destruct (Ascii.eqb_spec d c) as [->|]; [|done].
  congruence.
Qed.

Lemma decimal_without (c : ascii) (d : decimal) :
  isdigit c = false -> Ascii.eqb "-" c = false -> Ascii.eqb "." c = false ->
  decimal_ok d -> without c (decimal_text d) = true.
Proof.
  intros Hc Hm Hp [[Ha _] Hb]. unfold decimal_text.
  rewrite !without_app, (digits_without c (d_int d)) by done.
  destruct (d_neg d), (d_frac d) as [b|]; cbn [sign_text fraction without];
    rewrite ?Hm, ?Hp; cbn [negb andb]; try done;
    by rewrite (digits_without c b).
Qed.

Lemma node_row_plain (c : ascii) (r : node_row) :
  isdigit c = false -> Ascii.eqb "-" c = false -> Ascii.eqb "." c = false ->
  Ascii.eqb "," c = false ->
  node_row_ok r -> without c (node_row_text r) = true.
Proof.
  intros Hc Hm Hp Hcm. destruct r as [[id cx] cy]. intros ([Hid _] & Hx & Hy & _).
  unfold node_row_text.
  rewrite !without_app, (digits_without c id), !decimal_without by done.
  cbn [without]. by rewrite Hcm.
Qed.

Lemma edge_row_plain (c : ascii) (r : edge_row) :
  isdigit c = false -> Ascii.eqb "-" c = false -> Ascii.eqb "." c = false ->
  Ascii.eqb "," c = false ->
  edge_row_ok r -> without c (edge_row_text r) = true.
Proof.
  intros Hc Hm Hp Hcm. destruct r as [[[[eid from] to] len] speed].
  intros ([He _] & [Hf _] & [Ht _] & Hl & Hs & _).
  unfold edge_row_text.
  rewrite !without_app, (digits_without c eid), (digits_without c from),
    (digits_without c to), !decimal_without by done.
  cbn [without]. by rewrite Hcm.
Qed.

(** ** The fields of a line *)

Lemma field_end_no_digit (rest : string) : field_end rest -> no_digit_ahead rest.
Proof. intros [->|[r ->]]; done. Qed.

Lemma scan_exponent_field (rest : string) :
  field_end rest -> scan_exponent rest = (0, rest).
Proof. intros [->|[r ->]]; done. Qed.

Lemma scan_lf_field (d : decimal) (rest : string) :
  decimal_ok d -> field_end rest ->
  special_double (decimal_text d ++ rest) = false /\
  scan_lf (decimal_text d ++ rest) = Some (decimal_value d, rest).
Proof.
  intros [Ha Hb] Hrest. unfold decimal_text, decimal_value.
  destruct d as [neg a b]. cbn [d_neg d_int d_frac] in *.
  rewrite !string_app_assoc.
  destruct (is_int_head a (fraction b ++ rest) Ha) as (c & r & Heq & Hc).
  assert (Hsign : scan_sign (skip_ws (sign_text neg ++ a ++ fraction b ++ rest))
                  = (neg, (a ++ fraction b ++ rest)%string)).
  { destruct neg; cbn [sign_text String.append].
    - cbn [skip_ws]. change (isspace "-") with false. done.
    - rewrite skip_ws_int by done. rewrite Heq. by rewrite isdigit_not_sign. }
  assert (Hstart : starts_with "0x" (a ++ fraction b ++ rest) = false /\
                   starts_with "nan" (a ++ fraction b ++ rest) = false /\
                   starts_with "inf" (a ++ fraction b ++ rest) = false).
  { rewrite Heq. apply starts_with_digit; [done|].
    destruct r as [|c' r]; [done|].
    assert (Hc' : isdigit c' = true \/ c' = "."%char \/ c' = ","%char).
    { destruct Ha as [Hd Hne]. destruct a as [|x [|y a]]; simpl in *.
      - done.
      - injection Heq as _ Heq. destruct b as [b|]; simpl in Heq.
        + injection Heq as <- _. by right; left.
        + destruct Hrest as [->|[r' ->]]; [done|].
          injection Heq as <- _. by right; right.
      - injection Heq as _ <- _. left.
        apply andb_true_iff in Hd as [_ Hd]. by apply andb_true_iff in Hd as [Hd _]. }
    split; intros ->; destruct Hc' as [H|[H|H]]; discriminate H. }
  destruct Hstart as (Hx & Hnan & Hinf).
  split.
  - unfold special_double. rewrite Hsign. cbn [snd].
    by rewrite Hx, Hnan, Hinf.
  - unfold scan_lf. rewrite Hsign, Hx.
    rewrite (scan_digits_app a (fraction b ++ rest)); [|apply Ha|].
    2:{ destruct b; [done|]. by apply field_end_no_digit. }
    destruct b as [b|]; cbn [fraction fraction_digits String.append] in *.
    + rewrite (scan_digits_app b rest) by (done || by apply field_end_no_digit).
      rewrite scan_exponent_field by done.
      cbn [Nat.add]. replace ((_ + _)%nat =? 0)%nat with false.
      2:{ symmetry. apply Nat.eqb_neq. pose proof (is_int_length a Ha) as H.
          apply Nat.eqb_neq in H. lia. }
      done.
    + assert (Hnp : match rest with
                    | String "." s2' => scan_digits s2' (digits_value a 0) 0
                    | _ => (digits_value a 0, 0%nat, rest)
                    end = (digits_value a 0, 0%nat, rest)).
      { by destruct Hrest as [->|[r' ->]]. }
      rewrite Hnp, scan_exponent_field by done.
      cbn [Nat.add String.length]. rewrite Nat.add_0_r, (is_int_length a Ha).
      done.
Qed.

Lemma scan_lf_checked_field (d : decimal) (rest : string) :
  decimal_ok d -> field_end rest ->
  scan_lf_checked (decimal_text d ++ rest) = Some (Some (decimal_value d, rest)).
Proof.
  intros Hd Hrest. unfold scan_lf_checked.
  destruct (scan_lf_field d rest Hd Hrest) as [-> ->]. done.
Qed.

Lemma scan_d_field (s rest : string) :
  int_text s -> field_end rest -> scan_d (s ++ rest) = Some (digits_value s 0, rest).
Proof. intros Hs Hrest. apply scan_d_int; [done|by apply field_end_no_digit]. Qed.

Lemma match_comma (s : string) : match_literal "," ("," ++ s) = Some s.
Proof. apply (match_literal_app "," s). Qed.

(** The row a line gives when its ids are in the range of [int]. *)
Lemma sscanf_node_row (r : node_row) :
  node_row_ok r -> fst (fst (node_row_value r)) <= INT_MAX ->
  sscanf_node (node_row_text r) = Some (Some (node_row_value r)).
Proof.
  destruct r as [[id cx] cy]. intros (Hid & Hx & Hy & _) Hmax.
  cbn [node_row_value fst] in Hmax.
  assert (Hfit : int_text id) by done.
  unfold sscanf_node, node_row_text, node_row_value.
  rewrite (scan_d_field id) by (done || right; by eexists).
  cbn [and_then]. rewrite match_comma. cbn [and_then].
  rewrite (scan_lf_checked_field cx ("," ++ decimal_text cy))
    by (done || right; by eexists).
  cbn [and_then]. rewrite match_comma. cbn [and_then].
  rewrite <- (string_app_nil_r (decimal_text cy)).
  rewrite (scan_lf_checked_field cy EmptyString) by (done || by left). done.
Qed.

Lemma sscanf_edge_row (r : edge_row) :
  edge_row_ok r ->
  (let '(eid, from, to, _, _) := edge_row_value r in
   eid <= INT_MAX /\ from <= INT_MAX /\ to <= INT_MAX) ->
  sscanf_edge (edge_row_text r) = Some (Some (edge_row_value r)).
Proof.
  destruct r as [[[[eid from] to] len] speed].
  intros (He & Hf & Ht & Hl & Hs & _) (Hme & Hmf & Hmt).
  assert (Hfe : int_text eid) by done.
  assert (Hff : int_text from) by done.
  assert (Hft : int_text to) by done.
  unfold sscanf_edge, edge_row_text, edge_row_value.
  rewrite (scan_d_field eid) by (done || right; by eexists).
  cbn [and_then]. rewrite match_comma. cbn [and_then].
  rewrite (scan_d_field from) by (done || right; by eexists).
  cbn [and_then]. rewrite match_comma. cbn [and_then].
  rewrite (scan_d_field to) by (done || right; by eexists).
  cbn [and_then]. rewrite match_comma. cbn [and_then].
  rewrite (scan_lf_checked_field len ("," ++ decimal_text speed))
    by (done || right; by eexists).
  cbn [and_then]. rewrite match_comma. cbn [and_then].
  rewrite <- (string_app_nil_r (decimal_text speed)).
  rewrite (scan_lf_checked_field speed EmptyString) by (done || by left). done.
Qed.

(** ** Loading files in the expected format *)

Lemma join_lines_length (ls : list string) :
  (length ls <= String.length (join_lines ls))%nat.
Proof.
  induction ls as [|l ls IH]; [done|]. cbn [join_lines length].
  rewrite !string_length_app. cbn [String.length nl]. lia.
Qed.

Lemma foldl_coordinates_None (coords : list (Z * double * double)) :
  foldl (fun og '(i, cx, cy) => g ← og; graph_set_node_coordinates g i cx cy)
    None coords = None.
Proof. induction coords as [|[[i cx] cy] coords IH]; [done|]. apply IH. Qed.

Lemma foldl_edges_None (es : list (Z * Z * Z * double * double)) :
  foldl (fun og '(i, a, b, l, s) => g ← og; graph_add_edge g i a b l s)
    None es = None.
Proof. induction es as [|[[[[i a] b] l] s] es IH]; [done|]. apply IH. Qed.

Lemma is_int_cons (s rest : string) :
  is_int s -> exists c r, (s ++ rest)%string = String c r.
Proof. intros [_ Hne]. destruct s as [|c s]; [done|]. by eexists _, _. Qed.

Lemma read_line_node_row (r : node_row) (rest : string) :
  node_row_ok r ->
  exists c s, node_row_text r = String c s /\
    read_line (node_row_text r ++ nl ++ rest) 512 = Some (String c s, rest).
Proof.
  intros Hr.
  assert (Hcons : exists c s, node_row_text r = String c s).
  { destruct r as [[id cx] cy]. destruct Hr as (Hid & _).
    unfold node_row_text. by apply is_int_cons. }
  destruct Hcons as (c & s & E). exists c, s. split; [done|]. rewrite <- E.
  apply read_line_plain; try (by apply node_row_plain).
  destruct r as [[id cx] cy]. by destruct Hr as (_ & _ & _ & Hlen).
Qed.

Lemma read_line_edge_row (r : edge_row) (rest : string) :
  edge_row_ok r ->
  exists c s, edge_row_text r = String c s /\
    read_line (edge_row_text r ++ nl ++ rest) 512 = Some (String c s, rest).
Proof.
  intros Hr.
  assert (Hcons : exists c s, edge_row_text r = String c s).
  { destruct r as [[[[eid from] to] len] speed]. destruct Hr as (He & _).
    unfold edge_row_text. by apply is_int_cons. }
  destruct Hcons as (c & s & E). exists c, s. split; [done|]. rewrite <- E.
  apply read_line_plain; try (by apply edge_row_plain).
  destruct r as [[[[eid from] to] len] speed].
  by destruct Hr as (_ & _ & _ & _ & _ & Hlen).
Qed.

Lemma join_lines_app_length (ls : list string) (rest : string) :
  (length ls <= String.length (join_lines ls ++ rest))%nat.
Proof.
  rewrite string_length_app. pose proof (join_lines_length ls). lia.
Qed.

Lemma graph_set_node_coordinates_sizes (g g' : Graph) (id : Z) (cx cy : double) :
  graph_set_node_coordinates g id cx cy = Some g' ->
  0 <= id < num_nodes g /\ num_nodes g' = num_nodes g /\
  num_edges g' = num_edges g.
Proof.
  unfold graph_set_node_coordinates.
  destruct ((id <? 0) || (id >=? num_nodes g)) eqn:Hr; [done|].
  apply in_range_test in Hr.
  destruct (nodes g !! Z.to_nat id); [|done]. by intros [= <-].
Qed.

Lemma graph_add_edge_sizes (g g' : Graph) (eid from to : Z)
    (len speed : double) :
  graph_add_edge g eid from to len speed = Some g' ->
  0 <= eid < num_edges g /\ 0 <= from < num_nodes g /\ 0 <= to < num_nodes g /\
  num_nodes g' = num_nodes g /\ num_edges g' = num_edges g.
Proof.
  unfold graph_add_edge.
  destruct ((eid <? 0) || (eid >=? num_edges g)) eqn:Hr; [done|].
  apply in_range_test in Hr.
  destruct ((from <? 0) || (from >=? num_nodes g)
            || (to <? 0) || (to >=? num_nodes g)) eqn:Hn; [done|].
  rewrite <- orb_assoc in Hn. apply orb_false_iff in Hn as [Hf Ht].
  apply in_range_test in Hf, Ht.
  destruct (dle speed 0%Q); [done|].
  destruct (edges g !! Z.to_nat eid); [|done].
  destruct (nodes g !! Z.to_nat from); [|done]. by intros [= <-].
Qed.

(** The loops over the rows of a graph whose sizes are in the range of
    [int], with more text after the rows. *)
Lemma load_nodes_prefix (rows : list node_row) (rest : string) :
  Forall node_row_ok rows ->
  forall (g g' : Graph) (fuel : nat),
  num_nodes g <= INT_MAX ->
  foldl (fun og '(i, cx, cy) => g ← og; graph_set_node_coordinates g i cx cy)
    (Some g) (map node_row_value rows) = Some g' ->
  load_nodes (length rows + fuel) g (join_lines (map node_row_text rows) ++ rest)
  = load_nodes fuel g' rest.
Proof.
  induction 1 as [|r rows Hr Hrows IH]; intros g g' fuel Hmax Hfold.
  - by injection Hfold as <-.
  - cbn [map join_lines length Nat.add load_nodes].
    rewrite !string_app_assoc.
    destruct (read_line_node_row r
                (join_lines (map node_row_text rows) ++ rest) Hr)
      as (c & s & E & ->).
    cbn [map foldl] in Hfold.
    pose proof (sscanf_node_row r Hr) as Hscan.
    destruct (node_row_value r) as [[id cx] cy].
    cbn [mbind option_bind fst] in Hfold, Hscan.
    destruct (graph_set_node_coordinates g id cx cy) as [g1|] eqn:Hset.
    2:{ by rewrite foldl_coordinates_None in Hfold. }
    apply graph_set_node_coordinates_sizes in Hset as Hsizes.
    destruct Hsizes as (Hid & Hn1 & _).
    rewrite <- E, Hscan by lia. cbn [mbind option_bind].
    rewrite (proj2 (in_range_test id (num_nodes g)) Hid).
    rewrite Hset. cbn [mbind option_bind]. apply IH; [lia|done].
Qed.

Lemma load_edges_prefix (rows : list edge_row) (rest : string) :
  Forall edge_row_ok rows ->
  forall (g g' : Graph) (fuel : nat) (k : Z),
  num_nodes g <= INT_MAX -> num_edges g <= INT_MAX ->
  foldl (fun og '(i, a, b, l, s) => g ← og; graph_add_edge g i a b l s)
    (Some g) (map edge_row_value rows) = Some g' ->
  load_edges (length rows + fuel) g
    (join_lines (map edge_row_text rows) ++ rest) k
  = load_edges fuel g' rest (k + Z.of_nat (length rows)).
Proof.
  induction 1 as [|r rows Hr Hrows IH]; intros g g' fuel k Hmn Hme Hfold.
  - injection Hfold as <-. cbn. by rewrite Z.add_0_r.
  - cbn [map join_lines length Nat.add load_edges].
    rewrite !string_app_assoc.
    destruct (read_line_edge_row r
                (join_lines (map edge_row_text rows) ++ rest) Hr)
      as (c & s & E & ->).
    cbn [map foldl] in Hfold.
    pose proof (sscanf_edge_row r Hr) as Hscan.
    destruct (edge_row_value r) as [[[[eid from] to] len] speed].
    cbn [mbind option_bind] in Hfold.
    destruct (graph_add_edge g eid from to len speed) as [g1|] eqn:Hadd.
    2:{ by rewrite foldl_edges_None in Hfold. }
    apply graph_add_edge_sizes in Hadd as Hsizes.
    destruct Hsizes as (Hid & Hfrom & Hto & Hn1 & Hm1).
    rewrite <- E, Hscan by lia. cbn [mbind option_bind].
    rewrite (proj2 (in_range_test eid (num_edges g)) Hid).
    rewrite Hadd. cbn [mbind option_bind].
    rewrite (IH g1 g' fuel (k + 1)) by (done || lia).
    f_equal. lia.
Qed.

Lemma load_nodes_rows (rows : list node_row) :
  Forall node_row_ok rows ->
  forall (g g' : Graph) (fuel : nat),
  num_nodes g <= INT_MAX ->
  foldl (fun og '(i, cx, cy) => g ← og; graph_set_node_coordinates g i cx cy)
    (Some g) (map node_row_value rows) = Some g' ->
  (length rows < fuel)%nat ->
  load_nodes fuel g (join_lines (map node_row_text rows)) = Some (inr g').
Proof.
  intros Hrows g g' fuel Hmax Hfold Hfuel.
  rewrite <- (string_app_nil_r (join_lines (map node_row_text rows))).
  replace fuel with (length rows + S (fuel - S (length rows)))%nat by lia.
  by rewrite (load_nodes_prefix rows EmptyString Hrows g g').
Qed.

Lemma load_edges_rows (rows : list edge_row) :
  Forall edge_row_ok rows ->
  forall (g g' : Graph) (fuel : nat) (k : Z),
  num_nodes g <= INT_MAX -> num_edges g <= INT_MAX ->
  foldl (fun og '(i, a, b, l, s) => g ← og; graph_add_edge g i a b l s)
    (Some g) (map edge_row_value rows) = Some g' ->
  (length rows < fuel)%nat ->
  load_edges fuel g (join_lines (map edge_row_text rows)) k
  = Some (inr (g', k + Z.of_nat (length rows))).
Proof.
  intros Hrows g g' fuel k Hmn Hme Hfold Hfuel.
  rewrite <- (string_app_nil_r (join_lines (map edge_row_text rows))).
  replace fuel with (length rows + S (fuel - S (length rows)))%nat by lia.
  by rewrite (load_edges_prefix rows EmptyString Hrows g g').
Qed.

Lemma read_meta_counts_two (N M : string) :
  int_text N -> int_text M -> 0 < digits_value N 0 ->
  read_meta_counts (Some (meta_text [("num_nodes", N); ("num_edges", M)]%string))
  = Some (inr (digits_value N 0, digits_value M 0)).
Proof.
  intros HN HM Hpos. unfold read_meta_counts.
  assert (Hentries : Forall (fun e => meta_key (fst e) /\ int_text (snd e))
            [("num_nodes", N); ("num_edges", M)]%string).
  { constructor; [|constructor; [|constructor]].
    - split; [|done]. split; [discriminate|]. split; [reflexivity|].
      split; [reflexivity|cbn; lia].
    - split; [|done]. split; [discriminate|]. split; [reflexivity|].
      split; [reflexivity|cbn; lia]. }
  rewrite (read_meta_loop_entries _ Hentries _ EmptyString);
    [|done|pose proof (meta_text_length [("num_nodes", N); ("num_edges", M)]%string);
           lia].
  cbn [meta_counts mbind option_bind].
  change (String.eqb "num_nodes" "num_nodes") with true.
  change (String.eqb "num_edges" "num_nodes") with false.
  change (String.eqb "num_edges" "num_edges") with true. cbv iota.
  replace ((digits_value N 0 <=? 0) || (digits_value M 0 <? 0)) with false;
    [done|].
  symmetry. rewrite orb_false_iff, Z.leb_gt, Z.ltb_ge. split; [lia|].
  apply digits_value_nonneg; [apply HM|done].
Qed.

Lemma foldl_coordinates_sizes (coords : list (Z * double * double)) :
  forall g g' : Graph,
  foldl (fun og '(i, cx, cy) => g ← og; graph_set_node_coordinates g i cx cy)
    (Some g) coords = Some g' ->
  num_nodes g' = num_nodes g /\ num_edges g' = num_edges g.
Proof.
  induction coords as [|[[i cx] cy] coords IH]; intros g g' Hfold.
  - by injection Hfold as <-.
  - cbn [foldl mbind option_bind] in Hfold.
    destruct (graph_set_node_coordinates g i cx cy) as [g1|] eqn:Hset.
    2:{ by rewrite foldl_coordinates_None in Hfold. }
    apply IH in Hfold as [-> ->]. unfold graph_set_node_coordinates in Hset.
    destruct ((i <? 0) || (i >=? num_nodes g)); [done|].
    destruct (nodes g !! Z.to_nat i); [|done]. by injection Hset as <-.
Qed.

Lemma foldl_edges_sizes (es : list (Z * Z * Z * double * double)) :
  forall g g' : Graph,
  foldl (fun og '(i, a, b, l, s) => g ← og; graph_add_edge g i a b l s)
    (Some g) es = Some g' ->
  num_nodes g' = num_nodes g /\ num_edges g' = num_edges g.
Proof.
  induction es as [|[[[[i a] b] l] s] es IH]; intros g g' Hfold.
  - by injection Hfold as <-.
  - cbn [foldl mbind option_bind] in Hfold.
    destruct (graph_add_edge g i a b l s) as [g1|] eqn:Hadd.
    2:{ by rewrite foldl_edges_None in Hfold. }
    apply IH in Hfold as [-> ->]. unfold graph_add_edge in Hadd.
    destruct ((i <? 0) || (i >=? num_edges g)); [done|].
    destruct ((a <? 0) || (a >=? num_nodes g) || (b <? 0) || (b >=? num_nodes g));
      [done|].
    destruct (dle s 0%Q); [done|].
    destruct (edges g !! Z.to_nat i); [|done].
    destruct (nodes g !! Z.to_nat a); [|done]. by injection Hadd as <-.
Qed.

(** The three steps of [build_graph]. *)
Lemma build_graph_steps (n m : Z) (coords : list (Z * double * double))
    (es : list (Z * Z * Z * double * double)) (g : Graph) :
  build_graph n m coords es = Some g ->
  exists g0 g1,
    graph_init n m junk_edge = Some g0 /\
    foldl (fun og '(i, cx, cy) => g ← og; graph_set_node_coordinates g i cx cy)
      (Some g0) coords = Some g1 /\
    foldl (fun og '(i, a, b, l, s) => g ← og; graph_add_edge g i a b l s)
      (Some g1) es = Some g /\
    n <= MAX_NODES /\ num_nodes g0 = n /\ num_edges g0 = m /\
    num_nodes g1 = n /\ num_edges g1 = m /\ num_edges g = m.
Proof.
  unfold build_graph. intros Hbuild.
  destruct (graph_init n m junk_edge) as [g0|] eqn:Hinit; [|done].
  cbn [mbind option_bind] in Hbuild.
  destruct (foldl _ (Some g0) coords) as [g1|] eqn:Hcoords; [|done].
  cbn [mbind option_bind] in Hbuild.
  exists g0, g1. split; [done|]. split; [done|]. split; [done|].
  apply graph_init_cells in Hinit as (Hmax & _ & Hn & Hm & _).
  apply foldl_coordinates_sizes in Hcoords as [Hn1 Hm1].
  apply foldl_edges_sizes in Hbuild as [_ Hm2]. lia.
Qed.

(** X26.  Files in the expected format load to the graph they
    describe.  For a meta file with the two counts, a nodes file and an
    edges file that each start with a header line and continue with one
    line per row, the numbers written in decimal, the fields separated
    by commas, [graph_load_from_files] returns 0 with the graph that
    [graph_init], [graph_set_node_coordinates] for every node row and
    [graph_add_edge] for every edge row build in this order, provided
    these calls return and the edges file has [num_edges] rows. *)
Theorem graph_load_well_formed (N M hn he : string) (nrows : list node_row)
    (erows : list edge_row) (g : Graph) :
  int_text N -> int_text M -> header_ok hn -> header_ok he ->
  Forall node_row_ok nrows -> Forall edge_row_ok erows ->
  0 < digits_value N 0 -> Z.of_nat (length erows) = digits_value M 0 ->
  build_graph (digits_value N 0) (digits_value M 0)
    (map node_row_value nrows) (map edge_row_value erows) = Some g ->
  graph_load_from_files
    (Some (meta_text [("num_nodes", N); ("num_edges", M)]%string))
    (Some (hn ++ nl ++ join_lines (map node_row_text nrows))%string)
    (Some (he ++ nl ++ join_lines (map edge_row_text erows))%string)
    junk_edge
  = Some (inr g).
Proof.
  intros HN HM Hhn Hhe Hnrows Herows Hpos Hcount Hbuild.
  apply build_graph_steps in Hbuild
    as (g0 & g1 & Hinit & Hcoords & Hedges & Hmax & Hn0 & Hm0 & Hn1 & Hm1 & Hm).
  assert (HmaxN : digits_value N 0 <= INT_MAX)
    by (unfold MAX_NODES, INT_MAX in *; lia).
  assert (HmaxM : digits_value M 0 <= INT_MAX) by apply HM.
  unfold graph_load_from_files.
  rewrite (read_meta_counts_two N M HN HM Hpos).
  cbn [mbind option_bind]. cbv beta iota. rewrite Hinit.
  cbn [mbind option_bind].
  destruct (read_line_header hn (join_lines (map node_row_text nrows)) Hhn)
    as [l ->].
  cbv beta iota.
  rewrite (load_nodes_rows nrows Hnrows g0 g1) by
    (done || lia
     || pose proof (join_lines_length (map node_row_text nrows)) as H;
        rewrite length_map in H; lia).
  cbn [mbind option_bind].
  destruct (read_line_header he (join_lines (map edge_row_text erows)) Hhe)
    as [l' ->].
  cbv beta iota.
  rewrite (load_edges_rows erows Herows g1 g) by
    (done || lia
     || pose proof (join_lines_length (map edge_row_text erows)) as H;
        rewrite length_map in H; lia).
  cbn [mbind option_bind].
  replace (0 + Z.of_nat (length erows) =? num_edges g) with true; [done|].
  symmetry. apply Z.eqb_eq. lia.
Qed.

Lemma graph_load_well_formed_witness :
  Forall node_row_ok sample_node_rows /\ Forall edge_row_ok sample_edge_rows /\
  build_graph (digits_value "2" 0) (digits_value "1" 0)
    (map node_row_value sample_node_rows) (map edge_row_value sample_edge_rows)
  = Some one_edge_graph /\
  graph_load_from_files
    (Some (meta_text [("num_nodes", "2"); ("num_edges", "1")]%string))
    (Some ("node_id,x,y" ++ nl
           ++ join_lines (map node_row_text sample_node_rows))%string)
    (Some ("edge_id,from_node,to_node,base_length,base_speed_limit" ++ nl
           ++ join_lines (map edge_row_text sample_edge_rows))%string)
    junk_edge
  = Some (inr one_edge_graph).
Proof.
  assert (Hn : Forall node_row_ok sample_node_rows).
  { repeat constructor; cbn; (discriminate || lia). }
  assert (He : Forall edge_row_ok sample_edge_rows).
  { repeat constructor; cbn; (discriminate || lia). }
  assert (Hb : build_graph (digits_value "2" 0) (digits_value "1" 0)
                 (map node_row_value sample_node_rows)
                 (map edge_row_value sample_edge_rows) = Some one_edge_graph)
    by (vm_compute; reflexivity).
  split; [exact Hn|]. split; [exact He|]. split; [exact Hb|].
  apply (graph_load_well_formed "2" "1" "node_id,x,y"
           "edge_id,from_node,to_node,base_length,base_speed_limit"
           sample_node_rows sample_edge_rows one_edge_graph).
  - split; [split; [reflexivity|discriminate]|vm_compute; discriminate].
  - split; [split; [reflexivity|discriminate]|vm_compute; discriminate].
  - split; [reflexivity|cbn; lia].
  - split; [reflexivity|cbn; lia].
  - exact Hn.
  - exact He.
  - reflexivity.
  - reflexivity.
  - exact Hb.
Defined.

(** ** The return codes of the loader *)

(** A row with an id outside the graph ends the loop. *)
Lemma load_nodes_bad_id (r : node_row) (rest : string) (g : Graph) (fuel : nat) :
  node_row_ok r -> num_nodes g <= fst (fst (node_row_value r)) <= INT_MAX ->
  load_nodes (S fuel) g (node_row_text r ++ nl ++ rest) = Some (inl 23).
Proof.
  intros Hr [Hid Hmax]. cbn [load_nodes].
  destruct (read_line_node_row r rest Hr) as (c & s & E & ->).
  rewrite <- E, (sscanf_node_row r Hr Hmax). cbn [mbind option_bind].
  destruct (node_row_value r) as [[id cx] cy]. cbn [fst] in Hid.
  replace ((id <? 0) || (id >=? num_nodes g)) with true; [done|].
  symmetry. rewrite orb_true_iff, Z.geb_leb, Z.leb_le. by right.
Qed.

Lemma load_edges_bad_id (r : edge_row) (rest : string) (g : Graph) (fuel : nat)
    (k : Z) :
  edge_row_ok r ->
  (let '(eid, from, to, _, _) := edge_row_value r in
   num_edges g <= eid <= INT_MAX /\ from <= INT_MAX /\ to <= INT_MAX) ->
  load_edges (S fuel) g (edge_row_text r ++ nl ++ rest) k = Some (inl 33).
Proof.
  intros Hr Hid. cbn [load_edges].
  destruct (read_line_edge_row r rest Hr) as (c & s & E & ->).
  pose proof (sscanf_edge_row r Hr) as Hscan.
  destruct (edge_row_value r) as [[[[eid from] to] len] speed].
  destruct Hid as ([Hid Hme] & Hmf & Hmt).
  rewrite <- E, Hscan by done. cbn [mbind option_bind].
  replace ((eid <? 0) || (eid >=? num_edges g)) with true; [done|].
  symmetry. rewrite orb_true_iff, Z.geb_leb, Z.leb_le. by right.
Qed.

Lemma load_nodes_end (g : Graph) (fuel : nat) :
  load_nodes (S fuel) g EmptyString = Some (inr g).
Proof. reflexivity. Qed.

Lemma load_edges_end (g : Graph) (fuel : nat) (k : Z) :
  load_edges (S fuel) g EmptyString k = Some (inr (g, k)).
Proof. reflexivity. Qed.

Lemma join_lines_app (a b : list string) :
  join_lines (a ++ b) = (join_lines a ++ join_lines b)%string.
Proof.
  induction a as [|l a IH]; [done|]. cbn [app join_lines].
  by rewrite IH, !string_app_assoc.
Qed.



(** ** The reply and the size of its buffer *)

(** X28.  The reply for a route that was found depends on the room the
    line leaves in its buffer of [64 + 16 * (edge_count + node_count)]
    bytes.  With room for the line feed and the terminator the reply is
    the [ROUTE2] line with its line feed.  With room for one byte only,
    the terminator takes it: the reply is the line without a line feed.
    With less, there is no [ROUTE2] reply: any reply is
    [ERR ROUTE_FAIL]. *)
Theorem route_reply_by_room (sqrt : double -> double) (g : Graph) (src dst : Z)
    (cost : double) (node_path edge_path : list Z) :
  graph_wf g -> 0 <= src < num_nodes g -> 0 <= dst < num_nodes g ->
  find_route_a_star_path sqrt g src dst (num_nodes g) (num_nodes g)
  = Some (Route cost node_path edge_path) ->
  (Z.of_nat (String.length (route_line cost node_path edge_path)) + 2
   <= route_buf_sz node_path edge_path ->
   build_route_response sqrt g src dst
   = Some (route_line cost node_path edge_path ++ nl)%string) /\
  (Z.of_nat (String.length (route_line cost node_path edge_path)) + 1
   = route_buf_sz node_path edge_path ->
   build_route_response sqrt g src dst
   = Some (route_line cost node_path edge_path)) /\
  (route_buf_sz node_path edge_path
   <= Z.of_nat (String.length (route_line cost node_path edge_path)) ->
   forall resp, build_route_response sqrt g src dst = Some resp ->
   resp = ERR_ROUTE_FAIL).
Proof.
  intros Hwf Hsrc Hdst Hroute.
  pose proof Hroute as Hsound.
  rewrite <- (Z2Nat.id src), <- (Z2Nat.id dst) in Hsound by lia.
  apply (find_route_sound sqrt g (Z.to_nat src) (Z.to_nat dst) Hwf
           ltac:(lia) ltac:(lia)) in Hsound
    as (_ & _ & Hedges & Hnc & _).
  apply path_edges_length in Hedges as [Hec _].
  rewrite (build_route_response_found sqrt g src dst cost node_path edge_path
             Hsrc Hdst Hroute).
  cbv zeta.
  replace ((Z.of_nat (length edge_path) <? 0)
           || (Z.of_nat (length edge_path) >? num_nodes g)) with false.
  2:{ symmetry. rewrite orb_false_iff, Z.ltb_ge, Z.gtb_ltb, Z.ltb_ge. lia. }
  replace ((Z.of_nat (length node_path) <? 0)
           || (Z.of_nat (length node_path) >? num_nodes g)) with false.
  2:{ symmetry. rewrite orb_false_iff, Z.ltb_ge, Z.gtb_ltb, Z.ltb_ge. lia. }
  fold (route_buf_sz node_path edge_path).
  rewrite route_line_pieces.
  remember ("ROUTE2 " ++ fmt_3f cost ++ " "
            ++ fmt_d (Z.of_nat (length node_path)))%string as p1 eqn:Ep1.
  remember (" " ++ fmt_d (Z.of_nat (length edge_path)))%string as p2 eqn:Ep2.
  remember (route_buf_sz node_path edge_path) as buf eqn:Ebuf.
  assert (Hp1 : (0 < String.length p1)%nat).
  { rewrite Ep1, string_length_app. simpl. lia. }
  clear Ep1 Ep2 Ebuf.
  remember (((p1 ++ ids_text node_path) ++ p2) ++ ids_text edge_path)%string
    as line eqn:Eline.
  assert (Hline : (0 < String.length line)%nat).
  { rewrite Eline, !string_length_app. lia. }
  destruct (format_cases buf p1 p2 node_path edge_path Hp1)
    as [(Hfit & Hmid & Hend)|[Hover Hend]]; rewrite <- Eline in *.
  - replace (snd (print_ids buf node_path (snprintf buf (EmptyString, 0) p1))
             >? buf) with false
      by (symmetry; rewrite Z.gtb_ltb; apply Z.ltb_ge; lia).
    rewrite Hend. cbn [snd].
    replace ((Z.of_nat (String.length line) >? 0)
             && (Z.of_nat (String.length line) <? buf)) with true.
    2:{ symmetry. rewrite andb_true_iff, Z.gtb_ltb, !Z.ltb_lt. lia. }
    unfold snprintf. cbn [fst].
    split; [|split].
    + intros Hroom. rewrite string_take_all; [done|].
      change (String.length nl) with 1%nat. lia.
    + intros Hroom.
      replace (Z.to_nat (buf - Z.of_nat (String.length line) - 1)) with 0%nat
        by lia.
      cbn [string_take]. by rewrite string_app_nil_r.
    + lia.
  - split; [lia|]. split; [lia|]. intros _ resp.
    destruct (_ >? _); [done|].
    replace (snd _ <? buf) with false by (symmetry; apply Z.ltb_ge; lia).
    rewrite andb_false_r. by intros [= <-].
Qed.

Lemma route_reply_by_room_witness :
  graph_wf (two_nodes (inject_Z (2 ^ 296))) /\
  find_route_a_star_path sqrt_exact (two_nodes (inject_Z (2 ^ 296))) 0 1 2 2
  = Some (Route (inject_Z (2 ^ 296) / 1)%Q [0; 1] [0]) /\
  build_route_response sqrt_exact (two_nodes (inject_Z (2 ^ 296))) 0 1
  = Some (route_line (inject_Z (2 ^ 296) / 1)%Q [0; 1] [0]).
Proof.
  assert (Hwf : graph_wf (two_nodes (inject_Z (2 ^ 296)))) by (split; reflexivity).
  assert (Hroute : find_route_a_star_path sqrt_exact
                     (two_nodes (inject_Z (2 ^ 296))) 0 1 2 2
                   = Some (Route (inject_Z (2 ^ 296) / 1)%Q [0; 1] [0]))
    by (vm_compute; reflexivity).
  split; [exact Hwf|]. split; [exact Hroute|].
  apply (route_reply_by_room sqrt_exact (two_nodes (inject_Z (2 ^ 296))) 0 1
           (inject_Z (2 ^ 296) / 1)%Q [0; 1] [0] Hwf).
  - cbn; lia.
  - cbn; lia.
  - exact Hroute.
  - vm_compute. reflexivity.
Defined.
